(** * Pauker-Tool: index construction, payload randomization, navigation state

    A shallow embedding of the JavaScript sources of the Pauker-Tool
    (game_base.js, index.js and tools/update_index.js, concatenated in
    src/config.js) together with the properties stated about them.

    Conventions of the embedding:
    - a JSON value is the inductive [json]; an object is the list of its
      entries in property order (the order JSON.stringify prints them in);
    - the JavaScript value [undefined] is [None] in an [option json];
    - an exception is the [Throw] outcome of a [result];
    - Math.random is an explicit stream of draws threaded through the code;
    - a number is a double, with the arithmetic and the comparisons of
      IEEE 754; JSON writes an infinity or NaN as null and -0 as 0;
    - a string that is handed to JSON.parse is a [text]: a JSON text, given
      by the value it denotes, or a string that JSON.parse rejects.

    [_randomizePayload] is embedded twice: on JSON values, where the deep
    clone it starts with makes every in-place assignment an update of a
    value nobody else holds, and on a heap of cells with references, where
    "the argument is not changed" is a statement about cells. *)

Set Warnings "-register-all,-inexact-float".
From Stdlib Require Import ZArith Floats Ascii String.
From stdpp Require Import gmap strings list pretty lexico sorting.

Local Open Scope string_scope.
Local Open Scope list_scope.

(** ** JSON values *)

Inductive json : Type :=
| JNull
| JBool (b : bool)
| JNum (x : float)
| JStr (s : string)
| JArr (l : list json)
| JObj (kvs : list (string * json)).
Arguments JNum x%_float.

(** A JavaScript value as the code under study meets it: [None] is
    [undefined], [Some v] a value that JSON can carry. *)
Definition jsval : Type := option json.

Inductive error : Type :=
| TypeError
| SyntaxError
| FetchError
| SecurityError.

Inductive result (A : Type) : Type :=
| Ok (a : A)
| Throw (e : error).
Arguments Ok {A} a.
Arguments Throw {A} e.

(** [typeof v === 'object'] (true of [null], of arrays and of objects). *)
Definition typeof_object (v : jsval) : bool :=
  match v with
  | Some JNull | Some (JArr _) | Some (JObj _) => true
  | _ => false
  end.

(** ToBoolean. *)
Definition truthy (v : jsval) : bool :=
  match v with
  | None | Some JNull => false
  | Some (JBool b) => b
  | Some (JNum x) => negb (PrimFloat.eqb x 0 || PrimFloat.is_nan x)
  | Some (JStr s) => negb (String.eqb s "")
  | Some (JArr _) | Some (JObj _) => true
  end.

Definition isArray (v : jsval) : bool :=
  match v with Some (JArr _) => true | _ => false end.

(** [v === 'lit'] for a string literal. *)
Definition is_str (lit : string) (v : jsval) : bool :=
  match v with Some (JStr s) => String.eqb s lit | _ => false end.

(** Own-property lookup in an entry list. *)
Fixpoint lookup_field (k : string) (kvs : list (string * json)) : jsval :=
  match kvs with
  | [] => None
  | (k', v) :: rest => if String.eqb k k' then Some v else lookup_field k rest
  end.

(** [o.k = v] on an entry list: an existing property keeps its place, a new
    one goes to the end. *)
Fixpoint assign_field (k : string) (v : json) (kvs : list (string * json))
  : list (string * json) :=
  match kvs with
  | [] => [(k, v)]
  | (k', v') :: rest =>
      if String.eqb k k' then (k', v) :: rest
      else (k', v') :: assign_field k v rest
  end.

(** [v.k] where [v] is not null or undefined.  None of the property names
    read by the code is defined on a prototype, so arrays and primitives
    answer [undefined]. *)
Definition get (v : json) (k : string) : jsval :=
  match v with
  | JObj kvs => lookup_field k kvs
  | _ => None
  end.

(** [v.k] in general: reading a property of [null] or [undefined] throws. *)
Definition prop (v : jsval) (k : string) : result jsval :=
  match v with
  | None | Some JNull => Throw TypeError
  | Some w => Ok (get w k)
  end.

Definition set (v : json) (k : string) (x : json) : json :=
  match v with
  | JObj kvs => JObj (assign_field k x kvs)
  | _ => v
  end.

(** ** JSON texts *)

(** The number that JSON.stringify writes for [x], read back: an infinity
    and NaN are written as null, -0 is written as 0, every other double is
    written with the digits that give it back. *)
Definition written_number (x : float) : json :=
  match PrimFloat.classify x with
  | NaN | PInf | NInf => JNull
  | NZero => JNum 0
  | _ => JNum x
  end.

(** The value that the text JSON.stringify(v) denotes. *)
Fixpoint written (v : json) : json :=
  match v with
  | JNull => JNull
  | JBool b => JBool b
  | JNum x => written_number x
  | JStr s => JStr s
  | JArr l => JArr (map written l)
  | JObj kvs => JObj (map (fun kv => (kv.1, written kv.2)) kvs)
  end.

(** The content of a string as JSON.parse sees it: a JSON text, given by
    the value it denotes (the text 1e400 denotes the number Infinity); an
    object literal in which the values of some members are not JSON
    ([None]); or any other string that is not JSON. *)
Inductive text : Type :=
| Encoded (v : json)
| Damaged (members : list (string * option json))
| Garbage (s : string).

Definition JSON_stringify (v : json) : text := Encoded (written v).

(** The members of a damaged object literal, if all of them are intact. *)
Fixpoint intact (members : list (string * option json))
  : option (list (string * json)) :=
  match members with
  | [] => Some []
  | (k, Some v) :: rest =>
      match intact rest with
      | Some kvs => Some ((k, v) :: kvs)
      | None => None
      end
  | (_, None) :: _ => None
  end.

(** JSON.parse: one syntax error anywhere in the text rejects all of it. *)
Definition JSON_parse (t : text) : result json :=
  match t with
  | Encoded v => Ok v
  | Damaged members =>
      match intact members with
      | Some kvs => Ok (JObj kvs)
      | None => Throw SyntaxError
      end
  | Garbage _ => Throw SyntaxError
  end.

(** [JSON.parse(JSON.stringify(v))]: a structural copy of [v] as JSON
    writes it. *)
Definition deep_clone (v : json) : result json :=
  JSON_parse (JSON_stringify v).

(** Every number in [v] is one that JSON writes as it is: finite and not
    -0. *)
Definition number_kept (x : float) : bool :=
  match PrimFloat.classify x with
  | NaN | PInf | NInf | NZero => false
  | _ => true
  end.

Fixpoint numbers_kept (v : json) : bool :=
  match v with
  | JNum x => number_kept x
  | JArr l => forallb numbers_kept l
  | JObj kvs => forallb (fun kv => numbers_kept kv.2) kvs
  | _ => true
  end.

(** ** Random source and the computation monad *)

(** The stream of values of Math.random, each already scaled: the draw
    for [Math.floor(Math.random() * n)] is the next element modulo [n]. *)
Definition rng : Type := nat -> nat.

Definition M (A : Type) : Type := rng -> result A * rng.

Definition ret {A} (a : A) : M A := fun g => (Ok a, g).

Definition bind {A B} (m : M A) (f : A -> M B) : M B :=
  fun g =>
    match m g with
    | (Ok a, g') => f a g'
    | (Throw e, g') => (Throw e, g')
    end.

Definition lift {A} (r : result A) : M A := fun g => (r, g).

(** [Math.floor(Math.random() * n)]. *)
Definition random_below (n : nat) : M nat :=
  fun g => (Ok (g 0%nat mod n)%nat, fun k => g (S k)).

Notation "'let*' x ':=' m 'in' k" := (bind m (fun x => k))
  (at level 10, x pattern, m at level 100, k at level 200).

Fixpoint map_each {A B} (f : A -> M B) (l : list A) : M (list B) :=
  match l with
  | [] => ret []
  | x :: xs => (let* y := f x in let* ys := map_each f xs in ret (y :: ys))
  end.

(** ** game_base.js: GameBase._randomizePayload *)

(** [[copy[i], copy[j]] = [copy[j], copy[i]]]. *)
Definition swap {A} (i j : nat) (copy : list A) : list A :=
  match copy !! i, copy !! j with
  | Some a, Some b => <[j := a]> (<[i := b]> copy)
  | _, _ => copy
  end.

(** The loop [for (let i = copy.length - 1; i > 0; i--)], entered with the
    current value of [i]. *)
Fixpoint shuffle_loop {A} (i : nat) (copy : list A) : M (list A) :=
  match i with
  | O => ret copy
  | S i' =>
      (let* j := random_below (i + 1) in
       shuffle_loop i' (swap i j copy))
  end.

(** The local [shuffle] applied to an array (every call of it in the source
    is guarded by [Array.isArray]): the loop runs on a copy. *)
Definition shuffle_list {A} (arr : list A) : M (list A) :=
  shuffle_loop (length arr - 1) arr.

(** [if (Array.isArray(o.k)) o.k = shuffle(o.k).map(cb)]; with the identity
    callback this is [o.k = shuffle(o.k)]. *)
Definition shuffle_field (k : string) (cb : json -> M json) (o : json) : M json :=
  match get o k with
  | Some (JArr arr) =>
      (let* l := shuffle_list arr in
       let* l' := map_each cb l in
       ret (set o k (JArr l')))
  | _ => ret o
  end.

Definition keep (v : json) : M json := ret v.

(** The callback of [shuffle(s.questions).map(q => ...)] and of
    [shuffle(s.rows).map(r => ...)]. *)
Definition question_cb (q : json) : M json :=
  let* _ := lift (prop (Some q) "options") in
  shuffle_field "options" keep q.

(** The callback of [shuffle(result.sections).map(s => ...)]. *)
Definition section_cb (s : json) : M json :=
  let* ty := lift (prop (Some s) "type") in
  let* s1 := (if is_str "quiz" ty then shuffle_field "questions" question_cb s
         else ret s) in
  let* s2 := (if is_str "sort" (get s1 "type") then shuffle_field "sortCards" keep s1
         else ret s1) in
  if is_str "capital" (get s2 "type") then shuffle_field "rows" question_cb s2
  else ret s2.

(** The callback of [shuffle(c.options).map(o => ...)]. *)
Definition option_cb (o : json) : M json :=
  let* _ := lift (prop (Some o) "whys") in
  shuffle_field "whys" keep o.

(** The callback of [shuffle(result.cases).map(c => ...)]. *)
Definition case_cb (c : json) : M json :=
  let* _ := lift (prop (Some c) "options") in
  shuffle_field "options" option_cb c.

(** [result.game_type || result.gameType]. *)
Definition game_type_of (r : json) : jsval :=
  if truthy (get r "game_type") then get r "game_type" else get r "gameType".

Definition _randomizePayload (data : jsval) : M jsval :=
  if negb (truthy data) || negb (typeof_object data) then ret data
  else
    match data with
    | None => ret data
    | Some d =>
        let* result := lift (deep_clone d) in
        let type := game_type_of result in
        let* r :=
          (if is_str "escape_game" type && isArray (get result "sections") then
             shuffle_field "sections" section_cb result
           else if is_str "matching_puzzle" type && isArray (get result "sets") then
             shuffle_field "sets" keep result
           else if is_str "sortier_spiel" type && isArray (get result "cards") then
             let* r1 := shuffle_field "cards" keep result in
             shuffle_field "columns" keep r1
           else if is_str "quick_quiz" type && isArray (get result "questions") then
             let* r1 := shuffle_field "questions" keep result in
             shuffle_field "answerLabels" keep r1
           else if is_str "wer_bin_ich" type then
             let* r1 := shuffle_field "legalForms" keep result in
             shuffle_field "questions" keep r1
           else if is_str "what_and_why" type && isArray (get result "cases") then
             shuffle_field "cases" case_cb result
           else ret result) in
        ret (Some r)
    end.

(** What [_randomizePayload] works on: the copy of an object or an array,
    and the value itself when the guard returns it. *)
Definition working_copy (data : json) : json :=
  match data with
  | JArr _ | JObj _ => written data
  | _ => data
  end.

(** ** The shuffle table

    A target names an array-valued property that is shuffled, the value the
    sibling property [type] must have for it to apply ([None]: no
    condition), and the targets inside each element of that array. *)

Inductive target : Type :=
| Target (key : string) (when : option string) (sub : list target).

Definition target_key (t : target) : string :=
  let 'Target key _ _ := t in key.

Definition target_sub (t : target) : list target :=
  let 'Target _ _ sub := t in sub.

Definition options_target : target := Target "options" None [].

Definition section_targets : list target :=
  [Target "questions" (Some "quiz") [options_target];
   Target "sortCards" (Some "sort") [];
   Target "rows" (Some "capital") [options_target]].

Definition escape_game_table : list target :=
  [Target "sections" None section_targets].

Definition what_and_why_table : list target :=
  [Target "cases" None [Target "options" None [Target "whys" None []]]].

Definition shuffle_table (type : jsval) : list target :=
  if is_str "escape_game" type then escape_game_table
  else if is_str "matching_puzzle" type then [Target "sets" None []]
  else if is_str "sortier_spiel" type then
    [Target "cards" None []; Target "columns" None []]
  else if is_str "quick_quiz" type then
    [Target "questions" None []; Target "answerLabels" None []]
  else if is_str "wer_bin_ich" type then
    [Target "legalForms" None []; Target "questions" None []]
  else if is_str "what_and_why" type then what_and_why_table
  else [].

Definition guard_ok (when : option string) (o : json) : Prop :=
  match when with
  | None => True
  | Some ty => get o "type" = Some (JStr ty)
  end.

(** [reordered ts v v']: [v'] is [v] except that arrays at the targets [ts]
    may have been permuted, their elements in turn reordered at the
    sub-targets.  Every entry keeps its key and its place; an entry that is
    not a target (or whose condition fails) is identical on both sides. *)
Inductive reordered : list target -> json -> json -> Prop :=
| reordered_same ts v : reordered ts v v
| reordered_obj ts kvs kvs' :
    Forall2 (reordered_entry ts (JObj kvs)) kvs kvs' ->
    reordered ts (JObj kvs) (JObj kvs')
with reordered_entry : list target -> json -> string * json -> string * json -> Prop :=
| entry_same ts o kv : reordered_entry ts o kv kv
| entry_shuffled ts o k when sub l l0 l' :
    Target k when sub ∈ ts ->
    guard_ok when o ->
    l ≡ₚ l0 ->
    Forall2 (reordered sub) l0 l' ->
    reordered_entry ts o (k, JArr l) (k, JArr l').

(** The leaf values of a payload, in order of appearance. *)
Fixpoint leaves (v : json) : list json :=
  match v with
  | JArr l => flat_map leaves l
  | JObj kvs => flat_map (fun '(_, x) => leaves x) kvs
  | _ => [v]
  end.

Definition is_null (v : json) : bool :=
  match v with JNull => true | _ => false end.

(** No array anywhere inside [v] has [null] as an element. *)
Fixpoint null_free (v : json) : bool :=
  match v with
  | JArr l => forallb (fun x => negb (is_null x) && null_free x) l
  | JObj kvs => forallb (fun '(_, x) => null_free x) kvs
  | _ => true
  end.

Definition clean (x : json) : bool := negb (is_null x) && null_free x.

(** What a computation does from the state [g] of the random source:
    [P] of its value, or [Q] if it throws. *)
Definition outcome {A} (m : M A) (g : rng) (P : A -> Prop) (Q : Prop) : Prop :=
  match (m g).1 with
  | Ok a => P a
  | Throw _ => Q
  end.
Arguments outcome : simpl never.

(** One conditional shuffle of the property [k]: nothing happened, or the
    array at [k] was replaced by a permutation of itself with its elements
    reordered at [sub]. *)
Definition field_step (k : string) (sub : list target) (o o' : json) : Prop :=
  o' = o \/
  exists l l0 l',
    get o k = Some (JArr l) /\ l ≡ₚ l0 /\ Forall2 (reordered sub) l0 l' /\
    o' = set o k (JArr l').

(** A map callback respects the targets [sub], keeps clean elements clean
    and throws on unclean elements only. *)
Definition cb_spec (sub : list target) (cb : json -> M json) : Prop :=
  forall x g,
    outcome (cb x) g
      (fun y => reordered sub x y /\ (clean x = true -> clean y = true))
      (clean x = false).




(** Induction on JSON values, with the hypothesis for every element of an
    array and every property of an object. *)
Section json_induction.
Variable P : json -> Prop.
Hypothesis Hnull : P JNull.
Hypothesis Hbool : forall b, P (JBool b).
Hypothesis Hnum : forall x, P (JNum x).
Hypothesis Hstr : forall s, P (JStr s).
Hypothesis Harr : forall l, Forall P l -> P (JArr l).
Hypothesis Hobj : forall kvs, Forall (fun kv => P kv.2) kvs -> P (JObj kvs).

Fixpoint json_nested_ind (v : json) : P v :=
  match v with
  | JNull => Hnull
  | JBool b => Hbool b
  | JNum x => Hnum x
  | JStr s => Hstr s
  | JArr l =>
      Harr l ((fix go (l : list json) : Forall P l :=
                 match l with
                 | [] => Forall_nil_2 P
                 | x :: xs => Forall_cons_2 P x xs (json_nested_ind x) (go xs)
                 end) l)
  | JObj kvs =>
      Hobj kvs ((fix go (kvs : list (string * json))
                   : Forall (fun kv => P kv.2) kvs :=
                   match kvs with
                   | [] => Forall_nil_2 _
                   | kv :: rest =>
                       Forall_cons_2 (fun kv => P kv.2) kv rest
                         (json_nested_ind kv.2) (go rest)
                   end) kvs)
  end.
End json_induction.

(** ** Web storage and the network *)

(** ToBoolean of a string: only the empty string is falsy. *)
Definition text_truthy (t : text) : bool :=
  match t with
  | Garbage "" => false
  | _ => true
  end.

(** sessionStorage and localStorage: a missing key reads as [null]. *)
Abbreviation storage := (gmap string text).

(** What [fetch(url)] resolves to: a network failure, or a response with its
    [ok] flag and body. *)
Inductive response : Type :=
| NetFail
| Resp (ok : bool) (body : text).

Definition network : Type := string -> response.

Definition try_catch {A} (m : M A) (handler : error -> M A) : M A :=
  fun g =>
    match m g with
    | (Ok a, g') => (Ok a, g')
    | (Throw e, g') => handler e g'
    end.

(** ** game_base.js: GameBase._loadPayload *)

Definition JSON_SESSION_PREFIX : string := "game_payload_".

(** [await fetch(url)] followed by the [res.ok] test and [await res.json()]. *)
Definition fetch_json (net : network) (url : string) : result json :=
  match net url with
  | NetFail => Throw FetchError
  | Resp false _ => Throw FetchError
  | Resp true body => JSON_parse body
  end.

(** The [try] block of step 1: [Some r] when it returns [r], [None] when
    control falls through to step 2. *)
Definition load_from_session (storageKey : string) (ss : storage) : M (option jsval) :=
  try_catch
    (match ss !! storageKey with
     | Some raw =>
         if text_truthy raw then
           (let* parsed := lift (JSON_parse raw) in
            if truthy (Some parsed) && typeof_object (Some parsed) then
              (let* r := _randomizePayload (Some parsed) in ret (Some r))
            else ret None)
         else ret None
     | None => ret None
     end)
    (fun _ => ret None).

(** Step 2: load the file, randomize, store the randomized payload. *)
Definition load_from_network (net : network) (fileId storageKey : string)
    (ss : storage) : M (jsval * storage) :=
  let fetchUrl := if String.prefix "http" fileId then fileId else "../" +:+ fileId in
  let* data := lift (fetch_json net fetchUrl) in
  let* randomized := _randomizePayload (Some data) in
  let stored :=
    match randomized with
    | Some r => JSON_stringify r
    | None => Garbage "undefined"
    end in
  ret (randomized, <[storageKey := stored]> ss).

(** [_loadPayload] of a GameBase whose [fileId] is given, started on the
    session storage [ss]; it yields the payload and the storage it leaves. *)
Definition _loadPayload (net : network) (fileId : string) (ss : storage)
  : M (jsval * storage) :=
  let storageKey := JSON_SESSION_PREFIX +:+ fileId in
  let* early := load_from_session storageKey ss in
  match early with
  | Some r => ret (r, ss)
  | None => load_from_network net fileId storageKey ss
  end.

(** ** The index tree *)

Inductive kind : Type :=
| Kjson
| Kpdf
| Kpptx.

(** A node of the index.  [kind], [children] and [data] are [None] when the
    property is not set on the object. *)
Inductive node : Type :=
| Node (id name : string) (isFolder : bool) (kind : option kind)
       (children : option (list node)) (data : option json).

Definition node_id (n : node) : string := let 'Node i _ _ _ _ _ := n in i.
Definition node_name (n : node) : string := let 'Node _ m _ _ _ _ := n in m.
Definition node_isFolder (n : node) : bool := let 'Node _ _ f _ _ _ := n in f.
Definition node_kind (n : node) : option kind := let 'Node _ _ _ k _ _ := n in k.
Definition node_children (n : node) : option (list node) :=
  let 'Node _ _ _ _ c _ := n in c.
Definition node_data (n : node) : option json := let 'Node _ _ _ _ _ d := n in d.

(** The first truthy result of a loop body over an array
    ([for (const n of nodes) { ... if (f) return f; } return null]). *)
Fixpoint first_some {A B} (body : A -> option B) (l : list A) : option B :=
  match l with
  | [] => None
  | x :: rest =>
      match body x with
      | Some f => Some f
      | None => first_some body rest
      end
  end.

(** index.js: one iteration of the loop of [findNode], for the node [n]. *)
Fixpoint findNode_at (id : string) (n : node) : option node :=
  match n with
  | Node i _ _ _ children _ =>
      if String.eqb i id then Some n
      else
        match children with
        | Some cs => first_some (findNode_at id) cs
        | None => None
        end
  end.

(** index.js: [findNode]. *)
Definition findNode (nodes : list node) (id : string) : option node :=
  first_some (findNode_at id) nodes.

(** [node.data = d] on the node that [findNode] returns: the first node with
    the given id in depth-first order. *)
Fixpoint update_first {A} (body : A -> option A) (l : list A) : option (list A) :=
  match l with
  | [] => None
  | x :: rest =>
      match body x with
      | Some x' => Some (x' :: rest)
      | None =>
          match update_first body rest with
          | Some rest' => Some (x :: rest')
          | None => None
          end
      end
  end.

Fixpoint set_data_at (id : string) (d : json) (n : node) : option node :=
  match n with
  | Node i m f k children _old =>
      if String.eqb i id then Some (Node i m f k children (Some d))
      else
        match children with
        | Some cs =>
            match update_first (set_data_at id d) cs with
            | Some cs' => Some (Node i m f k (Some cs') _old)
            | None => None
            end
        | None => None
        end
  end.

Definition set_data (nodes : list node) (id : string) (d : json) : list node :=
  match update_first (set_data_at id d) nodes with
  | Some nodes' => nodes'
  | None => nodes
  end.

(** What [renderViewForId] puts into the content area. *)
Inductive view : Type :=
| NoView                       (* the id does not resolve: nothing changes *)
| FolderView (names : list string)
| GameFrame (file : string)    (* loadGame(node): the iframe of the game *)
| LoadFailed
| PdfView
| DocView.

Record rendered : Type := Rendered {
  rv_view : view;
  rv_tree : list node;         (* rootTree, its nodes possibly updated *)
  rv_session : storage
}.

(** index.js: [renderViewForId], on the tree [rootTree] and the session
    storage [ss]. *)
Definition renderViewForId (net : network) (rootTree : list node) (id : string)
    (ss : storage) : rendered :=
  match findNode rootTree id with
  | None => Rendered NoView rootTree ss
  | Some (Node nid _ true _ children _) =>
      Rendered (FolderView (map node_name (default [] children))) rootTree ss
  | Some (Node nid _ false (Some Kjson) _ data) =>
      let fetched :=
        if truthy data then Ok (data, rootTree)
        else
          match fetch_json net nid with
          | Ok d => Ok (Some d, set_data rootTree id d)
          | Throw e => Throw e
          end in
      match fetched with
      | Throw _ => Rendered LoadFailed rootTree ss
      | Ok (data', tree') =>
          let ss' :=
            match data' with
            | Some d =>
                if truthy data' then
                  <[("game_payload_" +:+ nid) := JSON_stringify d]> ss
                else ss
            | None => ss
            end in
          Rendered (GameFrame nid) tree' ss'
      end
  | Some (Node _ _ false (Some Kpdf) _ _) => Rendered PdfView rootTree ss
  | Some (Node _ _ false _ _ _) => Rendered DocView rootTree ss
  end.

(** Data of the caching example. *)
Definition puzzle (sets : list json) : json :=
  JObj [("game_type", JStr "matching_puzzle"); ("sets", JArr sets)].

Definition puzzle_node : node :=
  Node "database/m.json" "m.json" false (Some Kjson) None
    (Some (puzzle [JNum 1; JNum 2])).

Definition offline : network := fun _ => NetFail.

(** A random source whose successive draws are 0, 1, 2, ... *)
Definition counting : rng := fun n => n.

(** ** index.js: the navigation state *)

Definition STATE_KEY : string := "paukerAppState_v1".

(** The object [appState] as its entries.  Object.assign can give any
    property any JSON value, so the fields are not typed further. *)
Definition default_appState : list (string * json) :=
  [("selectedId", JNull);
   ("openedIds", JArr []);
   ("drawerOpen", JBool false);
   ("drawerWidth", JNum 320)].

(** The own enumerable properties of a value, in order: the entries of an
    object, the indexed elements of an array, the indexed characters of a
    string; none for the other primitives. *)
Fixpoint string_chars (s : string) : list json :=
  match s with
  | EmptyString => []
  | String c rest => JStr (String c EmptyString) :: string_chars rest
  end.

Definition own_properties (v : json) : list (string * json) :=
  match v with
  | JObj kvs => kvs
  | JArr l => imap (fun i x => (pretty i, x)) l
  | JStr s => imap (fun i x => (pretty i, x)) (string_chars s)
  | _ => []
  end.

(** The value of a run of decimal digits; [None] when another character
    occurs. *)
Fixpoint digits_value (s : string) (acc : N) : option N :=
  match s with
  | EmptyString => Some acc
  | String c rest =>
      let n := nat_of_ascii c in
      if (48 <=? n)%nat && (n <=? 57)%nat
      then digits_value rest (10 * acc + N.of_nat (n - 48))%N
      else None
  end.

(** Is the property name an array index: the decimal numeral, without a
    leading zero, of a number below 2^32 - 1. *)
Definition array_index (k : string) : option N :=
  match k with
  | EmptyString => None
  | String c rest =>
      if Ascii.eqb c "0" && negb (String.eqb rest "") then None
      else
        match digits_value k 0 with
        | Some n => if (n <? 4294967295)%N then Some n else None
        | None => None
        end
  end.

(** A new property whose name is the array index [n]: the properties of an
    object are listed with the array indices first, in ascending order. *)
Fixpoint insert_index (n : N) (k : string) (v : json) (kvs : list (string * json))
  : list (string * json) :=
  match kvs with
  | [] => [(k, v)]
  | (k', v') :: rest =>
      match array_index k' with
      | Some n' =>
          if (n' <? n)%N then (k', v') :: insert_index n k v rest
          else (k, v) :: kvs
      | None => (k, v) :: kvs
      end
  end.

Definition has_own (k : string) (kvs : list (string * json)) : bool :=
  match lookup_field k kvs with
  | Some _ => true
  | None => false
  end.

(** [target[k] = v] on the own properties of an object, for any name [k]:
    an existing property keeps its place; a new one is listed after the
    others, or among the array indices if it is one. *)
Definition put (k : string) (v : json) (kvs : list (string * json))
  : list (string * json) :=
  match lookup_field k kvs, array_index k with
  | None, Some n => insert_index n k v kvs
  | _, _ => assign_field k v kvs
  end.

(** One assignment of [Object.assign(target, source)], made with [[Set]]:
    on an object whose prototype is Object.prototype the name __proto__ is
    an accessor, and unless the target has an own property of that name the
    assignment calls its setter, which replaces the prototype of the target
    (when the value is an object or null) and adds no property.  The
    prototype is not part of this model: the reads of index.js are of the
    four fields of [appState], own properties from the start. *)
Definition assign_one (t : list (string * json)) (kv : string * json)
  : list (string * json) :=
  if String.eqb kv.1 "__proto__" && negb (has_own "__proto__" t) then t
  else put kv.1 kv.2 t.

(** [Object.assign(target, source)] on the own properties of a target that
    was made by an object literal. *)
Definition Object_assign (target : list (string * json)) (source : json)
  : list (string * json) :=
  fold_left assign_one (own_properties source) target.

(** [loadAppState]: the body of the [try], and the function with its empty
    [catch].  [ls] is localStorage. *)
Definition loadAppState_try (ls : storage) (appState : list (string * json))
  : result (list (string * json)) :=
  match ls !! STATE_KEY with
  | Some raw =>
      if text_truthy raw then
        match JSON_parse raw with
        | Ok parsed => Ok (Object_assign appState parsed)
        | Throw e => Throw e
        end
      else Ok appState
  | None => Ok appState
  end.

Definition loadAppState (ls : storage) (appState : list (string * json))
  : result (list (string * json)) :=
  match loadAppState_try ls appState with
  | Ok appState' => Ok appState'
  | Throw _ => Ok appState
  end.

(** The state of the page: the module variables of index.js and the two
    storages. *)
Record app : Type := App {
  appState : list (string * json);
  rootTree : list node;
  isResizing : bool;          (* the variable of [initResizer] *)
  drawerResizer : bool;       (* does the element #drawer-resizer exist *)
  localStorage : storage;
  sessionStorage : storage
}.

Definition with_appState (a : app) (st : list (string * json)) : app :=
  App st (rootTree a) (isResizing a) (drawerResizer a)
      (localStorage a) (sessionStorage a).

Definition with_isResizing (a : app) (b : bool) : app :=
  App (appState a) (rootTree a) b (drawerResizer a)
      (localStorage a) (sessionStorage a).

(** [saveAppState]. *)
Definition saveAppState (a : app) : app :=
  App (appState a) (rootTree a) (isResizing a) (drawerResizer a)
      (<[STATE_KEY := JSON_stringify (JObj (appState a))]> (localStorage a))
      (sessionStorage a).

(** [setDrawer(isOpen)]. *)
Definition setDrawer (isOpen : bool) (a : app) : app :=
  saveAppState (with_appState a (assign_field "drawerOpen" (JBool isOpen) (appState a))).

(** [toggleDrawer]: [setDrawer(!appState.drawerOpen)]. *)
Definition toggleDrawer (a : app) : app :=
  setDrawer (negb (truthy (lookup_field "drawerOpen" (appState a)))) a.

(** [arr.indexOf(id)] for a string [id]: the first element that is that
    string. *)
Fixpoint indexOf (arr : list json) (id : string) : option nat :=
  match arr with
  | [] => None
  | x :: rest =>
      if is_str id (Some x) then Some 0%nat
      else option_map S (indexOf rest id)
  end.

(** [toggleNode]: a value of [openedIds] that is not an array has no
    [splice] and no [push], and the call throws before anything is saved. *)
Definition toggleNode (id : string) (a : app) : result app :=
  match lookup_field "openedIds" (appState a) with
  | Some (JArr opened) =>
      let opened' :=
        match indexOf opened id with
        | Some idx => delete idx opened      (* splice(idx, 1) *)
        | None => opened ++ [JStr id]        (* push(id) *)
        end in
      Ok (saveAppState
            (with_appState a (assign_field "openedIds" (JArr opened') (appState a))))
  | _ => Throw TypeError
  end.

(** [selectNode(id)]; [renderViewForId] works on the tree and the session
    storage. *)
Definition selectNode (net : network) (id : string) (a : app) : app :=
  let a1 := saveAppState (with_appState a (assign_field "selectedId" (JStr id) (appState a))) in
  let r := renderViewForId net (rootTree a1) id (sessionStorage a1) in
  App (appState a1) (rv_tree r) (isResizing a1) (drawerResizer a1)
      (localStorage a1) (rv_session r).

(** The three listeners of [initResizer]; none is installed when the
    resizer element is missing. *)
Definition on_mousedown (a : app) : app :=
  if drawerResizer a then with_isResizing a true else a.

Definition on_mousemove (clientX innerWidth : float) (a : app) : app :=
  if drawerResizer a && isResizing a then
    let newWidth := clientX in
    let newWidth := if (newWidth <? 200)%float then 200%float else newWidth in
    let newWidth :=
      if (innerWidth * 0.8 <? newWidth)%float then (innerWidth * 0.8)%float
      else newWidth in
    with_appState a (assign_field "drawerWidth" (JNum newWidth) (appState a))
  else a.

Definition on_mouseup (a : app) : app :=
  if drawerResizer a && isResizing a then saveAppState (with_isResizing a false)
  else a.

(** The transitions of the navigation state and the events that fire them. *)
Inductive event : Type :=
| SelectNode (id : string)
| ToggleNode (id : string)
| SetDrawer (isOpen : bool)
| ToggleDrawer
| MouseDown
| MouseMove (clientX innerWidth : float)
| MouseUp.

(** One event handled to completion; an exception thrown by a handler ends
    the handler and leaves the state as it was. *)
Definition step (net : network) (a : app) (e : event) : app :=
  match e with
  | SelectNode id => selectNode net id a
  | ToggleNode id =>
      match toggleNode id a with
      | Ok a' => a'
      | Throw _ => a
      end
  | SetDrawer isOpen => setDrawer isOpen a
  | ToggleDrawer => toggleDrawer a
  | MouseDown => on_mousedown a
  | MouseMove clientX innerWidth => on_mousemove clientX innerWidth a
  | MouseUp => on_mouseup a
  end.

(** The persisted state is the state in memory. *)
Definition synced (a : app) : Prop :=
  localStorage a !! STATE_KEY = Some (JSON_stringify (JObj (appState a))).

Definition is_mousemove (e : event) : bool :=
  match e with MouseMove _ _ => true | _ => false end.

(** The page right after start-up on an empty localStorage. *)
Definition fresh_app : app :=
  App default_appState [] false true ∅ ∅.

(** The type the data model gives each field of the navigation state. *)
Definition field_valid (k : string) (v : json) : bool :=
  if String.eqb k "selectedId" then
    match v with JNull | JStr _ => true | _ => false end
  else if String.eqb k "openedIds" then
    match v with
    | JArr l => forallb (fun x => match x with JStr _ => true | _ => false end) l
    | _ => false
    end
  else if String.eqb k "drawerOpen" then
    match v with JBool _ => true | _ => false end
  else if String.eqb k "drawerWidth" then
    match v with JNum _ => true | _ => false end
  else true.

(** ** tools/update_index.js: the local scan *)

(** A directory entry as [fs.readdirSync(dir, { withFileTypes: true })]
    lists it.  A file carries what reading it gives ([None]: the read
    fails); a directory carries its own listing, in the order the operating
    system returns it. *)
Inductive dirent : Type :=
| File (name : string) (content : option text)
| Dir (name : string) (entries : list dirent).

Definition dirent_name (d : dirent) : string :=
  match d with File n _ | Dir n _ => n end.

Definition isDirectory (d : dirent) : bool :=
  match d with Dir _ _ => true | File _ _ => false end.

(** Nesting depth of a listing: the recursion depth of [scanDir] on it. *)
Fixpoint dirent_depth (d : dirent) : nat :=
  match d with
  | File _ _ => 0
  | Dir _ entries => S (foldr (fun e acc => dirent_depth e `max` acc) 0 entries)
  end.

Definition listing_depth (items : list dirent) : nat :=
  foldr (fun e acc => dirent_depth e `max` acc) 0 items.

(** [s.toLowerCase()] on the ASCII letters. *)
Definition lower_ascii (c : ascii) : ascii :=
  let n := nat_of_ascii c in
  if (65 <=? n)%nat && (n <=? 90)%nat then ascii_of_nat (n + 32) else c.

Fixpoint toLowerCase (s : string) : string :=
  match s with
  | EmptyString => EmptyString
  | String c rest => String (lower_ascii c) (toLowerCase rest)
  end.

(** Position of the last occurrence of the character [c]. *)
Fixpoint last_index (c : ascii) (s : string) : option nat :=
  match s with
  | EmptyString => None
  | String c' rest =>
      match last_index c rest with
      | Some i => Some (S i)
      | None => if Ascii.eqb c' c then Some 0%nat else None
      end
  end.

(** Node's [path.extname] on a file name without directory part: from the
    last dot to the end; empty when there is no dot, when the only dot is the
    first character, and for the name [..]. *)
Definition extname (name : string) : string :=
  match last_index "."%char name with
  | None | Some O => ""
  | Some i =>
      if String.eqb name ".." then ""
      else String.substring i (String.length name - i) name
  end.

(** The replacement of the Windows path separator: every backslash
    (character 92) becomes a slash. *)
Fixpoint backslash_to_slash (s : string) : string :=
  match s with
  | EmptyString => EmptyString
  | String c rest =>
      String (if Ascii.eqb c (ascii_of_nat 92) then "/"%char else c)
             (backslash_to_slash rest)
  end.

(** [name.startsWith('.')]. *)
Definition hidden (name : string) : bool := String.prefix "." name.

(** [Array.prototype.sort(cmp)]: a stable sort; [cmp a b <= 0] keeps [a]
    before [b]. *)
Fixpoint insert_sorted {A} (cmp : A -> A -> Z) (x : A) (l : list A) : list A :=
  match l with
  | [] => [x]
  | y :: rest =>
      if (cmp x y <=? 0)%Z then x :: y :: rest
      else y :: insert_sorted cmp x rest
  end.

Fixpoint sort {A} (cmp : A -> A -> Z) (l : list A) : list A :=
  match l with
  | [] => []
  | x :: rest => insert_sorted cmp x (sort cmp rest)
  end.

(** [try { node.data = JSON.parse(fs.readFileSync(...)) } catch { }]. *)
Definition read_data (content : option text) : option json :=
  match content with
  | Some t =>
      match JSON_parse t with
      | Ok v => Some v
      | Throw _ => None
      end
  | None => None
  end.

(** The options of a collation (Intl.Collator) that the scan sets. *)
Inductive sensitivity_level : Type :=
| Base
| Accent
| Case
| Variant.

Record collator_options : Type := CollatorOptions {
  numeric : bool;
  sensitivity : sensitivity_level
}.

(** [a.localeCompare(b, undefined, options)]: the collation of the host in
    its default locale, as a function of the options. *)
Definition collation : Type := collator_options -> string -> string -> Z.

(** [{ numeric: true, sensitivity: 'base' }]. *)
Definition scan_options : collator_options := CollatorOptions true Base.

Section scan.

(** The collation of the host, a parameter of the scan. *)
Variable localeCompare : collation.

(** The comparator handed to [items.sort]. *)
Definition compare_items (a b : dirent) : Z :=
  if isDirectory a && negb (isDirectory b) then (-1)%Z
  else if negb (isDirectory a) && isDirectory b then 1%Z
  else localeCompare scan_options (dirent_name a) (dirent_name b).

(** One iteration of the [for] loop: the nodes it pushes on [result] (none or
    one).  [recur] is the recursive call of [scanDir].  Paths are kept
    relative to the project root: [dirPath] is what
    [path.relative(path.join(__dirname, '..'), dirPath)] leaves of the
    directory, so [fullPath] is already [relativePath]. *)
Definition scan_item (recur : string -> list dirent -> list node)
    (dirPath : string) (item : dirent) : list node :=
  if hidden (dirent_name item) then []
  else
    let fullPath := dirPath +:+ "/" +:+ dirent_name item in
    let id := backslash_to_slash fullPath in
    match item with
    | Dir name entries =>
        let children := recur fullPath entries in
        if (0 <? length children)%nat
        then [Node id name true None (Some children) None]
        else []
    | File name content =>
        let ext := toLowerCase (extname name) in
        if String.eqb ext ".json" then
          [Node id name false (Some Kjson) None (read_data content)]
        else if String.eqb ext ".pdf" then
          [Node id name false (Some Kpdf) None None]
        else if String.eqb ext ".pptx" || String.eqb ext ".ppt" then
          [Node id name false (Some Kpptx) None None]
        else []
    end.

(** [scanDir] with a bound on the recursion depth. *)
Fixpoint scanDir_upto (depth : nat) (dirPath : string) (items : list dirent)
  : list node :=
  match depth with
  | O => []
  | S depth' =>
      flat_map (scan_item (scanDir_upto depth') dirPath) (sort compare_items items)
  end.

(** [scanDir(dirPath)] where [items] is the listing of [dirPath]: the bound
    is the depth of the listing, which the recursion cannot exceed. *)
Definition scanDir (dirPath : string) (items : list dirent) : list node :=
  scanDir_upto (S (listing_depth items)) dirPath items.

End scan.

(** Order of two siblings under a comparison of names: a folder before a
    file, two of a kind by name. *)
Definition sibling_le (cmp : string -> string -> Z) (m n : node) : Prop :=
  (node_isFolder m = true /\ node_isFolder n = false) \/
  (node_isFolder m = node_isFolder n /\
   (cmp (node_name m) (node_name n) <= 0)%Z).

(** Is the extension of a file name one of the indexed types. *)
Definition recognized (name : string) : bool :=
  let ext := toLowerCase (extname name) in
  String.eqb ext ".json" || String.eqb ext ".pdf" ||
  String.eqb ext ".pptx" || String.eqb ext ".ppt".

(** The shape of a node: a folder has children, at least one, and no kind;
    a leaf has a kind, no children and a recognized extension; no name is
    hidden. *)
Definition well_formed_node (n : node) : Prop :=
  hidden (node_name n) = false /\
  if node_isFolder n then
    node_kind n = None /\ exists cs, node_children n = Some cs /\ cs <> []
  else
    node_children n = None /\ (exists k, node_kind n = Some k) /\
    recognized (node_name n) = true.

(** The entries of a listing that the scan leaves out: hidden names, files
    of an unrecognized type, directories whose own scan is empty. *)
Definition left_out (localeCompare : collation) (dirPath : string)
    (item : dirent) : Prop :=
  hidden (dirent_name item) = true \/
  match item with
  | File name _ => recognized name = false
  | Dir name entries =>
      scanDir localeCompare (dirPath +:+ "/" +:+ name) entries = []
  end.

(** [P] holds of every sibling set of a tree: of the list itself and of the
    children of every node in it, at any depth. *)
Inductive every_level (P : list node -> Prop) : list node -> Prop :=
| every_level_intro nodes :
    P nodes ->
    Forall (fun n => forall cs, node_children n = Some cs -> every_level P cs) nodes ->
    every_level P nodes.

(** ** What the options ask of the host

    The standard leaves the comparison itself to the host.  What the two
    options of the scan mean is stated here for names that differ in a
    number, and for names that differ in the case of ASCII letters. *)

Definition is_digit (c : ascii) : bool :=
  let n := nat_of_ascii c in (48 <=? n)%nat && (n <=? 57)%nat.

Fixpoint all_digits (s : string) : bool :=
  match s with
  | EmptyString => true
  | String c rest => is_digit c && all_digits rest
  end.

(** The value of a run of digits, continuing from [acc]. *)
Fixpoint decimal (s : string) (acc : nat) : nat :=
  match s with
  | EmptyString => acc
  | String c rest => decimal rest (10 * acc + (nat_of_ascii c - 48))
  end.

Definition starts_with_digit (s : string) : bool :=
  match s with
  | EmptyString => false
  | String c _ => is_digit c
  end.

Fixpoint ends_with_digit (s : string) : bool :=
  match s with
  | EmptyString => false
  | String c EmptyString => is_digit c
  | String _ rest => ends_with_digit rest
  end.

(** [a] and [b] are the same up to a number, which is smaller in [a]: the
    same text [p], then a whole run of digits in each, then any text. *)
Definition smaller_number (a b : string) : Prop :=
  exists p d1 d2 s1 s2,
    a = p +:+ d1 +:+ s1 /\ b = p +:+ d2 +:+ s2 /\
    d1 <> "" /\ d2 <> "" /\ all_digits d1 = true /\ all_digits d2 = true /\
    ends_with_digit p = false /\
    starts_with_digit s1 = false /\ starts_with_digit s2 = false /\
    (decimal d1 0 < decimal d2 0)%nat.

(** A host collation that is an order of names for every choice of
    options, compares runs of digits by value when [numeric] is set, and
    ignores the case of letters at sensitivity [base]. *)
Record honours_options (localeCompare : collation) : Prop := HonoursOptions {
  collation_sign : forall o a b,
    (localeCompare o a b < 0)%Z <-> (0 < localeCompare o b a)%Z;
  collation_trans : forall o a b c,
    (localeCompare o a b <= 0)%Z -> (localeCompare o b c <= 0)%Z ->
    (localeCompare o a c <= 0)%Z;
  collation_numeric : forall o a b,
    numeric o = true -> smaller_number a b -> (localeCompare o a b < 0)%Z;
  collation_base : forall o a b,
    sensitivity o = Base ->
    localeCompare o a b = localeCompare o (toLowerCase a) (toLowerCase b)
}.

(** Two siblings of a kind are not in the order against their number. *)
Definition number_le (m n : node) : Prop :=
  node_isFolder m = node_isFolder n ->
  ~ smaller_number (node_name n) (node_name m).

(** ** A collation for ASCII names

    With [numeric] a run of digits is one token that counts by its value
    and sorts where the digit 0 does; any other character is a token of its
    own that counts by its code, in lower case at the sensitivities [base]
    and [accent]. *)

Definition folded (o : collator_options) (c : ascii) : ascii :=
  match sensitivity o with
  | Base | Accent => lower_ascii c
  | Case | Variant => c
  end.

Definition flush_number (acc : option nat) : list (nat * nat) :=
  match acc with
  | Some v => [(48, v)]
  | None => []
  end.

Fixpoint tokens (o : collator_options) (s : string) (acc : option nat)
  : list (nat * nat) :=
  match s with
  | EmptyString => flush_number acc
  | String c rest =>
      if numeric o && is_digit c then
        tokens o rest (Some (10 * default 0 acc + (nat_of_ascii c - 48)))
      else
        flush_number acc ++ (nat_of_ascii (folded o c), 0) :: tokens o rest None
  end.

Definition natural_compare : collation :=
  fun o a b =>
    match trichotomyT lexico (tokens o a None) (tokens o b None) with
    | inleft (left _) => (-1)%Z
    | inleft (right _) => 0%Z
    | inright _ => 1%Z
    end.

(** Data of the examples. *)
Definition items_listing : list dirent :=
  [File "Item 10.json" (Some (Encoded (JObj [])));
   File "notes.txt" (Some (Garbage "text"));
   Dir "drafts" [File "todo.md" None; File ".keep" None];
   File "item 2.pdf" None;
   Dir "Unit 1" [File "quiz.JSON" (Some (Garbage "{"))]].

(** ** index.js: the tree from the flat listing of the GitHub API *)

(** An element of [data.tree]. *)
Record entry : Type := Entry {
  path : string;
  type : string
}.

(** [s.split(sep)] for a one-character separator: the pieces between the
    separators, at least one. *)
Fixpoint split_at (sep : ascii) (s : string) : list string :=
  match s with
  | EmptyString => [EmptyString]
  | String c rest =>
      if Ascii.eqb c sep then EmptyString :: split_at sep rest
      else
        match split_at sep rest with
        | piece :: pieces => String c piece :: pieces
        | [] => [String c EmptyString]
        end
  end.

(** [part.split('.').pop().toLowerCase()] and the kind it selects. *)
Definition flat_ext (part : string) : string :=
  toLowerCase (List.last (split_at "."%char part) EmptyString).

Definition flat_kind (part : string) : option kind :=
  let ext := flat_ext part in
  if String.eqb ext "json" then Some Kjson
  else if String.eqb ext "pdf" then Some Kpdf
  else if String.eqb ext "pptx" || String.eqb ext "ppt" then Some Kpptx
  else None.

(** A node object of the builder.  It is shared between the lookup table and
    the [children] array of its parent, so it lives in a heap and is
    referred to by its address; [children] holds addresses. *)
Record cell : Type := Cell {
  c_id : string;
  c_name : string;
  c_isFolder : bool;
  c_kind : option kind;
  c_children : option (list nat)
}.

(** What [map[key]] can be: the object [{ children: root }] stored under
    'database', a node, or a property that the plain object [map] inherits
    from Object.prototype. *)
Inductive slot : Type :=
| RootHolder
| NodeAt (l : nat)
| Inherited.

(** The property names of Object.prototype. *)
Definition prototype_keys : list string :=
  ["constructor"; "hasOwnProperty"; "isPrototypeOf"; "propertyIsEnumerable";
   "toLocaleString"; "toString"; "valueOf"; "__proto__";
   "__defineGetter__"; "__defineSetter__"; "__lookupGetter__"; "__lookupSetter__"].

Record builder : Type := Builder {
  objects : list cell;
  table : gmap string slot;
  root : list nat
}.

Definition builder_init : builder :=
  Builder [] {[ "database" := RootHolder ]} [].

(** [map[key]]: an own property, else an inherited one, else undefined. *)
Definition map_get (b : builder) (key : string) : option slot :=
  match table b !! key with
  | Some s => Some s
  | None => if bool_decide (key ∈ prototype_keys) then Some Inherited else None
  end.

(** [map[parentPath].children.push(node)] for the node at address [l]. *)
Definition push_child (parentPath : string) (l : nat) (b : builder) : result builder :=
  match map_get b parentPath with
  | None => Ok b
  | Some Inherited => Throw TypeError   (* [children] is undefined *)
  | Some RootHolder => Ok (Builder (objects b) (table b) (root b ++ [l]))
  | Some (NodeAt p) =>
      match objects b !! p with
      | Some (Cell i m f k (Some cs)) =>
          Ok (Builder (<[p := Cell i m f k (Some (cs ++ [l]))]> (objects b))
                      (table b) (root b))
      | _ => Throw TypeError    (* [children] is undefined *)
      end
  end.

(** [currentPath ? `${currentPath}/${part}` : part]. *)
Definition extend_path (currentPath part : string) : string :=
  if negb (String.eqb currentPath "") then currentPath +:+ "/" +:+ part
  else part.

(** The body of [parts.forEach((part, i) => ...)] for the element [n] of the
    list, with [len = parts.length]; the state carries [currentPath]. *)
Definition add_part (n : entry) (len : nat) (i : nat) (part : string)
    (st : string * builder) : result (string * builder) :=
  let '(currentPath, b) := st in
  let parentPath := currentPath in
  let currentPath := extend_path currentPath part in
  match map_get b currentPath with
  | Some _ => Ok (currentPath, b)
  | None =>
      let isFolder := String.eqb (type n) "tree" || (i <? len - 1)%nat in
      let node :=
        Cell currentPath part isFolder
             (if isFolder then None else flat_kind part)
             (if isFolder then Some [] else None) in
      let l := length (objects b) in
      let b1 := Builder (objects b ++ [node]) (<[currentPath := NodeAt l]> (table b))
                        (root b) in
      match push_child parentPath l b1 with
      | Ok b2 => Ok (currentPath, b2)
      | Throw e => Throw e
      end
  end.

(** [parts.forEach] from index [i] on. *)
Fixpoint add_parts (n : entry) (len : nat) (i : nat) (parts : list string)
    (st : string * builder) : result (string * builder) :=
  match parts with
  | [] => Ok st
  | part :: rest =>
      match add_part n len i part st with
      | Ok st' => add_parts n len (S i) rest st'
      | Throw e => Throw e
      end
  end.

(** The body of [list.forEach(n => ...)]. *)
Definition add_entry (n : entry) (b : builder) : result builder :=
  let parts := split_at "/"%char (path n) in
  match add_parts n (length parts) 0 parts (EmptyString, b) with
  | Ok (_, b') => Ok b'
  | Throw e => Throw e
  end.

Fixpoint add_entries (flat : list entry) (b : builder) : result builder :=
  match flat with
  | [] => Ok b
  | n :: rest =>
      match add_entry n b with
      | Ok b' => add_entries rest b'
      | Throw e => Throw e
      end
  end.

(** The node objects reachable from an address, as a tree.  An address is
    followed at most [depth] times; [None] when that is not enough (the
    objects form a cycle) or an address is dangling. *)
Fixpoint node_at (depth : nat) (h : list cell) (l : nat) : option node :=
  match depth with
  | O => None
  | S depth' =>
      match h !! l with
      | None => None
      | Some (Cell i m f k children) =>
          match children with
          | None => Some (Node i m f k None None)
          | Some cs =>
              match mapM (node_at depth' h) cs with
              | Some ns => Some (Node i m f k (Some ns) None)
              | None => None
              end
          end
      end
  end.

(** [buildTreeFromFlatList(list)]: the final heap with the array [root], and
    [root] read as a tree. *)
Definition buildTreeFromFlatList_heap (flat : list entry) : result builder :=
  add_entries flat builder_init.

Definition buildTreeFromFlatList (flat : list entry) : result (option (list node)) :=
  match buildTreeFromFlatList_heap flat with
  | Ok b => Ok (mapM (node_at (S (length (objects b))) (objects b)) (root b))
  | Throw e => Throw e
  end.

(** The filter of [rebuildIndexFromGithub]:
    [n.path.startsWith('database/') && n.path !== 'database']. *)
Definition in_database (n : entry) : bool :=
  String.prefix "database/" (path n) && negb (String.eqb (path n) "database").

Definition rebuildIndex_tree (tree : list entry) : result (option (list node)) :=
  buildTreeFromFlatList (filter (fun n => in_database n = true) tree).

(** The value of [currentPath] after the given segments. *)
Definition path_of (parts : list string) : string :=
  foldl extend_path EmptyString parts.

(** A node object without its [children]. *)
Definition erase (c : cell) : cell :=
  Cell (c_id c) (c_name c) (c_isFolder c) (c_kind c) None.

(** Where a node object comes from: it was made for the segment at index
    [i] of the path of an element [n] of the list; its id is the path up to
    that segment, its name the segment; it is a folder exactly when [n] is of
    type tree or the segment is not the last of that path; a file has the
    kind of its extension (possibly none), a folder has no kind. *)
Definition made_from (flat : list entry) (c : cell) : Prop :=
  exists n i part,
    n ∈ flat /\
    split_at "/"%char (path n) !! i = Some part /\
    c_id c = path_of (take (S i) (split_at "/"%char (path n))) /\
    c_name c = part /\
    (c_isFolder c = true <->
     type n = "tree" \/ (i < length (split_at "/"%char (path n)) - 1)%nat) /\
    c_kind c = (if c_isFolder c then None else flat_kind part).

(** The lookup table knows every node object under its id. *)
Definition indexed (b : builder) : Prop :=
  forall l c, objects b !! l = Some c -> table b !! c_id c = Some (NodeAt l).

(** The node [n] of the returned tree is the node object [c]; the builder
    sets no [data]. *)
Definition node_of_cell (c : cell) (n : node) : Prop :=
  node_id n = c_id c /\ node_name n = c_name c /\
  node_isFolder n = c_isFolder c /\ node_kind n = c_kind c /\
  node_data n = None.

(** Data of the examples. *)
Definition github_listing : list entry :=
  [Entry "database/x.json" "blob"; Entry "database" "tree"].

(** The two facts kept by the loops, read off the node objects without
    their children. *)
Definition built (flat : list entry) (b : builder) : Prop :=
  (forall l c, (erase <$> objects b) !! l = Some c -> table b !! c_id c = Some (NodeAt l)) /\
  Forall (made_from flat) (erase <$> objects b).

(** *** What the list decides about a node *)

(** [parts] for an element of the list, and the value that [currentPath]
    has in the body of the inner loop at index [i]. *)
Definition segments (n : entry) : list string := split_at "/"%char (path n).

Definition prefix_at (n : entry) (i : nat) : string :=
  path_of (take (S i) (segments n)).

(** The runs of the body of the inner loop, in the order the two loops make
    them: the element of the list and the index of the segment. *)
Definition mentions (flat : list entry) : list (entry * nat) :=
  flat_map (fun n => pair n <$> seq 0 (length (segments n))) flat.

Definition reaches (id : string) (x : entry * nat) : bool :=
  String.eqb (prefix_at x.1 x.2) id.

(** The first run of the body in which [currentPath] is [id]: the one that
    finds [map[id]] missing and makes the node, if any does. *)
Definition creator (flat : list entry) (id : string) : option (entry * nat) :=
  List.find (reaches id) (mentions flat).

(** The path of some element of the list reaches [id] and goes on: [id] is
    [currentPath] at a segment that is not the last of that path. *)
Definition runs_through (flat : list entry) (id : string) : Prop :=
  exists m j, m ∈ flat /\ prefix_at m j = id /\ (S j < length (segments m))%nat.

Fixpoint has_char (c : ascii) (s : string) : bool :=
  match s with
  | EmptyString => false
  | String x rest => Ascii.eqb x c || has_char c rest
  end.

(** The name, in lower case, is the extension alone or ends with a dot and
    the extension. *)
Definition has_extension (e name : string) : Prop :=
  toLowerCase name = e \/ exists stem, toLowerCase name = stem +:+ "." +:+ e.

(** The kind that goes with the extension of a name: json, pdf, and pptx
    for both pptx and ppt; none for any other name. *)
Definition kind_by_extension (name : string) (k : option kind) : Prop :=
  match k with
  | Some Kjson => has_extension "json" name
  | Some Kpdf => has_extension "pdf" name
  | Some Kpptx => has_extension "pptx" name \/ has_extension "ppt" name
  | None =>
      ~ has_extension "json" name /\ ~ has_extension "pdf" name /\
      ~ has_extension "pptx" name /\ ~ has_extension "ppt" name
  end.

(** A node with the given id, name, folder flag and kind is the one the
    list asks for: it was made for the segment [name] in the first run of
    the loop body that reaches [id], for the element [m] of the list, and
    is a folder when [m] is of type tree or the segment is not the last of
    the path of [m]: so exactly when [m] is of type tree or the path of some
    element runs through [id]; a folder has no kind, a file the kind of its
    extension. *)
Definition decided (flat : list entry) (id name : string) (isFolder : bool)
    (k : option kind) : Prop :=
  exists m i,
    creator flat id = Some (m, i) /\
    segments m !! i = Some name /\
    isFolder = (String.eqb (type m) "tree" || (i <? length (segments m) - 1)%nat) /\
    (isFolder = true <-> type m = "tree" \/ runs_through flat id) /\
    (if isFolder then k = None else kind_by_extension name k).

(** What the loops keep true of the node objects after the runs [M] of the
    loop body: every path reached so far is in the table; an object was made
    in the first run that reached its id, with the flags of that run; only
    folders have [children]; the path an object was pushed under is in the
    table, and an object found there is a folder. *)
Record traced (M : list (entry * nat)) (b : builder) : Prop := Traced {
  traced_seen : forall x, x ∈ M -> map_get b (prefix_at x.1 x.2) <> None;
  traced_made : forall l c,
    objects b !! l = Some c ->
    exists n i part,
      List.find (reaches (c_id c)) M = Some (n, i) /\
      segments n !! i = Some part /\
      c_name c = part /\
      c_isFolder c = (String.eqb (type n) "tree" || (i <? length (segments n) - 1)%nat) /\
      c_kind c = (if c_isFolder c then None else flat_kind part);
  traced_children : forall l c,
    objects b !! l = Some c -> is_Some (c_children c) -> c_isFolder c = true;
  traced_parent : forall l c,
    objects b !! l = Some c ->
    exists q part,
      c_id c = extend_path q part /\ has_char "/" part = false /\
      (q <> "" ->
       map_get b q <> None /\
       forall l0 c0, table b !! q = Some (NodeAt l0) -> objects b !! l0 = Some c0 ->
                     c_isFolder c0 = true)
}.

(** The listing of the example with a folder, and one in which a path runs
    through a file. *)
Definition unit_listing : list entry :=
  [Entry "database/x.json" "blob"; Entry "database/Unit 1" "tree";
   Entry "database/Unit 1/q.json" "blob"].

Definition blocked_listing : list entry :=
  [Entry "database/a" "blob"; Entry "database/a/b.json" "blob"].

(** ** Objects by reference

    [_randomizePayload] once more, on a heap: arrays and objects are cells,
    a value refers to them by address, an assignment changes a cell in
    place.  This is the model in which "the call leaves its argument
    untouched" says something. *)

Inductive value : Type :=
| VUndef
| VNull
| VBool (b : bool)
| VNum (x : float)
| VStr (s : string)
| VRef (l : nat).
Arguments VNum x%_float.

Inductive obj : Type :=
| OArr (elems : list value)
| OObj (props : list (string * value)).

Abbreviation heap := (list obj).

(** A computation on the heap and the random source; the heap it leaves is
    known also when it throws. *)
Definition HM (A : Type) : Type := heap -> rng -> result A * heap * rng.

Definition hret {A} (a : A) : HM A := fun h g => (Ok a, h, g).

Definition hbind {A B} (m : HM A) (f : A -> HM B) : HM B :=
  fun h g =>
    match m h g with
    | (Ok a, h', g') => f a h' g'
    | (Throw e, h', g') => (Throw e, h', g')
    end.

Notation "'let!' x ':=' m 'in' k" := (hbind m (fun x => k))
  (at level 10, x pattern, m at level 100, k at level 200).

Definition hthrow {A} (e : error) : HM A := fun h g => (Throw e, h, g).

(** A computation that only draws random numbers. *)
Definition with_rng {A} (m : M A) : HM A :=
  fun h g => let '(r, g') := m g in (r, h, g').

Fixpoint hmap_each {A B} (f : A -> HM B) (l : list A) : HM (list B) :=
  match l with
  | [] => hret []
  | x :: xs => (let! y := f x in let! ys := hmap_each f xs in hret (y :: ys))
  end.

Definition v_truthy (v : value) : bool :=
  match v with
  | VUndef | VNull => false
  | VBool b => b
  | VNum x => negb (PrimFloat.eqb x 0 || PrimFloat.is_nan x)
  | VStr s => negb (String.eqb s "")
  | VRef _ => true
  end.

Definition v_typeof_object (v : value) : bool :=
  match v with VNull | VRef _ => true | _ => false end.

Definition v_is_str (lit : string) (v : value) : bool :=
  match v with VStr s => String.eqb s lit | _ => false end.

Fixpoint lookup_prop (k : string) (props : list (string * value)) : value :=
  match props with
  | [] => VUndef
  | (k', v) :: rest => if String.eqb k k' then v else lookup_prop k rest
  end.

Fixpoint assign_prop (k : string) (v : value) (props : list (string * value))
  : list (string * value) :=
  match props with
  | [] => [(k, v)]
  | (k', v') :: rest =>
      if String.eqb k k' then (k', v) :: rest
      else (k', v') :: assign_prop k v rest
  end.

(** [v.k]. *)
Definition h_get (v : value) (k : string) : HM value :=
  fun h g =>
    match v with
    | VUndef | VNull => (Throw TypeError, h, g)
    | VRef l =>
        match h !! l with
        | Some (OObj props) => (Ok (lookup_prop k props), h, g)
        | _ => (Ok VUndef, h, g)
        end
    | _ => (Ok VUndef, h, g)
    end.

(** [Array.isArray(v)]. *)
Definition h_isArray (v : value) : HM bool :=
  fun h g =>
    match v with
    | VRef l =>
        match h !! l with
        | Some (OArr _) => (Ok true, h, g)
        | _ => (Ok false, h, g)
        end
    | _ => (Ok false, h, g)
    end.

(** The elements of the array [v]. *)
Definition h_elems (v : value) : HM (list value) :=
  fun h g =>
    match v with
    | VRef l =>
        match h !! l with
        | Some (OArr elems) => (Ok elems, h, g)
        | _ => (Throw TypeError, h, g)
        end
    | _ => (Throw TypeError, h, g)
    end.

(** A new array or object. *)
Definition h_alloc (o : obj) : HM value :=
  fun h g => (Ok (VRef (length h)), h ++ [o], g).

(** [v.k = x] on an object. *)
Definition h_set (v : value) (k : string) (x : value) : HM unit :=
  fun h g =>
    match v with
    | VRef l =>
        match h !! l with
        | Some (OObj props) => (Ok (), <[l := OObj (assign_prop k x props)]> h, g)
        | _ => (Ok (), h, g)
        end
    | _ => (Throw TypeError, h, g)
    end.

(** JSON.stringify, read as a JSON value.  [None]: the value cannot be
    serialised; [depth] bounds the nesting, and a nesting deeper than the
    number of cells means a cycle, on which JSON.stringify throws.  An
    undefined array element is written as null, an undefined property is
    left out. *)
Fixpoint serialise (depth : nat) (h : heap) (v : value) : option jsval :=
  match depth with
  | O => None
  | S depth' =>
      match v with
      | VUndef => Some None
      | VNull => Some (Some JNull)
      | VBool b => Some (Some (JBool b))
      | VNum x => Some (Some (written_number x))
      | VStr s => Some (Some (JStr s))
      | VRef l =>
          match h !! l with
          | None => None
          | Some (OArr elems) =>
              match mapM (serialise depth' h) elems with
              | Some js => Some (Some (JArr (map (default JNull) js)))
              | None => None
              end
          | Some (OObj props) =>
              match mapM (fun kv => pair kv.1 <$> serialise depth' h kv.2) props with
              | Some kjs =>
                  Some (Some (JObj (omap (fun kj => pair kj.1 <$> kj.2) kjs)))
              | None => None
              end
          end
      end
  end.

Definition h_stringify (v : value) : HM jsval :=
  fun h g =>
    match serialise (S (length h)) h v with
    | Some j => (Ok j, h, g)
    | None => (Throw TypeError, h, g)
    end.

(** JSON.parse of a serialised value: every array and object is a new cell. *)
Fixpoint h_build (j : json) : HM value :=
  match j with
  | JNull => hret VNull
  | JBool b => hret (VBool b)
  | JNum x => hret (VNum x)
  | JStr s => hret (VStr s)
  | JArr l =>
      (let! vs := hmap_each h_build l in h_alloc (OArr vs))
  | JObj kvs =>
      (let! props :=
         hmap_each (fun kv => let! v := h_build kv.2 in hret (kv.1, v)) kvs in
       h_alloc (OObj props))
  end.

Definition h_parse (j : jsval) : HM value :=
  match j with
  | Some v => h_build v
  | None => hthrow SyntaxError      (* JSON.parse(undefined) *)
  end.

(** The local [shuffle]: a copy of the array, shuffled; the copy is not
    reachable by anyone else before it is returned. *)
Definition h_shuffle (v : value) : HM value :=
  let! isarr := h_isArray v in
  if isarr then
    (let! elems := h_elems v in
     let! copy := with_rng (shuffle_list elems) in
     h_alloc (OArr copy))
  else hret v.

(** [arr.map(cb)]: a new array of the results. *)
Definition h_map (cb : value -> HM value) (arr : value) : HM value :=
  let! elems := h_elems arr in
  let! results := hmap_each cb elems in
  h_alloc (OArr results).

(** [if (Array.isArray(o.k)) o.k = body(o.k)]. *)
Definition h_update_field (k : string) (body : value -> HM value) (o : value)
  : HM value :=
  let! x := h_get o k in
  let! isarr := h_isArray x in
  if isarr then
    (let! x1 := h_get o k in
     let! m := body x1 in
     let! _ := h_set o k m in
     hret o)
  else hret o.

(** [if (Array.isArray(o.k)) o.k = shuffle(o.k)]. *)
Definition h_shuffle_field (k : string) (o : value) : HM value :=
  h_update_field k h_shuffle o.

(** [if (Array.isArray(o.k)) o.k = shuffle(o.k).map(cb)]. *)
Definition h_shuffle_map_field (k : string) (cb : value -> HM value) (o : value)
  : HM value :=
  h_update_field k (fun x => let! s := h_shuffle x in h_map cb s) o.

Definition h_question_cb (q : value) : HM value := h_shuffle_field "options" q.

Definition h_section_cb (s : value) : HM value :=
  let! ty := h_get s "type" in
  let! _ := (if v_is_str "quiz" ty
             then h_shuffle_map_field "questions" h_question_cb s else hret s) in
  let! ty := h_get s "type" in
  let! _ := (if v_is_str "sort" ty then h_shuffle_field "sortCards" s else hret s) in
  let! ty := h_get s "type" in
  let! _ := (if v_is_str "capital" ty
             then h_shuffle_map_field "rows" h_question_cb s else hret s) in
  hret s.

Definition h_option_cb (o : value) : HM value := h_shuffle_field "whys" o.

Definition h_case_cb (c : value) : HM value :=
  h_shuffle_map_field "options" h_option_cb c.

(** [type === lit && Array.isArray(o.k)]. *)
Definition h_guard (lit : string) (type : value) (o : value) (k : string) : HM bool :=
  if v_is_str lit type then (let! x := h_get o k in h_isArray x) else hret false.

Definition h_randomizePayload (data : value) : HM value :=
  if negb (v_truthy data) || negb (v_typeof_object data) then hret data
  else
    let! text := h_stringify data in
    let! result := h_parse text in
    let! game_type := h_get result "game_type" in
    let! type := (if v_truthy game_type then hret game_type
                  else h_get result "gameType") in
    let! escape_game := h_guard "escape_game" type result "sections" in
    if escape_game then h_shuffle_map_field "sections" h_section_cb result
    else
    let! matching_puzzle := h_guard "matching_puzzle" type result "sets" in
    if matching_puzzle then h_shuffle_field "sets" result
    else
    let! sortier_spiel := h_guard "sortier_spiel" type result "cards" in
    if sortier_spiel then
      (let! _ := h_shuffle_field "cards" result in
       h_shuffle_field "columns" result)
    else
    let! quick_quiz := h_guard "quick_quiz" type result "questions" in
    if quick_quiz then
      (let! _ := h_shuffle_field "questions" result in
       h_shuffle_field "answerLabels" result)
    else
    if v_is_str "wer_bin_ich" type then
      (let! _ := h_shuffle_field "legalForms" result in
       h_shuffle_field "questions" result)
    else
    let! what_and_why := h_guard "what_and_why" type result "cases" in
    if what_and_why then h_shuffle_map_field "cases" h_case_cb result
    else hret result.

(** ** Fresh cells

    [base] is the size of the heap when the call starts: the cells below it
    are the caller's, those from it on are made by the call. *)






(** Data of the example. *)
Definition sample_heap : heap :=
  [OArr [VNum 1; VNum 2; VNum 3];
   OObj [("game_type", VStr "matching_puzzle"); ("sets", VRef 0)]].


(** The two embeddings of [_randomizePayload] run on the same payload and
    the same random source: on the heap (the payload built as cells first,
    the result serialised), and on JSON values (the result as JSON writes
    it). *)
Definition run_on_heap (payload : json) (g : rng) : option jsval :=
  let '(r, h', _) := (let! v := h_build payload in h_randomizePayload v) [] g in
  match r with
  | Ok v => serialise (S (length h')) h' v
  | Throw _ => None
  end.

Definition run_on_values (payload : json) (g : rng) : option jsval :=
  match (_randomizePayload (Some payload) g).1 with
  | Ok out => Some (written <$> out)
  | Throw _ => None
  end.

(** ** Values that own their cells

    [rep h v j fp]: in the heap [h] the value [v] is the JSON value [j],
    laid out as a tree over exactly the cells [fp]: no cell is used twice.
    This is what JSON.parse produces, and what lets an assignment to one
    cell be read as an update of the JSON value. *)

Definition separate (fps : list (gset nat)) : Prop :=
  forall i j X Y, i <> j -> fps !! i = Some X -> fps !! j = Some Y -> X ## Y.

Inductive rep (h : heap) : value -> json -> gset nat -> Prop :=
| rep_null : rep h VNull JNull ∅
| rep_bool b : rep h (VBool b) (JBool b) ∅
| rep_num x : rep h (VNum x) (JNum x) ∅
| rep_str s : rep h (VStr s) (JStr s) ∅
| rep_arr l elems js fps :
    h !! l = Some (OArr elems) ->
    Forall3 (rep h) elems js fps ->
    separate ({[l]} :: fps) ->
    rep h (VRef l) (JArr js) ({[l]} ∪ ⋃ fps)
| rep_obj l props kjs fps :
    h !! l = Some (OObj props) ->
    props.*1 = kjs.*1 ->
    Forall3 (rep h) props.*2 kjs.*2 fps ->
    separate ({[l]} :: fps) ->
    rep h (VRef l) (JObj kjs) ({[l]} ∪ ⋃ fps).

(** What a step of the heap model leaves, seen from a value that owned the
    cells [fp] of [h] before: cells are only added, the cells of [h]
    outside [fp] are as they were, and [v] now is [j'] over cells that were
    its own or are new. *)
Definition updated (h h' : heap) (fp : gset nat) (v : value) (j' : json) : Prop :=
  (length h <= length h')%nat /\
  (forall l, (l < length h)%nat -> l ∉ fp -> h' !! l = h !! l) /\
  exists fp', rep h' v j' fp' /\ forall l, l ∈ fp' -> l ∈ fp \/ (length h <= l)%nat.

(** The heap computation [m] on a value that represents [j] does what the
    computation [m0] on JSON values does: the same draws, a throw when it
    throws, and otherwise it returns its argument, now representing the
    result of [m0]. *)
Definition simulates (h : heap) (g : rng) (fp : gset nat) (v : value)
    (m : HM value) (m0 : M json) : Prop :=
  match m h g, m0 g with
  | (Ok v', h', g'), (Ok j', g0) => v' = v /\ g' = g0 /\ updated h h' fp v j'
  | (Throw _, _, _), (Throw _, _) => True
  | _, _ => False
  end.

Definition cb_simulates (hcb : value -> HM value) (cb : json -> M json) : Prop :=
  forall h g x j fp, rep h x j fp -> simulates h g fp x (hcb x) (cb j).

(** Nesting depth of a JSON value. *)
Fixpoint json_depth (j : json) : nat :=
  match j with
  | JArr l => S (foldr (fun x acc => json_depth x `max` acc) 0 l)
  | JObj kvs => S (foldr (fun kv acc => json_depth kv.2 `max` acc) 0 kvs)
  | _ => 0
  end.

(** A heap computation on an array value does what the computation on lists
    of JSON values does; it returns a new array. *)
Definition array_simulates (body : value -> HM value)
    (body0 : list json -> M (list json)) : Prop :=
  forall h g a js X,
    rep h (VRef a) (JArr js) X ->
    match body (VRef a) h g, body0 js g with
    | (Ok m, h', g'), (Ok js', g0) =>
        g' = g0 /\ (length h <= length h')%nat /\
        (forall l, (l < length h)%nat -> l ∉ X -> h' !! l = h !! l) /\
        exists X', rep h' m (JArr js') X' /\
                   forall l, l ∈ X' -> l ∈ X \/ (length h <= l)%nat
    | (Throw _, _, _), (Throw _, _) => True
    | _, _ => False
    end.

(** [if (Array.isArray(o.k)) o.k = body(o.k)] on a JSON value: the common
    shape of the three field updates of [_randomizePayload]. *)
Definition update_field (k : string) (body : list json -> M (list json)) (o : json)
  : M json :=
  match get o k with
  | Some (JArr arr) => (let* l' := body arr in ret (set o k (JArr l')))
  | _ => ret o
  end.

(** A value read from the heap against the result of the same read on the
    JSON value: both undefined, or the one represents the other. *)
Definition matches (h : heap) (x : value) (jv : jsval) : Prop :=
  match jv with
  | None => x = VUndef
  | Some j => exists X, rep h x j X
  end.

(** The body of [_randomizePayload] after the copy, as a function of
    [result], in the two models. *)
Definition h_shuffle_by_type (result : value) : HM value :=
  let! game_type := h_get result "game_type" in
  let! type := (if v_truthy game_type then hret game_type
                else h_get result "gameType") in
  let! escape_game := h_guard "escape_game" type result "sections" in
  if escape_game then h_shuffle_map_field "sections" h_section_cb result
  else
  let! matching_puzzle := h_guard "matching_puzzle" type result "sets" in
  if matching_puzzle then h_shuffle_field "sets" result
  else
  let! sortier_spiel := h_guard "sortier_spiel" type result "cards" in
  if sortier_spiel then
    (let! _ := h_shuffle_field "cards" result in
     h_shuffle_field "columns" result)
  else
  let! quick_quiz := h_guard "quick_quiz" type result "questions" in
  if quick_quiz then
    (let! _ := h_shuffle_field "questions" result in
     h_shuffle_field "answerLabels" result)
  else
  if v_is_str "wer_bin_ich" type then
    (let! _ := h_shuffle_field "legalForms" result in
     h_shuffle_field "questions" result)
  else
  let! what_and_why := h_guard "what_and_why" type result "cases" in
  if what_and_why then h_shuffle_map_field "cases" h_case_cb result
  else hret result.

Definition shuffle_by_type (result : json) : M json :=
  let type := game_type_of result in
  if is_str "escape_game" type && isArray (get result "sections") then
    shuffle_field "sections" section_cb result
  else if is_str "matching_puzzle" type && isArray (get result "sets") then
    shuffle_field "sets" keep result
  else if is_str "sortier_spiel" type && isArray (get result "cards") then
    let* r1 := shuffle_field "cards" keep result in
    shuffle_field "columns" keep r1
  else if is_str "quick_quiz" type && isArray (get result "questions") then
    let* r1 := shuffle_field "questions" keep result in
    shuffle_field "answerLabels" keep r1
  else if is_str "wer_bin_ich" type then
    let* r1 := shuffle_field "legalForms" keep result in
    shuffle_field "questions" keep r1
  else if is_str "what_and_why" type && isArray (get result "cases") then
    shuffle_field "cases" case_cb result
  else ret result.

(** The cells a computation makes, seen from the heap it started on. *)
Definition made_since (h : heap) (fp : gset nat) : Prop :=
  forall l, l ∈ fp -> (length h <= l)%nat.

(** ** game_base.js: the error display *)

(** [s.replace(/c/g, by)] for a pattern of one character. *)
Fixpoint replace_all (c : ascii) (by_ : string) (s : string) : string :=
  match s with
  | EmptyString => EmptyString
  | String c' rest =>
      if Ascii.eqb c' c then by_ +:+ replace_all c by_ rest
      else String c' (replace_all c by_ rest)
  end.

(** [_escapeHtml]: the three replacements, one after the other. *)
Definition _escapeHtml (str : string) : string :=
  replace_all ">" "&gt;" (replace_all "<" "&lt;" (replace_all "&" "&amp;" str)).

(** The characters of a string. *)
Fixpoint chars (s : string) : list ascii :=
  match s with
  | EmptyString => []
  | String c rest => c :: chars rest
  end.

(** What one character becomes. *)
Definition escape_char (c : ascii) : string :=
  if Ascii.eqb c "&" then "&amp;"
  else if Ascii.eqb c "<" then "&lt;"
  else if Ascii.eqb c ">" then "&gt;"
  else String c EmptyString.

(** ** game_base.js: GameBase._validateHeader *)

(** What [_fatal] is called with when the header is rejected. *)
Inductive header_error : Type :=
| NotAnObject                                       (* empty or no object *)
| NoGameType                                        (* the field is missing *)
| UnexpectedGameType (expected : string) (found : json).

Inductive validation : Type :=
| Valid                                             (* returns true *)
| Invalid (e : header_error).                       (* _fatal(e), returns false *)

(** [data.game_type || data.gameType || null]. *)
Definition actual_type (data : json) : jsval :=
  if truthy (get data "game_type") then get data "game_type"
  else if truthy (get data "gameType") then get data "gameType"
  else Some JNull.

(** [_validateHeader] of a GameBase with the given [expectedGameType]
    ([None]: null) and [payload].  The check of [schema_version] only
    writes a warning to the console. *)
Definition _validateHeader (expectedGameType : option string) (payload : jsval)
  : validation :=
  if negb (truthy payload) || negb (typeof_object payload) then Invalid NotAnObject
  else
    match payload with
    | None => Invalid NotAnObject
    | Some data =>
        let actualType := actual_type data in
        if negb (truthy actualType) then Invalid NoGameType
        else
          match expectedGameType, actualType with
          | Some expected, Some found =>
              if negb (String.eqb expected "") && negb (is_str expected actualType)
              then Invalid (UnexpectedGameType expected found)
              else Valid
          | _, _ => Valid
          end
    end.

(** ** game_base.js: GameBase.init *)

(** [x || y] for two values that are a string or null. *)
Definition or_string (x y : option string) : option string :=
  match x with
  | Some s => if String.eqb s "" then y else x
  | None => y
  end.

(** [!x] for a value that is a string or null. *)
Definition no_string (x : option string) : bool :=
  match x with
  | Some s => String.eqb s ""
  | None => true
  end.

(** [try { ... } catch (err) { ... }] as a value: what the block returned or
    what it threw. *)
Definition attempt {A} (m : M A) : M (result A) :=
  fun g => let '(r, g') := m g in (Ok r, g').

(** What [init] calls [_fatal] with. *)
Inductive init_error : Type :=
| FatalNoFileId
| FatalLoad (e : error)
| FatalHeader (e : header_error)
| FatalStart (e : error).

(** The session storage as a page finds it: [None] when the browser refuses
    the access, and [getItem] and [setItem] throw. *)
Definition page_storage : Type := option storage.

(** [_loadPayload] on the storage of the page.  When the access is refused
    the [getItem] of step 1 throws inside its [try], and so does the
    [setItem] of step 2: the file is loaded and randomized, nothing is
    stored. *)
Definition _loadPayload_on (net : network) (fileId : string) (ss : page_storage)
  : M (jsval * page_storage) :=
  match ss with
  | Some s =>
      (let* loaded := _loadPayload net fileId s in ret (loaded.1, Some loaded.2))
  | None =>
      (let* loaded :=
         load_from_network net fileId (JSON_SESSION_PREFIX +:+ fileId) ∅ in
       ret (loaded.1, None))
  end.

(** What a run of [init] leaves: the last call of [_fatal], the payload
    handed to [onDataLoaded] (if it was called), the title given to the
    document (if one was set) and the session storage. *)
Record game_run : Type := GameRun {
  run_fatal : option init_error;
  run_handed : option jsval;
  run_title : option string;
  run_session : page_storage
}.

Section game_init.

(** The characters of a stored string, and [s.trim() === ''] (which depends
    on the white space of Unicode): given. *)
Variable text_chars : text -> string.
Variable blank : string -> bool.

(** The game: its expected type and the [onDataLoaded] of the subclass,
    which may throw. *)
Variable expectedGameType : option string.
Variable onDataLoaded : jsval -> M unit.

(** [params.get('fileId') || params.get('id')], then the session id when
    that is falsy; this [getItem] is outside every [try]. *)
Definition resolve_fileId (params : gmap string string) (ss : page_storage)
  : result (option string) :=
  let fileId := or_string (params !! "fileId") (params !! "id") in
  if no_string fileId then
    match ss with
    | Some s => Ok (text_chars <$> s !! "game_payload_id")
    | None => Throw SecurityError
    end
  else Ok fileId.

(** The title [init] gives the document, if any. *)
Definition document_title (payload : jsval) : option string :=
  match payload with
  | Some data =>
      if truthy payload then
        match get data "title" with
        | Some (JStr t) => if negb (blank t) then Some ("Pauker - " +:+ t) else None
        | _ => None
        end
      else None
  | None => None
  end.

Definition init (params : gmap string string) (net : network) (ss : page_storage)
  : M game_run :=
  let* fileId := lift (resolve_fileId params ss) in
  match fileId with
  | None => ret (GameRun (Some FatalNoFileId) None None ss)
  | Some id =>
      if no_string fileId then ret (GameRun (Some FatalNoFileId) None None ss)
      else
        let* loaded := attempt (_loadPayload_on net id ss) in
        match loaded with
        | Throw e => ret (GameRun (Some (FatalLoad e)) None None ss)
        | Ok (payload, ss1) =>
            match _validateHeader expectedGameType payload with
            | Invalid e => ret (GameRun (Some (FatalHeader e)) None None ss1)
            | Valid =>
                let title := document_title payload in
                let* started := attempt (onDataLoaded payload) in
                match started with
                | Ok _ => ret (GameRun None (Some payload) title ss1)
                | Throw e =>
                    ret (GameRun (Some (FatalStart e)) (Some payload) title ss1)
                end
            end
        end
  end.

End game_init.

(** ** index.js: the search in the tree *)

(** Induction on nodes, with the hypothesis for every child. *)
Section node_induction.
Variable P : node -> Prop.
Hypothesis Hnode : forall i m f k children d,
  (forall cs, children = Some cs -> Forall P cs) ->
  P (Node i m f k children d).

Fixpoint node_nested_ind (n : node) : P n :=
  match n with
  | Node i m f k children d =>
      Hnode i m f k children d
        (fun cs (H : children = Some cs) =>
           match children as c return c = Some cs -> Forall P cs with
           | Some cs0 =>
               fun H0 =>
                 eq_ind cs0 (Forall P)
                   ((fix go (l : list node) : Forall P l :=
                       match l with
                       | [] => Forall_nil_2 P
                       | x :: xs => Forall_cons_2 P x xs (node_nested_ind x) (go xs)
                       end) cs0)
                   cs (f_equal (default cs0) H0)
           | None => fun H0 => match eq_sym H0 in _ = c return
                                       match c with None => Forall P cs | Some _ => True end
                                 with eq_refl => I end
           end H)
  end.
End node_induction.

(** The nodes the search visits, in the order it visits them: a node, then
    the nodes below it (when it has [children]), then its later siblings. *)
Fixpoint subtree (n : node) : list node :=
  match n with
  | Node _ _ _ _ children _ =>
      n :: match children with
           | Some cs => flat_map subtree cs
           | None => []
           end
  end.

(** [findPath]: one iteration of its loop for the node [n], and the
    function. *)
Fixpoint findPath_at (id : string) (path : list string) (n : node)
  : option (list string) :=
  match n with
  | Node i m _ _ children _ =>
      let sub := path ++ [m] in
      if String.eqb i id then Some sub
      else
        match children with
        | Some cs => first_some (findPath_at id sub) cs
        | None => None
        end
  end.

Definition findPath (nodes : list node) (id : string) (path : list string)
  : option (list string) :=
  first_some (findPath_at id path) nodes.

(** [descent nodes chain]: the nodes of [chain] lead down from [nodes]: the
    first is one of [nodes], each next one is among the [children] of the
    one before. *)
Inductive descent : list node -> list node -> Prop :=
| descent_end nodes n : n ∈ nodes -> descent nodes [n]
| descent_step nodes n cs chain :
    n ∈ nodes -> node_children n = Some cs -> descent cs chain ->
    descent nodes (n :: chain).

(** ** The theme, in index.js and in game_base.js *)

Definition THEME_KEY : string := "globalTheme_v1".

Inductive theme : Type :=
| Light
| Dark.

(** The string a theme is stored as.  Neither is JSON. *)
Definition theme_text (t : theme) : text :=
  match t with
  | Light => Garbage "light"
  | Dark => Garbage "dark"
  end.

(** [(stored === 'light' || stored === 'dark') ? stored : 'dark'] for what
    [getItem] returned. *)
Definition initial_theme (stored : option text) : theme :=
  match stored with
  | Some (Garbage s) => if String.eqb s "light" then Light else Dark
  | _ => Dark
  end.

Definition is_light (t : theme) : bool :=
  match t with Light => true | Dark => false end.

(** What the theme functions of index.js see of the page: whether the root
    element has the class theme-light, the icon in the button
    #theme-toggle-app (the sun for the light theme; [None]: not set yet), and
    for a game iframe with a document whether the root element of that
    document has the class ([None]: no such iframe). *)
Record app_page : Type := AppPage {
  page_light : bool;
  toggle_icon : option theme;
  iframe_light : option bool
}.

(** index.js: [applyTheme]. *)
Definition applyTheme (t : theme) (p : app_page) : app_page :=
  AppPage (is_light t) (Some t)
          (match iframe_light p with
           | Some _ => Some (is_light t)
           | None => None
           end).

(** index.js: [initTheme] and [toggleTheme], with localStorage. *)
Definition initTheme (ls : storage) (p : app_page) : app_page :=
  applyTheme (initial_theme (ls !! THEME_KEY)) p.

Definition toggleTheme (ls : storage) (p : app_page) : app_page * storage :=
  let next := if page_light p then Dark else Light in
  (applyTheme next p, <[THEME_KEY := theme_text next]> ls).

(** What the theme functions of GameBase see of the page of a game: the
    class on the root element and the button #theme-toggle, which may be
    missing ([None]); its icon as above. *)
Record game_page : Type := GamePage {
  game_light : bool;
  themeToggleBtn : option (option theme)
}.

(** game_base.js: [_applyTheme]. *)
Definition _applyTheme (t : theme) (p : game_page) : game_page :=
  GamePage (is_light t)
           (match themeToggleBtn p with
            | Some _ => Some (Some t)
            | None => None
            end).

(** game_base.js: [_initTheme] and [_toggleTheme].  The storage of a page
    may refuse every access ([None]: [getItem] and [setItem] throw); both
    functions catch that. *)
Definition _initTheme (ls : option storage) (p : game_page) : game_page :=
  let stored :=
    match ls with
    | Some s => s !! THEME_KEY
    | None => None
    end in
  _applyTheme (initial_theme stored) p.

Definition _toggleTheme (ls : option storage) (p : game_page)
  : game_page * option storage :=
  let next := if game_light p then Dark else Light in
  (_applyTheme next p,
   match ls with
   | Some s => Some (<[THEME_KEY := theme_text next]> s)
   | None => None
   end).

(** ** The shape of the ids of a tree *)

(** Every node of the list has the id [prefix/name'], where [name'] is
    [shown name], and the nodes below it have ids under its id in the same
    way. *)
Inductive ids_under (shown : string -> string) : string -> list node -> Prop :=
| ids_under_intro prefix nodes :
    Forall (fun n =>
              node_id n = prefix +:+ "/" +:+ shown (node_name n) /\
              forall cs, node_children n = Some cs -> ids_under shown (node_id n) cs)
           nodes ->
    ids_under shown prefix nodes.

(** ** tools/update_index.js: what the scan keeps *)

(** The kind the scan gives a file name, if any. *)
Definition scan_kind (name : string) : option kind :=
  let ext := toLowerCase (extname name) in
  if String.eqb ext ".json" then Some Kjson
  else if String.eqb ext ".pdf" then Some Kpdf
  else if String.eqb ext ".pptx" || String.eqb ext ".ppt" then Some Kpptx
  else None.

(** The entries of a listing that get a node: not hidden, and a file of a
    recognized type or a directory whose own scan is not empty. *)
Definition kept (localeCompare : collation) (dirPath : string)
    (item : dirent) : bool :=
  negb (hidden (dirent_name item)) &&
  match item with
  | File name _ => recognized name
  | Dir name entries =>
      (0 <? length (scanDir localeCompare (dirPath +:+ "/" +:+ name) entries))%nat
  end.

(** ** index.js: how the flat builder links its node objects *)

(** What the loops of [buildTreeFromFlatList] keep true of the lookup table,
    the array [root] and the [children] arrays: the table leads to the
    object with that id and holds the object of 'database' under that key
    only; the objects in [root] have ids directly under database/; the
    objects in the [children] of an object with a non-empty id were made
    after it and have ids directly under its id. *)
Record linked (b : builder) : Prop := Linked {
  linked_table : forall k l,
    table b !! k = Some (NodeAt l) ->
    exists c, objects b !! l = Some c /\ c_id c = k;
  linked_holder : forall k,
    table b !! k = Some RootHolder -> k = "database";
  linked_stored : forall k, table b !! k <> Some Inherited;
  linked_root : forall l,
    l ∈ root b ->
    exists c, objects b !! l = Some c /\ c_id c = "database" +:+ "/" +:+ c_name c;
  linked_children : forall p c cs l,
    objects b !! p = Some c -> c_id c <> "" -> c_children c = Some cs -> l ∈ cs ->
    (p < l)%nat /\
    exists c', objects b !! l = Some c' /\ c_id c' = c_id c +:+ "/" +:+ c_name c'
}.

(** The segments after the first, each with the slash before it. *)
Definition tail_path (rest : list string) : string :=
  foldr (fun part acc => "/" +:+ part +:+ acc) "" rest.

(** A folder object has its [children] array. *)
Definition folders_have_children (b : builder) : Prop :=
  forall l c, objects b !! l = Some c -> c_isFolder c = true -> is_Some (c_children c).

(** ** game_base.js: when the session storage does not answer *)

(** The entries under the storage key for which step 1 of [_loadPayload]
    falls through to the download: no entry, the empty string, a string
    that is not JSON, and JSON that is no object (or is null). *)
Definition unusable (entry : option text) : Prop :=
  match entry with
  | None => True
  | Some raw =>
      text_truthy raw = false \/
      match JSON_parse raw with
      | Ok parsed => truthy (Some parsed) && typeof_object (Some parsed) = false
      | Throw _ => True
      end
  end.

(** The address [_loadPayload] downloads from. *)
Definition fetchUrl (fileId : string) : string :=
  if String.prefix "http" fileId then fileId else "../" +:+ fileId.

(** ** index.js: clearing the cache and rebuilding the index *)

Definition INDEX_KEY : string := "pauker_remote_index_v1".

(** [s.includes(needle)]. *)
Fixpoint includes (needle s : string) : bool :=
  String.prefix needle s ||
  match s with
  | EmptyString => false
  | String _ rest => includes needle rest
  end.

(** The longest prefix of characters that satisfy [p], and what follows. *)
Fixpoint span (p : ascii -> bool) (s : string) : string * string :=
  match s with
  | EmptyString => (EmptyString, EmptyString)
  | String c rest =>
      if p c then let '(a, b) := span p rest in (String c a, b)
      else (EmptyString, s)
  end.

(** [s] without the prefix [pre], when it starts with it. *)
Fixpoint strip_prefix (pre s : string) : option string :=
  match pre, s with
  | EmptyString, _ => Some s
  | String c pre', String d s' =>
      if Ascii.eqb c d then strip_prefix pre' s' else None
  | String _ _, EmptyString => None
  end.

Definition not_dot (c : ascii) : bool := negb (Ascii.eqb c ".").

Definition in_segment (c : ascii) : bool :=
  negb (Ascii.eqb c "/" || Ascii.eqb c "?" || Ascii.eqb c "#").

(** The pattern from [:\/\/] on.  A group [[^x]+] takes the longest run:
    after a shorter one the next character is still none of the excluded
    ones, where the pattern goes on with an excluded one or ends. *)
Definition pages_after_scheme (s : string) : option (string * string) :=
  match strip_prefix "://" s with
  | None => None
  | Some r =>
      let '(owner, r) := span not_dot r in
      if String.eqb owner "" then None
      else
        match strip_prefix ".github.io/" r with
        | None => None
        | Some r =>
            let '(repo, _) := span in_segment r in
            if String.eqb repo "" then None else Some (owner, repo)
        end
  end.

(** A match of [/https?:\/\/([^.]+)\.github\.io\/([^/?#]+)/] that begins
    at the start of [s]: first with the optional [s], then without. *)
Definition pages_here (s : string) : option (string * string) :=
  match strip_prefix "http" s with
  | None => None
  | Some r =>
      match
        match strip_prefix "s" r with
        | Some r' => pages_after_scheme r'
        | None => None
        end
      with
      | Some m => Some m
      | None => pages_after_scheme r
      end
  end.

(** [url.match(...)]: the leftmost match; its groups are the owner and the
    repository. *)
Fixpoint match_pages_url (url : string) : option (string * string) :=
  match pages_here url with
  | Some m => Some m
  | None =>
      match url with
      | EmptyString => None
      | String _ rest => match_pages_url rest
      end
  end.

Definition api_url (owner repo : string) : string :=
  "https://api.github.com/repos/" +:+ owner +:+ "/" +:+ repo +:+
  "/git/trees/main?recursive=1".

(** An element of [data.tree] as the filter and the builder read it: the
    filter calls [n.path.startsWith], which throws unless [n.path] is a
    string; of [n.type] only [n.type === 'tree'] is looked at, so a type
    that is no string is read as the empty string. *)
Definition entry_of_json (n : json) : result entry :=
  match n with
  | JNull => Throw TypeError
  | _ =>
      match get n "path" with
      | Some (JStr p) =>
          Ok (Entry p match get n "type" with
                      | Some (JStr t) => t
                      | _ => EmptyString
                      end)
      | _ => Throw TypeError
      end
  end.

Fixpoint entries_of_json (l : list json) : result (list entry) :=
  match l with
  | [] => Ok []
  | n :: rest =>
      match entry_of_json n with
      | Throw e => Throw e
      | Ok x =>
          match entries_of_json rest with
          | Throw e => Throw e
          | Ok xs => Ok (x :: xs)
          end
      end
  end.

(** [data.tree] as a list of entries: [data] may be null, [data.tree] falsy
    (the code throws an Error of its own), or no array (no [filter]). *)
Definition tree_entries (data : json) : result (list entry) :=
  match data with
  | JNull => Throw TypeError
  | _ =>
      if negb (truthy (get data "tree")) then Throw FetchError
      else
        match get data "tree" with
        | Some (JArr l) => entries_of_json l
        | _ => Throw TypeError
        end
  end.

Definition kind_name (k : kind) : string :=
  match k with
  | Kjson => "json"
  | Kpdf => "pdf"
  | Kpptx => "pptx"
  end.

(** A node as JSON.stringify writes it.  Both builders set [id], [name] and
    [isFolder] first, then [kind] or [children], then [data]. *)
Fixpoint node_json (n : node) : json :=
  match n with
  | Node i m f k children d =>
      JObj ([("id", JStr i); ("name", JStr m); ("isFolder", JBool f)] ++
            match k with
            | Some k => [("kind", JStr (kind_name k))]
            | None => []
            end ++
            match children with
            | Some cs => [("children", JArr (map node_json cs))]
            | None => []
            end ++
            match d with
            | Some d => [("data", d)]
            | None => []
            end)
  end.

(** The [try] block of [rebuildIndexFromGithub] up to the tree.  A tree
    that is none (the node objects form a cycle) makes JSON.stringify
    throw. *)
Definition rebuild_tree (net : network) (owner repo : string) : result (list node) :=
  match fetch_json net (api_url owner repo) with
  | Throw e => Throw e
  | Ok data =>
      match tree_entries data with
      | Throw e => Throw e
      | Ok flat =>
          match rebuildIndex_tree flat with
          | Throw e => Throw e
          | Ok (Some tree) => Ok tree
          | Ok None => Throw TypeError
          end
      end
  end.

(** What the user is told. *)
Inductive notice : Type :=
| UrlNotRecognized
| IndexUpdated
| UpdateFailed (e : error).

(** [rebuildIndexFromGithub]: localStorage afterwards and the alert; the
    page is reloaded in every case. *)
Definition rebuildIndexFromGithub (href : string) (net : network) (ls : storage)
  : storage * notice :=
  match match_pages_url href with
  | None => (ls, UrlNotRecognized)
  | Some (owner, repo) =>
      match rebuild_tree net owner repo with
      | Ok tree =>
          (<[INDEX_KEY := JSON_stringify (JArr (node_json <$> tree))]> ls,
           IndexUpdated)
      | Throw e => (ls, UpdateFailed e)
      end
  end.

(** What [clearDriveCache] leaves. *)
Record cleared : Type := Cleared {
  cl_local : storage;
  cl_session : storage;
  cl_reloaded : bool;
  cl_notice : option notice
}.

(** [window.clearDriveCache], for the address of the page and the answer to
    the confirmation dialog. *)
Definition clearDriveCache (href : string) (confirmed : bool) (net : network)
    (ls ss : storage) : cleared :=
  let isGithub := includes "github.io" href in
  if negb confirmed then Cleared ls ss false None
  else
    let ls1 := delete STATE_KEY ls in
    if isGithub then
      let '(ls2, n) := rebuildIndexFromGithub href net ls1 in
      Cleared ls2 ∅ true (Some n)
    else Cleared (delete INDEX_KEY ls1) ∅ true None.

(** ** index.js: a click on a row of the tree *)

(** [onNodeClick(e, node)].  [div] tells whether the element of the node is
    in the page; the result carries the address opened in a new tab, if
    any. *)
Definition onNodeClick (net : network) (div : bool) (n : node) (a : app)
  : result (app * option string) :=
  if node_isFolder n then
    if div then
      match toggleNode (node_id n) a with
      | Ok a' => Ok (a', None)
      | Throw e => Throw e
      end
    else Ok (a, None)
  else
    Ok (selectNode net (node_id n) a,
        match node_kind n with
        | Some Kpdf | Some Kpptx => Some (node_id n)
        | _ => None
        end).

(** * Properties *)

(** ** Facts about JSON values and the computation monad *)

Lemma deep_clone_written (v : json) : deep_clone v = Ok (written v).
Proof. reflexivity. Qed.

Lemma written_number_kept x : number_kept x = true -> written_number x = JNum x.
Proof. unfold number_kept, written_number. by destruct (PrimFloat.classify x). Qed.

Lemma written_kept (v : json) : numbers_kept v = true -> written v = v.
Proof.
  induction v as [| |x| |l IH|kvs IH] using json_nested_ind; simpl; try done.
  - apply written_number_kept.
  - intros Hl. f_equal. induction IH as [|y ys Hy _ IHys]; simpl; [done|].
    simpl in Hl. apply andb_true_iff in Hl as [H1 H2]. by rewrite Hy, IHys.
  - intros Hl. f_equal. induction IH as [|[k y] rest Hy _ IHrest]; simpl; [done|].
    simpl in Hl, Hy. apply andb_true_iff in Hl as [H1 H2]. by rewrite Hy, IHrest.
Qed.

Lemma numbers_kept_written_number x : numbers_kept (written_number x) = true.
Proof.
  unfold written_number. destruct (PrimFloat.classify x) eqn:Hx; simpl; try done;
    unfold number_kept; by rewrite ?Hx.
Qed.

Lemma numbers_kept_written (v : json) : numbers_kept (written v) = true.
Proof.
  induction v as [| |x| |l IH|kvs IH] using json_nested_ind; simpl; try done.
  - apply numbers_kept_written_number.
  - induction IH as [|y ys Hy _ IHys]; simpl; [done|]. by rewrite Hy, IHys.
  - induction IH as [|[k y] rest Hy _ IHrest]; simpl; [done|].
    simpl in Hy. by rewrite Hy, IHrest.
Qed.

Lemma written_idem (v : json) : written (written v) = written v.
Proof. apply written_kept, numbers_kept_written. Qed.

Lemma is_str_true lit v : is_str lit v = true -> v = Some (JStr lit).
Proof.
  destruct v as [[]|]; simpl; try done. intros H%String.eqb_eq. by subst.
Qed.

Lemma lookup_assign_ne k k' v kvs :
  k <> k' -> lookup_field k' (assign_field k v kvs) = lookup_field k' kvs.
Proof.
  intros Hne. induction kvs as [|[k0 v0] rest IH]; simpl.
  - destruct (String.eqb_spec k' k); congruence.
  - destruct (String.eqb_spec k k0); simpl.
    + subst. destruct (String.eqb_spec k' k0); congruence.
    + by rewrite IH.
Qed.

Lemma get_set_ne o k k' v : k <> k' -> get (set o k v) k' = get o k'.
Proof. destruct o; simpl; try done. apply lookup_assign_ne. Qed.

Section monad_facts.
Context {A B : Type}.

Lemma outcome_ret (a : A) g (P : A -> Prop) Q : P a -> outcome (ret a) g P Q.
Proof. done. Qed.

Lemma outcome_bind (m : M A) (f : A -> M B) g (P : B -> Prop) Q :
  outcome m g (fun a => forall g', outcome (f a) g' P Q) Q ->
  outcome (bind m f) g P Q.
Proof.
  unfold outcome, bind. destruct (m g) as [[a|e] g']; simpl; [|done].
  intros H. apply H.
Qed.

Lemma outcome_impl (m : M A) g (P P' : A -> Prop) (Q Q' : Prop) :
  outcome m g P Q -> (forall a, P a -> P' a) -> (Q -> Q') -> outcome m g P' Q'.
Proof. unfold outcome. destruct (m g).1; auto. Qed.

End monad_facts.

Lemma map_each_outcome {A B} (f : A -> M B) (R : A -> B -> Prop) (Q : A -> Prop) l :
  (forall x g, x ∈ l -> outcome (f x) g (R x) (Q x)) ->
  forall g, outcome (map_each f l) g (Forall2 R l) (exists x, x ∈ l /\ Q x).
Proof.
  induction l as [|x xs IH]; intros Hf g; cbn [map_each].
  - unfold outcome; simpl. constructor.
  - apply outcome_bind.
    eapply outcome_impl; [apply Hf; left| |].
    + intros y Hy g'. apply outcome_bind.
      eapply outcome_impl; [apply IH|..].
      * intros x' g'' Hx'. apply Hf. by right.
      * intros ys Hys g''. unfold outcome; simpl. by constructor.
      * intros (x' & Hx' & HQ). exists x'. split; [by right|done].
    + intros HQ. exists x. split; [left|done].
Qed.

(** ** The Fisher-Yates loop only permutes *)

Lemma swap_perm {A} (i j : nat) (l : list A) : swap i j l ≡ₚ l.
Proof.
  unfold swap. destruct (l !! i) eqn:Hi; [|done]. destruct (l !! j) eqn:Hj; [|done].
  by apply Permutation_insert_swap.
Qed.

Lemma shuffle_loop_perm {A} (i : nat) (l : list A) g :
  outcome (shuffle_loop i l) g (fun l' => l' ≡ₚ l) False.
Proof.
  revert l g. induction i as [|i IH]; intros l g.
  - by apply outcome_ret.
  - cbn [shuffle_loop]. apply outcome_bind. unfold outcome at 1. simpl.
    intros g'. eapply outcome_impl; [apply IH| |done].
    intros l' ->. apply swap_perm.
Qed.

Lemma shuffle_list_perm {A} (l : list A) g :
  outcome (shuffle_list l) g (fun l' => l' ≡ₚ l) False.
Proof. apply shuffle_loop_perm. Qed.

(** ** Arrays without null elements *)

Lemma null_free_arr l :
  null_free (JArr l) = true <-> Forall (fun x => clean x = true) l.
Proof.
  simpl. induction l as [|x xs IH]; simpl.
  - split; [constructor|done].
  - rewrite andb_true_iff, IH, Forall_cons. done.
Qed.

Lemma null_free_lookup kvs k v :
  null_free (JObj kvs) = true -> lookup_field k kvs = Some v -> null_free v = true.
Proof.
  simpl. induction kvs as [|[k0 v0] rest IH]; simpl; [done|].
  intros [H0 Hrest]%andb_true_iff. destruct (String.eqb k k0).
  - by intros [= <-].
  - by apply IH.
Qed.

Lemma null_free_assign kvs k v :
  null_free (JObj kvs) = true -> null_free v = true ->
  null_free (JObj (assign_field k v kvs)) = true.
Proof.
  simpl. intros Hkvs Hv. induction kvs as [|[k0 v0] rest IH]; simpl.
  - by rewrite Hv.
  - simpl in Hkvs. apply andb_true_iff in Hkvs as [H0 Hrest].
    destruct (String.eqb k k0); simpl.
    + by rewrite Hv, Hrest.
    + by rewrite H0, IH.
Qed.

Lemma null_free_set o k v :
  null_free o = true -> null_free v = true -> null_free (set o k v) = true.
Proof. destruct o; try done. apply null_free_assign. Qed.

Lemma is_null_set o k v : is_null (set o k v) = is_null o.
Proof. by destruct o. Qed.

(** ** Entries of an object under assignment *)

Lemma reordered_entry_key ts o kv kv' : reordered_entry ts o kv kv' -> kv.1 = kv'.1.
Proof. by destruct 1. Qed.

Lemma entries_refl ts o kvs : Forall2 (reordered_entry ts o) kvs kvs.
Proof. induction kvs; constructor; [constructor|done]. Qed.

Lemma entries_assign ts o kvs0 kvs k x x' :
  Forall2 (reordered_entry ts o) kvs0 kvs ->
  lookup_field k kvs0 = Some x ->
  lookup_field k kvs = Some x ->
  reordered_entry ts o (k, x) (k, x') ->
  Forall2 (reordered_entry ts o) kvs0 (assign_field k x' kvs).
Proof.
  intros HF H0 H1 He.
  induction HF as [|[k0 v0] [k1 v1] kvs0 kvs Hkv HF IH]; simpl in *; [done|].
  pose proof (reordered_entry_key _ _ _ _ Hkv) as Hk. simpl in Hk. subst k1.
  destruct (String.eqb_spec k k0) as [->|Hne].
  - injection H0 as ->. injection H1 as ->. by constructor.
  - constructor; [done|]. by apply IH.
Qed.

Lemma field_step_entries ts k when sub kvs0 kvs o' :
  Forall2 (reordered_entry ts (JObj kvs0)) kvs0 kvs ->
  lookup_field k kvs = lookup_field k kvs0 ->
  Target k when sub ∈ ts ->
  guard_ok when (JObj kvs0) ->
  field_step k sub (JObj kvs) o' ->
  exists kvs',
    o' = JObj kvs' /\ Forall2 (reordered_entry ts (JObj kvs0)) kvs0 kvs' /\
    forall k', k <> k' -> lookup_field k' kvs' = lookup_field k' kvs.
Proof.
  intros HF Hk Hin Hg [->|(l & l0 & l' & Hget & Hp & Hl & ->)].
  - by exists kvs.
  - simpl in Hget. exists (assign_field k (JArr l') kvs). split; [done|]. split.
    + eapply entries_assign; [done|by rewrite <-Hk|done|]. by econstructor.
    + intros k' Hne. by apply lookup_assign_ne.
Qed.

Lemma field_step_reordered ts k when sub o o' :
  Target k when sub ∈ ts -> guard_ok when o -> field_step k sub o o' ->
  reordered ts o o'.
Proof.
  intros Hin Hg Hstep. destruct o as [| | | | |kvs];
    try (destruct Hstep as [->|(? & ? & ? & Hget & _)]; [constructor|done]).
  destruct (field_step_entries ts k when sub kvs kvs o') as (kvs' & -> & HF & _);
    auto using entries_refl.
  by constructor.
Qed.

Lemma field_step_get k sub o o' k' :
  field_step k sub o o' -> k <> k' -> get o' k' = get o k'.
Proof.
  intros [->|(? & ? & ? & _ & _ & _ & ->)] Hne; [done|]. by apply get_set_ne.
Qed.

(** ** The callbacks respect the table *)

Lemma shuffle_field_spec k sub cb :
  cb_spec sub cb ->
  forall o g,
    outcome (shuffle_field k cb o) g
      (fun o' => field_step k sub o o' /\
                 (null_free o = true -> null_free o' = true) /\
                 is_null o' = is_null o)
      (null_free o = false).
Proof.
  intros Hcb o g. unfold shuffle_field.
  destruct (get o k) as [[| | | |l|]|] eqn:Hget;
    try (apply outcome_ret; split; [by left|done]).
  apply outcome_bind.
  eapply outcome_impl; [apply shuffle_list_perm| |done].
  intros l0 Hperm g'. apply outcome_bind.
  eapply outcome_impl;
    [apply (map_each_outcome cb
              (fun x y => reordered sub x y /\ (clean x = true -> clean y = true))
              (fun x => clean x = false)); intros; apply Hcb | |].
  - intros l' HF g''. apply outcome_ret. split; [|split].
    + right. exists l, l0, l'. split; [done|]. split; [done|]. split; [|done].
      eapply Forall2_impl; [exact HF|]. by intros ?? [? _].
    + intros Hnf. apply null_free_set; [done|]. apply null_free_arr.
      destruct o; try done. simpl in Hget.
      pose proof (null_free_lookup _ _ _ Hnf Hget) as Hl%null_free_arr.
      rewrite <-Hperm in Hl. clear -Hl HF.
      induction HF as [|x y xs ys [_ Hxy] _ IH]; [constructor|].
      apply Forall_cons in Hl as [Hx Hxs]. constructor; auto.
    + apply is_null_set.
  - intros (x & Hx & Hclean). destruct (null_free o) eqn:Hnf; [|done].
    destruct o; try done. simpl in Hget.
    pose proof (null_free_lookup _ _ _ Hnf Hget) as Hl%null_free_arr.
    rewrite <-Hperm in Hl. rewrite Forall_forall in Hl. apply Hl in Hx. congruence.
Qed.

Lemma keep_spec : cb_spec [] keep.
Proof. intros x g. apply outcome_ret. split; [constructor|done]. Qed.

Lemma guarded_cb_spec k sub cb ts :
  cb_spec sub cb -> Target k None sub ∈ ts ->
  cb_spec ts (fun x => let* _ := lift (prop (Some x) k) in shuffle_field k cb x).
Proof.
  intros Hcb Hin x g. apply outcome_bind.
  destruct x; [done|..]; unfold outcome at 1; simpl; intros g';
    (eapply outcome_impl; [apply (shuffle_field_spec k sub cb Hcb)| |]);
    try (intros y (Hstep & Hnf & Hnull); split;
         [by eapply field_step_reordered|];
         unfold clean; rewrite Hnull; intros [-> ?]%andb_true_iff; simpl; auto);
    try (unfold clean; intros ->; apply andb_false_r).
Qed.

Lemma question_cb_spec : cb_spec [options_target] question_cb.
Proof. apply (guarded_cb_spec "options" [] keep); [apply keep_spec|left]. Qed.

Lemma option_cb_spec : cb_spec [Target "whys" None []] option_cb.
Proof. apply (guarded_cb_spec "whys" [] keep); [apply keep_spec|left]. Qed.

Lemma case_cb_spec : cb_spec [Target "options" None [Target "whys" None []]] case_cb.
Proof.
  apply (guarded_cb_spec "options" [Target "whys" None []] option_cb);
    [apply option_cb_spec|left].
Qed.

Lemma section_cb_spec : cb_spec section_targets section_cb.
Proof.
  intros s g. unfold section_cb. apply outcome_bind.
  assert (forall g',
    outcome
      (let* s1 := if is_str "quiz" (get s "type")
                  then shuffle_field "questions" question_cb s else ret s in
       let* s2 := if is_str "sort" (get s1 "type")
                  then shuffle_field "sortCards" keep s1 else ret s1 in
       if is_str "capital" (get s2 "type")
       then shuffle_field "rows" question_cb s2 else ret s2) g'
      (fun y => reordered section_targets s y /\
                (null_free s = true -> null_free y = true) /\
                is_null y = is_null s)
      (null_free s = false)) as Hbody.
  { intros g'. apply outcome_bind.
    destruct (is_str "quiz" (get s "type")) eqn:E1.
    { apply is_str_true in E1.
      eapply outcome_impl;
        [apply (shuffle_field_spec "questions" [options_target] question_cb
                  question_cb_spec)| |done].
      intros s1 (Hstep & Hnf & Hnull) g1.
      apply outcome_bind.
      rewrite (field_step_get _ _ _ _ "type" Hstep), E1 by done. simpl.
      apply outcome_ret. intros g2.
      rewrite (field_step_get _ _ _ _ "type" Hstep), E1 by done. simpl.
      apply outcome_ret. split; [|done].
      eapply (field_step_reordered _ _ (Some "quiz")); [|exact E1|exact Hstep].
      set_solver. }
    apply outcome_ret. intros g1. apply outcome_bind.
    destruct (is_str "sort" (get s "type")) eqn:E2.
    { apply is_str_true in E2.
      eapply outcome_impl;
        [apply (shuffle_field_spec "sortCards" [] keep keep_spec)| |done].
      intros s2 (Hstep & Hnf & Hnull) g2.
      rewrite (field_step_get _ _ _ _ "type" Hstep), E2 by done. simpl.
      apply outcome_ret. split; [|done].
      eapply (field_step_reordered _ _ (Some "sort")); [|exact E2|exact Hstep].
      set_solver. }
    apply outcome_ret. intros g2.
    destruct (is_str "capital" (get s "type")) eqn:E3.
    { apply is_str_true in E3.
      eapply outcome_impl;
        [apply (shuffle_field_spec "rows" [options_target] question_cb
                  question_cb_spec)| |done].
      intros s3 (Hstep & Hnf & Hnull). split; [|done].
      eapply (field_step_reordered _ _ (Some "capital")); [|exact E3|exact Hstep].
      set_solver. }
    apply outcome_ret. split; [constructor|done]. }
  destruct s; [done|..]; unfold outcome at 1; simpl; intros g';
    (eapply outcome_impl; [apply Hbody| |]);
    try (intros y (Hr & Hnf & Hnull); split; [done|];
         unfold clean; rewrite Hnull; intros [-> ?]%andb_true_iff; simpl; auto);
    try (unfold clean; intros ->; apply andb_false_r).
Qed.

Lemma two_fields_spec ts k1 k2 o :
  k1 <> k2 -> Target k1 None [] ∈ ts -> Target k2 None [] ∈ ts ->
  forall g,
    outcome (let* r1 := shuffle_field k1 keep o in shuffle_field k2 keep r1) g
      (fun o' => reordered ts o o') (null_free o = false).
Proof.
  intros Hne H1 H2 g. apply outcome_bind.
  eapply outcome_impl; [apply (shuffle_field_spec k1 [] keep keep_spec)| |done].
  intros r1 (Hstep1 & Hnf1 & _) g1.
  eapply outcome_impl; [apply (shuffle_field_spec k2 [] keep keep_spec)| |].
  - intros o' (Hstep2 & _ & _).
    destruct o as [| | | | |kvs];
      try (destruct Hstep1 as [->|(? & ? & ? & ? & _)]; [|done];
           destruct Hstep2 as [->|(? & ? & ? & ? & _)]; [constructor|done]).
    destruct (field_step_entries ts k1 None [] kvs kvs r1)
      as (kvs1 & -> & HF1 & Hk1); auto using entries_refl; [done|].
    destruct (field_step_entries ts k2 None [] kvs kvs1 o')
      as (kvs2 & -> & HF2 & _); auto; [done|].
    by constructor.
  - intros Hr1. destruct (null_free o); [|done]. by rewrite Hnf1 in Hr1.
Qed.

Lemma map_each_keep l g : map_each keep l g = (Ok l, g).
Proof.
  induction l as [|x xs IH]; [done|].
  cbn [map_each]. unfold bind, keep at 1, ret at 1. by rewrite IH.
Qed.

Lemma shuffle_list_total {A} (l : list A) g :
  exists l' g', shuffle_list l g = (Ok l', g') /\ l' ≡ₚ l.
Proof.
  pose proof (shuffle_list_perm l g) as H. unfold outcome in H.
  destruct (shuffle_list l g) as [[l'|e] g'] eqn:E; simpl in H; [|done].
  by exists l', g'.
Qed.

(** Reordering keeps the multiset of leaf values. *)
Lemma reordered_leaves ts v v' : reordered ts v v' -> leaves v' ≡ₚ leaves v.
Proof.
  revert ts v v'. fix go 4. intros ts v v' [ts0 v0|ts0 kvs0 kvs0' Hentries]; [done|].
  simpl. revert Hentries. generalize (JObj kvs0) as o. intros o Hentries.
  induction Hentries as [|kv kv' kvs kvs' Hentry _ IH]; simpl; [done|].
  apply Permutation_app; [|exact IH]. clear IH.
  destruct Hentry as [ts1 o1 [k x]|ts1 o1 k when sub l l0 l' _ _ Hperm Hsub];
    [done|].
  simpl. transitivity (flat_map leaves l0).
  - clear Hperm. induction Hsub as [|y y' ys ys' Hy _ IH]; simpl; [done|].
    apply Permutation_app; [|exact IH]. by apply (go sub).
  - clear Hsub. symmetry. induction Hperm; simpl; try done.
    + by apply Permutation_app.
    + rewrite !app_assoc. apply Permutation_app; [apply Permutation_app_comm|done].
    + by etransitivity.
Qed.

(** A target without sub-targets is plainly permuted. *)
Lemma entries_nil o kvs kvs' : Forall2 (reordered_entry [] o) kvs kvs' -> kvs' = kvs.
Proof.
  induction 1 as [|kv kv' kvs kvs' Hentry _ IH]; [done|].
  f_equal; [|done].
  remember [] as ts1 eqn:Hts in Hentry.
  destruct Hentry as [|? ? ? ? ? ? ? ? Hin]; [done|]. subst.
  by apply elem_of_nil in Hin.
Qed.

Lemma reordered_nil v v' : reordered [] v v' -> v' = v.
Proof.
  intros H. inversion H as [ts0 v0|ts0 kvs0 kvs0' Hentries]; subst; [done|].
  f_equal. by eapply entries_nil.
Qed.

(** What [reordered] says of one property of the payload. *)
Lemma reordered_entry_values ts o k k' x x' :
  reordered_entry ts o (k, x) (k', x') ->
  k' = k /\
  leaves x' ≡ₚ leaves x /\
  (k ∉ target_key <$> ts -> x' = x) /\
  ((forall t, t ∈ ts -> target_key t = k -> target_sub t = []) ->
   forall l, x = JArr l -> exists l', x' = JArr l' /\ l' ≡ₚ l).
Proof.
  intros Hentry.
  inversion Hentry as [|? ? ? when sub l l0 l' Hin Hg Hperm Hsub]; subst.
  { split; [done|]. split; [done|]. split; [done|]. intros _ l ->. by exists l. }
  split; [done|]. split; [|split].
  - assert (leaves (JObj [("", JArr l')]) ≡ₚ leaves (JObj [("", JArr l)])) as Hl.
    { apply (reordered_leaves [Target "" None sub]).
      constructor. constructor; [|constructor].
      eapply entry_shuffled; [left|done|done|done]. }
    simpl in Hl. by rewrite !app_nil_r in Hl.
  - intros Hnot. exfalso. apply Hnot.
    by apply (list_elem_of_fmap_2 target_key) in Hin.
  - intros Hflat l1 [= <-]. specialize (Hflat _ Hin eq_refl). simpl in Hflat. subst sub.
    exists l'. split; [done|].
    assert (l' = l0) as ->; [|done].
    clear -Hsub. induction Hsub as [|y y' ys ys' Hy _ IH]; [done|].
    apply reordered_nil in Hy. by subst.
Qed.




Lemma outcome_lift_ok {A B} (a : A) (f : A -> M B) g (P : B -> Prop) Q :
  outcome (f a) g P Q -> outcome (bind (lift (Ok a)) f) g P Q.
Proof. done. Qed.

(** What [_randomizePayload] returns is its working copy with the arrays of
    the shuffle table reordered; it throws only on a null array element of
    that copy. *)
Lemma randomized_is_reordered (data : json) (g : rng) :
  outcome (_randomizePayload (Some data)) g
    (fun out => exists o,
         out = Some o /\
         reordered (shuffle_table (game_type_of (working_copy data)))
                   (working_copy data) o)
    (null_free (working_copy data) = false).
Proof.
  unfold _randomizePayload.
  destruct data as [|b|q|s|l|kvs];
    try (cbn [typeof_object negb]; rewrite ?orb_true_r; apply outcome_ret;
         eexists; split; [done|constructor]).
  cbn [truthy typeof_object negb orb].
  rewrite deep_clone_written. apply outcome_lift_ok.
  apply outcome_bind. unfold working_copy.
  set (o := written (JObj kvs)). set (type := game_type_of o).
    assert (forall (m : M json) ts,
               outcome m g (fun r => reordered ts o r) (null_free o = false) ->
               outcome m g
                 (fun r => forall g', outcome (ret (Some r)) g'
                    (fun out => exists o', out = Some o' /\ reordered ts o o')
                    (null_free o = false))
                 (null_free o = false)) as Hwrap.
    { intros m ts Hm. eapply outcome_impl; [exact Hm| |done].
      intros r Hr g'. apply outcome_ret. by exists r. }
    apply Hwrap. unfold shuffle_table.
    destruct (is_str "escape_game" type) eqn:E1.
    { apply is_str_true in E1. rewrite E1.
      destruct (isArray (get o "sections")); simpl;
        [|apply outcome_ret; constructor].
      eapply outcome_impl;
        [apply (shuffle_field_spec "sections" section_targets section_cb
                  section_cb_spec)| |done].
      intros r (Hstep & _). eapply (field_step_reordered _ _ None); [|done|exact Hstep].
      set_solver. }
    destruct (is_str "matching_puzzle" type) eqn:E2.
    { apply is_str_true in E2. rewrite E2.
      destruct (isArray (get o "sets")); simpl;
        [|apply outcome_ret; constructor].
      eapply outcome_impl;
        [apply (shuffle_field_spec "sets" [] keep keep_spec)| |done].
      intros r (Hstep & _). eapply (field_step_reordered _ _ None); [|done|exact Hstep].
      set_solver. }
    destruct (is_str "sortier_spiel" type) eqn:E3.
    { apply is_str_true in E3. rewrite E3.
      destruct (isArray (get o "cards")); simpl;
        [|apply outcome_ret; constructor].
      apply two_fields_spec; [done|set_solver..]. }
    destruct (is_str "quick_quiz" type) eqn:E4.
    { apply is_str_true in E4. rewrite E4.
      destruct (isArray (get o "questions")); simpl;
        [|apply outcome_ret; constructor].
      apply two_fields_spec; [done|set_solver..]. }
    destruct (is_str "wer_bin_ich" type) eqn:E5.
    { simpl. apply two_fields_spec; [done|set_solver..]. }
    destruct (is_str "what_and_why" type) eqn:E6.
    { destruct (isArray (get o "cases")); simpl;
        [|apply outcome_ret; constructor].
      eapply outcome_impl;
        [apply (shuffle_field_spec "cases" _ case_cb case_cb_spec)| |done].
      intros r (Hstep & _). eapply (field_step_reordered _ _ None); [|done|exact Hstep].
      set_solver. }
    simpl. apply outcome_ret. constructor.
Qed.

Lemma working_copy_kept (data : json) :
  numbers_kept data = true -> working_copy data = data.
Proof. intros H. destruct data; try done; by apply written_kept. Qed.




(** ** Loading a payload *)

(** C10: an input that is undefined, null or not of object type is returned
    as it is: no copy is made (the heap is left as it was) and no random
    number is drawn.  Stated on JSON values and on values with references. *)
Theorem randomize_non_object_identity
    (data : jsval) (v : value) (h : heap) (g : rng) :
  (data = None \/ data = Some JNull \/ typeof_object data = false ->
   _randomizePayload data g = (Ok data, g)) /\
  (v = VUndef \/ v = VNull \/ v_typeof_object v = false ->
   h_randomizePayload v h g = (Ok v, h, g)).
Proof.
  split.
  - unfold _randomizePayload.
    intros [->|[->|H]]; [done..|]. rewrite H. simpl. by rewrite orb_true_r.
  - unfold h_randomizePayload.
    intros [->|[->|H]]; [done..|]. rewrite H. simpl. by rewrite orb_true_r.
Qed.

Lemma randomize_non_object_identity_witness :
  _randomizePayload (Some (JStr "abc")) counting = (Ok (Some (JStr "abc")), counting) /\
  h_randomizePayload (VNum 7) sample_heap counting = (Ok (VNum 7), sample_heap, counting).
Proof.
  split.
  - apply (proj1 (randomize_non_object_identity (Some (JStr "abc")) VUndef [] counting)).
    right; right; reflexivity.
  - apply (proj2 (randomize_non_object_identity None (VNum 7) sample_heap counting)).
    right; right; reflexivity.
Defined.

Lemma load_from_session_hit ss key v g :
  ss !! key = Some (Encoded v) ->
  typeof_object (Some v) = true -> v <> JNull ->
  load_from_session key ss g =
  match _randomizePayload (Some v) g with
  | (Ok r, g') => (Ok (Some r), g')
  | (Throw _, g') => (Ok None, g')
  end.
Proof.
  intros Hss Hobj Hnull. unfold load_from_session, try_catch. rewrite Hss.
  cbn [text_truthy JSON_parse lift bind]. rewrite Hobj, andb_true_r.
  assert (truthy (Some v) = true) as -> by (by destruct v).
  unfold bind. by destruct (_randomizePayload (Some v) g) as [[r|e] g'].
Qed.

Lemma load_from_session_unusable key ss g :
  unusable (ss !! key) -> load_from_session key ss g = (Ok None, g).
Proof.
  unfold unusable, load_from_session, try_catch.
  destruct (ss !! key) as [raw|]; [|done].
  intros [->|H]; [done|].
  destruct (text_truthy raw); [|done].
  unfold bind, lift. destruct (JSON_parse raw) as [parsed|e]; [|done].
  by rewrite H.
Qed.

Lemma load_from_network_loaded net fileId ss data g :
  fetch_json net (fetchUrl fileId) = Ok data ->
  load_from_network net fileId (JSON_SESSION_PREFIX +:+ fileId) ss g =
  match _randomizePayload (Some data) g with
  | (Ok randomized, g') =>
      (Ok (randomized,
           <[JSON_SESSION_PREFIX +:+ fileId :=
               match randomized with
               | Some r => JSON_stringify r
               | None => Garbage "undefined"
               end]> ss), g')
  | (Throw e, g') => (Throw e, g')
  end.
Proof.
  intros Hfetch. unfold load_from_network, bind, lift. fold (fetchUrl fileId).
  rewrite Hfetch. by destruct (_randomizePayload (Some data) g) as [[r|e] g'].
Qed.

(** C1, as the code has it: every activation of a json node that carries
    data writes that data, not randomized, under 'game_payload_' + id.
    [_loadPayload], finding an object stored under its key, returns a new
    randomization of the stored value and leaves the storage as it is; when
    that randomization throws it goes on to load the file.  Finding nothing
    usable under its key, it loads the file, returns its randomization and
    stores that randomized payload under the key, where the next call finds
    it and randomizes it again. *)
Theorem load_payload_randomizes_stored_value
    (net : network) (rootTree : list node) (id nm : string)
    (children : option (list node)) (d : json)
    (fileId : string) (ss : storage) (v data : json) (g : rng) :
  (findNode rootTree id = Some (Node id nm false (Some Kjson) children (Some d)) ->
   truthy (Some d) = true ->
   renderViewForId net rootTree id ss =
   Rendered (GameFrame id) rootTree (<[("game_payload_" +:+ id) := JSON_stringify d]> ss))
  /\
  (ss !! (JSON_SESSION_PREFIX +:+ fileId) = Some (Encoded v) ->
   typeof_object (Some v) = true -> v <> JNull ->
   _loadPayload net fileId ss g =
   match _randomizePayload (Some v) g with
   | (Ok r, g') => (Ok (r, ss), g')
   | (Throw _, g') =>
       load_from_network net fileId (JSON_SESSION_PREFIX +:+ fileId) ss g'
   end)
  /\
  (unusable (ss !! (JSON_SESSION_PREFIX +:+ fileId)) ->
   fetch_json net (fetchUrl fileId) = Ok data ->
   _loadPayload net fileId ss g =
   match _randomizePayload (Some data) g with
   | (Ok randomized, g') =>
       (Ok (randomized,
            <[JSON_SESSION_PREFIX +:+ fileId :=
                match randomized with
                | Some r => JSON_stringify r
                | None => Garbage "undefined"
                end]> ss), g')
   | (Throw e, g') => (Throw e, g')
   end).
Proof.
  split; [|split].
  - intros Hfind Hd. unfold renderViewForId. rewrite Hfind.
    repeat (rewrite Hd; cbv beta iota zeta). reflexivity.
  - intros Hss Hobj Hnull. unfold _loadPayload, bind.
    rewrite (load_from_session_hit _ _ v) by done.
    by destruct (_randomizePayload (Some v) g) as [[r|e] g'].
  - intros Hss Hfetch. unfold _loadPayload, bind.
    rewrite load_from_session_unusable by done.
    by apply load_from_network_loaded.
Qed.

Lemma load_payload_randomizes_stored_value_witness :
  let ss : storage := {[ "game_payload_database/m.json" := Encoded (puzzle [JNum 1; JNum 2]) ]} in
  let net : network := fun _ => Resp true (Encoded (puzzle [JNum 1; JNum 2])) in
  renderViewForId offline [puzzle_node] "database/m.json" ∅ =
    Rendered (GameFrame "database/m.json") [puzzle_node] ss
  /\
  _loadPayload offline "database/m.json" ss counting =
    (Ok (Some (puzzle [JNum 2; JNum 1]), ss), fun k => counting (S k))
  /\
  _loadPayload net "database/m.json" ∅ counting =
    (Ok (Some (puzzle [JNum 2; JNum 1]),
         {[ "game_payload_database/m.json" := Encoded (puzzle [JNum 2; JNum 1]) ]}),
     fun k => counting (S k)).
Proof.
  intros ss net. split; [|split].
  - apply (proj1 (load_payload_randomizes_stored_value offline [puzzle_node]
                    "database/m.json" "m.json" None (puzzle [JNum 1; JNum 2])
                    "database/m.json" ∅ JNull JNull counting));
      reflexivity.
  - apply (proj1 (proj2 (load_payload_randomizes_stored_value offline [puzzle_node]
                    "database/m.json" "m.json" None (puzzle [JNum 1; JNum 2])
                    "database/m.json" ss (puzzle [JNum 1; JNum 2]) JNull counting)));
      [reflexivity|reflexivity|discriminate].
  - apply (proj2 (proj2 (load_payload_randomizes_stored_value net [puzzle_node]
                    "database/m.json" "m.json" None (puzzle [JNum 1; JNum 2])
                    "database/m.json" ∅ JNull (puzzle [JNum 1; JNum 2]) counting)));
      [exact I|reflexivity].
Defined.

(** C1 as stated fails: with the payload of a node stored in the session,
    [_loadPayload] returns a shuffled payload, not the stored one, and a
    second activation of the same node returns yet another ordering. *)
Lemma cached_payload_is_reshuffled :
  let id := "database/m.json" in
  let ss1 := rv_session (renderViewForId offline [puzzle_node] id ∅) in
  let load1 := _loadPayload offline id ss1 counting in
  let ss2 := rv_session (renderViewForId offline [puzzle_node] id ss1) in
  let load2 := _loadPayload offline id ss2 load1.2 in
  ss1 !! (JSON_SESSION_PREFIX +:+ id) = Some (Encoded (puzzle [JNum 1; JNum 2])) /\
  load1.1 = Ok (Some (puzzle [JNum 2; JNum 1]), ss1) /\
  load2.1 = Ok (Some (puzzle [JNum 1; JNum 2]), ss2) /\
  load1.1 <> Ok (Some (puzzle [JNum 1; JNum 2]), ss1) /\
  (forall p1 p2 s1 s2, load1.1 = Ok (p1, s1) -> load2.1 = Ok (p2, s2) -> p1 <> p2).
Proof.
  intros id ss1 load1 ss2 load2.
  assert (load1.1 = Ok (Some (puzzle [JNum 2; JNum 1]), ss1)) as H1
    by (vm_compute; reflexivity).
  assert (load2.1 = Ok (Some (puzzle [JNum 1; JNum 2]), ss2)) as H2
    by (vm_compute; reflexivity).
  split; [vm_compute; reflexivity|]. split; [done|]. split; [done|]. split.
  - rewrite H1. intros [=].
  - intros p1 p2 s1 s2. rewrite H1, H2. intros [= <- <-] [= <- <-]. intros [=].
Qed.

(** ** Navigation state: persistence *)

Lemma synced_saveAppState a : synced (saveAppState a).
Proof. unfold synced, saveAppState. simpl. apply lookup_insert_eq. Qed.

Lemma lookup_assign_eq k v kvs : lookup_field k (assign_field k v kvs) = Some v.
Proof.
  induction kvs as [|[k0 v0] rest IH]; simpl.
  - by rewrite String.eqb_refl.
  - destruct (String.eqb_spec k k0) as [->|Hne]; simpl.
    + by rewrite String.eqb_refl.
    + destruct (String.eqb_spec k k0); [done|apply IH].
Qed.

(** C7, as the code has it.  Selecting a node and opening or closing the
    drawer each end with the whole state written to localStorage, and so
    does toggling a folder when [openedIds] is an array; when it is not,
    [toggleNode] throws before anything is changed or written.  During a
    drag of the resizer a mouse move sets [drawerWidth] in memory, leaves
    the other fields and localStorage as they are, and the release of the
    button writes the state.  No handler other than the mouse move makes a
    persisted state that agrees with the state in memory differ from it. *)
Theorem transitions_write_through (net : network) (a : app) (e : event) :
  (forall id, synced (step net a (SelectNode id))) /\
  (forall isOpen, synced (step net a (SetDrawer isOpen))) /\
  synced (step net a ToggleDrawer) /\
  (forall id,
      if isArray (lookup_field "openedIds" (appState a))
      then synced (step net a (ToggleNode id))
      else toggleNode id a = Throw TypeError /\ step net a (ToggleNode id) = a) /\
  (drawerResizer a && isResizing a = true ->
   (forall clientX innerWidth,
       let a' := step net a (MouseMove clientX innerWidth) in
       (exists w, lookup_field "drawerWidth" (appState a') = Some (JNum w)) /\
       (forall k, k <> "drawerWidth" ->
                  lookup_field k (appState a') = lookup_field k (appState a)) /\
       localStorage a' = localStorage a) /\
   synced (step net a MouseUp)) /\
  (is_mousemove e = false -> synced a -> synced (step net a e)).
Proof.
  assert (forall id,
             if isArray (lookup_field "openedIds" (appState a))
             then synced (step net a (ToggleNode id))
             else toggleNode id a = Throw TypeError /\ step net a (ToggleNode id) = a)
    as Htoggle.
  { intros id. simpl. unfold toggleNode.
    destruct (lookup_field "openedIds" (appState a)) as [[| | | |opened|]|];
      simpl; try done.
    apply (synced_saveAppState (with_appState a _)). }
  split; [intros id; apply (synced_saveAppState (with_appState a _))|].
  split; [intros isOpen; apply (synced_saveAppState (with_appState a _))|].
  split; [apply (synced_saveAppState (with_appState a _))|].
  split; [exact Htoggle|]. split.
  - intros Hdrag. split.
    + intros clientX innerWidth. simpl. unfold on_mousemove. rewrite Hdrag.
      cbn [with_appState appState localStorage].
      split; [eexists; apply lookup_assign_eq|]. split; [|done].
      intros k Hk. by apply lookup_assign_ne.
    + simpl. unfold on_mouseup. rewrite Hdrag. apply synced_saveAppState.
  - destruct e as [id|id|isOpen| | | |]; try done; intros _ Hs.
    + apply (synced_saveAppState (with_appState a _)).
    + specialize (Htoggle id).
      destruct (isArray (lookup_field "openedIds" (appState a))); [done|].
      destruct Htoggle as [_ ->]. done.
    + apply (synced_saveAppState (with_appState a _)).
    + apply (synced_saveAppState (with_appState a _)).
    + simpl. unfold on_mousedown. by destruct (drawerResizer a).
    + simpl. unfold on_mouseup. destruct (drawerResizer a && isResizing a); [|done].
      apply synced_saveAppState.
Qed.

Lemma transitions_write_through_witness :
  let a := step offline (step offline fresh_app (SetDrawer true)) MouseDown in
  synced (step offline a MouseUp) /\
  synced (step offline a (ToggleNode "database/a")).
Proof.
  intros a. split.
  - apply (proj2 (proj1 (proj2 (proj2 (proj2 (proj2
             (transitions_write_through offline a MouseUp))))) eq_refl)).
  - apply (proj2 (proj2 (proj2 (proj2 (proj2
             (transitions_write_through offline a (ToggleNode "database/a")))))));
      [reflexivity|].
    apply (proj2 (proj2 (proj2 (proj2 (proj2
             (transitions_write_through offline
                (step offline fresh_app (SetDrawer true)) MouseDown)))))); [reflexivity|].
    apply (proj1 (proj2 (transitions_write_through offline fresh_app MouseUp))).
Defined.

(** C7 as stated fails for the resize: after a mouse move of a drag the
    width in memory is the new one while localStorage still holds the state
    of the last write. *)
Lemma resize_is_not_written_through :
  let a1 := step offline fresh_app (SetDrawer true) in
  let a2 := step offline (step offline a1 MouseDown) (MouseMove 400 1000) in
  synced a1 /\
  lookup_field "drawerWidth" (appState a2) = Some (JNum 400) /\
  localStorage a2 !! STATE_KEY = Some (JSON_stringify (JObj (appState a1))) /\
  lookup_field "drawerWidth" (appState a1) = Some (JNum 320) /\
  ~ synced a2.
Proof.
  intros a1 a2. split; [apply synced_saveAppState|].
  split; [reflexivity|]. split; [vm_compute; reflexivity|]. split; [reflexivity|].
  unfold synced. vm_compute. intros [=].
Qed.


(** ** Navigation state: loading *)

Lemma lookup_field_app k kvs1 kvs2 :
  lookup_field k (kvs1 ++ kvs2) =
  match lookup_field k kvs1 with
  | Some v => Some v
  | None => lookup_field k kvs2
  end.
Proof.
  induction kvs1 as [|[k0 v0] rest IH]; simpl; [done|].
  by destruct (String.eqb k k0).
Qed.

Lemma lookup_insert_index n k v kvs k' :
  lookup_field k kvs = None ->
  lookup_field k' (insert_index n k v kvs) =
  if String.eqb k' k then Some v else lookup_field k' kvs.
Proof.
  induction kvs as [|[k0 v0] rest IH]; simpl; [done|].
  destruct (String.eqb_spec k k0) as [->|Hne]; [done|]. intros Hk.
  destruct (array_index k0) as [n'|]; [destruct (n' <? n)%N|]; simpl; try done.
  rewrite (IH Hk).
  destruct (String.eqb_spec k' k) as [Heq|?]; [|done].
  rewrite Heq. by destruct (String.eqb_spec k k0).
Qed.

(** After [target[k] = v] the property [k] is [v] and the others are as
    they were. *)
Lemma lookup_put k v kvs k' :
  lookup_field k' (put k v kvs) =
  if String.eqb k' k then Some v else lookup_field k' kvs.
Proof.
  unfold put.
  destruct (String.eqb_spec k' k) as [->|Hne].
  - destruct (lookup_field k kvs) eqn:Hk; [apply lookup_assign_eq|].
    destruct (array_index k); [|apply lookup_assign_eq].
    rewrite lookup_insert_index by done. by rewrite String.eqb_refl.
  - destruct (lookup_field k kvs) eqn:Hk; [by apply lookup_assign_ne|].
    destruct (array_index k); [|by apply lookup_assign_ne].
    rewrite lookup_insert_index by done. by apply String.eqb_neq in Hne as ->.
Qed.

Lemma has_own_put k v kvs k' :
  has_own k' (put k v kvs) = String.eqb k' k || has_own k' kvs.
Proof.
  unfold has_own. rewrite lookup_put. by destruct (String.eqb k' k).
Qed.

Lemma has_own_Object_assign_proto target kvs :
  has_own "__proto__" (fold_left assign_one kvs target) = has_own "__proto__" target.
Proof.
  revert target. induction kvs as [|[k0 v0] rest IH]; intros target; simpl; [done|].
  rewrite IH. unfold assign_one. simpl.
  destruct (String.eqb_spec k0 "__proto__") as [->|Hne]; simpl.
  - destruct (has_own "__proto__" target) eqn:Hown; simpl; [|done].
    rewrite has_own_put. by rewrite Hown, orb_true_r.
  - rewrite has_own_put. apply String.eqb_neq in Hne.
    by rewrite String.eqb_sym, Hne.
Qed.

(** After Object.assign a property holds the value its last occurrence in
    the source gives it, and the value of the target if the source has
    none; the name __proto__ is no property afterwards unless it was one
    of the target. *)
Lemma lookup_Object_assign k target source :
  lookup_field k (Object_assign target source) =
  if String.eqb k "__proto__" && negb (has_own "__proto__" target) then None
  else
    match lookup_field k (rev (own_properties source)) with
    | Some v => Some v
    | None => lookup_field k target
    end.
Proof.
  unfold Object_assign. generalize (own_properties source) as kvs.
  intros kvs. revert target.
  induction kvs as [|[k0 v0] rest IH]; intros target; simpl.
  { destruct (String.eqb_spec k "__proto__") as [->|]; [|done].
    unfold has_own. by destruct (lookup_field "__proto__" target). }
  rewrite IH, lookup_field_app.
  assert (has_own "__proto__" (assign_one target (k0, v0)) = has_own "__proto__" target)
    as ->.
  { apply (has_own_Object_assign_proto target [(k0, v0)]). }
  destruct (String.eqb k "__proto__" && negb (has_own "__proto__" target)) eqn:Hblocked;
    [done|].
  destruct (lookup_field k (rev rest)); [done|].
  unfold assign_one. simpl.
  destruct (String.eqb_spec k k0) as [<-|Hne].
  - rewrite Hblocked. rewrite lookup_put. by rewrite String.eqb_refl.
  - destruct (String.eqb k0 "__proto__" && negb (has_own "__proto__" target)); [done|].
    rewrite lookup_put. by apply String.eqb_neq in Hne as ->.
Qed.

(** C8, as the code has it: [loadAppState] never throws; a stored value that
    is missing, empty or rejected by JSON.parse leaves every field as it was
    (the defaults); a stored value that parses is copied over the state
    property by property, whatever the values are: a property of the stored
    value replaces the field, a field the stored value lacks keeps its
    default.  The one name that is not copied is __proto__: Object.assign
    hands it to the setter of Object.prototype, and it is no property of the
    state afterwards. *)
Theorem load_state_merges_stored_value
    (ls : storage) (st : list (string * json)) (raw : text) (parsed : json)
    (e : error) (k : string) :
  (exists st', loadAppState ls st = Ok st') /\
  (ls !! STATE_KEY = None -> loadAppState ls st = Ok st) /\
  (ls !! STATE_KEY = Some raw -> JSON_parse raw = Throw e ->
   loadAppState ls st = Ok st) /\
  (ls !! STATE_KEY = Some raw -> JSON_parse raw = Ok parsed ->
   exists st',
     loadAppState ls st = Ok st' /\
     (k <> "__proto__" ->
      lookup_field k st' =
      match lookup_field k (rev (own_properties parsed)) with
      | Some v => Some v
      | None => lookup_field k st
      end) /\
     (lookup_field "__proto__" st = None -> lookup_field "__proto__" st' = None)).
Proof.
  unfold loadAppState, loadAppState_try. repeat split.
  - destruct (ls !! STATE_KEY) as [r|]; [|by eexists].
    destruct (text_truthy r); [|by eexists].
    destruct (JSON_parse r); by eexists.
  - by intros ->.
  - intros -> Hp. rewrite Hp. by destruct (text_truthy raw).
  - intros -> Hp. rewrite Hp.
    assert (text_truthy raw = true) as ->.
    { destruct raw as [| |[|]]; try done. }
    eexists. split; [done|]. split.
    + intros Hk. rewrite lookup_Object_assign.
      by apply String.eqb_neq in Hk as ->.
    + intros Hnone. rewrite lookup_Object_assign. unfold has_own. by rewrite Hnone.
Qed.

Lemma load_state_merges_stored_value_witness :
  let ls : storage :=
    {[ STATE_KEY := Encoded (JObj [("drawerOpen", JBool true);
                                   ("__proto__", JObj [("drawerWidth", JNum 1)])]) ]} in
  exists st',
    loadAppState ls default_appState = Ok st' /\
    lookup_field "drawerOpen" st' = Some (JBool true) /\
    lookup_field "drawerWidth" st' = Some (JNum 320) /\
    lookup_field "__proto__" st' = None.
Proof.
  intros ls.
  set (parsed := JObj [("drawerOpen", JBool true);
                       ("__proto__", JObj [("drawerWidth", JNum 1)])]).
  destruct (load_state_merges_stored_value ls default_appState
              (Encoded parsed) parsed SyntaxError "drawerOpen")
    as (_ & _ & _ & H).
  destruct H as (st' & Hload & Hk & Hproto); [reflexivity|reflexivity|].
  destruct (load_state_merges_stored_value ls default_appState
              (Encoded parsed) parsed SyntaxError "drawerWidth")
    as (_ & _ & _ & H').
  destruct H' as (st'' & Hload' & Hk' & _); [reflexivity|reflexivity|].
  assert (st'' = st') as -> by congruence.
  exists st'. split; [exact Hload|]. split; [by apply Hk|].
  split; [by apply Hk'|by apply Hproto].
Defined.

(** C8 as stated fails: a stored field of the wrong type is applied, not
    replaced by its default; and one member that is not JSON makes the whole
    stored value unusable, so a validly stored field next to it is not
    applied. *)
Lemma load_state_has_no_field_fallback :
  (let ls : storage :=
     {[ STATE_KEY := Encoded (JObj [("drawerWidth", JStr "wide")]) ]} in
   field_valid "drawerWidth" (JStr "wide") = false /\
   exists st',
     loadAppState ls default_appState = Ok st' /\
     lookup_field "drawerWidth" st' = Some (JStr "wide") /\
     lookup_field "drawerWidth" st' <> lookup_field "drawerWidth" default_appState)
  /\
  (let ls : storage :=
     {[ STATE_KEY := Damaged [("selectedId", Some (JStr "database/a.json"));
                              ("drawerWidth", None)] ]} in
   field_valid "selectedId" (JStr "database/a.json") = true /\
   exists st',
     loadAppState ls default_appState = Ok st' /\
     lookup_field "selectedId" st' = Some JNull /\
     lookup_field "selectedId" st' <> Some (JStr "database/a.json")).
Proof.
  split.
  - split; [reflexivity|]. eexists. split; [vm_compute; reflexivity|].
    split; [reflexivity|]. simpl. intros [=].
  - split; [reflexivity|]. eexists. split; [vm_compute; reflexivity|].
    split; [reflexivity|]. simpl. intros [=].
Qed.

(** ** The local scan *)

Lemma insert_sorted_perm {A} (cmp : A -> A -> Z) x l :
  insert_sorted cmp x l ≡ₚ x :: l.
Proof.
  induction l as [|y rest IH]; simpl; [done|].
  destruct (cmp x y <=? 0)%Z; [done|]. by rewrite IH, Permutation_swap.
Qed.

Lemma sort_perm {A} (cmp : A -> A -> Z) l : sort cmp l ≡ₚ l.
Proof.
  induction l as [|x rest IH]; simpl; [done|].
  by rewrite insert_sorted_perm, IH.
Qed.

Lemma dirent_depth_in name entries items :
  Dir name entries ∈ items -> (listing_depth entries < listing_depth items)%nat.
Proof.
  induction items as [|it rest IH]; [by intros ?%elem_of_nil|].
  intros [<-|Hin]%elem_of_cons; unfold listing_depth in *; simpl.
  - fold (listing_depth entries). unfold listing_depth. lia.
  - specialize (IH Hin). lia.
Qed.

Lemma flat_map_ext_elem {A B} (f g : A -> list B) l :
  (forall x, x ∈ l -> f x = g x) -> flat_map f l = flat_map g l.
Proof.
  induction l as [|x rest IH]; intros H; simpl; [done|].
  rewrite H by left. f_equal. apply IH. intros y Hy. apply H. by right.
Qed.

Lemma elem_of_flat_map {A B} (f : A -> list B) l y :
  y ∈ flat_map f l <-> exists x, x ∈ l /\ y ∈ f x.
Proof.
  induction l as [|x rest IH]; simpl.
  - split; [by intros ?%elem_of_nil|]. by intros (x & ?%elem_of_nil & _).
  - rewrite elem_of_app, IH. split.
    + intros [H|(x' & H1 & H2)]; [exists x; split; [left|done]|].
      exists x'. split; [by right|done].
    + intros (x' & [->|H1]%elem_of_cons & H2); [by left|]. right. by exists x'.
Qed.

Section scan_facts.
Variable localeCompare : collation.

(** Beyond the depth of the listing the bound does not matter. *)
Lemma scanDir_upto_enough d d' dirPath items :
  (listing_depth items < d)%nat -> (listing_depth items < d')%nat ->
  scanDir_upto localeCompare d dirPath items =
  scanDir_upto localeCompare d' dirPath items.
Proof.
  revert d' dirPath items.
  induction d as [|d IH]; intros [|d'] dirPath items Hd Hd'; try lia.
  simpl. apply flat_map_ext_elem. intros item Hin.
  rewrite sort_perm in Hin. unfold scan_item.
  destruct item as [name content|name entries]; [done|].
  apply dirent_depth_in in Hin.
  by rewrite (IH d' _ entries) by lia.
Qed.

(** [scanDir] satisfies the recursion of the source: it sorts the listing
    and runs the loop body on every item, calling itself on directories. *)
Lemma scanDir_unfold dirPath items :
  scanDir localeCompare dirPath items =
  flat_map (scan_item (scanDir localeCompare) dirPath)
           (sort (compare_items localeCompare) items).
Proof.
  unfold scanDir at 1. simpl. apply flat_map_ext_elem. intros item Hin.
  rewrite sort_perm in Hin. unfold scan_item.
  destruct item as [name content|name entries]; [done|].
  apply dirent_depth_in in Hin. unfold scanDir.
  by rewrite (scanDir_upto_enough _ (S (listing_depth entries)) _ entries) by lia.
Qed.

(** What one loop iteration pushes. *)
Lemma scan_item_node recur dirPath item n :
  n ∈ scan_item recur dirPath item ->
  node_name n = dirent_name item /\
  node_isFolder n = isDirectory item /\
  node_id n = backslash_to_slash (dirPath +:+ "/" +:+ dirent_name item) /\
  hidden (dirent_name item) = false /\
  match item with
  | File name _ =>
      node_children n = None /\ (exists k, node_kind n = Some k) /\
      recognized name = true
  | Dir name entries =>
      node_kind n = None /\
      node_children n = Some (recur (dirPath +:+ "/" +:+ name) entries) /\
      recur (dirPath +:+ "/" +:+ name) entries <> []
  end.
Proof.
  unfold scan_item. destruct (hidden (dirent_name item)) eqn:Hh;
    [by intros ?%elem_of_nil|].
  destruct item as [name content|name entries]; simpl.
  - unfold recognized.
    destruct (String.eqb (toLowerCase (extname name)) ".json");
      [intros ->%list_elem_of_singleton; simpl; eauto 10|].
    destruct (String.eqb (toLowerCase (extname name)) ".pdf");
      [intros ->%list_elem_of_singleton; simpl; eauto 10|].
    destruct (String.eqb (toLowerCase (extname name)) ".pptx"
              || String.eqb (toLowerCase (extname name)) ".ppt") eqn:E;
      [intros ->%list_elem_of_singleton; simpl in *; eauto 10|].
    by intros ?%elem_of_nil.
  - destruct (recur _ entries) as [|c cs] eqn:E; simpl;
      [by intros ?%elem_of_nil|].
    by intros ->%list_elem_of_singleton.
Qed.

Lemma scan_item_left_out recur dirPath item :
  (hidden (dirent_name item) = true \/
   match item with
   | File name _ => recognized name = false
   | Dir name entries => recur (dirPath +:+ "/" +:+ name) entries = []
   end) ->
  scan_item recur dirPath item = [].
Proof.
  unfold scan_item. intros [->|H]; [done|].
  destruct (hidden (dirent_name item)); [done|].
  destruct item as [name content|name entries].
  - unfold recognized in H.
    apply orb_false_iff in H as [[[-> ->]%orb_false_iff H3]%orb_false_iff H4].
    by rewrite H3, H4.
  - cbn [dirent_name]. by rewrite H.
Qed.

Lemma scanDir_upto_well_formed d dirPath items :
  every_level (Forall well_formed_node) (scanDir_upto localeCompare d dirPath items).
Proof.
  revert dirPath items. induction d as [|d IH]; intros dirPath items.
  { constructor; constructor. }
  simpl. constructor.
  - apply Forall_forall. intros n (item & _ & Hn)%elem_of_flat_map.
    apply scan_item_node in Hn as (Hname & Hfolder & _ & Hhid & Hitem).
    unfold well_formed_node. rewrite Hname, Hfolder. split; [done|].
    destruct item as [name content|name entries]; simpl in *; [done|].
    destruct Hitem as (Hk & Hc & Hne). eauto.
  - apply Forall_forall. intros n (item & _ & Hn)%elem_of_flat_map cs Hcs.
    apply scan_item_node in Hn as (_ & _ & _ & _ & Hitem).
    destruct item as [name content|name entries].
    + destruct Hitem as (Hc & _). congruence.
    + destruct Hitem as (_ & Hc & _). rewrite Hc in Hcs.
      injection Hcs as <-. apply IH.
Qed.

End scan_facts.

(** C5: in the tree of the local scan every leaf has a recognized extension
    (and so a kind), every folder has at least one child, at every depth;
    and an entry of a listing that is hidden, of an unrecognized type, or a
    directory whose own scan is empty, has no node among the siblings built
    from that listing. *)
Theorem scan_drops_unrecognized_and_empty
    (localeCompare : collation) (dirPath : string)
    (items : list dirent) (item : dirent) (n : node) :
  every_level (Forall well_formed_node) (scanDir localeCompare dirPath items) /\
  (NoDup (map dirent_name items) -> item ∈ items ->
   left_out localeCompare dirPath item ->
   n ∈ scanDir localeCompare dirPath items ->
   node_name n <> dirent_name item).
Proof.
  split; [apply scanDir_upto_well_formed|].
  intros Hnodup Hin Hout Hn Hname.
  rewrite scanDir_unfold in Hn.
  apply elem_of_flat_map in Hn as (item' & Hin' & Hn).
  rewrite sort_perm in Hin'.
  assert (item' = item) as ->.
  { apply scan_item_node in Hn as (Hname' & _).
    rewrite Hname in Hname'. clear -Hnodup Hin Hin' Hname'.
    induction items as [|it rest IH]; [by apply elem_of_nil in Hin|].
    simpl in Hnodup. apply NoDup_cons in Hnodup as [Hnotin Hnodup].
    apply elem_of_cons in Hin as [->|Hin]; apply elem_of_cons in Hin' as [->|Hin'];
      try done.
    - exfalso. apply Hnotin. rewrite Hname'. by apply list_elem_of_fmap_2.
    - exfalso. apply Hnotin. rewrite <-Hname'. by apply list_elem_of_fmap_2.
    - by apply IH. }
  rewrite (scan_item_left_out (scanDir localeCompare) dirPath item) in Hn.
  - by apply elem_of_nil in Hn.
  - destruct Hout as [?|Hout]; [by left|right]. by destruct item.
Qed.

Lemma scan_drops_unrecognized_and_empty_witness :
  let n := Node "database/item 2.pdf" "item 2.pdf" false (Some Kpdf) None None in
  n ∈ scanDir natural_compare "database" items_listing /\
  scanDir natural_compare "database/drafts" [File "todo.md" None; File ".keep" None] = [] /\
  node_name n <> "drafts".
Proof.
  intros n.
  assert (n ∈ scanDir natural_compare "database" items_listing) as Hn
    by (right; left).
  split; [exact Hn|]. split; [reflexivity|].
  apply (proj2 (scan_drops_unrecognized_and_empty natural_compare "database"
                  items_listing
                  (Dir "drafts" [File "todo.md" None; File ".keep" None]) n)).
  - compute_done.
  - right; right; left.
  - right. reflexivity.
  - exact Hn.
Defined.


(** ** Sibling order *)

Lemma natural_compare_le o a b :
  (natural_compare o a b <= 0)%Z <-> ~ lexico (tokens o b None) (tokens o a None).
Proof.
  unfold natural_compare.
  destruct (trichotomyT lexico (tokens o a None) (tokens o b None)) as [[H|H]|H].
  - split; [|lia]. intros _ H'.
    apply (irreflexivity lexico (tokens o a None)). by transitivity (tokens o b None).
  - split; [|lia]. intros _ H'. rewrite H in H'.
    by apply (irreflexivity lexico (tokens o b None)).
  - split; [lia|]. by intros [].
Qed.

Lemma natural_compare_lt o a b :
  (natural_compare o a b < 0)%Z <-> lexico (tokens o a None) (tokens o b None).
Proof.
  unfold natural_compare.
  destruct (trichotomyT lexico (tokens o a None) (tokens o b None)) as [[H|H]|H].
  - split; [done|lia].
  - split; [lia|]. rewrite H. intros H'.
    by apply (irreflexivity lexico (tokens o b None)) in H'.
  - split; [lia|]. intros H'. exfalso.
    apply (irreflexivity lexico (tokens o a None)). by transitivity (tokens o b None).
Qed.

Lemma natural_compare_gt o a b :
  (0 < natural_compare o a b)%Z <-> lexico (tokens o b None) (tokens o a None).
Proof.
  pose proof (natural_compare_le o a b) as Hle. split.
  - intros Hgt. destruct (decide (lexico (tokens o b None) (tokens o a None))); [done|].
    apply Hle in n. lia.
  - intros Hlex. destruct (Z.lt_ge_cases 0 (natural_compare o a b)) as [?|Hge]; [done|].
    apply Hle in Hge. done.
Qed.

Lemma natural_compare_total o a b :
  (natural_compare o a b <= 0)%Z \/ (natural_compare o b a <= 0)%Z.
Proof.
  rewrite !natural_compare_le.
  destruct (trichotomy lexico (tokens o a None) (tokens o b None)) as [H|[H|H]].
  - left. intros H'.
    apply (irreflexivity lexico (tokens o a None)). by transitivity (tokens o b None).
  - left. rewrite H. apply (irreflexivity lexico).
  - right. intros H'.
    apply (irreflexivity lexico (tokens o a None)). by transitivity (tokens o b None).
Qed.

Lemma natural_compare_trans o a b c :
  (natural_compare o a b <= 0)%Z -> (natural_compare o b c <= 0)%Z ->
  (natural_compare o a c <= 0)%Z.
Proof.
  rewrite !natural_compare_le. intros Hab Hbc Hca.
  destruct (trichotomy lexico (tokens o a None) (tokens o b None)) as [H|[H|H]].
  - apply Hbc. by transitivity (tokens o a None).
  - apply Hbc. by rewrite <-H.
  - done.
Qed.

Lemma string_app_cons c (a b : string) : String c a +:+ b = String c (a +:+ b).
Proof. done. Qed.

(** The tokens of a text that does not end in a digit, followed by more. *)
Lemma tokens_app o (p rest : string) acc :
  p <> "" -> ends_with_digit p = false ->
  tokens o (p +:+ rest) acc = tokens o p acc ++ tokens o rest None.
Proof.
  revert acc. induction p as [|c p IH]; intros acc Hne Hend; [done|].
  rewrite string_app_cons. cbn [tokens].
  destruct p as [|c' p'].
  - cbn [ends_with_digit] in Hend. rewrite Hend, andb_false_r.
    cbn [flush_number]. by rewrite <-app_assoc.
  - assert (ends_with_digit (String c' p') = false) as Hend' by done.
    destruct (numeric o && is_digit c).
    + by apply IH.
    + rewrite (IH None) by done. by rewrite <-app_assoc.
Qed.

(** The tokens of a run of digits followed by a text that does not start
    with one: the value of the run, then the tokens of the text. *)
Lemma tokens_digits o (d s : string) acc :
  numeric o = true -> all_digits d = true -> starts_with_digit s = false ->
  tokens o (d +:+ s) (Some acc) = (48, decimal d acc) :: tokens o s None.
Proof.
  intros Hnum. revert acc. induction d as [|c d IH]; intros acc Hd Hs.
  - change ("" +:+ s) with s. cbn [decimal]. destruct s as [|c s]; [done|].
    cbn [starts_with_digit] in Hs. cbn [tokens]. by rewrite Hs, andb_false_r.
  - cbn [all_digits] in Hd. apply andb_true_iff in Hd as [Hc Hd].
    rewrite string_app_cons. cbn [tokens decimal]. rewrite Hnum, Hc. cbn [andb default].
    by apply IH.
Qed.

Lemma tokens_number o (d s : string) :
  numeric o = true -> d <> "" -> all_digits d = true -> starts_with_digit s = false ->
  tokens o (d +:+ s) None = (48, decimal d 0) :: tokens o s None.
Proof.
  intros Hnum Hne Hd Hs. destruct d as [|c d]; [done|].
  cbn [all_digits] in Hd. apply andb_true_iff in Hd as [Hc Hd].
  rewrite string_app_cons. cbn [tokens decimal]. rewrite Hnum, Hc. cbn [andb default].
  by apply tokens_digits.
Qed.

Lemma lexico_common_prefix (pre l1 l2 : list (nat * nat)) :
  lexico l1 l2 -> lexico (pre ++ l1) (pre ++ l2).
Proof.
  intros H. induction pre as [|x pre IH]; [done|]. simpl. right. done.
Qed.

Lemma string_app_nil_l (s : string) : "" +:+ s = s.
Proof. done. Qed.

Lemma natural_compare_numeric o a b :
  numeric o = true -> smaller_number a b -> (natural_compare o a b < 0)%Z.
Proof.
  intros Hnum (p & d1 & d2 & s1 & s2 & -> & -> & Hd1 & Hd2 & Ha1 & Ha2 & Hp & Hs1 & Hs2 & Hlt).
  apply natural_compare_lt.
  assert (lexico ((48, decimal d1 0) :: tokens o s1 None)
                 ((48, decimal d2 0) :: tokens o s2 None)) as Hhead.
  { left. right. done. }
  destruct (decide (p = "")) as [->|Hne].
  - change ("" +:+ d1 +:+ s1) with (d1 +:+ s1). change ("" +:+ d2 +:+ s2) with (d2 +:+ s2).
    by rewrite !tokens_number.
  - rewrite !(tokens_app o p) by done. rewrite !tokens_number by done.
    by apply lexico_common_prefix.
Qed.

Lemma lower_ascii_idem c : lower_ascii (lower_ascii c) = lower_ascii c.
Proof.
  destruct c as [[] [] [] [] [] [] [] []]; reflexivity.
Qed.

Lemma is_digit_lower c : is_digit (lower_ascii c) = is_digit c.
Proof.
  destruct c as [[] [] [] [] [] [] [] []]; reflexivity.
Qed.

Lemma digit_lower c : is_digit c = true -> lower_ascii c = c.
Proof.
  destruct c as [[] [] [] [] [] [] [] []]; try reflexivity; discriminate.
Qed.

Lemma tokens_toLowerCase o s acc :
  sensitivity o = Base -> tokens o (toLowerCase s) acc = tokens o s acc.
Proof.
  intros Hbase. revert acc. induction s as [|c s IH]; intros acc; [done|].
  cbn [toLowerCase tokens]. rewrite is_digit_lower.
  destruct (numeric o && is_digit c) eqn:Hd.
  - apply andb_true_iff in Hd as [_ Hd]. rewrite (digit_lower c Hd). apply IH.
  - rewrite IH. unfold folded. rewrite Hbase. by rewrite lower_ascii_idem.
Qed.

Lemma natural_compare_honours : honours_options natural_compare.
Proof.
  split.
  - intros o a b. by rewrite natural_compare_lt, natural_compare_gt.
  - apply natural_compare_trans.
  - apply natural_compare_numeric.
  - intros o a b Hbase. unfold natural_compare.
    by rewrite !tokens_toLowerCase.
Qed.

Section ordering.
Variable localeCompare : collation.
Let cmp := localeCompare scan_options.
Hypothesis localeCompare_total :
  forall a b, (cmp a b <= 0)%Z \/ (cmp b a <= 0)%Z.
Hypothesis localeCompare_trans :
  forall a b c, (cmp a b <= 0)%Z -> (cmp b c <= 0)%Z -> (cmp a c <= 0)%Z.

Let item_le (a b : dirent) : Prop := (compare_items localeCompare a b <= 0)%Z.

Lemma compare_items_total a b : item_le a b \/ item_le b a.
Proof.
  unfold item_le, compare_items.
  destruct (isDirectory a), (isDirectory b); simpl; try lia;
    apply localeCompare_total.
Qed.

Lemma compare_items_trans a b c : item_le a b -> item_le b c -> item_le a c.
Proof.
  unfold item_le, compare_items.
  destruct (isDirectory a), (isDirectory b), (isDirectory c); simpl; try lia;
    apply localeCompare_trans.
Qed.

Lemma insert_sorted_sorted x l :
  StronglySorted item_le l ->
  StronglySorted item_le (insert_sorted (compare_items localeCompare) x l).
Proof.
  induction 1 as [|y rest Hrest IH Hy]; simpl; [by repeat constructor|].
  destruct (Z.leb_spec (compare_items localeCompare x y) 0) as [Hle|Hgt].
  - constructor; [by constructor|]. constructor; [done|].
    eapply Forall_impl; [exact Hy|]. intros z. by apply compare_items_trans.
  - constructor; [done|].
    assert (item_le y x) as Hyx.
    { destruct (compare_items_total x y) as [H|H]; [unfold item_le in H; lia|done]. }
    rewrite insert_sorted_perm. by constructor.
Qed.

Lemma sort_sorted l : StronglySorted item_le (sort (compare_items localeCompare) l).
Proof.
  induction l as [|x rest IH]; simpl; [constructor|]. by apply insert_sorted_sorted.
Qed.

Lemma item_le_sibling_le recur recur' dirPath x y n m :
  item_le x y ->
  n ∈ scan_item recur dirPath x -> m ∈ scan_item recur' dirPath y ->
  sibling_le cmp n m.
Proof.
  intros Hle (Hn & Hnf & _)%scan_item_node (Hm & Hmf & _)%scan_item_node.
  unfold sibling_le. rewrite Hn, Hm, Hnf, Hmf.
  unfold item_le, compare_items in Hle.
  destruct (isDirectory x), (isDirectory y); simpl in *; try lia; auto.
Qed.

Lemma scan_items_sorted recur dirPath l :
  StronglySorted item_le l ->
  StronglySorted (sibling_le cmp) (flat_map (scan_item recur dirPath) l).
Proof.
  induction 1 as [|x rest Hrest IH Hx]; simpl; [constructor|].
  assert (Forall (fun n => Forall (sibling_le cmp n)
                             (flat_map (scan_item recur dirPath) rest))
            (scan_item recur dirPath x)) as Hhead.
  { apply Forall_forall. intros n Hn. apply Forall_forall.
    intros m (y & Hy & Hm)%elem_of_flat_map.
    rewrite Forall_forall in Hx. eapply item_le_sibling_le; eauto. }
  assert (length (scan_item recur dirPath x) <= 1)%nat as Hlen.
  { unfold scan_item. repeat case_match; simpl; lia. }
  destruct (scan_item recur dirPath x) as [|n [|n' ?]]; simpl in *; [done| |lia].
  constructor; [done|]. by apply Forall_cons in Hhead as [? _].
Qed.

Lemma scanDir_upto_sorted d dirPath items :
  every_level (StronglySorted (sibling_le cmp))
    (scanDir_upto localeCompare d dirPath items).
Proof.
  revert dirPath items. induction d as [|d IH]; intros dirPath items.
  { constructor; constructor. }
  simpl. constructor.
  - apply scan_items_sorted, sort_sorted.
  - apply Forall_forall. intros n (item & _ & Hn)%elem_of_flat_map cs Hcs.
    apply scan_item_node in Hn as (_ & _ & _ & _ & Hitem).
    destruct item as [name content|name entries].
    + destruct Hitem as (Hc & _). congruence.
    + destruct Hitem as (_ & Hc & _). rewrite Hc in Hcs.
      injection Hcs as <-. apply IH.
Qed.

End ordering.


Lemma StronglySorted_weaken {A} (R R' : A -> A -> Prop) l :
  (forall x y, R x y -> R' x y) -> StronglySorted R l -> StronglySorted R' l.
Proof.
  intros HR. induction 1 as [|x l Hl IH Hx]; constructor; [done|].
  eapply Forall_impl; [exact Hx|]. intros y. apply HR.
Qed.

Lemma every_level_impl (P Q : list node -> Prop) nodes :
  (forall l, P l -> Q l) -> every_level P nodes -> every_level Q nodes.
Proof.
  intros HPQ. revert nodes. fix go 2. intros nodes [ns Hhere Hbelow]. constructor.
  - by apply HPQ.
  - clear Hhere. induction Hbelow as [|n rest Hn _ IHrest]; constructor; [|done].
    intros cs Hcs. apply go, Hn, Hcs.
Qed.

(** Under a collation that honours the options, siblings in the order of
    the names are in the order of their numbers and in the order of their
    names without case. *)
Lemma sibling_le_honoured (localeCompare : collation) m n :
  honours_options localeCompare ->
  sibling_le (localeCompare scan_options) m n ->
  number_le m n /\
  sibling_le (fun a b => localeCompare scan_options (toLowerCase a) (toLowerCase b)) m n.
Proof.
  intros [Hsign Htrans Hnumeric Hbase] Hle. split.
  - intros Hkind Hsmaller.
    apply (Hnumeric scan_options) in Hsmaller; [|done].
    apply Hsign in Hsmaller.
    destruct Hle as [[Hm Hn]|[_ Hle]]; [congruence|lia].
  - destruct Hle as [?|[Hkind Hle]]; [by left|right]. split; [done|].
    by rewrite <-(Hbase scan_options).
Qed.

(** C4: under a collation that orders names (any two names comparable,
    comparisons transitive), every sibling set of the tree of the local scan
    has its folders before its files and each of the two groups in
    non-decreasing order of name, the names being compared by the host with
    the options numeric and sensitivity base.  Under a collation that
    honours these options, two siblings of a kind are never in the order
    against a number in which alone their names differ, and the order is
    that of the names without case; Item 2 compares before Item 10. *)
Theorem scan_orders_siblings
    (localeCompare : collation) (dirPath : string) (items : list dirent) :
  ((forall a b, (localeCompare scan_options a b <= 0)%Z \/
                (localeCompare scan_options b a <= 0)%Z) ->
   (forall a b c, (localeCompare scan_options a b <= 0)%Z ->
                  (localeCompare scan_options b c <= 0)%Z ->
                  (localeCompare scan_options a c <= 0)%Z) ->
   every_level (StronglySorted (sibling_le (localeCompare scan_options)))
     (scanDir localeCompare dirPath items))
  /\
  (honours_options localeCompare ->
   every_level
     (StronglySorted
        (fun m n =>
           sibling_le (localeCompare scan_options) m n /\
           number_le m n /\
           sibling_le (fun a b => localeCompare scan_options
                                    (toLowerCase a) (toLowerCase b)) m n))
     (scanDir localeCompare dirPath items) /\
   (localeCompare scan_options "Item 2" "Item 10" < 0)%Z /\
   (localeCompare scan_options "item 2.pdf" "Item 10.json" < 0)%Z).
Proof.
  assert (smaller_number "item 2.pdf" "item 10.json") as Hfiles.
  { exists "item ", "2", "10", ".pdf", ".json". repeat split; try done. simpl. lia. }
  assert (smaller_number "Item 2" "Item 10") as Hitems.
  { exists "Item ", "2", "10", "", "". repeat split; try done. simpl. lia. }
  split.
  - intros Htotal Htrans. by apply scanDir_upto_sorted.
  - intros Hhonours. split; [|split].
    + eapply every_level_impl;
        [|apply (scanDir_upto_sorted localeCompare)].
      * intros l. apply StronglySorted_weaken. intros m n Hle.
        split; [done|]. by apply sibling_le_honoured.
      * intros a b. destruct Hhonours as [Hsign _ _ _].
        destruct (Z.le_gt_cases (localeCompare scan_options a b) 0) as [?|Hgt]; [by left|].
        right. apply Hsign in Hgt. lia.
      * intros a b c. by apply (collation_trans _ Hhonours).
    + by apply (collation_numeric _ Hhonours).
    + rewrite (collation_base _ Hhonours) by done.
      by apply (collation_numeric _ Hhonours).
Qed.

Lemma scan_orders_siblings_witness :
  every_level (StronglySorted (sibling_le (natural_compare scan_options)))
    (scanDir natural_compare "database" items_listing) /\
  (natural_compare scan_options "item 2.pdf" "Item 10.json" < 0)%Z /\
  map node_name (scanDir natural_compare "database" items_listing)
  = ["Unit 1"; "item 2.pdf"; "Item 10.json"].
Proof.
  split; [|split; [|reflexivity]].
  - apply (proj1 (scan_orders_siblings natural_compare "database" items_listing)).
    + apply natural_compare_total.
    + apply natural_compare_trans.
  - apply (proj2 (scan_orders_siblings natural_compare "database" items_listing)
             natural_compare_honours).
Defined.

(** ** The tree from the flat listing *)

Lemma erase_insert_children (h : list cell) (p : nat) i m f k cs cs' :
  h !! p = Some (Cell i m f k cs) ->
  erase <$> <[p := Cell i m f k cs']> h = erase <$> h.
Proof.
  intros Hp. rewrite list_fmap_insert. apply list_insert_id.
  by rewrite list_lookup_fmap, Hp.
Qed.

Lemma push_child_erase parentPath l b b' :
  push_child parentPath l b = Ok b' ->
  table b' = table b /\ erase <$> objects b' = erase <$> objects b.
Proof.
  unfold push_child. destruct (map_get b parentPath) as [[|p|]|]; [| |done|].
  - by intros [= <-].
  - destruct (objects b !! p) as [[i m f k [cs|]]|] eqn:Hp; try done.
    intros [= <-]. simpl. split; [done|]. by eapply erase_insert_children.
  - by intros [= <-].
Qed.

Lemma made_from_erase flat c c' : erase c = erase c' -> made_from flat c -> made_from flat c'.
Proof.
  destruct c, c'. unfold erase, made_from. simpl. by intros [= <- <- <- <-].
Qed.

Lemma path_of_snoc pre part : path_of (pre ++ [part]) = extend_path (path_of pre) part.
Proof. unfold path_of. by rewrite foldl_app. Qed.

Lemma add_part_built flat n pre part suf cur b st' :
  n ∈ flat ->
  split_at "/"%char (path n) = pre ++ part :: suf ->
  cur = path_of pre ->
  built flat b ->
  add_part n (length (split_at "/"%char (path n))) (length pre) part (cur, b) = Ok st' ->
  st'.1 = path_of (pre ++ [part]) /\ built flat st'.2.
Proof.
  intros Hn Hparts -> [Hidx Hmade]. unfold add_part.
  rewrite <-path_of_snoc.
  destruct (map_get b (path_of (pre ++ [part]))) as [s|] eqn:Hget.
  { by intros [= <-]. }
  assert (table b !! path_of (pre ++ [part]) = None) as Htab.
  { unfold map_get in Hget. by destruct (table b !! path_of (pre ++ [part])). }
  match goal with |- context [push_child ?pp ?l ?b1] =>
    destruct (push_child pp l b1) as [b2|e] eqn:Hpush end; [|done].
  intros [= <-]. simpl. split; [done|].
  apply push_child_erase in Hpush as [Htab2 Hheap2]. simpl in *.
  unfold built. rewrite Htab2, Hheap2, fmap_app. simpl. split.
  - intros l c Hl. apply lookup_app_Some in Hl as [Hl|[Hlen Hl]].
    + rewrite lookup_insert_ne; [by apply Hidx|].
      intros Heq. rewrite Heq, (Hidx _ _ Hl) in Htab. done.
    + rewrite length_fmap in Hlen, Hl.
      destruct (l - length (objects b))%nat as [|?] eqn:Hd; [|done].
      injection Hl as <-. simpl.
      replace l with (length (objects b)) by lia. apply lookup_insert_eq.
  - apply Forall_app. split; [done|]. constructor; [|constructor].
    exists n, (length pre), part. simpl.
    assert (split_at "/"%char (path n) !! length pre = Some part) as Hi.
    { rewrite Hparts. by rewrite list_lookup_middle. }
    split; [done|]. split; [done|]. split.
    { f_equal. rewrite Hparts.
      replace (S (length pre)) with (length (pre ++ [part]))
        by (rewrite length_app; simpl; lia).
      rewrite (assoc_L _ pre [part] suf : pre ++ part :: suf = (pre ++ [part]) ++ suf).
      by rewrite take_app_length. }
    split; [done|]. split; [|done].
    rewrite orb_true_iff, String.eqb_eq, Nat.ltb_lt. done.
Qed.

Lemma add_parts_built flat n pre suf cur b st' :
  n ∈ flat ->
  split_at "/"%char (path n) = pre ++ suf ->
  cur = path_of pre ->
  built flat b ->
  add_parts n (length (split_at "/"%char (path n))) (length pre) suf (cur, b) = Ok st' ->
  built flat st'.2.
Proof.
  intros Hn. revert pre cur b.
  induction suf as [|part suf IH]; intros pre cur b Hparts Hcur Hb;
    cbn [add_parts].
  { by intros [= <-]. }
  destruct (add_part n (length (split_at "/"%char (path n))) (length pre) part
              (cur, b)) as [[cur1 b1]|e] eqn:Hstep; [|done].
  eapply add_part_built in Hstep as [Hcur1 Hb1]; eauto. simpl in *.
  intros Hrest.
  apply (IH (pre ++ [part]) cur1 b1);
    [by rewrite Hparts, <-app_assoc|done|done|].
  by rewrite length_app, Nat.add_1_r.
Qed.

Lemma add_entries_built flat rest b b' :
  (forall n, n ∈ rest -> n ∈ flat) ->
  built flat b -> add_entries rest b = Ok b' -> built flat b'.
Proof.
  revert b. induction rest as [|n rest IH]; intros b Hsub Hb; cbn [add_entries].
  { by intros [= <-]. }
  destruct (add_entry n b) as [b1|e] eqn:Hn; [|done].
  intros Hrest. apply (IH b1); [intros; apply Hsub; by right| |done].
  unfold add_entry in Hn.
  destruct (add_parts n (length (split_at "/"%char (path n))) 0
              (split_at "/"%char (path n)) (EmptyString, b))
    as [[cur b2]|e] eqn:Hparts; [|done].
  injection Hn as <-.
  apply (add_parts_built flat n [] (split_at "/"%char (path n)) EmptyString b
           (cur, b2)); auto.
  apply Hsub. left.
Qed.

Lemma built_init flat : built flat builder_init.
Proof. split; [by intros l c ?|constructor]. Qed.

Lemma built_nodes flat b :
  built flat b -> NoDup (c_id <$> objects b) /\ Forall (made_from flat) (objects b) /\ indexed b.
Proof.
  intros [Hidx Hmade]. split; [|split].
  - apply NoDup_alt. intros l1 l2 i H1 H2.
    apply list_lookup_fmap_Some in H1 as (c1 & -> & H1).
    apply list_lookup_fmap_Some in H2 as (c2 & Hid & H2).
    pose proof (Hidx l1 (erase c1)) as E1. pose proof (Hidx l2 (erase c2)) as E2.
    rewrite list_lookup_fmap, H1 in E1. rewrite list_lookup_fmap, H2 in E2.
    specialize (E1 eq_refl). specialize (E2 eq_refl). simpl in *.
    rewrite Hid, E2 in E1. by injection E1.
  - apply Forall_forall. intros c Hc.
    rewrite Forall_forall in Hmade.
    apply (made_from_erase flat (erase c)); [by destruct c|].
    apply Hmade. by apply list_elem_of_fmap_2.
  - intros l c Hl. apply (Hidx l (erase c)). by rewrite list_lookup_fmap, Hl.
Qed.

Lemma node_at_cells d (h : list cell) :
  (forall l n, node_at d h l = Some n ->
     (exists c, c ∈ h /\ node_of_cell c n) /\
     forall cs, node_children n = Some cs ->
       every_level (Forall (fun m => exists c, c ∈ h /\ node_of_cell c m)) cs).
Proof.
  induction d as [|d IH]; intros l n; simpl; [done|].
  destruct (h !! l) as [[i m f k children]|] eqn:Hl; [|done].
  assert (Cell i m f k children ∈ h) as Hin by (by eapply list_elem_of_lookup_2).
  destruct children as [ls|].
  - destruct (mapM (node_at d h) ls) as [ns|] eqn:Hns; [|done].
    intros [= <-]. split; [by eexists|].
    intros cs [= <-]. apply mapM_Some in Hns.
    constructor.
    + clear -Hns IH. induction Hns as [|l n ls ns Hn _ IHns]; constructor; [|done].
      by apply IH in Hn as [? _].
    + clear -Hns IH. induction Hns as [|l n ls ns Hn _ IHns]; constructor; [|done].
      by apply IH in Hn as [_ ?].
  - intros [= <-]. split; [by eexists|]. by intros cs.
Qed.

(** C2 fails on the flat builder: a file whose extension is not json, pdf,
    pptx or ppt becomes a leaf without a kind, where the local scan emits no
    node for the same file. *)
Theorem flat_builder_kindless_leaf :
  buildTreeFromFlatList [Entry "database/notes.txt" "blob"] =
    Ok (Some [Node "database/notes.txt" "notes.txt" false None None None]) /\
  rebuildIndex_tree [Entry "database/notes.txt" "blob"] =
    Ok (Some [Node "database/notes.txt" "notes.txt" false None None None]) /\
  scanDir natural_compare "database" [File "notes.txt" (Some (Garbage "text"))] = [].
Proof. repeat split; reflexivity. Qed.

(** ** Randomization leaves its argument alone *)





























(** ** The heap model does what the model on JSON values does *)

Section rep_induction.
Variable h : heap.
Variable P : value -> json -> gset nat -> Prop.
Hypothesis Hnull : P VNull JNull ∅.
Hypothesis Hbool : forall b, P (VBool b) (JBool b) ∅.
Hypothesis Hnum : forall x, P (VNum x) (JNum x) ∅.
Hypothesis Hstr : forall s, P (VStr s) (JStr s) ∅.
Hypothesis Harr : forall l elems js fps,
  h !! l = Some (OArr elems) ->
  Forall3 (rep h) elems js fps -> Forall3 P elems js fps ->
  separate ({[l]} :: fps) ->
  P (VRef l) (JArr js) ({[l]} ∪ ⋃ fps).
Hypothesis Hobj : forall l props kjs fps,
  h !! l = Some (OObj props) -> props.*1 = kjs.*1 ->
  Forall3 (rep h) props.*2 kjs.*2 fps -> Forall3 P props.*2 kjs.*2 fps ->
  separate ({[l]} :: fps) ->
  P (VRef l) (JObj kjs) ({[l]} ∪ ⋃ fps).

Lemma rep_nested_ind v j fp : rep h v j fp -> P v j fp.
Proof.
  revert v j fp. fix go 4. intros v j fp [| | | |l elems js fps Hl Hel Hsep
                                          |l props kjs fps Hl Hk Hel Hsep]; auto.
  - apply (Harr l elems js fps); auto. clear Hsep Hl.
    induction Hel as [|x y z xs ys zs Hx _ IH]; constructor; auto.
  - apply (Hobj l props kjs fps); auto. clear Hsep Hl Hk. revert Hel.
    generalize (props.*2) (kjs.*2). intros xs ys Hel.
    induction Hel as [|x y z xs ys zs Hx _ IH]; constructor; auto.
Qed.
End rep_induction.

Lemma elem_of_footprint l (fps : list (gset nat)) x :
  x ∈ ({[l]} ∪ ⋃ fps : gset nat) <-> x = l \/ exists X, X ∈ fps /\ x ∈ X.
Proof. rewrite elem_of_union, elem_of_singleton, elem_of_union_list. done. Qed.

(** The cells of a value exist. *)
Lemma rep_lt h v j fp : rep h v j fp -> forall l, l ∈ fp -> (l < length h)%nat.
Proof.
  induction 1 as [| | | |l elems js fps Hl _ IH _|l props kjs fps Hl _ _ IH _]
    using rep_nested_ind; try set_solver.
  - intros x [->|(X & HX & Hx)]%elem_of_footprint; [by eapply lookup_lt_Some|].
    apply list_elem_of_lookup in HX as [i Hi].
    destruct (Forall3_lookup_r _ _ _ _ _ _ IH Hi) as (? & ? & _ & _ & H). by apply H.
  - intros x [->|(X & HX & Hx)]%elem_of_footprint; [by eapply lookup_lt_Some|].
    apply list_elem_of_lookup in HX as [i Hi].
    destruct (Forall3_lookup_r _ _ _ _ _ _ IH Hi) as (? & ? & _ & _ & H). by apply H.
Qed.

(** A value does not notice changes outside its cells. *)
Lemma rep_frame h h' v j fp :
  rep h v j fp -> (forall l, l ∈ fp -> h' !! l = h !! l) -> rep h' v j fp.
Proof.
  intros H. revert h'.
  induction H as [| | | |l elems js fps Hl _ IH Hsep|l props kjs fps Hl Hk _ IH Hsep]
    using rep_nested_ind; intros h' Hsame; try constructor.
  - assert (forall X, X ∈ fps -> forall l', l' ∈ X -> h' !! l' = h !! l') as Hsub.
    { intros X HX l' Hl'. apply Hsame, elem_of_footprint. right. by exists X. }
    apply (rep_arr h' l elems js fps); [|clear Hsame Hsep Hl|done].
    + rewrite Hsame; [done|]. apply elem_of_footprint. by left.
    + induction IH as [|x y z xs ys zs Hx _ IHxs]; constructor.
      * apply Hx. intros l' Hl'. eapply Hsub; [left|done].
      * apply IHxs. intros X HX. apply Hsub. by right.
  - assert (forall X, X ∈ fps -> forall l', l' ∈ X -> h' !! l' = h !! l') as Hsub.
    { intros X HX l' Hl'. apply Hsame, elem_of_footprint. right. by exists X. }
    apply (rep_obj h' l props kjs fps); [|done|clear Hsame Hsep Hl Hk|done].
    + rewrite Hsame; [done|]. apply elem_of_footprint. by left.
    + revert IH. generalize (props.*2) (kjs.*2).
      intros xs ys IH. induction IH as [|x y z xs ys zs Hx _ IHxs]; constructor.
      * apply Hx. intros l' Hl'. eapply Hsub; [left|done].
      * apply IHxs. intros X HX. apply Hsub. by right.
Qed.

Lemma separate_cons X (fps : list (gset nat)) :
  separate (X :: fps) <-> (forall Y, Y ∈ fps -> X ## Y) /\ separate fps.
Proof.
  split.
  - intros Hsep. split.
    + intros Y [i Hi]%list_elem_of_lookup. by apply (Hsep 0%nat (S i)).
    + intros i j Y Z Hne Hi Hj. by apply (Hsep (S i) (S j)); [lia|..].
  - intros [Hhead Htail] [|i] [|j] Y Z Hne Hi Hj; simpl in *; simplify_eq.
    + apply Hhead. by eapply list_elem_of_lookup_2.
    + symmetry. apply Hhead. by eapply list_elem_of_lookup_2.
    + by apply (Htail i j); [lia|..].
Qed.

Lemma rep_app h ext v j fp : rep h v j fp -> rep (h ++ ext) v j fp.
Proof.
  intros H. eapply rep_frame; [exact H|].
  intros l Hl. apply lookup_app_l. by eapply rep_lt.
Qed.

Lemma build_each_rep l :
  Forall (fun j => forall h g, exists v ext fp,
              h_build j h g = (Ok v, h ++ ext, g) /\
              rep (h ++ ext) v j fp /\ made_since h fp) l ->
  forall h g, exists vs ext fps,
    hmap_each h_build l h g = (Ok vs, h ++ ext, g) /\
    Forall3 (rep (h ++ ext)) vs l fps /\ separate fps /\
    Forall (made_since h) fps.
Proof.
  induction 1 as [|j js Hj _ IH]; intros h g; cbn [hmap_each].
  - exists [], [], []. rewrite app_nil_r. repeat split; [constructor|by intros ? ? ? ? ? ?|constructor].
  - destruct (Hj h g) as (v & e1 & fp1 & Hrun1 & Hrep1 & Hnew1).
    destruct (IH (h ++ e1) g) as (vs & e2 & fps & Hrun2 & Hrep2 & Hsep2 & Hnew2).
    exists (v :: vs), (e1 ++ e2), (fp1 :: fps).
    unfold hbind. rewrite Hrun1, Hrun2. rewrite <-app_assoc in *. simpl.
    split; [done|]. split; [|split].
    + constructor; [|done]. rewrite app_assoc. by apply rep_app.
    + apply separate_cons. split; [|done].
      intros Y HY. apply elem_of_disjoint. intros x Hx1 Hx2.
      apply (rep_lt _ _ _ _ Hrep1) in Hx1.
      rewrite Forall_forall in Hnew2. apply (Hnew2 Y HY) in Hx2. lia.
    + constructor; [done|]. eapply Forall_impl; [exact Hnew2|].
      intros Y HY x Hx. apply HY in Hx. rewrite length_app in Hx. lia.
Qed.

Lemma build_props_run kvs h g :
  hmap_each (fun kv : string * json => let! v := h_build kv.2 in hret (kv.1, v))
            kvs h g =
  match hmap_each h_build kvs.*2 h g
        return result (list (string * value)) * heap * rng with
  | (Ok vs, h', g') => (Ok (zip kvs.*1 vs), h', g')
  | (Throw e, h', g') => (Throw e, h', g')
  end.
Proof.
  revert h g. induction kvs as [|[k j] kvs IH]; intros h g; [done|].
  cbn [hmap_each fmap list_fmap]. unfold hbind. simpl.
  destruct (h_build j h g) as [[[v|e] h1] g1]; [|done].
  simpl. rewrite IH.
  by destruct (hmap_each h_build kvs.*2 h1 g1) as [[[vs|e] h2] g2].
Qed.

(** JSON.parse lays a value out as a tree over new cells. *)
Lemma build_rep j h g :
  exists v ext fp,
    h_build j h g = (Ok v, h ++ ext, g) /\ rep (h ++ ext) v j fp /\ made_since h fp.
Proof.
  revert h g. induction j as [| | | |l IH|kvs IH] using json_nested_ind; intros h g;
    try (eexists _, [], ∅; rewrite app_nil_r; repeat split; [constructor|set_solver]).
  - destruct (build_each_rep l IH h g) as (vs & ext & fps & Hrun & Hrep & Hsep & Hnew).
    exists (VRef (length (h ++ ext))), (ext ++ [OArr vs]), ({[length (h ++ ext)]} ∪ ⋃ fps).
    cbn [h_build]. unfold hbind. rewrite Hrun. unfold h_alloc. rewrite app_assoc.
    split; [done|]. split.
    + apply (rep_arr _ _ vs).
      * by rewrite lookup_app_r, Nat.sub_diag.
      * eapply Forall3_impl; [exact Hrep|]. intros. by apply rep_app.
      * apply separate_cons. split; [|done]. intros Y [i Hi]%list_elem_of_lookup.
        destruct (Forall3_lookup_r _ _ _ _ _ _ Hrep Hi) as (w & jw & _ & _ & HY).
        apply elem_of_disjoint. intros c ->%elem_of_singleton Hc.
        apply (rep_lt _ _ _ _ HY) in Hc. lia.
    + intros x [->|(X & HX & Hx)]%elem_of_footprint; [rewrite length_app; lia|].
      rewrite Forall_forall in Hnew. by apply (Hnew X HX).
  - assert (Forall (fun j => forall h g, exists v ext fp,
              h_build j h g = (Ok v, h ++ ext, g) /\
              rep (h ++ ext) v j fp /\ made_since h fp) kvs.*2) as IH'.
    { apply Forall_fmap. exact IH. }
    destruct (build_each_rep _ IH' h g) as (vs & ext & fps & Hrun & Hrep & Hsep & Hnew).
    exists (VRef (length (h ++ ext))), (ext ++ [OObj (zip kvs.*1 vs)]),
      ({[length (h ++ ext)]} ∪ ⋃ fps).
    cbn [h_build]. unfold hbind. rewrite build_props_run, Hrun.
    unfold h_alloc. rewrite app_assoc.
    assert (length kvs.*1 = length vs) as Hlen.
    { rewrite (Forall3_length_lm _ _ _ _ Hrep). by rewrite !length_fmap. }
    split; [done|]. split.
    + apply (rep_obj _ _ (zip kvs.*1 vs)).
      * by rewrite lookup_app_r, Nat.sub_diag.
      * apply fst_zip. lia.
      * rewrite snd_zip by lia.
        eapply Forall3_impl; [exact Hrep|]. intros. by apply rep_app.
      * apply separate_cons. split; [|done]. intros Y [i Hi]%list_elem_of_lookup.
        destruct (Forall3_lookup_r _ _ _ _ _ _ Hrep Hi) as (w & jw & _ & _ & HY).
        apply elem_of_disjoint. intros c ->%elem_of_singleton Hc.
        apply (rep_lt _ _ _ _ HY) in Hc. lia.
    + intros x [->|(X & HX & Hx)]%elem_of_footprint; [rewrite length_app; lia|].
      rewrite Forall_forall in Hnew. by apply (Hnew X HX).
Qed.

Lemma foldr_max_le {A} (f : A -> nat) l n :
  (forall x, x ∈ l -> f x <= n)%nat -> (foldr (fun x acc => f x `max` acc) 0 l <= n)%nat.
Proof.
  induction l as [|x xs IH]; simpl; intros H; [lia|].
  pose proof (H x (list_elem_of_here _ _)). 
  assert (foldr (fun x acc => f x `max` acc) 0 xs <= n)%nat
    by (apply IH; intros; apply H; by right).
  lia.
Qed.

Lemma foldr_max_ge {A} (f : A -> nat) l x :
  x ∈ l -> (f x <= foldr (fun x acc => f x `max` acc) 0 l)%nat.
Proof.
  induction l as [|y ys IH]; simpl; [by intros ?%elem_of_nil|].
  intros [->|Hx]%elem_of_cons; [lia|]. specialize (IH Hx). lia.
Qed.

(** A value that owns its cells serialises to the JSON value it represents,
    as JSON writes it. *)
Lemma rep_serialise h v j fp :
  rep h v j fp ->
  forall d, (json_depth j < d)%nat -> serialise d h v = Some (Some (written j)).
Proof.
  induction 1 as [| | | |l elems js fps Hl _ IH _|l props kjs fps Hl Hk _ IH _]
    using rep_nested_ind; intros [|d] Hd; try lia; try done.
  - simpl. rewrite Hl.
    assert (mapM (serialise d h) elems = Some (Some <$> (written <$> js))) as ->.
    { apply mapM_Some. simpl in Hd.
      assert (forall y, y ∈ js -> json_depth y < d)%nat as Hy.
      { intros y Hy. pose proof (foldr_max_ge json_depth js y Hy). lia. }
      clear Hd Hl. induction IH as [|x y z xs ys zs Hx _ IHxs]; simpl; constructor.
      - apply Hx, Hy. left.
      - apply IHxs. intros; apply Hy. by right. }
    do 3 f_equal. clear. induction js; simpl; by f_equal.
  - simpl. rewrite Hl.
    assert (mapM (fun kv : string * value => pair kv.1 <$> serialise d h kv.2) props
            = Some ((fun kj : string * json => (kj.1, Some (written kj.2))) <$> kjs)) as ->.
    { apply mapM_Some. simpl in Hd.
      assert (forall kj, kj ∈ kjs -> json_depth kj.2 < d)%nat as Hy.
      { intros kj Hkj.
        pose proof (foldr_max_ge (fun kj : string * json => json_depth kj.2) kjs kj Hkj).
        lia. }
      clear Hd Hl. revert kjs fps Hk IH Hy.
      induction props as [|[k x] props IHp]; intros [|[k' y] kjs] fps Hk IH Hy;
        simpl in *; try done.
      injection Hk as <- Hk.
      apply Forall3_cons_inv_l in IH as (y' & ys & z & zs & Hy' & -> & Hx & IH).
      injection Hy' as <- <-.
      constructor.
      - simpl. rewrite (Hx d); [done|]. apply (Hy (k, y)). left.
      - eapply IHp; [done|exact IH|]. intros; apply Hy. by right. }
    do 3 f_equal. clear. induction kjs as [|[k y] kjs IHk]; simpl; by f_equal.
Qed.

Lemma rep_depth h v j fp : rep h v j fp -> (json_depth j <= size fp)%nat.
Proof.
  assert (forall l (fps : list (gset nat)),
             separate ({[l]} :: fps) ->
             size ({[l]} ∪ ⋃ fps : gset nat) = S (size (⋃ fps : gset nat))) as Hsize.
  { intros l fps [Hl _]%separate_cons. rewrite size_union, size_singleton; [done|].
    apply elem_of_disjoint. intros x ->%elem_of_singleton (X & HX & Hx)%elem_of_union_list.
    specialize (Hl X HX). set_solver. }
  assert (forall (fps : list (gset nat)) X, X ∈ fps -> size X <= size (⋃ fps : gset nat))%nat
    as Hin.
  { intros fps X HX. apply subseteq_size. intros x Hx.
    apply elem_of_union_list. by exists X. }
  induction 1 as [| | | |l elems js fps Hl _ IH Hsep|l props kjs fps Hl Hk _ IH Hsep]
    using rep_nested_ind; simpl; try lia.
  - rewrite Hsize by done. apply le_n_S, foldr_max_le.
    intros y [i Hi]%list_elem_of_lookup.
    destruct (Forall3_lookup_m _ _ _ _ _ _ IH Hi) as (x & z & _ & Hz & Hle).
    etransitivity; [exact Hle|]. apply Hin. by eapply list_elem_of_lookup_2.
  - rewrite Hsize by done. apply le_n_S, foldr_max_le.
    intros kj [i Hi]%list_elem_of_lookup.
    assert (kjs.*2 !! i = Some kj.2) as Hi2 by (by rewrite list_lookup_fmap, Hi).
    destruct (Forall3_lookup_m _ _ _ _ _ _ IH Hi2) as (x & z & _ & Hz & Hle).
    etransitivity; [exact Hle|]. apply Hin. by eapply list_elem_of_lookup_2.
Qed.

Lemma rep_stringify h v j fp :
  rep h v j fp -> serialise (S (length h)) h v = Some (Some (written j)).
Proof.
  intros Hrep. eapply rep_serialise; [exact Hrep|].
  pose proof (rep_depth _ _ _ _ Hrep) as Hd.
  assert (size fp <= length h)%nat; [|lia].
  rewrite <-(size_set_seq (C:=gset nat) 0 (length h)). apply subseteq_size.
  intros l Hl. apply elem_of_set_seq. split; [lia|]. simpl.
  by eapply rep_lt.
Qed.

Lemma separate_perm (fps fps' : list (gset nat)) :
  fps ≡ₚ fps' -> separate fps -> separate fps'.
Proof.
  induction 1 as [|X l l' Hl IH|X Y l|l1 l2 l3 _ IH1 _ IH2]; [done| | |auto].
  - rewrite !separate_cons. intros [Hhead Htail]. split; [|auto].
    intros Y HY. apply Hhead. by rewrite Hl.
  - rewrite !separate_cons. intros (HY & HX & Hl).
    split; [|split; [|done]].
    + intros Z [->|HZ]%elem_of_cons; [symmetry; apply HY; left|by apply HX].
    + intros Z HZ. apply HY. by right.
Qed.

Lemma swap_fmap {A B} (f : A -> B) i j (l : list A) :
  swap i j (f <$> l) = f <$> swap i j l.
Proof.
  unfold swap. rewrite !list_lookup_fmap.
  destruct (l !! i), (l !! j); simpl; try done. by rewrite !list_fmap_insert.
Qed.

Lemma shuffle_loop_fmap {A B} (f : A -> B) i (l : list A) g :
  shuffle_loop i (f <$> l) g =
  match shuffle_loop i l g return result (list B) * rng with
  | (Ok l', g') => (Ok (f <$> l'), g')
  | (Throw e, g') => (Throw e, g')
  end.
Proof.
  revert l g. induction i as [|i IH]; intros l g; [done|].
  cbn [shuffle_loop]. unfold bind, random_below. by rewrite swap_fmap, IH.
Qed.

(** Shuffling is blind to the elements: it permutes any list of the same
    length the same way. *)
Lemma shuffle_list_fmap {A B} (f : A -> B) (l l' : list A) g g' :
  shuffle_list l g = (Ok l', g') -> shuffle_list (f <$> l) g = (Ok (f <$> l'), g').
Proof.
  unfold shuffle_list. intros H. by rewrite length_fmap, shuffle_loop_fmap, H.
Qed.

Lemma Forall3_triples {A B C} (R : A -> B -> C -> Prop) xs ys zs :
  Forall3 R xs ys zs <->
  exists ts : list (A * B * C),
    xs = (fun t => t.1.1) <$> ts /\ ys = (fun t => t.1.2) <$> ts /\
    zs = (fun t => t.2) <$> ts /\ Forall (fun t => R t.1.1 t.1.2 t.2) ts.
Proof.
  split.
  - induction 1 as [|x y z xs ys zs Hx _ (ts & -> & -> & -> & Hts)].
    + by exists [].
    + exists ((x, y, z) :: ts). by repeat split; [..|constructor].
  - intros (ts & -> & -> & -> & Hts).
    induction Hts as [|[[x y] z] ts Hx _ IH]; constructor; done.
Qed.

Lemma shuffle_simulates : array_simulates h_shuffle shuffle_list.
Proof.
  intros h g a js X Hrep.
  inversion Hrep as [| | | |? elems ? fps Ha Helems Hsep|]; subst.
  apply Forall3_triples in Helems as (ts & -> & -> & -> & Hts).
  destruct (shuffle_list_total ts g) as (ts' & g' & Hrun & Hperm).
  unfold h_shuffle, hbind, h_isArray, h_elems, with_rng, h_alloc.
  rewrite Ha. cbv beta iota. rewrite Ha. cbv beta iota.
  rewrite (shuffle_list_fmap _ _ _ _ _ Hrun), (shuffle_list_fmap _ _ _ _ _ Hrun).
  cbv beta iota.
  split; [done|]. split; [rewrite length_app; lia|]. split.
  { intros l Hl _. by apply lookup_app_l. }
  exists ({[length h]} ∪ ⋃ ((fun t => t.2) <$> ts')). split.
  - apply (rep_arr _ _ ((fun t => t.1.1) <$> ts')).
    + by rewrite lookup_app_r, Nat.sub_diag.
    + apply Forall3_triples. exists ts'. repeat split.
      rewrite Hperm. eapply Forall_impl; [exact Hts|]. intros. by apply rep_app.
    + apply separate_cons in Hsep as [_ Hsep]. apply separate_cons. split.
      * intros Y (t & -> & Ht)%list_elem_of_fmap.
        apply elem_of_disjoint. intros c ->%elem_of_singleton Hc.
        rewrite Hperm in Ht. rewrite Forall_forall in Hts.
        apply (rep_lt _ _ _ _ (Hts t Ht)) in Hc. lia.
      * eapply separate_perm; [|exact Hsep]. by rewrite Hperm.
  - intros c [->|(Y & HY & Hc)]%elem_of_footprint; [by right|]. left.
    apply elem_of_footprint. right. exists Y. split; [|done]. by rewrite <-Hperm.
Qed.

Lemma Forall3_rep_frame h h' xs js fps :
  Forall3 (rep h) xs js fps ->
  (forall X l, X ∈ fps -> l ∈ X -> h' !! l = h !! l) ->
  Forall3 (rep h') xs js fps.
Proof.
  induction 1 as [|x y z xs ys zs Hx _ IH]; intros Hsame; constructor.
  - eapply rep_frame; [exact Hx|]. intros l Hl. eapply Hsame; [left|done].
  - apply IH. intros X l HX. apply Hsame. by right.
Qed.

Lemma Forall3_rep_lt h xs js fps X l :
  Forall3 (rep h) xs js fps -> X ∈ fps -> l ∈ X -> (l < length h)%nat.
Proof.
  intros HF [i Hi]%list_elem_of_lookup Hl.
  destruct (Forall3_lookup_r _ _ _ _ _ _ HF Hi) as (x & y & _ & _ & Hrep).
  by eapply rep_lt.
Qed.

(** The callbacks run over the elements one after the other; the elements
    own disjoint cells, so none sees the changes made for another. *)
Lemma each_simulates hcb cb :
  cb_simulates hcb cb ->
  forall xs js fps h g,
    Forall3 (rep h) xs js fps -> separate fps ->
    match hmap_each hcb xs h g, map_each cb js g with
    | (Ok xs', h', g'), (Ok js', g0) =>
        xs' = xs /\ g' = g0 /\ (length h <= length h')%nat /\
        (forall l, (l < length h)%nat -> (forall X, X ∈ fps -> l ∉ X) ->
                   h' !! l = h !! l) /\
        exists fps',
          Forall3 (rep h') xs js' fps' /\ separate fps' /\
          Forall2 (fun X' X => forall l, l ∈ X' -> l ∈ X \/ (length h <= l)%nat)
                  fps' fps
    | (Throw _, _, _), (Throw _, _) => True
    | _, _ => False
    end.
Proof.
  intros Hcb xs. induction xs as [|x xs IH]; intros js fps h g HF Hsep.
  { inversion HF; subst. cbn. repeat split; [lia|].
    exists []. repeat split; [constructor|done|constructor]. }
  apply Forall3_cons_inv_l in HF as (y & ys & z & zs & -> & -> & Hx & HF).
  cbn [hmap_each map_each]. unfold hbind, bind.
  specialize (Hcb h g x y z Hx). unfold simulates in Hcb.
  destruct (hcb x h g) as [[[x'|e] h1] g1], (cb y g) as [[y'|e0] g0]; try done.
  destruct Hcb as (-> & -> & Hlen1 & Hframe1 & z' & Hrep1 & Hz').
  apply separate_cons in Hsep as [Hz Hsep].
  assert (Forall3 (rep h1) xs ys zs) as HF1.
  { eapply Forall3_rep_frame; [exact HF|]. intros X l HX Hl.
    apply Hframe1; [by eapply Forall3_rep_lt|].
    specialize (Hz X HX). set_solver. }
  specialize (IH ys zs h1 g0 HF1 Hsep).
  destruct (hmap_each hcb xs h1 g0) as [[[xs'|e] h2] g2],
           (map_each cb ys g0) as [[ys'|e0] g3]; try done.
  destruct IH as (-> & -> & Hlen2 & Hframe2 & fps2 & Hrep2 & Hsep2 & Hbound2).
  cbn. split; [done|]. split; [done|]. split; [lia|].
  assert (forall l X, l ∈ z' -> X ∈ zs -> l ∉ X) as Hz'zs.
  { intros l X Hl HX HlX. destruct (Hz' l Hl) as [Hlz|Hge].
    - specialize (Hz X HX). set_solver.
    - pose proof (Forall3_rep_lt _ _ _ _ _ _ HF HX HlX). lia. }
  split; [|exists (z' :: fps2); split; [|split]].
  - intros l Hl Hnot. rewrite Hframe2; [apply Hframe1; [done|]|lia|].
    + apply Hnot. left.
    + intros X HX. apply Hnot. by right.
  - constructor; [|done]. eapply rep_frame; [exact Hrep1|].
    intros l Hl. apply Hframe2; [by eapply rep_lt|]. intros X HX. by apply Hz'zs.
  - apply separate_cons. split; [|done].
    intros Y [i Hi]%list_elem_of_lookup.
    destruct (Forall2_lookup_l _ _ _ _ _ Hbound2 Hi) as (X & HX & HYX).
    apply list_elem_of_lookup_2 in HX.
    apply elem_of_disjoint. intros l Hl HlY.
    pose proof (rep_lt _ _ _ _ Hrep1 l Hl).
    destruct (HYX l HlY) as [HlX|?]; [|lia]. by apply (Hz'zs l X).
  - constructor; [done|]. eapply Forall2_impl; [exact Hbound2|].
    intros Y X HYX l Hl. destruct (HYX l Hl); [by left|right; lia].
Qed.

Lemma map_simulates hcb cb :
  cb_simulates hcb cb -> array_simulates (h_map hcb) (map_each cb).
Proof.
  intros Hcb h g a js X Hrep.
  inversion Hrep as [| | | |? elems ? fps Ha Helems Hsep|]; subst.
  apply separate_cons in Hsep as [Ha_fps Hsep].
  unfold h_map, hbind, h_elems. rewrite Ha.
  pose proof (each_simulates hcb cb Hcb elems js fps h g Helems Hsep) as Heach.
  destruct (hmap_each hcb elems h g) as [[[xs'|e] h2] g2],
           (map_each cb js g) as [[js'|e0] g0]; try done.
  destruct Heach as (-> & -> & Hlen & Hframe & fps' & Hrep' & Hsep' & Hbound).
  unfold h_alloc. split; [done|]. split; [rewrite length_app; lia|]. split.
  { intros l Hl Hnot. rewrite lookup_app_l by lia. apply Hframe; [done|].
    intros Y HY HlY. apply Hnot, elem_of_footprint. right. by exists Y. }
  exists ({[length h2]} ∪ ⋃ fps'). split.
  - apply (rep_arr _ _ elems).
    + by rewrite lookup_app_r, Nat.sub_diag.
    + eapply Forall3_impl; [exact Hrep'|]. intros. by apply rep_app.
    + apply separate_cons. split; [|done]. intros Y HY.
      apply elem_of_disjoint. intros c ->%elem_of_singleton Hc.
      pose proof (Forall3_rep_lt _ _ _ _ _ _ Hrep' HY Hc). lia.
  - intros c [->|(Y & [i Hi]%list_elem_of_lookup & Hc)]%elem_of_footprint;
      [right; lia|].
    destruct (Forall2_lookup_l _ _ _ _ _ Hbound Hi) as (Z & HZ & HYZ).
    destruct (HYZ c Hc) as [HcZ|?]; [left|by right].
    apply elem_of_footprint. right. exists Z. split; [|done].
    by eapply list_elem_of_lookup_2.
Qed.

Lemma then_simulates b1 b01 b2 b02 :
  array_simulates b1 b01 -> array_simulates b2 b02 ->
  array_simulates (fun x => let! s := b1 x in b2 s)
                  (fun js => let* l := b01 js in b02 l).
Proof.
  intros H1 H2 h g a js X Hrep. specialize (H1 h g a js X Hrep).
  unfold hbind, bind.
  destruct (b1 (VRef a) h g) as [[[m|e] h1] g1], (b01 js g) as [[js1|e0] g0];
    try done.
  destruct H1 as (-> & Hlen1 & Hframe1 & X1 & Hrep1 & HX1).
  inversion Hrep1 as [| | | |a1 elems ? fps Ha1 Helems Hsep|]; subst.
  specialize (H2 h1 g0 a1 js1 _ Hrep1).
  destruct (b2 (VRef a1) h1 g0) as [[[m2|e] h2] g2], (b02 js1 g0) as [[js2|e0] g3];
    try done.
  destruct H2 as (-> & Hlen2 & Hframe2 & X2 & Hrep2 & HX2).
  split; [done|]. split; [lia|]. split.
  - intros l Hl Hnot. rewrite Hframe2; [by apply Hframe1|lia|].
    intros Hin. destruct (HX1 l Hin); [done|lia].
  - exists X2. split; [done|]. intros l Hl.
    destruct (HX2 l Hl) as [Hin|?]; [|right; lia].
    destruct (HX1 l Hin); [by left|by right].
Qed.

(** The property [k] of an object and of the JSON value it represents. *)
Lemma field_at {R : value -> json -> gset nat -> Prop}
    (props : list (string * value)) (kjs : list (string * json)) fps k :
  props.*1 = kjs.*1 -> Forall3 R props.*2 kjs.*2 fps ->
  (lookup_prop k props = VUndef /\ lookup_field k kjs = None) \/
  exists i x jx X,
    props !! i = Some (k, x) /\ kjs !! i = Some (k, jx) /\ fps !! i = Some X /\
    R x jx X /\ lookup_prop k props = x /\ lookup_field k kjs = Some jx /\
    (forall v, assign_prop k v props = <[i := (k, v)]> props) /\
    (forall jv, assign_field k jv kjs = <[i := (k, jv)]> kjs).
Proof.
  revert kjs fps. induction props as [|[k0 x0] props IH];
    intros [|[k1 y0] kjs] fps Hk HF; simpl in *; try done; [by left|].
  injection Hk as <- Hk.
  apply Forall3_cons_inv_l in HF as (y & ys & Z & Zs & Hy & -> & HR & HF).
  injection Hy as <- <-.
  destruct (String.eqb_spec k k0) as [->|Hne].
  - right. exists 0%nat, x0, y0, Z. by repeat split.
  - destruct (IH kjs Zs Hk HF)
      as [[? ?]|(i & x & jx & X & Hp & Hj & HX & HRx & Hlp & Hlj & Hap & Haj)];
      [by left|].
    right. exists (S i), x, jx, X. repeat split; try done.
    + intros v. simpl. by rewrite Hap.
    + intros jv. simpl. by rewrite Haj.
Qed.

Lemma Forall3_impl_lookup {A B C} (P Q : A -> B -> C -> Prop) xs ys zs :
  Forall3 P xs ys zs ->
  (forall idx x y z, xs !! idx = Some x -> ys !! idx = Some y ->
                     zs !! idx = Some z -> P x y z -> Q x y z) ->
  Forall3 Q xs ys zs.
Proof.
  induction 1 as [|x y z xs ys zs Hx _ IH]; intros Himpl; constructor.
  - by apply (Himpl 0%nat).
  - apply IH. intros idx. apply (Himpl (S idx)).
Qed.

Lemma Forall3_insert_frame {A B C} (P Q : A -> B -> C -> Prop) i xs ys zs x' y' z' :
  Forall3 P xs ys zs ->
  (forall idx x y z, idx <> i -> xs !! idx = Some x -> ys !! idx = Some y ->
                     zs !! idx = Some z -> P x y z -> Q x y z) ->
  Q x' y' z' ->
  Forall3 Q (<[i := x']> xs) (<[i := y']> ys) (<[i := z']> zs).
Proof.
  intros HF. revert i.
  induction HF as [|x y z xs ys zs Hx HF IH]; intros i Hother Hnew.
  { constructor. }
  destruct i as [|i]; simpl.
  - constructor; [done|]. apply (Forall3_impl_lookup P Q _ _ _ HF).
    intros idx ? ? ?. by apply (Hother (S idx)).
  - constructor; [by apply (Hother 0%nat)|]. apply IH; [|done].
    intros idx ? ? ? Hne. apply (Hother (S idx)). congruence.
Qed.

Lemma updated_refl h v j fp : rep h v j fp -> updated h h fp v j.
Proof.
  intros Hrep. split; [done|]. split; [done|]. exists fp. split; [done|]. by left.
Qed.

Lemma separate_insert l fps i X X1 (n : nat) :
  separate ({[l]} :: fps) -> fps !! i = Some X -> (l < n)%nat ->
  (forall Y c, Y ∈ fps -> c ∈ Y -> (c < n)%nat) ->
  (forall c, c ∈ X1 -> c ∈ X \/ (n <= c)%nat) ->
  separate ({[l]} :: <[i := X1]> fps).
Proof.
  intros Hsep HX Hl Hlt HX1.
  assert (forall idx Y, ({[l]} :: <[i := X1]> fps) !! idx = Some Y ->
            (idx = S i /\ Y = X1) \/ ({[l]} :: fps) !! idx = Some Y) as Hcases.
  { intros [|idx] Y; simpl; [by right|]. intros HY.
    destruct (decide (idx = i)) as [->|Hne].
    - left. rewrite list_lookup_insert_eq in HY by (by eapply lookup_lt_Some).
      by injection HY as <-.
    - right. by rewrite list_lookup_insert_ne in HY. }
  assert (forall idx Y c, ({[l]} :: fps) !! idx = Some Y -> c ∈ Y -> (c < n)%nat)
    as Hold.
  { intros [|idx] Y c; simpl.
    - intros [= <-] ->%elem_of_singleton. done.
    - intros HY. apply Hlt. by eapply list_elem_of_lookup_2. }
  assert (forall b B c, b <> S i -> ({[l]} :: fps) !! b = Some B -> c ∈ X1 -> c ∈ B ->
            False) as Hmixed.
  { intros b B c Hb HB Hc1 HcB. destruct (HX1 c Hc1) as [HcX|Hge].
    - assert (X ## B) as Hdisj by (apply (Hsep (S i) b); done).
      by apply (Hdisj c).
    - pose proof (Hold b B c HB HcB). lia. }
  intros a b A B Hab HA HB. apply elem_of_disjoint. intros c HcA HcB.
  destruct (Hcases a A HA) as [[-> ->]|HA'], (Hcases b B HB) as [[-> ->]|HB'].
  - done.
  - by apply (Hmixed b B c).
  - by apply (Hmixed a A c).
  - assert (A ## B) as Hdisj by (by apply (Hsep a b)). by apply (Hdisj c).
Qed.

(** Updating an array-valued property in place has the effect of
    replacing the property in the represented value. *)
Lemma update_field_simulates k body body0 :
  array_simulates body body0 ->
  forall h g o j fp, rep h o j fp -> j <> JNull ->
  simulates h g fp o (h_update_field k body o) (update_field k body0 j).
Proof.
  intros Hbody h g o j fp Hrep Hnn.
  inversion Hrep as [| b | q | s | l elems js fps Hl Hel Hsep
                     | l props kjs fps Hl Hk Hprops Hsep]; subst; try done.
  1-3: by (unfold simulates, h_update_field, hbind, update_field; simpl;
           split; [done|split; [done|apply updated_refl]]).
  { unfold simulates, h_update_field, hbind, update_field, h_get. rewrite Hl. simpl.
    split; [done|split; [done|by apply updated_refl]]. }
  destruct (field_at props kjs fps k Hk Hprops)
    as [[Hp Hj]|(i & x & jx & X & Hpi & Hji & HXi & Hx & Hlp & Hlj & Hap & Haj)].
  { unfold simulates, h_update_field, hbind, update_field, h_get, get.
    rewrite Hl, Hp, Hj. simpl.
    split; [done|split; [done|by apply updated_refl]]. }
  assert ((l ∉ X) /\ (l < length h)%nat) as [HlX Hllt].
  { split; [|by eapply lookup_lt_Some].
    assert ({[l]} ## X) as Hd by (by apply (Hsep 0%nat (S i))).
    intros Hin. apply (Hd l); [set_solver|done]. }
  unfold simulates, h_update_field, hbind, update_field, h_get, get.
  rewrite Hl, Hlp, Hlj. revert Hlp.
  inversion Hx as [| b | q | s | a elems js fps' Ha Hel Hsep'
                   | a props' kjs' fps' Ha Hk' Hprops' Hsep']; subst; intros Hlp; simpl;
    try (rewrite Ha; simpl);
    try (split; [done|split; [done|by apply updated_refl]]).
  rewrite Hl, Hlp. unfold bind, ret.
  specialize (Hbody h g a js _ Hx).
  destruct (body (VRef a) h g) as [[[m|e] h1] g1], (body0 js g) as [[js'|e0] g0];
    try done.
  destruct Hbody as (-> & Hlen & Hframe & X1 & Hrep1 & HX1).
  unfold h_set. rewrite (Hframe l Hllt HlX), Hl. simpl.
  split; [done|]. split; [done|].
  rewrite Hap, Haj.
  assert (forall c, c ∈ X1 -> c <> l) as Hfresh.
  { intros c Hc ->. destruct (HX1 l Hc); [done|lia]. }
  assert (forall Y c, Y ∈ fps -> c ∈ Y -> (c < length h)%nat) as Hlt.
  { intros Y c HY Hc. by eapply (Forall3_rep_lt _ _ _ _ _ _ Hprops). }
  split; [by rewrite length_insert|]. split.
  { intros c Hc Hnot. rewrite list_lookup_insert_ne by set_solver.
    apply Hframe; [done|]. intros Hin. apply Hnot, elem_of_footprint. right.
    exists ({[a]} ∪ ⋃ fps'). split; [by eapply list_elem_of_lookup_2|done]. }
  exists ({[l]} ∪ ⋃ (<[i := X1]> fps)). split.
  - apply (rep_obj _ _ (<[i := (k, m)]> props)).
    + apply list_lookup_insert_eq. lia.
    + by rewrite !list_fmap_insert, Hk.
    + rewrite !list_fmap_insert. simpl.
      apply (Forall3_insert_frame (rep h)); [done| |].
      * intros idx x y Z Hne Hxi Hyi HZi Hrepx.
        apply (rep_frame h); [done|]. intros c Hc.
        assert (c <> l) as Hcl.
        { intros ->. assert ({[l]} ## Z) as Hd by (by apply (Hsep 0%nat (S idx))).
          apply (Hd l); [set_solver|done]. }
        rewrite list_lookup_insert_ne by done.
        apply Hframe; [by eapply rep_lt|].
        assert (Z ## {[a]} ∪ ⋃ fps') as Hd by (by apply (Hsep (S idx) (S i)); [lia|..]).
        intros Hin. by apply (Hd c).
      * apply (rep_frame h1); [done|]. intros c Hc.
        apply list_lookup_insert_ne. intros <-. by apply (Hfresh l).
    + by apply (separate_insert l fps i ({[a]} ∪ ⋃ fps') X1 (length h)).
  - intros c [->|(Y & [idx Hidx]%list_elem_of_lookup & Hc)]%elem_of_footprint.
    { left. set_solver. }
    destruct (decide (idx = i)) as [->|Hne].
    + rewrite list_lookup_insert_eq in Hidx by (by eapply lookup_lt_Some).
      injection Hidx as <-. destruct (HX1 c Hc) as [Hin|?]; [left|by right].
      apply elem_of_footprint. right. exists ({[a]} ∪ ⋃ fps').
      split; [by eapply list_elem_of_lookup_2|done].
    + rewrite list_lookup_insert_ne in Hidx by done. left.
      apply elem_of_footprint. right. exists Y.
      split; [by eapply list_elem_of_lookup_2|done].
Qed.

Lemma get_matches h o j fp k g :
  rep h o j fp -> j <> JNull ->
  exists x, h_get o k h g = (Ok x, h, g) /\ matches h x (get j k).
Proof.
  intros Hrep Hnn.
  inversion Hrep as [| b | q | s | l elems js fps Hl Hel Hsep
                     | l props kjs fps Hl Hk Hprops Hsep]; subst; try done;
    unfold h_get; try rewrite Hl; try (by exists VUndef).
  destruct (field_at props kjs fps k Hk Hprops)
    as [[Hp Hj]|(i & x & jx & X & _ & _ & _ & Hx & Hlp & Hlj & _)].
  - exists VUndef. simpl. by rewrite Hp, Hj.
  - exists x. simpl. rewrite Hlp, Hlj. split; [done|]. by exists X.
Qed.

Lemma matches_is_str h x jv lit : matches h x jv -> v_is_str lit x = is_str lit jv.
Proof.
  destruct jv as [j|]; simpl; [|by intros ->].
  intros [X Hrep]. by inversion Hrep.
Qed.

Lemma matches_truthy h x jv : matches h x jv -> v_truthy x = truthy jv.
Proof.
  destruct jv as [j|]; simpl; [|by intros ->].
  intros [X Hrep]. by inversion Hrep.
Qed.

Lemma matches_isArray h x jv g :
  matches h x jv -> h_isArray x h g = (Ok (isArray jv), h, g).
Proof.
  destruct jv as [j|]; simpl; [|by intros ->].
  intros [X Hrep].
  inversion Hrep as [| | | |? ? ? ? Hl|? ? ? ? Hl]; subst; simpl; try done;
    by rewrite Hl.
Qed.

Lemma rep_null_inv h v fp : rep h v JNull fp -> v = VNull.
Proof. by inversion 1. Qed.

Lemma updated_trans h h1 h2 fp fp1 v j1 j2 :
  updated h h1 fp v j1 ->
  (forall l, l ∈ fp1 -> l ∈ fp \/ (length h <= l)%nat) ->
  updated h1 h2 fp1 v j2 -> updated h h2 fp v j2.
Proof.
  intros (Hlen1 & Hframe1 & _) Hfp1 (Hlen2 & Hframe2 & fp2 & Hrep2 & Hfp2).
  split; [lia|]. split.
  - intros l Hl Hnot. rewrite Hframe2; [by apply Hframe1|lia|].
    intros Hin. destruct (Hfp1 l Hin); [done|lia].
  - exists fp2. split; [done|]. intros l Hl.
    destruct (Hfp2 l Hl) as [Hin|?]; [|right; lia]. by apply Hfp1.
Qed.

Lemma simulates_bind h g fp o m1 p1 (m2 : value -> HM value) p2 :
  simulates h g fp o m1 p1 ->
  (forall h1 g1 j1 fp1, rep h1 o j1 fp1 -> simulates h1 g1 fp1 o (m2 o) (p2 j1)) ->
  simulates h g fp o (let! x := m1 in m2 x) (let* j1 := p1 in p2 j1).
Proof.
  unfold simulates, hbind, bind. intros H1 H2.
  destruct (m1 h g) as [[[v1|e] h1] g1], (p1 g) as [[j1|e0] g0]; try done.
  destruct H1 as (-> & -> & Hupd).
  pose proof Hupd as (_ & _ & fp1 & Hrep1 & Hfp1).
  specialize (H2 h1 g0 j1 fp1 Hrep1).
  destruct (m2 o h1 g0) as [[[v2|e] h2] g2], (p2 j1 g0) as [[j2|e0] g3]; try done.
  destruct H2 as (-> & -> & Hupd2). split; [done|]. split; [done|].
  by eapply updated_trans.
Qed.

Lemma simulates_then_ret h g fp o m p :
  simulates h g fp o m p -> simulates h g fp o (let! _ := m in hret o) p.
Proof.
  unfold simulates, hbind, hret. intros H.
  destruct (m h g) as [[[v1|e] h1] g1], (p g) as [[j1|e0] g0]; try done.
  by destruct H as (-> & -> & Hupd).
Qed.

Lemma simulates_get h g fp o j k v (f : value -> HM value) p :
  rep h o j fp -> j <> JNull ->
  (forall x, matches h x (get j k) -> simulates h g fp v (f x) p) ->
  simulates h g fp v (let! x := h_get o k in f x) p.
Proof.
  intros Hrep Hnn Hf.
  destruct (get_matches h o j fp k g Hrep Hnn) as (x & Hget & Hx).
  specialize (Hf x Hx). unfold simulates, hbind in *. by rewrite Hget.
Qed.

Lemma simulates_ext h g fp v m p p' :
  p g = p' g -> simulates h g fp v m p -> simulates h g fp v m p'.
Proof. unfold simulates. by intros ->. Qed.

Lemma simulates_ret h g fp o j : rep h o j fp -> simulates h g fp o (hret o) (ret j).
Proof.
  intros Hrep. unfold simulates, hret, ret.
  split; [done|]. split; [done|]. by apply updated_refl.
Qed.

Lemma shuffle_field_keep k o g :
  shuffle_field k keep o g = update_field k shuffle_list o g.
Proof.
  unfold shuffle_field, update_field.
  destruct (get o k) as [[]|]; try done.
  unfold bind. destruct (shuffle_list _ g) as [[l'|e] g']; [|done].
  by rewrite map_each_keep.
Qed.

Lemma shuffle_field_map k cb o g :
  shuffle_field k cb o g =
  update_field k (fun arr => let* l := shuffle_list arr in map_each cb l) o g.
Proof.
  unfold shuffle_field, update_field.
  destruct (get o k) as [[]|]; try done.
  unfold bind. by destruct (shuffle_list _ g) as [[l'|e] g'].
Qed.

Lemma json_null_dec (j : json) : {j = JNull} + {j <> JNull}.
Proof. destruct j; (by left) || (by right). Qed.

(** A callback on [null] throws in both models. *)
Lemma update_field_null k body h g :
  match h_update_field k body VNull h g with
  | (Throw _, _, _) => True
  | _ => False
  end.
Proof. done. Qed.

Lemma shuffle_field_simulates k h g o j fp :
  rep h o j fp -> j <> JNull ->
  simulates h g fp o (h_shuffle_field k o) (shuffle_field k keep j).
Proof.
  intros Hrep Hnn. eapply simulates_ext; [symmetry; apply shuffle_field_keep|].
  by apply update_field_simulates; [apply shuffle_simulates|..].
Qed.

Lemma shuffle_map_field_simulates k hcb cb h g o j fp :
  cb_simulates hcb cb -> rep h o j fp -> j <> JNull ->
  simulates h g fp o (h_shuffle_map_field k hcb o) (shuffle_field k cb j).
Proof.
  intros Hcb Hrep Hnn. eapply simulates_ext; [symmetry; apply shuffle_field_map|].
  apply update_field_simulates; [|done..].
  apply then_simulates; [apply shuffle_simulates|by apply map_simulates].
Qed.

Lemma question_cb_simulates : cb_simulates h_question_cb question_cb.
Proof.
  intros h g x j fp Hrep. destruct (json_null_dec j) as [->|Hnn].
  { by apply rep_null_inv in Hrep as ->. }
  eapply simulates_ext; [|by apply (shuffle_field_simulates "options")].
  unfold question_cb, bind, lift. by destruct j.
Qed.

Lemma option_cb_simulates : cb_simulates h_option_cb option_cb.
Proof.
  intros h g x j fp Hrep. destruct (json_null_dec j) as [->|Hnn].
  { by apply rep_null_inv in Hrep as ->. }
  eapply simulates_ext; [|by apply (shuffle_field_simulates "whys")].
  unfold option_cb, bind, lift. by destruct j.
Qed.

Lemma case_cb_simulates : cb_simulates h_case_cb case_cb.
Proof.
  intros h g x j fp Hrep. destruct (json_null_dec j) as [->|Hnn].
  { by apply rep_null_inv in Hrep as ->. }
  eapply simulates_ext;
    [|exact (shuffle_map_field_simulates "options" h_option_cb option_cb h g x j fp
               option_cb_simulates Hrep Hnn)].
  unfold case_cb, bind, lift. by destruct j.
Qed.

Lemma rep_not_null h o j fp h1 j1 fp1 :
  rep h o j fp -> j <> JNull -> rep h1 o j1 fp1 -> j1 <> JNull.
Proof. intros Hrep Hnn Hrep1 ->. apply rep_null_inv in Hrep1 as ->. by inversion Hrep. Qed.

(** One guarded update of a section: [if (s.type === lit && ...)]. *)
Lemma typed_update_simulates lit (hupd : value -> HM value) (upd : json -> M json)
    h g o j fp x :
  (forall h g o j fp, rep h o j fp -> j <> JNull -> simulates h g fp o (hupd o) (upd j)) ->
  rep h o j fp -> j <> JNull -> matches h x (get j "type") ->
  simulates h g fp o (if v_is_str lit x then hupd o else hret o)
    (if is_str lit (get j "type") then upd j else ret j).
Proof.
  intros Hupd Hrep Hnn Hx. rewrite (matches_is_str _ _ _ lit Hx).
  destruct (is_str lit (get j "type")); [by apply Hupd|by apply simulates_ret].
Qed.

Lemma section_cb_simulates : cb_simulates h_section_cb section_cb.
Proof.
  intros h g x j fp Hrep. destruct (json_null_dec j) as [->|Hnn].
  { by apply rep_null_inv in Hrep as ->. }
  apply (simulates_ext _ _ _ _ _
    (let* s1 := (if is_str "quiz" (get j "type")
                 then shuffle_field "questions" question_cb j else ret j) in
     let* s2 := (if is_str "sort" (get s1 "type")
                 then shuffle_field "sortCards" keep s1 else ret s1) in
     if is_str "capital" (get s2 "type") then shuffle_field "rows" question_cb s2
     else ret s2)).
  { unfold section_cb, bind, lift. by destruct j. }
  unfold h_section_cb.
  apply (simulates_get _ _ _ _ j); [done..|]. intros ty Hty.
  apply (simulates_bind _ _ _ _ _ _ (fun _ => _) (fun s1 => _)).
  { apply (typed_update_simulates "quiz"
             (h_shuffle_map_field "questions" h_question_cb)
             (shuffle_field "questions" question_cb)); [|done..].
    intros. by apply shuffle_map_field_simulates; [apply question_cb_simulates|..]. }
  clear dependent ty. intros h1 g1 j1 fp1 Hrep1.
  pose proof (rep_not_null _ _ _ _ _ _ _ Hrep Hnn Hrep1) as Hnn1.
  apply (simulates_get _ _ _ _ j1); [done..|]. intros ty Hty.
  apply (simulates_bind _ _ _ _ _ _ (fun _ => _) (fun s2 => _)).
  { apply (typed_update_simulates "sort" (h_shuffle_field "sortCards")
             (shuffle_field "sortCards" keep)); [|done..].
    intros. by apply shuffle_field_simulates. }
  clear dependent ty. intros h2 g2 j2 fp2 Hrep2.
  pose proof (rep_not_null _ _ _ _ _ _ _ Hrep Hnn Hrep2) as Hnn2.
  apply (simulates_get _ _ _ _ j2); [done..|]. intros ty Hty.
  apply simulates_then_ret.
  apply (typed_update_simulates "capital"
           (h_shuffle_map_field "rows" h_question_cb)
           (shuffle_field "rows" question_cb)); [|done..].
  intros. by apply shuffle_map_field_simulates; [apply question_cb_simulates|..].
Qed.

Lemma h_randomizePayload_unfold data :
  h_randomizePayload data =
  if negb (v_truthy data) || negb (v_typeof_object data) then hret data
  else (let! text := h_stringify data in
        let! result := h_parse text in
        h_shuffle_by_type result).
Proof. reflexivity. Qed.

Lemma randomizePayload_unfold d :
  _randomizePayload (Some d) =
  if negb (truthy (Some d)) || negb (typeof_object (Some d)) then ret (Some d)
  else (let* result := lift (deep_clone d) in
        let* r := shuffle_by_type result in ret (Some r)).
Proof. reflexivity. Qed.

Lemma simulates_guard lit k h g fp o j ty jt v (f : bool -> HM value) p :
  rep h o j fp -> j <> JNull -> matches h ty jt ->
  simulates h g fp v (f (is_str lit jt && isArray (get j k))) p ->
  simulates h g fp v (let! b := h_guard lit ty o k in f b) p.
Proof.
  intros Hrep Hnn Hty Hf. unfold simulates, hbind, h_guard in *.
  rewrite (matches_is_str _ _ _ lit Hty).
  destruct (is_str lit jt); [|done].
  destruct (get_matches h o j fp k g Hrep Hnn) as (x & Hget & Hx).
  unfold hbind. by rewrite Hget, (matches_isArray _ _ _ g Hx).
Qed.

Lemma two_fields_simulates k1 k2 h g o j fp :
  rep h o j fp -> j <> JNull ->
  simulates h g fp o
    (let! _ := h_shuffle_field k1 o in h_shuffle_field k2 o)
    (let* r1 := shuffle_field k1 keep j in shuffle_field k2 keep r1).
Proof.
  intros Hrep Hnn.
  apply (simulates_bind _ _ _ _ _ _ (fun _ => _) (fun r1 => _)).
  { exact (shuffle_field_simulates k1 h g o j fp Hrep Hnn). }
  intros h1 g1 j1 fp1 Hrep1.
  exact (shuffle_field_simulates k2 h1 g1 o j1 fp1 Hrep1
           (rep_not_null _ _ _ _ _ _ _ Hrep Hnn Hrep1)).
Qed.

Lemma shuffle_by_type_simulates h g o j fp :
  rep h o j fp -> j <> JNull ->
  simulates h g fp o (h_shuffle_by_type o) (shuffle_by_type j).
Proof.
  intros Hrep Hnn. unfold h_shuffle_by_type, shuffle_by_type.
  apply (simulates_get _ _ _ _ j); [done..|]. intros gt Hgt.
  assert (forall ty, matches h ty (game_type_of j) ->
            simulates h g fp o
              (let! escape_game := h_guard "escape_game" ty o "sections" in
               if escape_game then h_shuffle_map_field "sections" h_section_cb o
               else
               let! matching_puzzle := h_guard "matching_puzzle" ty o "sets" in
               if matching_puzzle then h_shuffle_field "sets" o
               else
               let! sortier_spiel := h_guard "sortier_spiel" ty o "cards" in
               if sortier_spiel then
                 (let! _ := h_shuffle_field "cards" o in
                  h_shuffle_field "columns" o)
               else
               let! quick_quiz := h_guard "quick_quiz" ty o "questions" in
               if quick_quiz then
                 (let! _ := h_shuffle_field "questions" o in
                  h_shuffle_field "answerLabels" o)
               else
               if v_is_str "wer_bin_ich" ty then
                 (let! _ := h_shuffle_field "legalForms" o in
                  h_shuffle_field "questions" o)
               else
               let! what_and_why := h_guard "what_and_why" ty o "cases" in
               if what_and_why then h_shuffle_map_field "cases" h_case_cb o
               else hret o)
              (shuffle_by_type j)) as Hdispatch.
  { intros ty Hty. unfold shuffle_by_type. cbv zeta.
    apply (simulates_guard _ _ _ _ _ _ j _ (game_type_of j)); [done..|].
    destruct (is_str "escape_game" (game_type_of j) && isArray (get j "sections")).
    { by apply shuffle_map_field_simulates; [apply section_cb_simulates|..]. }
    apply (simulates_guard _ _ _ _ _ _ j _ (game_type_of j)); [done..|].
    destruct (is_str "matching_puzzle" (game_type_of j) && isArray (get j "sets")).
    { by apply shuffle_field_simulates. }
    apply (simulates_guard _ _ _ _ _ _ j _ (game_type_of j)); [done..|].
    destruct (is_str "sortier_spiel" (game_type_of j) && isArray (get j "cards")).
    { by apply two_fields_simulates. }
    apply (simulates_guard _ _ _ _ _ _ j _ (game_type_of j)); [done..|].
    destruct (is_str "quick_quiz" (game_type_of j) && isArray (get j "questions")).
    { by apply two_fields_simulates. }
    rewrite (matches_is_str _ _ _ "wer_bin_ich" Hty).
    destruct (is_str "wer_bin_ich" (game_type_of j)).
    { by apply two_fields_simulates. }
    apply (simulates_guard _ _ _ _ _ _ j _ (game_type_of j)); [done..|].
    destruct (is_str "what_and_why" (game_type_of j) && isArray (get j "cases")).
    { by apply shuffle_map_field_simulates; [apply case_cb_simulates|..]. }
    by apply simulates_ret. }
  rewrite (matches_truthy _ _ _ Hgt).
  destruct (truthy (get j "game_type")) eqn:Htruthy.
  - apply Hdispatch. unfold game_type_of. by rewrite Htruthy.
  - apply (simulates_get _ _ _ _ j); [done..|]. intros ty Hty.
    apply Hdispatch. unfold game_type_of. by rewrite Htruthy.
Qed.

(** The heap model of [_randomizePayload] refines the model on JSON values:
    started on an argument that represents the JSON value [d], with the same
    random source, both throw or both return, having drawn the same random
    numbers; the heap model then returns a value that represents the JSON
    value the other model returns, made of new cells only, and has left the
    old cells as they were. *)
Theorem heap_refines_value h g data d fp :
  rep h data d fp ->
  match h_randomizePayload data h g, _randomizePayload (Some d) g with
  | (Ok v', h', g'), (Ok out, g0) =>
      g' = g0 /\ (forall l, (l < length h)%nat -> h' !! l = h !! l) /\
      exists j' fp', out = Some j' /\ rep h' v' j' fp' /\
                     (v_typeof_object data && v_truthy data -> made_since h fp')
  | (Throw _, _, _), (Throw _, _) => True
  | _, _ => False
  end.
Proof.
  intros Hrep. rewrite h_randomizePayload_unfold, randomizePayload_unfold.
  assert (v_truthy data = truthy (Some d) /\
          v_typeof_object data = typeof_object (Some d)) as [-> Hto].
  { by inversion Hrep. }
  rewrite Hto.
  destruct (negb (truthy (Some d)) || negb (typeof_object (Some d))) eqn:Hguard.
  { unfold hret, ret. split; [done|]. split; [done|]. exists d, fp.
    split; [done|]. split; [done|].
    intros Hobj. apply orb_true_iff in Hguard as [Hg|Hg];
      apply negb_true_iff in Hg; rewrite Hg in Hobj; by destruct (typeof_object _). }
  assert (written d <> JNull) as Hnn.
  { destruct d; try done. simpl in Hguard. by rewrite orb_true_r in Hguard. }
  unfold hbind at 1, h_stringify. rewrite (rep_stringify _ _ _ _ Hrep).
  unfold hbind, h_parse. rewrite deep_clone_written. unfold bind at 1, lift.
  unfold bind.
  destruct (build_rep (written d) h g) as (v & ext & fp1 & -> & Hrep1 & Hnew).
  pose proof (shuffle_by_type_simulates (h ++ ext) g v (written d) fp1 Hrep1 Hnn) as Hsim.
  unfold simulates in Hsim.
  destruct (h_shuffle_by_type v (h ++ ext) g) as [[[v'|e] h'] g'],
           (shuffle_by_type (written d) g) as [[j'|e0] g0]; try done.
  destruct Hsim as (-> & -> & Hlen & Hframe & fp' & Hrep' & Hfp').
  unfold ret. split; [done|]. split.
  { intros l Hl. rewrite Hframe.
    - by apply lookup_app_l.
    - rewrite length_app. lia.
    - intros Hin. specialize (Hnew l Hin). lia. }
  exists j', fp'. split; [done|]. split; [done|]. intros _ l Hl.
  destruct (Hfp' l Hl) as [Hin|Hge]; [by apply Hnew|].
  rewrite length_app in Hge. lia.
Qed.

(** Hence a payload parsed into an empty heap and randomized there
    serialises to what the model on JSON values returns, for every payload
    and every random source. *)
Theorem heap_and_value_models_agree payload g :
  run_on_heap payload g = run_on_values payload g.
Proof.
  unfold run_on_heap, run_on_values, hbind.
  destruct (build_rep payload [] g) as (v & ext & fp & -> & Hrep & _).
  pose proof (heap_refines_value _ g _ _ _ Hrep) as Href.
  destruct (h_randomizePayload v ([] ++ ext) g) as [[[v'|e] h'] g'],
           (_randomizePayload (Some payload) g) as [[out|e0] g0]; try done.
  destruct Href as (_ & _ & j' & fp' & -> & Hrep' & _). simpl.
  exact (rep_stringify _ _ _ _ Hrep').
Qed.

Lemma sample_heap_rep :
  rep sample_heap (VRef 1)
    (JObj [("game_type", JStr "matching_puzzle");
           ("sets", JArr [JNum 1; JNum 2; JNum 3])])
    ({[1%nat]} ∪ ⋃ [∅; {[0%nat]} ∪ ⋃ [∅; ∅; ∅]]).
Proof.
  apply (rep_obj _ _ [("game_type", VStr "matching_puzzle"); ("sets", VRef 0)]);
    [done|done| |].
  - repeat constructor.
    apply (rep_arr _ _ [VNum 1; VNum 2; VNum 3]); [done|repeat constructor|].
    intros [|[|[|[|i]]]] [|[|[|[|j]]]] X Y Hij HX HY; simplify_eq/=; set_solver.
  - intros [|[|[|i]]] [|[|[|j]]] X Y Hij HX HY; simplify_eq/=; set_solver.
Qed.






(** ** game_base.js: the error display *)

Lemma chars_app s t : chars (s +:+ t) = chars s ++ chars t.
Proof. induction s as [|c s IH]; simpl; [done|]. by rewrite IH. Qed.

Lemma escapeHtml_cons c s : _escapeHtml (String c s) = escape_char c +:+ _escapeHtml s.
Proof.
  unfold _escapeHtml, escape_char. simpl.
  destruct (Ascii.eqb_spec c "&") as [->|Hamp]; [done|].
  simpl. destruct (Ascii.eqb_spec c "<") as [->|Hlt]; [done|].
  simpl. by destruct (Ascii.eqb_spec c ">") as [->|Hgt].
Qed.

Lemma escape_char_cases c :
  (c = "&"%char /\ escape_char c = "&amp;") \/
  (c = "<"%char /\ escape_char c = "&lt;") \/
  (c = ">"%char /\ escape_char c = "&gt;") \/
  (c <> "&"%char /\ escape_char c = String c "").
Proof.
  unfold escape_char.
  destruct (Ascii.eqb_spec c "&") as [->|?]; [by left|].
  destruct (Ascii.eqb_spec c "<") as [->|?]; [by right; left|].
  destruct (Ascii.eqb_spec c ">") as [->|?]; [by right; right; left|].
  by right; right; right.
Qed.

Lemma escape_char_prefix_free c d s t :
  escape_char c +:+ s = escape_char d +:+ t -> c = d /\ s = t.
Proof.
  destruct (escape_char_cases c) as [[-> ->]|[[-> ->]|[[-> ->]|[Hc ->]]]],
           (escape_char_cases d) as [[-> ->]|[[-> ->]|[[-> ->]|[Hd ->]]]];
    cbv [String.append]; intros [= ]; by subst.
Qed.

(** X1: whatever the message, the text [_escapeHtml] returns contains no
    [<] and no [>], and every [&] in it starts one of the three entities:
    the text is the concatenation of what each character becomes. *)
Theorem escapeHtml_no_markup (str : string) :
  _escapeHtml str = foldr (fun c acc => escape_char c +:+ acc) "" (chars str) /\
  forall c, c ∈ chars (_escapeHtml str) -> c <> "<"%char /\ c <> ">"%char.
Proof.
  split.
  - induction str as [|c s IH]; [done|]. rewrite escapeHtml_cons. simpl. by rewrite IH.
  - induction str as [|c0 s IH]; [by intros c ?%elem_of_nil|].
    intros c. rewrite escapeHtml_cons, chars_app. intros [Hc|Hc]%elem_of_app;
      [|by apply IH].
    unfold escape_char in Hc.
    destruct (Ascii.eqb_spec c0 "&"); [set_solver|].
    destruct (Ascii.eqb_spec c0 "<"); [set_solver|].
    destruct (Ascii.eqb_spec c0 ">"); [set_solver|].
    simpl in Hc. apply list_elem_of_singleton in Hc as ->. done.
Qed.

(** X2: [_escapeHtml] loses nothing: two messages with the same escaped text
    are the same message. *)
Theorem escapeHtml_injective (a b : string) :
  _escapeHtml a = _escapeHtml b -> a = b.
Proof.
  revert b. induction a as [|c a IH]; intros [|d b].
  - done.
  - rewrite escapeHtml_cons. unfold escape_char.
    by destruct (Ascii.eqb d "&"), (Ascii.eqb d "<"), (Ascii.eqb d ">").
  - rewrite escapeHtml_cons. unfold escape_char.
    by destruct (Ascii.eqb c "&"), (Ascii.eqb c "<"), (Ascii.eqb c ">").
  - rewrite !escapeHtml_cons. intros [-> H]%escape_char_prefix_free.
    by rewrite (IH b H).
Qed.

(** ** game_base.js: the header check and the randomization *)

(** A property that is no target of the table is read the same before and
    after. *)
Lemma reordered_get_other ts v v' k :
  reordered ts v v' -> k ∉ target_key <$> ts -> get v' k = get v k.
Proof.
  intros H Hk. inversion H as [|? kvs kvs' Hentries]; subst; [done|].
  simpl. revert Hentries. generalize (JObj kvs) as o. intros o Hentries.
  clear H. induction Hentries as [|[k0 x0] [k1 x1] rest rest' Hentry _ IH];
    simpl; [done|].
  apply reordered_entry_values in Hentry as (-> & _ & Hsame & _).
  destruct (String.eqb_spec k k0) as [->|Hne]; [|exact IH].
  by rewrite (Hsame Hk).
Qed.

Lemma header_fields_not_shuffled type k :
  k = "game_type" \/ k = "gameType" -> k ∉ target_key <$> shuffle_table type.
Proof.
  unfold shuffle_table.
  intros [->| ->]; repeat case_match; compute_done.
Qed.

Lemma header_after_randomize
    (expectedGameType : option string) (data : jsval) (g : rng) (out : jsval) :
  (_randomizePayload data g).1 = Ok out ->
  _validateHeader expectedGameType out =
  _validateHeader expectedGameType (working_copy <$> data).
Proof.
  destruct data as [d|]; [|by intros [= <-]].
  intros Hout. pose proof (randomized_is_reordered d g) as Hr.
  unfold outcome in Hr. rewrite Hout in Hr. destruct Hr as (o & -> & Hr).
  pose proof (reordered_get_other _ _ _ "game_type" Hr
                (header_fields_not_shuffled _ _ (or_introl eq_refl))) as H1.
  pose proof (reordered_get_other _ _ _ "gameType" Hr
                (header_fields_not_shuffled _ _ (or_intror eq_refl))) as H2.
  assert (truthy (Some o) = truthy (Some (working_copy d)) /\
          typeof_object (Some o) = typeof_object (Some (working_copy d))) as [Ht Hto].
  { by inversion Hr. }
  cbn [fmap option_fmap option_map].
  unfold _validateHeader, actual_type. by rewrite Ht, Hto, H1, H2.
Qed.

(** X3: the randomization does not touch the header of the copy it works
    on: whenever [_randomizePayload] returns, [_validateHeader] gives for
    its result the verdict it gives for that copy, whatever the expected
    type, and so the verdict it gives for the payload when the numbers of
    the payload are all finite and not -0.  A game type that is the number
    Infinity (the JSON text 1e400) is accepted in the payload and missing
    in the result. *)
Theorem randomize_preserves_header
    (expectedGameType : option string) (data : jsval) (g : rng) (out : jsval) :
  (_randomizePayload data g).1 = Ok out ->
  _validateHeader expectedGameType out =
  _validateHeader expectedGameType (working_copy <$> data) /\
  ((forall d, data = Some d -> numbers_kept d = true) ->
   _validateHeader expectedGameType out = _validateHeader expectedGameType data) /\
  (forall g0,
      _validateHeader None (Some (JObj [("game_type", JNum infinity)])) = Valid /\
      exists o,
        (_randomizePayload (Some (JObj [("game_type", JNum infinity)])) g0).1
        = Ok (Some o) /\
        _validateHeader None (Some o) = Invalid NoGameType).
Proof.
  intros Hout. split; [by eapply header_after_randomize|]. split.
  - intros Hkept. rewrite (header_after_randomize _ _ _ _ Hout).
    destruct data as [d|]; [|done]. cbn [fmap option_fmap option_map].
    by rewrite working_copy_kept by (by apply Hkept).
  - intros g0. split; [reflexivity|]. eexists. split; reflexivity.
Qed.

Lemma valid_header_type (expected : string) (data : json) :
  _validateHeader (Some expected) (Some data) = Valid -> expected <> "" ->
  game_type_of data = Some (JStr expected).
Proof.
  unfold _validateHeader, actual_type, game_type_of.
  intros Hvalid Hne. apply String.eqb_neq in Hne.
  destruct (negb (truthy (Some data)) || negb (typeof_object (Some data)));
    [done|].
  destruct (truthy (get data "game_type")) eqn:Hgt.
  - rewrite Hgt in Hvalid. cbn [negb] in Hvalid.
    destruct (get data "game_type") as [found|] eqn:Hfound; [|done].
    rewrite Hne in Hvalid.
    destruct (is_str expected (Some found)) eqn:Hstr; [|done].
    by apply is_str_true in Hstr.
  - destruct (truthy (get data "gameType")) eqn:Hgt2; [|done].
    rewrite Hgt2 in Hvalid. cbn [negb] in Hvalid.
    destruct (get data "gameType") as [found|] eqn:Hfound; [|done].
    rewrite Hne in Hvalid.
    destruct (is_str expected (Some found)) eqn:Hstr; [|done].
    by apply is_str_true in Hstr.
Qed.

(** X4: the header check and the randomization read the game type the same
    way ([game_type] before [gameType]): a payload accepted for a non-empty
    expected type is shuffled by the table of that type, and a payload whose
    type the randomization cannot read is rejected. *)
Theorem validated_type_is_randomized_type (expected : string) (data : json) :
  (_validateHeader (Some expected) (Some data) = Valid -> expected <> "" ->
   game_type_of data = Some (JStr expected)) /\
  (truthy (game_type_of data) = false ->
   forall e, _validateHeader e (Some data) <> Valid).
Proof.
  split; [apply valid_header_type|].
  unfold _validateHeader, actual_type, game_type_of.
  intros Hfalsy e.
  destruct (negb (truthy (Some data)) || negb (typeof_object (Some data)));
    [done|].
  destruct (truthy (get data "game_type")) eqn:Hgt; [congruence|].
  by rewrite Hfalsy.
Qed.

(** ** index.js: the search in the tree *)

Lemma first_some_app {A B} (body : A -> option B) l1 l2 :
  first_some body (l1 ++ l2) =
  match first_some body l1 with
  | Some f => Some f
  | None => first_some body l2
  end.
Proof.
  induction l1 as [|x l1 IH]; simpl; [done|]. by destruct (body x).
Qed.

Lemma head_filter_app {A} (P : A -> Prop) `{forall x, Decision (P x)} (l1 l2 : list A) :
  head (filter P (l1 ++ l2)) =
  match head (filter P l1) with
  | Some x => Some x
  | None => head (filter P l2)
  end.
Proof.
  rewrite filter_app. by destruct (filter P l1).
Qed.

Lemma findNode_at_first_match id n :
  findNode_at id n = head (filter (fun m => node_id m = id) (subtree n)).
Proof.
  induction n as [i m f k children d IH] using node_nested_ind.
  cbn [findNode_at subtree]. rewrite filter_cons. simpl.
  destruct (String.eqb_spec i id) as [->|Hne].
  { by rewrite decide_True. }
  rewrite decide_False by done.
  destruct children as [cs|]; [|done].
  specialize (IH cs eq_refl).
  induction IH as [|c cs Hc _ IHcs]; [done|].
  cbn [first_some flat_map]. rewrite head_filter_app, <-Hc.
  by destruct (findNode_at id c).
Qed.

(** X5: [findNode] returns the first node with the given id in the order
    of the search (a node before the nodes below it, these before its later
    siblings), and null exactly when no node that the search reaches has
    the id. *)
Theorem findNode_first_match (nodes : list node) (id : string) :
  findNode nodes id =
  head (filter (fun n => node_id n = id) (flat_map subtree nodes)).
Proof.
  unfold findNode. induction nodes as [|n nodes IH]; [done|].
  cbn [first_some flat_map].
  rewrite head_filter_app, <-findNode_at_first_match, IH.
  by destruct (findNode_at id n).
Qed.

Lemma descent_mono nodes nodes' chain :
  (forall n, n ∈ nodes -> n ∈ nodes') -> descent nodes chain -> descent nodes' chain.
Proof.
  intros Hsub H. destruct H as [nodes n Hn|nodes n cs chain Hn Hcs Hchain].
  - apply descent_end. by apply Hsub.
  - eapply descent_step; [by apply Hsub|done..].
Qed.

Lemma findPath_at_findNode_at id n :
  match findNode_at id n with
  | None => forall path, findPath_at id path n = None
  | Some found =>
      exists ancestors,
        descent [n] (ancestors ++ [found]) /\
        Forall (fun a => node_id a <> id) ancestors /\
        forall path,
          findPath_at id path n
          = Some (path ++ map node_name ancestors ++ [node_name found])
  end.
Proof.
  induction n as [i m f k children d IH] using node_nested_ind.
  cbn [findNode_at findPath_at].
  destruct (String.eqb_spec i id) as [->|Hne].
  { exists []. split; [apply descent_end; left|]. split; [constructor|done]. }
  destruct children as [cs|]; [|done].
  specialize (IH cs eq_refl).
  assert (forall cs', (forall c, c ∈ cs' -> c ∈ cs) -> Forall
            (fun n => match findNode_at id n with
                      | None => forall path, findPath_at id path n = None
                      | Some found =>
                          exists ancestors,
                            descent [n] (ancestors ++ [found]) /\
                            Forall (fun a => node_id a <> id) ancestors /\
                            forall path,
                              findPath_at id path n
                              = Some (path ++ map node_name ancestors ++ [node_name found])
                      end) cs' ->
            match first_some (findNode_at id) cs' with
            | None => forall path, first_some (findPath_at id (path ++ [m])) cs' = None
            | Some found =>
                exists ancestors,
                  descent [Node i m f k (Some cs) d] (ancestors ++ [found]) /\
                  Forall (fun a => node_id a <> id) ancestors /\
                  forall path,
                    first_some (findPath_at id (path ++ [m])) cs'
                    = Some (path ++ map node_name ancestors ++ [node_name found])
            end) as Hloop.
  { intros cs' Hsub Hall.
    induction Hall as [|c cs' Hc _ IHcs]; [done|].
    cbn [first_some].
    destruct (findNode_at id c) as [found|].
    - destruct Hc as (ancestors & Hdesc & Hids & Hpath).
      exists (Node i m f k (Some cs) d :: ancestors). split; [|split].
      + simpl. eapply descent_step; [left|done|].
        eapply descent_mono; [|exact Hdesc].
        intros n' Hn'. apply elem_of_cons in Hn' as [->|Hn'%elem_of_nil]; [|done].
        apply Hsub. left.
      + by constructor.
      + intros path. rewrite Hpath. simpl. by rewrite <-app_assoc.
    - assert (forall c0, c0 ∈ cs' -> c0 ∈ cs) as Hsub'
        by (intros; apply Hsub; by right).
      specialize (IHcs Hsub').
      destruct (first_some (findNode_at id) cs') as [found|].
      + destruct IHcs as (ancestors & Hdesc & Hids & Hpath).
        exists ancestors. split; [done|]. split; [done|].
        intros path. by rewrite Hc.
      + intros path. by rewrite Hc. }
  by apply Hloop.
Qed.

(** X6: [findPath] finds a path exactly when [findNode] finds a node.  The
    path is then the given prefix followed by the names of a chain of
    nodes: the first is one of the given nodes, each next one is among the
    children of the one before, none but the last has the id, and the last
    is the node that [findNode] returns; so the fallback [|| [node.name]]
    of renderViewForId is never taken. *)
Theorem findPath_follows_findNode (nodes : list node) (id : string)
    (path : list string) :
  match findNode nodes id with
  | None => findPath nodes id path = None
  | Some found =>
      exists ancestors,
        descent nodes (ancestors ++ [found]) /\
        Forall (fun a => node_id a <> id) ancestors /\
        findPath nodes id path
        = Some (path ++ map node_name ancestors ++ [node_name found])
  end.
Proof.
  unfold findNode, findPath.
  assert (forall nodes', (forall n, n ∈ nodes' -> n ∈ nodes) ->
            match first_some (findNode_at id) nodes' with
            | None => first_some (findPath_at id path) nodes' = None
            | Some found =>
                exists ancestors,
                  descent nodes (ancestors ++ [found]) /\
                  Forall (fun a => node_id a <> id) ancestors /\
                  first_some (findPath_at id path) nodes'
                  = Some (path ++ map node_name ancestors ++ [node_name found])
            end) as Hloop.
  { intros nodes'. induction nodes' as [|n nodes' IH]; intros Hsub; [done|].
    cbn [first_some].
    pose proof (findPath_at_findNode_at id n) as Hn.
    destruct (findNode_at id n) as [found|].
    - destruct Hn as (ancestors & Hdesc & Hids & Hpath). exists ancestors.
      split; [|split; [done|by rewrite Hpath]].
      eapply descent_mono; [|exact Hdesc].
      intros n' Hn'. apply elem_of_cons in Hn' as [->|Hn'%elem_of_nil]; [|done].
      apply Hsub. left.
    - rewrite Hn. apply IH. intros; apply Hsub. by right. }
  by apply Hloop.
Qed.

(** ** index.js: open folders and the width of the drawer *)

Lemma indexOf_None opened id : indexOf opened id = None -> JStr id ∉ opened.
Proof.
  induction opened as [|x opened IH]; cbn [indexOf]; [by intros _ ?%elem_of_nil|].
  destruct (is_str id (Some x)) eqn:Hx; [done|].
  destruct (indexOf opened id); [done|]. intros _ [<-|Hin]%elem_of_cons.
  - simpl in Hx. by rewrite String.eqb_refl in Hx.
  - by apply IH.
Qed.

Lemma indexOf_Some opened id idx :
  indexOf opened id = Some idx -> opened !! idx = Some (JStr id).
Proof.
  revert idx. induction opened as [|x opened IH]; cbn [indexOf]; [done|]. intros idx.
  destruct (is_str id (Some x)) eqn:Hx.
  - intros [= <-]. by apply is_str_true in Hx as [= ->].
  - destruct (indexOf opened id) as [i|]; [|done]. intros [= <-]. by apply IH.
Qed.

(** X7: on a list of open folders without repetitions, [toggleNode] flips
    the membership of the id and of nothing else, keeps the list free of
    repetitions, and leaves the state written through.  (With a repetition
    the id stays open: only its first occurrence is removed.) *)
Theorem toggleNode_flips_membership (id : string) (a : app) (opened : list json) :
  lookup_field "openedIds" (appState a) = Some (JArr opened) ->
  NoDup opened ->
  exists a' opened',
    toggleNode id a = Ok a' /\
    lookup_field "openedIds" (appState a') = Some (JArr opened') /\
    NoDup opened' /\
    (JStr id ∈ opened' <-> JStr id ∉ opened) /\
    (forall x, x <> JStr id -> x ∈ opened' <-> x ∈ opened) /\
    synced a'.
Proof.
  intros Hopened Hnodup. unfold toggleNode. rewrite Hopened.
  eexists _, _. split; [done|]. split; [apply lookup_assign_eq|].
  split; [|split; [|split; [|apply synced_saveAppState]]].
  - destruct (indexOf opened id) as [idx|] eqn:Hidx.
    + rewrite <-(take_drop_middle opened idx (JStr id)) in Hnodup
        by (by apply indexOf_Some).
      rewrite delete_take_drop.
      apply NoDup_app in Hnodup as (H1 & H2 & H3). apply NoDup_cons in H3 as [_ H3].
      apply NoDup_app. split; [done|]. split; [|done].
      intros x Hx Hx'. apply (H2 x Hx). by right.
    + apply NoDup_app. split; [done|]. split; [|apply NoDup_singleton].
      intros x Hx ->%list_elem_of_singleton. by apply (indexOf_None opened id).
  - destruct (indexOf opened id) as [idx|] eqn:Hidx.
    + pose proof (indexOf_Some _ _ _ Hidx) as Hat.
      rewrite <-(take_drop_middle opened idx (JStr id)) in Hnodup by done.
      rewrite delete_take_drop.
      apply NoDup_app in Hnodup as (H1 & H2 & H3). apply NoDup_cons in H3 as [H3 _].
      split.
      * intros [Hin|Hin]%elem_of_app; [|done]. exfalso. apply (H2 _ Hin). by left.
      * intros Hnot. exfalso. apply Hnot. by eapply list_elem_of_lookup_2.
    + split; [intros _; by apply indexOf_None|]. intros _.
      apply elem_of_app. right. by left.
  - intros x Hx. destruct (indexOf opened id) as [idx|] eqn:Hidx.
    + pose proof (indexOf_Some _ _ _ Hidx) as Hat.
      rewrite <-(take_drop_middle opened idx (JStr id)) at 2 by done.
      rewrite delete_take_drop, !elem_of_app, elem_of_cons. naive_solver.
    + rewrite elem_of_app, list_elem_of_singleton. naive_solver.
Qed.

Lemma toggleNode_flips_membership_witness :
  exists a' opened',
    toggleNode "database/Unit 1"
      (with_appState fresh_app
         (assign_field "openedIds" (JArr [JStr "database/Unit 1"; JStr "database/b"])
            default_appState)) = Ok a' /\
    lookup_field "openedIds" (appState a') = Some (JArr opened') /\
    NoDup opened' /\
    (JStr "database/Unit 1" ∈ opened' <->
     JStr "database/Unit 1" ∉ [JStr "database/Unit 1"; JStr "database/b"]) /\
    (forall x, x <> JStr "database/Unit 1" ->
               x ∈ opened' <-> x ∈ [JStr "database/Unit 1"; JStr "database/b"]) /\
    synced a'.
Proof.
  apply (toggleNode_flips_membership "database/Unit 1" _
           [JStr "database/Unit 1"; JStr "database/b"]).
  - reflexivity.
  - apply NoDup_cons. split; [|apply NoDup_singleton].
    intros H%list_elem_of_singleton. discriminate H.
Defined.


(** ** The order of the doubles *)

Lemma SFcompare_opp (x y : spec_float) :
  SFcompare y x = CompOpp <$> SFcompare x y.
Proof.
  destruct x as [sx|sx| |sx mx ex], y as [sy|sy| |sy my ey]; simpl; try done;
    try (by destruct sx); try (by destruct sy); try (by destruct sx, sy).
  destruct sx, sy; try done; simpl.
  - rewrite (Z.compare_antisym ex ey). destruct (ex ?= ey)%Z; simpl; try done.
    rewrite CompOpp_involutive. f_equal.
    exact (Pos.compare_cont_antisym my mx Eq).
  - rewrite (Z.compare_antisym ex ey). destruct (ex ?= ey)%Z; simpl; try done.
    f_equal. symmetry. exact (Pos.compare_cont_antisym mx my Eq).
Qed.

Lemma SFcompare_refl (x : spec_float) :
  SFcompare x x = Some Eq \/ SFcompare x x = None.
Proof.
  destruct x as [s|s| |s m e]; simpl; auto.
  - left. by destruct s.
  - left. rewrite Z.compare_refl, Pos.compare_cont_refl. by destruct s.
Qed.

Lemma SFcompare_defined (x y : spec_float) :
  SFcompare x x = Some Eq -> SFcompare y y = Some Eq -> is_Some (SFcompare x y).
Proof.
  destruct x as [sx|sx| |sx mx ex], y as [sy|sy| |sy my ey]; simpl; try done;
    intros; by eexists.
Qed.

Lemma is_nan_compare (x : float) :
  PrimFloat.is_nan x = false <-> SFcompare (Prim2SF x) (Prim2SF x) = Some Eq.
Proof.
  unfold PrimFloat.is_nan. rewrite FloatAxioms.eqb_spec. unfold SFeqb.
  destruct (SFcompare_refl (Prim2SF x)) as [-> | ->]; simpl; split; done.
Qed.

(** [x < x] is false. *)
Lemma ltb_irrefl (x : float) : PrimFloat.ltb x x = false.
Proof.
  rewrite FloatAxioms.ltb_spec. unfold SFltb.
  by destruct (SFcompare_refl (Prim2SF x)) as [-> | ->].
Qed.

(** Two doubles that are not NaN are comparable: when [x < y] is false,
    [y <= x] is true. *)
Lemma not_ltb_leb (x y : float) :
  PrimFloat.is_nan x = false -> PrimFloat.is_nan y = false ->
  PrimFloat.ltb x y = false -> PrimFloat.leb y x = true.
Proof.
  rewrite !is_nan_compare, FloatAxioms.ltb_spec, FloatAxioms.leb_spec. unfold SFltb, SFleb.
  intros Hx Hy. destruct (SFcompare_defined _ _ Hx Hy) as [c Hc].
  rewrite (SFcompare_opp (Prim2SF x) (Prim2SF y)), Hc. by destruct c.
Qed.

Lemma leb_refl (x : float) : PrimFloat.is_nan x = false -> PrimFloat.leb x x = true.
Proof. intros Hx. apply not_ltb_leb; [done..|apply ltb_irrefl]. Qed.

Lemma ltb_not_nan (x y : float) :
  PrimFloat.ltb x y = true -> PrimFloat.is_nan x = false /\ PrimFloat.is_nan y = false.
Proof.
  rewrite !is_nan_compare, FloatAxioms.ltb_spec. unfold SFltb.
  destruct (Prim2SF x) as [sx|sx| |sx mx ex] eqn:Ex,
           (Prim2SF y) as [sy|sy| |sy my ey] eqn:Ey; simpl; try done;
    intros _; split;
    first [ by destruct sx | by destruct sy
          | rewrite Z.compare_refl, Pos.compare_cont_refl; by destruct sx
          | rewrite Z.compare_refl, Pos.compare_cont_refl; by destruct sy | done ].
Qed.

Lemma ltb_leb (x y : float) : PrimFloat.ltb x y = true -> PrimFloat.leb x y = true.
Proof.
  rewrite FloatAxioms.ltb_spec, FloatAxioms.leb_spec. unfold SFltb, SFleb.
  by destruct (SFcompare (Prim2SF x) (Prim2SF y)) as [[]|].
Qed.

Lemma ltb_not_leb (x y : float) :
  PrimFloat.ltb x y = true -> PrimFloat.leb y x = false.
Proof.
  rewrite FloatAxioms.ltb_spec, FloatAxioms.leb_spec. unfold SFltb, SFleb.
  rewrite (SFcompare_opp (Prim2SF x) (Prim2SF y)).
  by destruct (SFcompare (Prim2SF x) (Prim2SF y)) as [[]|].
Qed.

(** ** index.js: the width of the drawer *)

(** X8: while the drawer is being resized, a mouse move sets [drawerWidth]
    to [clientX] brought into the range from 200 to [innerWidth * 0.8], a
    product of doubles: to 200 when [clientX] is below 200 and the limit is
    not, to the limit when [clientX] is above it, to [clientX] otherwise;
    when the limit itself is below 200, a [clientX] below 200 gives the
    limit.  The width is never above the limit, and never below 200 unless
    the limit is; for numbers that are not NaN it lies between them in the
    order of the doubles. *)
Theorem mousemove_clamps_width (clientX innerWidth : float) (a : app) :
  drawerResizer a && isResizing a = true ->
  let limit := (innerWidth * 0.8)%float in
  exists w,
    lookup_field "drawerWidth" (appState (on_mousemove clientX innerWidth a))
    = Some (JNum w) /\
    ((clientX <? 200)%float = true -> (limit <? 200)%float = false -> w = 200%float) /\
    ((clientX <? 200)%float = false -> (limit <? clientX)%float = false ->
     w = clientX) /\
    ((clientX <? 200)%float = false -> (limit <? clientX)%float = true ->
     w = limit) /\
    ((clientX <? 200)%float = true -> (limit <? 200)%float = true -> w = limit) /\
    (limit <? w)%float = false /\
    ((limit <? 200)%float = false -> (w <? 200)%float = false) /\
    (PrimFloat.is_nan clientX = false -> PrimFloat.is_nan limit = false ->
     (w <=? limit)%float = true /\
     ((200 <=? limit)%float = true -> (200 <=? w)%float = true)).
Proof.
  intros Hdrag limit. unfold on_mousemove. rewrite Hdrag.
  cbn [with_appState appState]. rewrite lookup_assign_eq. fold limit.
  eexists. split; [reflexivity|].
  destruct (clientX <? 200)%float eqn:Hlow.
  - destruct (limit <? 200)%float eqn:Hnarrow.
    + split_and!; try done.
      * apply ltb_irrefl.
      * intros _ Hnan. split; [by apply leb_refl|].
        intros Hwide. by rewrite (ltb_not_leb _ _ Hnarrow) in Hwide.
    + split_and!; try done.
      intros _ Hnan. split; [|done]. by apply not_ltb_leb.
  - destruct (limit <? clientX)%float eqn:Hhigh.
    + split_and!; try done.
      * apply ltb_irrefl.
      * intros _ Hnan. split; [by apply leb_refl|done].
    + split_and!; try done.
      intros Hx Hnan. split; [by apply not_ltb_leb|]. intros _. by apply not_ltb_leb.
Qed.

Lemma mousemove_clamps_width_witness :
  let a := step offline (step offline fresh_app (SetDrawer true)) MouseDown in
  (1001 * 0.8 = 800.8000000000001)%float /\
  (800.8 <? 1001 * 0.8)%float = true /\
  lookup_field "drawerWidth" (appState (on_mousemove 900 1001 a))
  = Some (JNum 800.8000000000001) /\
  lookup_field "drawerWidth" (appState (on_mousemove 150 1001 a)) = Some (JNum 200) /\
  lookup_field "drawerWidth" (appState (on_mousemove 500 1001 a)) = Some (JNum 500).
Proof.
  intros a. split; [reflexivity|]. split; [reflexivity|].
  assert (forall x, exists w,
             lookup_field "drawerWidth" (appState (on_mousemove x 1001 a)) = Some (JNum w) /\
             ((x <? 200)%float = true -> w = 200%float) /\
             ((x <? 200)%float = false -> (1001 * 0.8 <? x)%float = false -> w = x) /\
             ((x <? 200)%float = false -> (1001 * 0.8 <? x)%float = true ->
              w = (1001 * 0.8)%float)) as Hclamp.
  { intros x.
    destruct (mousemove_clamps_width x 1001 a eq_refl)
      as (w & Hw & Hlow & Hmid & Hhigh & _).
    exists w. split; [exact Hw|]. split; [|split; [exact Hmid|exact Hhigh]].
    intros Hx. by apply Hlow. }
  split; [|split].
  - destruct (Hclamp 900%float) as (w & -> & _ & _ & Hhigh).
    by rewrite (Hhigh eq_refl eq_refl).
  - destruct (Hclamp 150%float) as (w & -> & Hlow & _).
    by rewrite (Hlow eq_refl).
  - destruct (Hclamp 500%float) as (w & -> & _ & Hmid & _).
    by rewrite (Hmid eq_refl eq_refl).
Defined.
Lemma initial_theme_text t : initial_theme (Some (theme_text t)) = t.
Proof. by destruct t. Qed.

(** X9: in index.js a toggle of the theme flips the class of the page, sets
    the icon of the button and the class in a game iframe to match, and
    stores the new theme, so that [initTheme] after a reload shows the theme
    last chosen and a second toggle brings back the first theme; without a
    stored theme, or with a stored value that is neither light nor dark, the
    page starts dark. *)
Theorem theme_survives_reload (ls : storage) (p reloaded : app_page) :
  let p1 := (toggleTheme ls p).1 in
  let ls1 := (toggleTheme ls p).2 in
  page_light p1 = negb (page_light p) /\
  toggle_icon p1 = Some (if page_light p1 then Light else Dark) /\
  (is_Some (iframe_light p) -> iframe_light p1 = Some (page_light p1)) /\
  page_light (initTheme ls1 reloaded) = page_light p1 /\
  page_light (toggleTheme ls1 p1).1 = page_light p /\
  (forall ls0,
      ls0 !! THEME_KEY <> Some (Garbage "light") ->
      page_light (initTheme ls0 reloaded) = false).
Proof.
  unfold toggleTheme, initTheme. cbn [fst snd].
  split; [by destruct (page_light p)|].
  split; [by destruct (page_light p)|].
  split; [intros [b Hb]; simpl; by rewrite Hb|].
  split; [by rewrite lookup_insert_eq, initial_theme_text|].
  split; [by destruct (page_light p)|].
  intros ls0 Hstored. simpl.
  destruct (ls0 !! THEME_KEY) as [[| |s]|]; try done.
  simpl. destruct (String.eqb_spec s "light") as [->|]; done.
Qed.

(** X10: in game_base.js a toggle of the theme flips the class of the page
    whether the storage works or not and never throws; with a working
    storage [_initTheme] on the next load shows the theme last chosen, with a
    storage that refuses access it shows the dark theme; and a game starts
    with the theme that index.js stored last. *)
Theorem game_theme_follows_storage (ls : option storage) (p reloaded : game_page)
    (app_ls : storage) (app : app_page) :
  let p1 := (_toggleTheme ls p).1 in
  let ls1 := (_toggleTheme ls p).2 in
  game_light p1 = negb (game_light p) /\
  (is_Some ls -> game_light (_initTheme ls1 reloaded) = game_light p1) /\
  (ls = None -> game_light (_initTheme ls1 reloaded) = false) /\
  game_light (_initTheme (Some (toggleTheme app_ls app).2) reloaded)
  = page_light (toggleTheme app_ls app).1.
Proof.
  unfold _toggleTheme, _initTheme, toggleTheme. cbn [fst snd].
  split; [by destruct (game_light p)|].
  split; [|split].
  - intros [s ->]. simpl. by rewrite lookup_insert_eq, initial_theme_text.
  - by intros ->.
  - simpl. by rewrite lookup_insert_eq, initial_theme_text.
Qed.

(** ** The local scan: what is kept, and the ids *)

Lemma string_app_assoc (a b c : string) : (a +:+ b) +:+ c = a +:+ (b +:+ c).
Proof.
  induction a as [|x a IH]; [done|]. by rewrite !string_app_cons, IH.
Qed.

Lemma backslash_to_slash_app a b :
  backslash_to_slash (a +:+ b) = backslash_to_slash a +:+ backslash_to_slash b.
Proof.
  induction a as [|x a IH]; [done|].
  rewrite string_app_cons. cbn [backslash_to_slash].
  by rewrite string_app_cons, IH.
Qed.

Lemma scan_item_kept localeCompare dirPath item :
  node_name <$> scan_item (scanDir localeCompare) dirPath item =
  if kept localeCompare dirPath item then [dirent_name item] else [].
Proof.
  unfold scan_item, kept.
  destruct (hidden (dirent_name item)); [done|]. cbn [negb andb].
  destruct item as [name content|name entries].
  - unfold recognized. cbn [dirent_name].
    destruct (String.eqb (toLowerCase (extname name)) ".json"); [done|].
    destruct (String.eqb (toLowerCase (extname name)) ".pdf"); [done|].
    by destruct (String.eqb (toLowerCase (extname name)) ".pptx"),
                (String.eqb (toLowerCase (extname name)) ".ppt").
  - cbn [dirent_name]. by destruct (0 <? _)%nat.
Qed.

(** X11: the names of the nodes that [scanDir] returns for a directory are
    the names of the entries it keeps (not hidden; a file of a recognized
    type, or a directory whose own scan is not empty), one node for each, in
    the order of the sorted listing: no such entry is lost and none gets two
    nodes. *)
Theorem scan_nodes_are_kept_entries
    (localeCompare : collation) (dirPath : string)
    (items : list dirent) :
  node_name <$> scanDir localeCompare dirPath items =
  dirent_name <$>
    filter (fun item => kept localeCompare dirPath item = true)
           (sort (compare_items localeCompare) items).
Proof.
  rewrite scanDir_unfold.
  induction (sort (compare_items localeCompare) items) as [|item rest IH]; [done|].
  cbn [flat_map]. rewrite fmap_app, IH, scan_item_kept, filter_cons.
  destruct (decide (kept localeCompare dirPath item = true)) as [Hk|Hk].
  - by rewrite Hk.
  - apply not_true_is_false in Hk. by rewrite Hk.
Qed.

(** X12: a file node of the scan comes from a file of the listing with the
    same name; its kind is the kind of the extension; a json node carries
    the parsed content of the file, or no data when the file cannot be read
    or is not JSON (the node is there all the same); a pdf or pptx node
    carries no data. *)
Theorem scan_leaf_kind_and_data
    (localeCompare : collation) (dirPath : string)
    (items : list dirent) (n : node) :
  n ∈ scanDir localeCompare dirPath items ->
  node_isFolder n = false ->
  exists content,
    File (node_name n) content ∈ items /\
    node_kind n = scan_kind (node_name n) /\
    is_Some (node_kind n) /\
    node_data n =
      (if String.eqb (toLowerCase (extname (node_name n))) ".json"
       then read_data content else None).
Proof.
  rewrite scanDir_unfold. intros (item & Hitem & Hn)%elem_of_flat_map Hleaf.
  rewrite sort_perm in Hitem.
  unfold scan_item in Hn. destruct (hidden (dirent_name item)); [by apply elem_of_nil in Hn|].
  destruct item as [name content|name entries].
  - exists content. unfold scan_kind. cbn [dirent_name] in Hn.
    destruct (String.eqb (toLowerCase (extname name)) ".json") eqn:E1.
    { apply list_elem_of_singleton in Hn as ->. simpl. rewrite E1. eauto. }
    destruct (String.eqb (toLowerCase (extname name)) ".pdf") eqn:E2.
    { apply list_elem_of_singleton in Hn as ->. simpl. rewrite E1, E2. eauto. }
    destruct (String.eqb (toLowerCase (extname name)) ".pptx"
              || String.eqb (toLowerCase (extname name)) ".ppt") eqn:E3.
    { apply list_elem_of_singleton in Hn as ->. simpl. rewrite E1, E2, E3. eauto. }
    by apply elem_of_nil in Hn.
  - destruct (0 <? _)%nat; [|by apply elem_of_nil in Hn].
    by apply list_elem_of_singleton in Hn as ->.
Qed.

Lemma scan_leaf_kind_and_data_witness :
  exists content,
    File "Item 10.json" content ∈ items_listing /\
    Some Kjson = scan_kind "Item 10.json" /\
    is_Some (Some Kjson) /\
    Some (JObj []) =
      (if String.eqb (toLowerCase (extname "Item 10.json")) ".json"
       then read_data content else None).
Proof.
  apply (scan_leaf_kind_and_data natural_compare "database" items_listing
           (Node "database/Item 10.json" "Item 10.json" false (Some Kjson) None
                 (Some (JObj [])))).
  - right; right; left.
  - reflexivity.
Defined.

Lemma scanDir_upto_ids localeCompare d dirPath items :
  ids_under backslash_to_slash (backslash_to_slash dirPath)
    (scanDir_upto localeCompare d dirPath items).
Proof.
  revert dirPath items. induction d as [|d IH]; intros dirPath items.
  { constructor. constructor. }
  simpl. constructor. apply Forall_forall.
  intros n (item & _ & Hn)%elem_of_flat_map.
  apply scan_item_node in Hn as (Hname & _ & Hid & _ & Hitem).
  split.
  - by rewrite Hid, Hname, !backslash_to_slash_app.
  - intros cs Hcs. destruct item as [name content|name entries].
    + destruct Hitem as (Hc & _). congruence.
    + destruct Hitem as (_ & Hc & _). rewrite Hc in Hcs. injection Hcs as <-.
      rewrite Hid. apply IH.
Qed.

(** X13: in the tree of the local scan the id of a node is the path of
    names that leads to it: the id of a node directly in the scanned
    directory is that directory, a slash and the name of the node, the id of
    a node in a folder is the id of the folder, a slash and the name, at every
    depth; in ids every backslash is written as a slash. *)
Theorem scan_ids_are_paths
    (localeCompare : collation) (dirPath : string)
    (items : list dirent) :
  ids_under backslash_to_slash (backslash_to_slash dirPath)
    (scanDir localeCompare dirPath items).
Proof. apply scanDir_upto_ids. Qed.

(** ** The flat builder: ids and links *)

Lemma string_app_nil_r (a : string) : a +:+ "" = a.
Proof. induction a as [|x a IH]; [done|]. by rewrite string_app_cons, IH. Qed.

Lemma string_app_length (a b : string) :
  String.length (a +:+ b) = (String.length a + String.length b)%nat.
Proof. induction a as [|x a IH]; [done|]. rewrite string_app_cons. simpl. by rewrite IH. Qed.

Lemma extend_path_ne cur part : cur <> "" -> extend_path cur part <> cur.
Proof.
  intros Hcur. unfold extend_path.
  apply String.eqb_neq in Hcur. rewrite Hcur. simpl. intros Heq.
  apply (f_equal String.length) in Heq.
  rewrite !string_app_length in Heq. simpl in Heq. lia.
Qed.

Lemma extend_path_nonempty cur part :
  cur <> "" -> extend_path cur part = cur +:+ "/" +:+ part.
Proof. intros Hcur%String.eqb_neq. unfold extend_path. by rewrite Hcur. Qed.

Lemma linked_init : linked builder_init.
Proof.
  split; simpl.
  - intros k l H. apply lookup_singleton_Some in H as [_ [=]].
  - intros k H. by apply lookup_singleton_Some in H as [<- _].
  - intros k H. by apply lookup_singleton_Some in H as [_ [=]].
  - by intros l ?%elem_of_nil.
  - by intros p c cs l ?.
Qed.

Lemma linked_add_part n len i part cur b st' :
  linked b -> add_part n len i part (cur, b) = Ok st' -> linked st'.2.
Proof.
  intros Hb. unfold add_part.
  destruct (map_get b (extend_path cur part)) as [s|] eqn:Hget.
  { by intros [= <-]. }
  assert (table b !! extend_path cur part = None) as Hfree.
  { unfold map_get in Hget. by destruct (table b !! extend_path cur part). }
  set (isFolder := String.eqb (type n) "tree" || (i <? len - 1)%nat).
  set (node := Cell (extend_path cur part) part isFolder
                    (if isFolder then None else flat_kind part)
                    (if isFolder then Some [] else None)).
  set (l := length (objects b)).
  set (b1 := Builder (objects b ++ [node]) (<[extend_path cur part := NodeAt l]> (table b))
                     (root b)).
  assert (linked b1) as Hb1.
  { destruct Hb as [Ht Hh Hs Hr Hc]. split; simpl.
    - intros k l0 Hk. apply lookup_insert_Some in Hk as [[<- [= <-]]|[Hne Hk]].
      + exists node. split; [|done]. by rewrite lookup_app_r, Nat.sub_diag.
      + destruct (Ht k l0 Hk) as (c & Hc0 & Hid). exists c. split; [|done].
        by apply lookup_app_l_Some.
    - intros k Hk. apply lookup_insert_Some in Hk as [[_ [=]]|[_ Hk]]. by apply Hh.
    - intros k Hk. apply lookup_insert_Some in Hk as [[_ [=]]|[_ Hk]]. by apply (Hs k).
    - intros l0 Hl0. destruct (Hr l0 Hl0) as (c & Hc0 & Hid). exists c.
      split; [by apply lookup_app_l_Some|done].
    - intros p c cs l0 Hp Hid Hcs Hl0.
      apply lookup_app_Some in Hp as [Hp|[Hlen Hp]].
      + destruct (Hc p c cs l0 Hp Hid Hcs Hl0) as (Hlt & c' & Hc' & Hid').
        split; [done|]. exists c'. split; [by apply lookup_app_l_Some|done].
      + destruct (p - length (objects b))%nat; [|done]. injection Hp as <-.
        subst node. simpl in Hcs. destruct isFolder; [|done].
        injection Hcs as <-. by apply elem_of_nil in Hl0. }
  assert (objects b1 !! l = Some node) as Hnode.
  { subst b1 l. simpl. by rewrite lookup_app_r, Nat.sub_diag. }
  assert (length (objects b1) = S l) as Hlen.
  { subst b1 l. simpl. rewrite length_app. simpl. lia. }
  clearbody b1. intros Hpush.
  assert (exists b2, push_child cur l b1 = Ok b2 /\ st' = (extend_path cur part, b2))
    as (b2 & Hb2 & ->).
  { destruct (push_child cur l b1) as [b2|e]; [|done]. injection Hpush as <-. eauto. }
  clear Hpush. simpl. unfold push_child in Hb2.
  destruct (map_get b1 cur) as [[|p|]|] eqn:Hcur; [| |done|by injection Hb2 as <-].
  - (* the parent is the object of 'database' *)
    injection Hb2 as <-.
    assert (cur = "database") as ->.
    { unfold map_get in Hcur. destruct (table b1 !! cur) as [s|] eqn:Htab.
      - injection Hcur as ->. by apply (linked_holder b1 Hb1).
      - by destruct (bool_decide _). }
    destruct Hb1 as [Ht Hh Hs Hr Hc]. split; simpl; try done.
    intros l0 [Hl0| ->%list_elem_of_singleton]%elem_of_app; [by apply Hr|].
    exists node. split; [done|]. subst node. simpl.
    by rewrite extend_path_nonempty.
  - (* the parent is a node *)
    destruct (objects b1 !! p) as [[pi pm pf pk [cs|]]|] eqn:Hp; try done.
    injection Hb2 as <-.
    assert (table b1 !! cur = Some (NodeAt p)) as Htab.
    { unfold map_get in Hcur. destruct (table b1 !! cur) as [s|] eqn:Htab; [done|].
      by destruct (bool_decide _). }
    destruct (linked_table b1 Hb1 _ _ Htab) as (c0 & Hc0 & Hid0).
    rewrite Hp in Hc0. injection Hc0 as <-. simpl in Hid0. subst pi.
    destruct Hb1 as [Ht Hh Hs Hr Hc]. split; simpl; try done.
    + intros k l0 Hk. destruct (Ht k l0 Hk) as (c & Hc0 & Hid).
      destruct (decide (l0 = p)) as [->|Hne].
      * rewrite Hp in Hc0. injection Hc0 as <-. eexists.
        split; [by rewrite list_lookup_insert_eq by (by eapply lookup_lt_Some)|done].
      * exists c. by rewrite list_lookup_insert_ne.
    + intros l0 Hl0. destruct (Hr l0 Hl0) as (c & Hc0 & Hid).
      destruct (decide (l0 = p)) as [->|Hne].
      * rewrite Hp in Hc0. injection Hc0 as <-. eexists.
        split; [by rewrite list_lookup_insert_eq by (by eapply lookup_lt_Some)|done].
      * exists c. by rewrite list_lookup_insert_ne.
    + intros p0 c cs0 l0 Hp0 Hid Hcs0 Hl0.
      assert (forall l1 c1, objects b1 !! l1 = Some c1 ->
                exists c2, <[p := Cell cur pm pf pk (Some (cs ++ [l]))]> (objects b1) !! l1
                           = Some c2 /\ c_id c2 = c_id c1 /\ c_name c2 = c_name c1)
        as Hkeep.
      { intros l1 c1 Hl1. destruct (decide (l1 = p)) as [->|Hne].
        - rewrite Hp in Hl1. injection Hl1 as <-. eexists.
          split; [by rewrite list_lookup_insert_eq by (by eapply lookup_lt_Some)|done].
        - exists c1. by rewrite list_lookup_insert_ne. }
      destruct (decide (p0 = p)) as [->|Hne].
      * rewrite list_lookup_insert_eq in Hp0 by (by eapply lookup_lt_Some).
        injection Hp0 as <-. simpl in *. injection Hcs0 as <-.
        apply elem_of_app in Hl0 as [Hl0| ->%list_elem_of_singleton].
        -- destruct (Hc p _ cs l0 Hp Hid eq_refl Hl0) as (Hlt & c' & Hc' & Hid').
           split; [done|]. destruct (Hkeep _ _ Hc') as (c2 & Hc2 & Hid2 & Hname2).
           exists c2. split; [done|]. by rewrite Hid2, Hname2.
        -- assert (p <> l) as Hpl.
           { intros ->. rewrite Hnode in Hp. subst node. injection Hp as Hext _ _ _ _.
             exact (extend_path_ne cur part Hid Hext). }
           assert (p < l)%nat as Hlt.
           { apply lookup_lt_Some in Hp. lia. }
           split; [done|]. exists node. split; [by rewrite list_lookup_insert_ne|].
           subst node. simpl. by rewrite extend_path_nonempty.
      * rewrite list_lookup_insert_ne in Hp0 by done.
        destruct (Hc p0 c cs0 l0 Hp0 Hid Hcs0 Hl0) as (Hlt & c' & Hc' & Hid').
        split; [done|]. destruct (Hkeep _ _ Hc') as (c2 & Hc2 & Hid2 & Hname2).
        exists c2. split; [done|]. by rewrite Hid2, Hname2.
Qed.

Lemma linked_add_parts n len i parts st st' :
  linked st.2 -> add_parts n len i parts st = Ok st' -> linked st'.2.
Proof.
  revert i st. induction parts as [|part parts IH]; intros i [cur b] Hb;
    cbn [add_parts]; [by intros [= <-]|].
  destruct (add_part n len i part (cur, b)) as [st1|e] eqn:Hstep; [|done].
  apply linked_add_part in Hstep; [|done]. by apply IH.
Qed.

Lemma linked_add_entries flat b b' :
  linked b -> add_entries flat b = Ok b' -> linked b'.
Proof.
  revert b. induction flat as [|n flat IH]; intros b Hb; cbn [add_entries];
    [by intros [= <-]|].
  destruct (add_entry n b) as [b1|e] eqn:Hn; [|done].
  apply IH. unfold add_entry in Hn.
  destruct (add_parts n _ 0 _ (EmptyString, b)) as [[cur b2]|e] eqn:Hparts; [|done].
  injection Hn as <-. by apply linked_add_parts in Hparts.
Qed.

Lemma node_at_ids d (b : builder) :
  linked b ->
  forall l c n,
    objects b !! l = Some c -> c_id c <> "" ->
    node_at d (objects b) l = Some n ->
    node_id n = c_id c /\ node_name n = c_name c /\
    forall cs, node_children n = Some cs -> ids_under (fun s => s) (c_id c) cs.
Proof.
  intros Hb. induction d as [|d IH]; intros l c n Hl Hid; simpl; [done|].
  rewrite Hl. destruct c as [i m f k children]. simpl in *.
  destruct children as [ls|]; [|by intros [= <-]].
  destruct (mapM (node_at d (objects b)) ls) as [ns|] eqn:Hns; [|done].
  intros [= <-]. simpl. split; [done|]. split; [done|].
  intros cs [= <-]. constructor.
  apply mapM_Some in Hns.
  assert (forall l', l' ∈ ls ->
            exists c', objects b !! l' = Some c' /\
                       c_id c' = i +:+ "/" +:+ c_name c') as Hchild.
  { intros l' Hl'.
    by destruct (linked_children b Hb l _ ls l' Hl Hid eq_refl Hl') as (_ & ?). }
  clear Hl. induction Hns as [|l' n' ls ns Hn' _ IHns]; constructor.
  - destruct (Hchild l') as (c' & Hc' & Hid'); [left|].
    assert (c_id c' <> "") as Hne.
    { rewrite Hid'. intros Heq. apply (f_equal String.length) in Heq.
      rewrite !string_app_length in Heq. simpl in Heq. lia. }
    destruct (IH l' c' n' Hc' Hne Hn') as (Hnid & Hnname & Hbelow).
    split; [by rewrite Hnid, Hnname|]. rewrite Hnid. exact Hbelow.
  - apply IHns. intros l'' Hl''. apply Hchild. by right.
Qed.

Lemma buildTree_ids (flat : list entry) (tree : list node) :
  buildTreeFromFlatList flat = Ok (Some tree) ->
  ids_under (fun s => s) "database" tree.
Proof.
  unfold buildTreeFromFlatList, buildTreeFromFlatList_heap.
  destruct (add_entries flat builder_init) as [b|e] eqn:Hb; [|done].
  apply linked_add_entries in Hb; [|apply linked_init].
  intros [= Htree]. apply mapM_Some in Htree. constructor.
  assert (forall l, l ∈ root b ->
            exists c, objects b !! l = Some c /\
                      c_id c = "database" +:+ "/" +:+ c_name c) as Hroot
    by apply (linked_root b Hb).
  induction Htree as [|l n ls ns Hn _ IHns]; constructor.
  - destruct (Hroot l) as (c & Hc & Hid); [left|].
    assert (c_id c <> "") as Hne by (by rewrite Hid).
    destruct (node_at_ids (S (length (objects b))) b Hb l c n Hc Hne Hn) as (Hnid & Hnname & Hbelow).
    split; [by rewrite Hnid, Hnname|]. rewrite Hnid. exact Hbelow.
  - apply IHns. intros l' Hl'. apply Hroot. by right.
Qed.

(** X14: in the tree that [buildTreeFromFlatList] returns, the id of a node
    is the path of names that leads to it from database: the nodes of the
    result have the id database/name, the nodes in a folder the id of the
    folder, a slash and their name, at every depth.  So whatever the list
    holds, no node from outside database is in the result. *)
Theorem flat_ids_are_paths (flat : list entry) (tree : list node) :
  buildTreeFromFlatList flat = Ok (Some tree) ->
  ids_under (fun s => s) "database" tree.
Proof. apply buildTree_ids. Qed.

Lemma flat_ids_are_paths_witness :
  ids_under (fun s => s) "database"
    [Node "database/x.json" "x.json" false (Some Kjson) None None].
Proof. apply (flat_ids_are_paths github_listing). reflexivity. Defined.

(** ** The flat builder: when it returns *)

Lemma split_at_cons sep (s : string) : exists p ps, split_at sep s = p :: ps.
Proof.
  induction s as [|c s (p & ps & IH)]; simpl; [by eexists _, _|].
  destruct (Ascii.eqb c sep); [by eexists _, _|]. rewrite IH. by eexists _, _.
Qed.

Lemma tail_path_app a b : tail_path (a ++ b) = tail_path a +:+ tail_path b.
Proof.
  induction a as [|p a IH]; [done|]. simpl.
  by rewrite IH, !string_app_assoc.
Qed.

(** A string is its segments joined by the separator. *)
Lemma split_at_join (s : string) :
  exists p ps, split_at "/" s = p :: ps /\ s = p +:+ tail_path ps.
Proof.
  induction s as [|c s (p & ps & IH & Hs)]; simpl.
  { by exists "", []. }
  destruct (Ascii.eqb_spec c "/") as [->|Hne].
  - exists "", (p :: ps). rewrite IH. split; [done|]. simpl. by rewrite <-Hs.
  - rewrite IH. exists (String c p), ps. split; [done|].
    by rewrite string_app_cons, <-Hs.
Qed.

Lemma path_of_from cur rest :
  cur <> "" -> foldl extend_path cur rest = cur +:+ tail_path rest.
Proof.
  revert cur. induction rest as [|part rest IH]; intros cur Hcur; simpl.
  { by rewrite string_app_nil_r. }
  rewrite IH by (by apply not_eq_sym, not_eq_sym; intros H;
                  apply (f_equal String.length) in H;
                  rewrite extend_path_nonempty, !string_app_length in H by done;
                  simpl in H; lia).
  rewrite extend_path_nonempty by done. by rewrite !string_app_assoc.
Qed.

Lemma path_of_cons p rest : p <> "" -> path_of (p :: rest) = p +:+ tail_path rest.
Proof.
  intros Hp. unfold path_of. simpl. unfold extend_path at 2. simpl.
  by apply path_of_from.
Qed.

Lemma prefix_app (a b : string) : String.prefix a (a +:+ b) = true.
Proof.
  induction a as [|c a IH]; [by destruct b|].
  rewrite string_app_cons. simpl. by destruct (ascii_dec c c).
Qed.

Lemma prefix_split (a s : string) :
  String.prefix a s = true -> exists b, s = a +:+ b.
Proof.
  revert s. induction a as [|c a IH]; intros s.
  { intros _. by exists s. }
  destruct s as [|d s]; simpl; [done|].
  destruct (ascii_dec c d) as [->|]; [|done].
  intros (b & ->)%IH. by exists b.
Qed.

(** The segments of a path under database/. *)
Lemma in_database_parts n :
  in_database n = true ->
  exists rest, split_at "/" (path n) = "database" :: rest /\ rest <> [] /\
               path n = "database" +:+ tail_path rest.
Proof.
  unfold in_database. intros [Hpre _]%andb_true_iff.
  apply prefix_split in Hpre as (s & Hs).
  destruct (split_at_join s) as (p & ps & Hsplit & Hjoin).
  assert (split_at "/" ("database/" +:+ s) = "database" :: split_at "/" s) as Hparts.
  { cbv [String.append]. reflexivity. }
  exists (p :: ps). rewrite Hs, Hparts, Hsplit.
  split; [done|]. split; [done|].
  cbn [tail_path foldr]. fold (tail_path ps). rewrite <-Hjoin.
  by rewrite <-string_app_assoc.
Qed.

Lemma database_path_not_inherited (t : string) :
  bool_decide (("database" +:+ t) ∈ prototype_keys) = false.
Proof.
  apply bool_decide_eq_false. unfold prototype_keys.
  rewrite !elem_of_cons, elem_of_nil. cbv [String.append].
  intros H. repeat (destruct H as [H|H]; [discriminate H|]). done.
Qed.

Section flat_total.
Variable flat : list entry.
Hypothesis Hdb : forall n, n ∈ flat -> in_database n = true.
Hypothesis Hblob : forall n m,
  n ∈ flat -> m ∈ flat -> type n <> "tree" ->
  String.prefix (path n +:+ "/") (path m) = false.

(** The path so far, for a non-empty sequence of segments of an entry. *)
Lemma prefix_path n pre part suf :
  n ∈ flat -> split_at "/" (path n) = pre ++ part :: suf -> pre <> [] ->
  exists t, path_of pre = "database" +:+ t /\
            path n = (path_of pre +:+ "/") +:+ (part +:+ tail_path suf).
Proof.
  intros Hn Hparts Hpre.
  destruct (in_database_parts n (Hdb n Hn)) as (rest & Hsplit & _ & Hpath).
  rewrite Hsplit in Hparts. destruct pre as [|p pre']; [done|].
  injection Hparts as <- ->.
  exists (tail_path pre'). rewrite path_of_cons by done. split; [done|].
  rewrite Hpath, tail_path_app. simpl. by rewrite !string_app_assoc.
Qed.

(** An object that is no folder was made for the whole path of a blob. *)
Lemma file_cell_is_blob c :
  made_from flat c -> c_isFolder c = false ->
  exists n, n ∈ flat /\ type n <> "tree" /\ c_id c = path n.
Proof.
  intros (n & i & part & Hn & Hi & Hid & _ & Hfolder & _) Hfile.
  exists n. split; [done|].
  assert (type n <> "tree" /\ ~ (i < length (split_at "/" (path n)) - 1)%nat)
    as [Htype Hlast].
  { split; intros H; [assert (c_isFolder c = true) by (apply Hfolder; by left)
                     |assert (c_isFolder c = true) by (apply Hfolder; by right)];
      congruence. }
  split; [done|].
  apply lookup_lt_Some in Hi.
  rewrite Hid, take_ge by lia.
  destruct (in_database_parts n (Hdb n Hn)) as (rest & -> & _ & ->).
  by apply path_of_cons.
Qed.

Lemma add_part_returns n pre part suf b :
  n ∈ flat ->
  split_at "/" (path n) = pre ++ part :: suf ->
  built flat b -> linked b -> folders_have_children b ->
  table b !! "database" = Some RootHolder ->
  (pre <> [] -> is_Some (table b !! path_of pre)) ->
  exists st',
    add_part n (length (split_at "/" (path n))) (length pre) part (path_of pre, b)
    = Ok st' /\
    folders_have_children st'.2 /\
    table st'.2 !! "database" = Some RootHolder /\
    is_Some (table st'.2 !! path_of (pre ++ [part])).
Proof.
  intros Hn Hparts Hbuilt Hlinked Hfolders Hholder Hcur.
  unfold add_part. rewrite <-path_of_snoc.
  assert (pre = [] /\ path_of (pre ++ [part]) = "database" \/
          pre <> [] /\ exists t, path_of (pre ++ [part]) = "database" +:+ t) as Hnew.
  { destruct (in_database_parts n (Hdb n Hn)) as (rest & Hsplit & _ & _).
    rewrite Hsplit in Hparts. destruct pre as [|p pre'].
    - left. injection Hparts as <- _. done.
    - right. split; [done|]. injection Hparts as <- _.
      exists (tail_path (pre' ++ [part])). by apply path_of_cons. }
  destruct (map_get b (path_of (pre ++ [part]))) as [s|] eqn:Hget.
  { eexists. split; [done|]. split; [done|]. split; [done|]. simpl.
    unfold map_get in Hget.
    destruct (table b !! path_of (pre ++ [part])) as [s'|]; [done|].
    destruct Hnew as [[_ Heq]|[_ [t Heq]]].
    - rewrite Heq in Hget. done.
    - rewrite Heq, database_path_not_inherited in Hget. done. }
  assert (table b !! path_of (pre ++ [part]) = None) as Hfree.
  { unfold map_get in Hget. by destruct (table b !! path_of (pre ++ [part])). }
  destruct Hnew as [[_ Heq]|[Hpre _]].
  { rewrite Heq in Hfree. congruence. }
  destruct (prefix_path n pre part suf Hn Hparts Hpre) as (t & Hcurdb & Hpath).
  assert (path_of pre <> "") as Hne by (by rewrite Hcurdb).
  assert (path_of (pre ++ [part]) <> path_of pre) as Hfresh.
  { rewrite path_of_snoc. by apply extend_path_ne. }
  destruct (Hcur Hpre) as [s Hs].
  unfold push_child, map_get. simpl.
  rewrite lookup_insert_ne by done. rewrite Hs.
  set (isFolder := String.eqb (type n) "tree" || _).
  set (node := Cell _ part isFolder _ _).
  assert (folders_have_children (Builder (objects b ++ [node]) (table b) (root b)))
    as Hfolders1.
  { unfold folders_have_children. simpl.
    intros l c [Hl|[_ Hl]]%lookup_app_Some; [by eapply Hfolders|].
    simpl in Hl. destruct (l - length (objects b))%nat; [|done]. injection Hl as <-.
    subst node. simpl. intros ->. by eexists. }
  destruct s as [|p|].
  - eexists. split; [done|]. simpl. split; [exact Hfolders1|].
    split; [by rewrite lookup_insert_ne by congruence|].
    by rewrite lookup_insert_eq.
  - destruct (linked_table b Hlinked _ _ Hs) as (c & Hc & Hid).
    rewrite (lookup_app_l_Some _ _ _ _ Hc).
    assert (c_isFolder c = true) as Hfolder.
    { destruct (c_isFolder c) eqn:Hf; [done|]. exfalso.
      destruct Hbuilt as [_ Hmade]. rewrite Forall_forall in Hmade.
      assert (made_from flat c) as Hc_made.
      { apply (made_from_erase flat (erase c)); [by destruct c|].
        apply Hmade. apply list_elem_of_fmap_2. by eapply list_elem_of_lookup_2. }
      destruct (file_cell_is_blob c Hc_made Hf) as (n' & Hn' & Htype & Hid').
      pose proof (Hblob n' n Hn' Hn Htype) as Hno.
      rewrite <-Hid', Hid, Hpath, prefix_app in Hno. done. }
    destruct (Hfolders p c Hc Hfolder) as [cs Hcs].
    destruct c as [ci cm cf ck cc]. simpl in *. subst cc.
    eexists. split; [done|]. simpl. split; [|split].
    + unfold folders_have_children. simpl. intros l c' Hl Hf.
      destruct (decide (l = p)) as [->|Hlp].
      * rewrite list_lookup_insert_eq in Hl
          by (rewrite length_app; apply lookup_lt_Some in Hc; lia).
        injection Hl as <-. by eexists.
      * rewrite list_lookup_insert_ne in Hl by done. by apply (Hfolders1 l c').
    + by rewrite lookup_insert_ne by congruence.
    + by rewrite lookup_insert_eq.
  - by destruct (linked_stored b Hlinked (path_of pre)).
Qed.

End flat_total.

Section flat_total_loops.
Variable flat : list entry.
Hypothesis Hdb : forall n, n ∈ flat -> in_database n = true.
Hypothesis Hblob : forall n m,
  n ∈ flat -> m ∈ flat -> type n <> "tree" ->
  String.prefix (path n +:+ "/") (path m) = false.

(** What the loops keep, beyond [built] and [linked]. *)
Let kept_by_loops (b : builder) : Prop :=
  built flat b /\ linked b /\ folders_have_children b /\
  table b !! "database" = Some RootHolder.

Lemma add_parts_returns n pre suf b :
  n ∈ flat ->
  split_at "/" (path n) = pre ++ suf ->
  kept_by_loops b ->
  (pre <> [] -> is_Some (table b !! path_of pre)) ->
  exists st',
    add_parts n (length (split_at "/" (path n))) (length pre) suf (path_of pre, b)
    = Ok st' /\ kept_by_loops st'.2.
Proof.
  intros Hn. revert pre b.
  induction suf as [|part suf IH]; intros pre b Hparts (Hbuilt & Hlinked & Hf & Hh) Hcur;
    cbn [add_parts].
  { by eexists. }
  destruct (add_part_returns flat Hdb Hblob n pre part suf b Hn Hparts Hbuilt Hlinked
              Hf Hh Hcur) as ([cur1 b1] & Hstep & Hf1 & Hh1 & Hcur1).
  rewrite Hstep.
  pose proof (add_part_built flat n pre part suf (path_of pre) b (cur1, b1) Hn Hparts
                eq_refl Hbuilt Hstep) as [Hcur1_eq Hbuilt1].
  pose proof (linked_add_part _ _ _ _ _ _ _ Hlinked Hstep) as Hlinked1.
  simpl in *. subst cur1.
  destruct (IH (pre ++ [part]) b1) as (st' & Hrest & Hkept).
  - by rewrite Hparts, <-app_assoc.
  - done.
  - done.
  - rewrite length_app, Nat.add_1_r in Hrest. by exists st'.
Qed.

Lemma add_entries_returns rest b :
  (forall n, n ∈ rest -> n ∈ flat) -> kept_by_loops b ->
  exists b', add_entries rest b = Ok b' /\ kept_by_loops b'.
Proof.
  revert b. induction rest as [|n rest IH]; intros b Hsub Hb; cbn [add_entries].
  { by exists b. }
  destruct (add_parts_returns n [] (split_at "/" (path n)) b) as ([cur b1] & Hn & Hb1);
    [apply Hsub; left|done|done|done|].
  unfold add_entry. unfold path_of in Hn. simpl in Hn. rewrite Hn.
  apply IH; [|done]. intros m Hm. apply Hsub. by right.
Qed.

Lemma node_at_returns (b : builder) :
  linked b ->
  forall d l c,
    objects b !! l = Some c -> c_id c <> "" ->
    (length (objects b) - l < d)%nat ->
    is_Some (node_at d (objects b) l).
Proof.
  intros Hb. induction d as [|d IH]; intros l c Hl Hid Hd; [lia|].
  simpl. rewrite Hl. destruct c as [i m f k [ls|]]; [|by eexists].
  assert (is_Some (mapM (node_at d (objects b)) ls)) as [ns ->]; [|by eexists].
  apply mapM_is_Some, Forall_forall. intros l' Hl'.
  destruct (linked_children b Hb l _ ls l' Hl Hid eq_refl Hl') as (Hlt & c' & Hc' & Hid').
  apply (IH l' c' Hc').
  - rewrite Hid'. intros Heq. apply (f_equal String.length) in Heq.
    rewrite !string_app_length in Heq. simpl in Heq. lia.
  - apply lookup_lt_Some in Hc'. lia.
Qed.

Lemma flat_builder_returns : exists tree, buildTreeFromFlatList flat = Ok (Some tree).
Proof.
  unfold buildTreeFromFlatList, buildTreeFromFlatList_heap.
  destruct (add_entries_returns flat builder_init) as (b & -> & _ & Hlinked & _).
  - done.
  - split; [apply built_init|]. split; [apply linked_init|]. split; [|done].
    by intros l c ?.
  - assert (is_Some (mapM (node_at (S (length (objects b))) (objects b)) (root b)))
      as [tree ->]; [|by eexists].
    apply mapM_is_Some, Forall_forall. intros l Hl.
    destruct (linked_root b Hlinked l Hl) as (c & Hc & Hid).
    apply (node_at_returns b Hlinked _ l c Hc); [by rewrite Hid|lia].
Qed.

End flat_total_loops.

(** ** The flat builder: what decides a node *)

Lemma has_char_app c (a b : string) :
  has_char c (a +:+ b) = has_char c a || has_char c b.
Proof.
  induction a as [|x a IH]; [done|].
  rewrite string_app_cons. simpl. by rewrite IH, orb_assoc.
Qed.

Lemma split_at_no_sep sep (s : string) :
  Forall (fun piece => has_char sep piece = false) (split_at sep s).
Proof.
  induction s as [|c s IH]; simpl; [by repeat constructor|].
  destruct (Ascii.eqb c sep) eqn:Hc; [by constructor|].
  destruct (split_at sep s) as [|piece pieces]; [by repeat constructor; simpl; rewrite Hc|].
  apply Forall_cons in IH as [Hp Hps]. constructor; [|done]. simpl. by rewrite Hc.
Qed.

(** A path is cut at its last slash in one way only. *)
Lemma app_slash_inj (a b x y : string) :
  has_char "/" x = false -> has_char "/" y = false ->
  a +:+ "/" +:+ x = b +:+ "/" +:+ y -> a = b /\ x = y.
Proof.
  intros Hx Hy. revert b. induction a as [|c a IH]; intros [|c' b] Heq.
  - change ("" +:+ "/" +:+ x) with (String "/" x) in Heq.
    change ("" +:+ "/" +:+ y) with (String "/" y) in Heq. by injection Heq as ->.
  - change ("" +:+ "/" +:+ x) with (String "/" x) in Heq.
    rewrite string_app_cons in Heq. injection Heq as <- ->.
    rewrite has_char_app in Hx. simpl in Hx. by rewrite orb_true_r in Hx.
  - change ("" +:+ "/" +:+ y) with (String "/" y) in Heq.
    rewrite string_app_cons in Heq. injection Heq as -> <-.
    rewrite has_char_app in Hy. simpl in Hy. by rewrite orb_true_r in Hy.
  - rewrite !string_app_cons in Heq. injection Heq as -> Heq.
    apply IH in Heq as [-> ->]. done.
Qed.

Lemma find_app_Some {A} (f : A -> bool) (l l' : list A) (x : A) :
  List.find f l = Some x -> List.find f (l ++ l') = Some x.
Proof. induction l as [|y l IH]; simpl; [done|]. by destruct (f y). Qed.

Lemma find_app_None {A} (f : A -> bool) (l l' : list A) :
  List.find f l = None -> List.find f (l ++ l') = List.find f l'.
Proof. induction l as [|y l IH]; simpl; [done|]. by destruct (f y). Qed.

Lemma find_None_elem {A} (f : A -> bool) (l : list A) :
  (forall x, x ∈ l -> f x = false) -> List.find f l = None.
Proof.
  induction l as [|y l IH]; intros H; simpl; [done|].
  rewrite (H y) by left. apply IH. intros x Hx. apply H. by right.
Qed.

Lemma find_Some_elem {A} (f : A -> bool) (l : list A) (x : A) :
  List.find f l = Some x -> x ∈ l /\ f x = true.
Proof.
  induction l as [|y l IH]; simpl; [done|].
  destruct (f y) eqn:Hy.
  - intros [= <-]. split; [left|done].
  - intros [? ?]%IH. split; [by right|done].
Qed.

Lemma elem_of_mentions (flat : list entry) (m : entry) (j : nat) :
  (m, j) ∈ mentions flat <-> m ∈ flat /\ (j < length (segments m))%nat.
Proof.
  unfold mentions. induction flat as [|n flat IH]; simpl.
  { split; [by intros ?%elem_of_nil|by intros [?%elem_of_nil _]]. }
  rewrite elem_of_app, IH, list_elem_of_fmap, elem_of_cons. split.
  - intros [(i & [= -> ->] & Hi)|[? ?]].
    + apply elem_of_seq in Hi. split; [by left|lia].
    + split; [by right|done].
  - intros [[->|Hm] Hj].
    + left. exists j. split; [done|]. apply elem_of_seq. lia.
    + by right.
Qed.

Lemma mentions_app (a b : list entry) : mentions (a ++ b) = mentions a ++ mentions b.
Proof. unfold mentions. apply flat_map_app. Qed.

(** The value of [currentPath] after the segment in the middle. *)
Lemma prefix_at_middle n pre part suf :
  segments n = pre ++ part :: suf ->
  prefix_at n (length pre) = extend_path (path_of pre) part.
Proof.
  intros Hparts. unfold prefix_at. rewrite Hparts, <-path_of_snoc.
  replace (S (length pre)) with (length (pre ++ [part]))
    by (rewrite length_app; simpl; lia).
  rewrite (assoc_L _ pre [part] suf : pre ++ part :: suf = (pre ++ [part]) ++ suf).
  by rewrite take_app_length.
Qed.

Lemma path_of_nonempty pre : path_of pre <> "" -> pre <> [].
Proof. by intros H ->. Qed.

Lemma map_get_insert b k s key :
  map_get b key <> None ->
  map_get (Builder (objects b) (<[k := s]> (table b)) (root b)) key <> None.
Proof.
  unfold map_get. simpl. destruct (decide (k = key)) as [->|Hne].
  - by rewrite lookup_insert_eq.
  - by rewrite lookup_insert_ne.
Qed.

Lemma push_child_cells q l b b' :
  push_child q l b = Ok b' ->
  table b' = table b /\
  (forall l0 c', objects b' !! l0 = Some c' ->
     exists c0, objects b !! l0 = Some c0 /\ erase c' = erase c0 /\
                (is_Some (c_children c') -> is_Some (c_children c0))) /\
  (forall p0, map_get b q = Some (NodeAt p0) ->
     exists c0, objects b !! p0 = Some c0 /\ is_Some (c_children c0)).
Proof.
  unfold push_child. destruct (map_get b q) as [[|p|]|]; [| |done|].
  - intros [= <-]. simpl. split; [done|]. split; [|done].
    intros l0 c' Hl0. by exists c'.
  - destruct (objects b !! p) as [[i m f k [cs|]]|] eqn:Hp; try done.
    intros [= <-]. simpl. split; [done|]. split.
    + intros l0 c' Hl0. destruct (decide (l0 = p)) as [->|Hne].
      * rewrite list_lookup_insert_eq in Hl0 by (by eapply lookup_lt_Some).
        injection Hl0 as <-. eexists. split; [exact Hp|]. split; [done|]. by eexists.
      * rewrite list_lookup_insert_ne in Hl0 by done. by exists c'.
    + intros p0 [= <-]. eexists. split; [exact Hp|]. by eexists.
  - intros [= <-]. split; [done|]. split; [|done].
    intros l0 c' Hl0. by exists c'.
Qed.

Lemma erase_fields c c' :
  erase c = erase c' ->
  c_id c = c_id c' /\ c_name c = c_name c' /\ c_isFolder c = c_isFolder c' /\
  c_kind c = c_kind c'.
Proof. destruct c, c'. unfold erase. simpl. by intros [= -> -> -> ->]. Qed.

Lemma traced_add_part M n pre part suf b st' :
  segments n = pre ++ part :: suf ->
  (pre <> [] -> map_get b (path_of pre) <> None) ->
  linked b -> traced M b ->
  add_part n (length (segments n)) (length pre) part (path_of pre, b) = Ok st' ->
  st'.1 = path_of (pre ++ [part]) /\ traced (M ++ [(n, length pre)]) st'.2.
Proof.
  intros Hparts Hcur Hlinked [Hseen Hmade Hchildren Hparent].
  pose proof (prefix_at_middle n pre part suf Hparts) as Hhere.
  unfold add_part. rewrite <-path_of_snoc. rewrite <-path_of_snoc in Hhere.
  set (cur := path_of (pre ++ [part])) in *.
  destruct (map_get b cur) as [s|] eqn:Hget.
  { intros [= <-]. simpl. split; [done|]. split; [|..|done|done].
    - intros x [Hx|Hx]%elem_of_app; [by apply Hseen|].
      apply elem_of_cons in Hx as [->|Hx%elem_of_nil]; [|done].
      simpl. by rewrite Hhere, Hget.
    - intros l c Hl. destruct (Hmade l c Hl) as (n0 & i0 & part0 & Hfind & Hrest).
      exists n0, i0, part0. split; [by apply find_app_Some|done]. }
  assert (table b !! cur = None) as Hfree.
  { unfold map_get in Hget. by destruct (table b !! cur). }
  set (isFolder := String.eqb (type n) "tree" || _).
  set (node := Cell cur part isFolder _ _).
  match goal with |- context [push_child ?pp ?l ?b1] =>
    destruct (push_child pp l b1) as [b2|e] eqn:Hpush end; [|done].
  intros [= <-]. simpl. split; [done|].
  apply push_child_cells in Hpush as (Htab & Hcells & Hpushed). simpl in *.
  assert (forall l0 c', objects b2 !! l0 = Some c' ->
            (exists c0, objects b !! l0 = Some c0 /\ erase c' = erase c0 /\
                        (is_Some (c_children c') -> is_Some (c_children c0))) \/
            (l0 = length (objects b) /\ erase c' = erase node /\
             (is_Some (c_children c') -> isFolder = true))) as Hsplit.
  { intros l0 c' Hl0. destruct (Hcells l0 c' Hl0) as (c0 & Hc0 & He & Hch).
    apply lookup_app_Some in Hc0 as [Hc0|[Hlen Hc0]]; [left; by exists c0|].
    right. destruct (l0 - length (objects b))%nat eqn:Hd; [|done].
    injection Hc0 as <-. split; [lia|]. split; [done|].
    intros Hc'. apply Hch in Hc'. subst node. simpl in Hc'.
    destruct isFolder; [done|]. by destruct Hc' as [? [=]]. }
  assert (find (reaches cur) M = None) as Hfirst.
  { apply find_None_elem. intros x Hx. unfold reaches.
    apply String.eqb_neq. intros Heq. apply (Hseen x Hx). by rewrite Heq. }
  assert (forall key, map_get b key <> None -> map_get b2 key <> None) as Hmono.
  { intros key Hkey. unfold map_get. rewrite Htab.
    apply (map_get_insert b cur (NodeAt (length (objects b))) key Hkey). }
  split.
  - intros x [Hx|Hx]%elem_of_app; [by apply Hmono, Hseen|].
    apply elem_of_cons in Hx as [->|Hx%elem_of_nil]; [|done].
    simpl. rewrite Hhere. unfold map_get. by rewrite Htab, lookup_insert_eq.
  - intros l0 c' Hl0. destruct (Hsplit l0 c' Hl0) as [(c0 & Hc0 & He & _)|(_ & He & _)];
      apply erase_fields in He as (Hid & Hname & Hf & Hk); rewrite Hid, Hname, Hf, Hk.
    + destruct (Hmade l0 c0 Hc0) as (n0 & i0 & part0 & Hfind & Hrest).
      exists n0, i0, part0. split; [by apply find_app_Some|done].
    + exists n, (length pre), part. simpl. split.
      { rewrite find_app_None by done. simpl. unfold reaches. simpl.
        by rewrite Hhere, String.eqb_refl. }
      split; [by rewrite Hparts, list_lookup_middle|]. done.
  - intros l0 c' Hl0 Hc'.
    destruct (Hsplit l0 c' Hl0) as [(c0 & Hc0 & He & Hch)|(_ & He & Hch)];
      apply erase_fields in He as (_ & _ & -> & _).
    + by apply (Hchildren l0 c0 Hc0), Hch.
    + by apply Hch.
  - assert (forall q, q <> cur -> map_get b q <> None ->
              (forall l1 c1, table b !! q = Some (NodeAt l1) -> objects b !! l1 = Some c1 ->
                             c_isFolder c1 = true) ->
              forall l1 c1, table b2 !! q = Some (NodeAt l1) -> objects b2 !! l1 = Some c1 ->
                            c_isFolder c1 = true) as Hkeep.
    { intros q Hq _ Hold l1 c1 Hl1 Hc1. rewrite Htab, lookup_insert_ne in Hl1 by done.
      destruct (linked_table b Hlinked _ _ Hl1) as (c & Hc & _).
      destruct (Hsplit l1 c1 Hc1) as [(c0 & Hc0 & He & _)|(Hlen & _)].
      - apply erase_fields in He as (_ & _ & -> & _). by eapply Hold.
      - apply lookup_lt_Some in Hc. lia. }
    intros l0 c' Hl0.
    destruct (Hsplit l0 c' Hl0) as [(c0 & Hc0 & He & _)|(_ & He & _)];
      apply erase_fields in He as (-> & _).
    + destruct (Hparent l0 c0 Hc0) as (q & part0 & Hid & Hslash & Hq).
      exists q, part0. split; [done|]. split; [done|].
      intros Hne. destruct (Hq Hne) as [Hin Hfolder]. split; [by apply Hmono|].
      apply Hkeep; [|done|done]. intros ->. done.
    + exists (path_of pre), part. simpl. split; [unfold cur; apply path_of_snoc|]. split.
      { pose proof (split_at_no_sep "/" (path n)) as Hall.
        fold (segments n) in Hall. rewrite Hparts in Hall.
        by apply Forall_app in Hall as [_ [? _]%Forall_cons]. }
      intros Hne. pose proof (Hcur (path_of_nonempty _ Hne)) as Hin.
      split; [by apply Hmono|].
      assert (path_of pre <> cur) as Hfresh.
      { intros Heq. symmetry in Heq. revert Heq. unfold cur. rewrite path_of_snoc.
        by apply extend_path_ne. }
      intros l1 c1 Hl1 Hc1. rewrite Htab, lookup_insert_ne in Hl1 by done.
      destruct (Hpushed l1) as (c0 & Hc0 & Hch).
      { unfold map_get. simpl. by rewrite lookup_insert_ne, Hl1 by done. }
      destruct (linked_table b Hlinked _ _ Hl1) as (c & Hc & _).
      rewrite (lookup_app_l_Some _ _ _ _ Hc) in Hc0. injection Hc0 as <-.
      destruct (Hsplit l1 c1 Hc1) as [(c0 & Hc0 & He & _)|(Hlen & _)].
      * apply erase_fields in He as (_ & _ & -> & _).
        rewrite Hc in Hc0. injection Hc0 as <-. by apply (Hchildren l1 c).
      * apply lookup_lt_Some in Hc. lia.
Qed.

Lemma traced_add_parts M n pre suf b st' :
  segments n = pre ++ suf ->
  (pre <> [] -> map_get b (path_of pre) <> None) ->
  linked b -> traced M b ->
  add_parts n (length (segments n)) (length pre) suf (path_of pre, b) = Ok st' ->
  linked st'.2 /\ traced (M ++ (pair n <$> seq (length pre) (length suf))) st'.2.
Proof.
  revert M pre b. induction suf as [|part suf IH]; intros M pre b Hparts Hcur Hlinked Hb;
    cbn [add_parts].
  { intros [= <-]. simpl. by rewrite app_nil_r. }
  destruct (add_part n (length (segments n)) (length pre) part (path_of pre, b))
    as [[cur1 b1]|e] eqn:Hstep; [|done].
  pose proof (linked_add_part _ _ _ _ _ _ _ Hlinked Hstep) as Hlinked1.
  destruct (traced_add_part M n pre part suf b _ Hparts Hcur Hlinked Hb Hstep)
    as [Hcur1 Hb1].
  simpl in *. subst cur1. intros Hrest.
  destruct (IH (M ++ [(n, length pre)]) (pre ++ [part]) b1) as [Hl Ht].
  - by rewrite Hparts, <-app_assoc.
  - intros _. pose proof (traced_seen _ _ Hb1 (n, length pre)) as Hseen. simpl in Hseen.
    rewrite (prefix_at_middle n pre part suf Hparts), <-path_of_snoc in Hseen.
    apply Hseen, elem_of_app. right. left.
  - done.
  - done.
  - by rewrite length_app, Nat.add_1_r.
  - split; [done|]. rewrite length_app, Nat.add_1_r in Ht.
    by rewrite <-app_assoc in Ht.
Qed.

Lemma traced_add_entries M rest b b' :
  linked b -> traced M b -> add_entries rest b = Ok b' ->
  linked b' /\ traced (M ++ mentions rest) b'.
Proof.
  revert M b. induction rest as [|n rest IH]; intros M b Hlinked Hb; cbn [add_entries].
  { intros [= <-]. unfold mentions. simpl. by rewrite app_nil_r. }
  destruct (add_entry n b) as [b1|e] eqn:Hn; [|done].
  unfold add_entry in Hn.
  destruct (add_parts n (length (split_at "/" (path n))) 0 (split_at "/" (path n))
              (EmptyString, b)) as [[cur b2]|e] eqn:Hparts; [|done].
  injection Hn as <-.
  destruct (traced_add_parts M n [] (segments n) b (cur, b2)) as [Hl2 Hb2];
    [done|done|done|done|exact Hparts|].
  intros Hrest.
  destruct (IH _ _ Hl2 Hb2 Hrest) as [Hl Ht]. split; [done|].
  assert (mentions (n :: rest) = (pair n <$> seq 0 (length (segments n))) ++ mentions rest)
    as -> by done.
  by rewrite app_assoc.
Qed.

Lemma traced_init : traced [] builder_init.
Proof. split; try (by intros l c ?). by intros x ?%elem_of_nil. Qed.

(** What holds of the node objects when the loops are through. *)
Lemma flat_heap_traced (flat : list entry) (b : builder) :
  buildTreeFromFlatList_heap flat = Ok b ->
  linked b /\ built flat b /\ traced (mentions flat) b.
Proof.
  intros Hb. split; [|split].
  - eapply linked_add_entries; [apply linked_init|exact Hb].
  - eapply add_entries_built; [|apply built_init|exact Hb]. done.
  - by destruct (traced_add_entries [] flat _ _ linked_init traced_init Hb).
Qed.

Lemma prototype_keys_no_slash (k : string) :
  has_char "/" k = true -> bool_decide (k ∈ prototype_keys) = false.
Proof.
  intros Hk. apply bool_decide_eq_false. intros Hin.
  assert (Forall (fun key => has_char "/" key = false) prototype_keys) as Hall
    by (repeat constructor).
  rewrite Forall_forall in Hall. rewrite (Hall k Hin) in Hk. done.
Qed.

(** The object under a path that some path runs through is a folder. *)
Lemma run_through_is_folder (flat : list entry) (b : builder) l c :
  buildTreeFromFlatList_heap flat = Ok b ->
  objects b !! l = Some c -> c_id c <> "" ->
  runs_through flat (c_id c) -> c_isFolder c = true.
Proof.
  intros Hb Hc Hid (m & j & Hm & Hj & Hlt).
  destruct (flat_heap_traced flat b Hb) as (Hlinked & Hbuilt & Ht).
  apply built_nodes in Hbuilt as (_ & _ & Hindexed).
  destruct (lookup_lt_is_Some_2 (segments m) (S j) Hlt) as [part' Hpart'].
  pose proof (take_drop_middle _ _ _ Hpart') as Hsplit. symmetry in Hsplit.
  pose proof (prefix_at_middle m _ _ _ Hsplit) as Hnext.
  assert (length (take (S j) (segments m)) = S j) as Hlen
    by (rewrite length_take; lia).
  rewrite Hlen in Hnext. fold (prefix_at m j) in Hnext. rewrite Hj in Hnext.
  rewrite extend_path_nonempty in Hnext by done.
  assert (has_char "/" part' = false) as Hslash'.
  { pose proof (split_at_no_sep "/" (path m)) as Hall. rewrite Forall_forall in Hall.
    apply Hall. by eapply list_elem_of_lookup_2. }
  assert (has_char "/" (prefix_at m (S j)) = true) as Hslash.
  { rewrite Hnext, !has_char_app. simpl. by rewrite orb_true_r. }
  pose proof (traced_seen _ _ Ht (m, S j)) as Hseen. simpl in Hseen.
  assert (exists l', table b !! prefix_at m (S j) = Some (NodeAt l')) as [l' Hl'].
  { unfold map_get in Hseen.
    destruct (table b !! prefix_at m (S j)) as [[|l'|]|] eqn:Htab.
    - apply (linked_holder b Hlinked) in Htab. by rewrite Htab in Hslash.
    - by exists l'.
    - by destruct (linked_stored b Hlinked (prefix_at m (S j))).
    - rewrite prototype_keys_no_slash in Hseen by done.
      exfalso. apply Hseen; [|done]. apply elem_of_mentions. done. }
  destruct (linked_table b Hlinked _ _ Hl') as (c' & Hc' & Hid').
  destruct (traced_parent _ _ Ht l' c' Hc') as (q & part & Hq & Hpart & Hfolder).
  rewrite Hid', Hnext in Hq.
  destruct (decide (q = "")) as [->|Hne].
  { unfold extend_path in Hq. simpl in Hq. rewrite <-Hq, !has_char_app in Hpart.
    simpl in Hpart. by rewrite orb_true_r in Hpart. }
  rewrite extend_path_nonempty in Hq by done.
  apply app_slash_inj in Hq as [<- <-]; [|done|done].
  destruct (Hfolder Hne) as [_ Hf]. apply (Hf l c); [by apply Hindexed|done].
Qed.

(** ** The kind of an extension *)

Lemma lower_ascii_dot (c : ascii) : Ascii.eqb (lower_ascii c) "." = Ascii.eqb c ".".
Proof. by destruct c as [[] [] [] [] [] [] [] []]. Qed.

Lemma split_at_toLowerCase (s : string) :
  split_at "." (toLowerCase s) = toLowerCase <$> split_at "." s.
Proof.
  induction s as [|c s IH]; simpl; [done|].
  rewrite lower_ascii_dot. destruct (Ascii.eqb c "."); simpl; [by rewrite IH|].
  rewrite IH. by destruct (split_at "." s).
Qed.

Lemma last_fmap_lower (l : list string) :
  List.last (toLowerCase <$> l) "" = toLowerCase (List.last l "").
Proof.
  induction l as [|x l IH]; [done|]. destruct l as [|y l]; [done|].
  exact IH.
Qed.

Lemma split_at_dot_free (e : string) :
  has_char "." e = false -> split_at "." e = [e].
Proof.
  induction e as [|c e IH]; simpl; [done|].
  intros [Hc He]%orb_false_iff. by rewrite Hc, IH.
Qed.

Lemma last_split_stem (stem e : string) :
  List.last (split_at "." (stem +:+ "." +:+ e)) "" = List.last (split_at "." e) "".
Proof.
  induction stem as [|c stem IH].
  - change ("" +:+ "." +:+ e) with (String "." e). simpl.
    by destruct (split_at_cons "." e) as (p & ps & ->).
  - rewrite string_app_cons. simpl. destruct (Ascii.eqb c ".").
    + destruct (split_at_cons "." (stem +:+ "." +:+ e)) as (p & ps & Hs).
      rewrite Hs in *. done.
    + destruct (split_at_cons "." (stem +:+ "." +:+ e)) as (p & ps & Hs).
      rewrite Hs in *. destruct ps as [|p' ps].
      * exfalso. clear -Hs.
        assert (forall a b, (1 < length (split_at "." (a +:+ "." +:+ b)))%nat) as Hlen.
        { clear. intros a b. induction a as [|x a IH].
          - change ("" +:+ "." +:+ b) with (String "." b). simpl.
            destruct (split_at_cons "." b) as (p & ps & ->). simpl. lia.
          - rewrite string_app_cons. simpl. destruct (Ascii.eqb x "."); simpl; [lia|].
            destruct (split_at "." (a +:+ "." +:+ b)); simpl in *; lia. }
        specialize (Hlen stem e). rewrite Hs in Hlen. simpl in Hlen. lia.
      * exact IH.
Qed.

(** The last piece of a name cut at its dots is [e] exactly when the name is
    [e] or ends with a dot and [e]. *)
Lemma last_split_spec (e s : string) :
  has_char "." e = false ->
  List.last (split_at "." s) "" = e <-> s = e \/ exists stem, s = stem +:+ "." +:+ e.
Proof.
  intros He. split.
  - revert e He. induction s as [|c s IH]; intros e He; simpl.
    { intros <-. by left. }
    destruct (Ascii.eqb c ".") eqn:Hc.
    + apply Ascii.eqb_eq in Hc as ->.
      destruct (split_at_cons "." s) as (p & ps & Hs). rewrite Hs.
      change (List.last ("" :: p :: ps) "") with (List.last (p :: ps) "").
      rewrite <-Hs. intros Hlast. apply IH in Hlast as [->|[stem ->]]; [| |done]; right.
      * by exists "".
      * exists (String "." stem). by rewrite string_app_cons.
    + destruct (split_at_cons "." s) as (p & ps & Hs). rewrite Hs.
      destruct ps as [|p' ps].
      * simpl. intros <-. left. f_equal.
        clear -Hs. revert p Hs. induction s as [|x s IH]; intros p; simpl.
        { by intros [= <-]. }
        destruct (split_at_cons "." s) as (q & qs & Hq). rewrite Hq in *.
        destruct (Ascii.eqb x "."); [done|].
        intros [= <- ->]. f_equal. by apply IH.
      * change (List.last (String c p :: p' :: ps) "") with (List.last (p :: p' :: ps) "").
        rewrite <-Hs. intros Hlast. apply IH in Hlast as [->|[stem ->]]; [| |done].
        -- rewrite split_at_dot_free in Hs by done. done.
        -- right. exists (String c stem). by rewrite string_app_cons.
  - intros [->|[stem ->]].
    + by rewrite split_at_dot_free.
    + by rewrite last_split_stem, split_at_dot_free.
Qed.

Lemma flat_ext_spec (e name : string) :
  has_char "." e = false -> flat_ext name = e <-> has_extension e name.
Proof.
  intros He. unfold flat_ext, has_extension.
  rewrite <-last_fmap_lower, <-split_at_toLowerCase. by apply last_split_spec.
Qed.

(** [flat_kind] gives the kind that goes with the extension. *)
Lemma flat_kind_by_extension (name : string) : kind_by_extension name (flat_kind name).
Proof.
  unfold flat_kind.
  destruct (String.eqb (flat_ext name) "json") eqn:Hjson.
  { apply String.eqb_eq in Hjson. by apply flat_ext_spec in Hjson. }
  destruct (String.eqb (flat_ext name) "pdf") eqn:Hpdf.
  { apply String.eqb_eq in Hpdf. by apply flat_ext_spec in Hpdf. }
  destruct (String.eqb (flat_ext name) "pptx") eqn:Hpptx.
  { apply String.eqb_eq in Hpptx. left. by apply flat_ext_spec in Hpptx. }
  destruct (String.eqb (flat_ext name) "ppt") eqn:Hppt.
  { apply String.eqb_eq in Hppt. right. by apply flat_ext_spec in Hppt. }
  simpl. apply String.eqb_neq in Hjson, Hpdf, Hpptx, Hppt.
  repeat split; intros H; apply flat_ext_spec in H; done.
Qed.

(** A path with a slash that the loops have reached has its node object. *)
Lemma reached_cell (flat : list entry) (b : builder) (m : entry) (j : nat) :
  buildTreeFromFlatList_heap flat = Ok b ->
  m ∈ flat -> (j < length (segments m))%nat ->
  has_char "/" (prefix_at m j) = true ->
  exists l c, objects b !! l = Some c /\ c_id c = prefix_at m j.
Proof.
  intros Hb Hm Hj Hslash.
  destruct (flat_heap_traced flat b Hb) as (Hlinked & _ & Ht).
  pose proof (traced_seen _ _ Ht (m, j)) as Hseen. simpl in Hseen.
  unfold map_get in Hseen.
  destruct (table b !! prefix_at m j) as [[|l|]|] eqn:Htab.
  - apply (linked_holder b Hlinked) in Htab. by rewrite Htab in Hslash.
  - destruct (linked_table b Hlinked _ _ Htab) as (c & Hc & Hid). by exists l, c.
  - by destruct (linked_stored b Hlinked (prefix_at m j)).
  - rewrite prototype_keys_no_slash in Hseen by done.
    exfalso. apply Hseen; [|done]. by apply elem_of_mentions.
Qed.

Lemma every_path_seen (flat : list entry) (b : builder) (m : entry) (j : nat) :
  buildTreeFromFlatList_heap flat = Ok b ->
  m ∈ flat -> (j < length (segments m))%nat ->
  map_get b (prefix_at m j) <> None.
Proof.
  intros Hb Hm Hj. destruct (flat_heap_traced flat b Hb) as (_ & _ & Ht).
  apply (traced_seen _ _ Ht (m, j)). by apply elem_of_mentions.
Qed.

Lemma cell_decided (flat : list entry) (b : builder) l c :
  buildTreeFromFlatList_heap flat = Ok b ->
  objects b !! l = Some c -> c_id c <> "" ->
  decided flat (c_id c) (c_name c) (c_isFolder c) (c_kind c).
Proof.
  intros Hb Hc Hid.
  destruct (flat_heap_traced flat b Hb) as (_ & _ & Ht).
  destruct (traced_made _ _ Ht l c Hc) as (n & i & part & Hfind & Hi & Hname & Hf & Hk).
  exists n, i. split; [done|]. split; [by rewrite Hname|]. split; [done|]. split.
  - split.
    + rewrite Hf. intros [Htree|Hlt]%orb_true_iff.
      * left. by apply String.eqb_eq.
      * right. apply Nat.ltb_lt in Hlt.
        apply find_Some_elem in Hfind as [[Hn _]%elem_of_mentions Hreach].
        apply String.eqb_eq in Hreach. exists n, i. simpl in *.
        split; [done|]. split; [done|lia].
    + intros [Htree|Hrun].
      * rewrite Hf. apply orb_true_iff. left. by apply String.eqb_eq.
      * by apply (run_through_is_folder flat b l c).
  - rewrite Hk, Hname. destruct (c_isFolder c); [done|]. apply flat_kind_by_extension.
Qed.

Lemma ids_nonempty (P Q : node -> Prop) shown :
  (forall n, node_id n <> "" -> P n -> Q n) ->
  forall ns prefix,
    every_level (Forall P) ns -> ids_under shown prefix ns -> every_level (Forall Q) ns.
Proof.
  intros HPQ. fix go 3. intros ns prefix Hlevel Hids.
  destruct Hlevel as [ns Hhere Hbelow]. destruct Hids as [prefix ns Hids].
  rewrite Forall_forall in Hids. constructor.
  - rewrite Forall_forall in Hhere. apply Forall_forall. intros n Hn.
    apply HPQ; [|by apply Hhere]. destruct (Hids n Hn) as [-> _].
    intros Heq. apply (f_equal String.length) in Heq.
    rewrite !string_app_length in Heq. simpl in Heq. lia.
  - assert (forall n, n ∈ ns ->
              forall cs, node_children n = Some cs -> ids_under shown (node_id n) cs)
      as Hsub by (intros n Hn; by destruct (Hids n Hn)).
    clear Hhere Hids. induction Hbelow as [|n rest Hn _ IHrest]; constructor.
    + intros cs Hcs. apply (go cs (node_id n)); [by apply Hn|].
      apply (Hsub n); [left|done].
    + apply IHrest. intros n' Hn'. apply Hsub. by right.
Qed.

Lemma tree_decided (flat : list entry) (tree : list node) :
  buildTreeFromFlatList flat = Ok (Some tree) ->
  every_level
    (Forall (fun n => decided flat (node_id n) (node_name n) (node_isFolder n)
                        (node_kind n) /\ node_data n = None)) tree.
Proof.
  intros Htree. pose proof (buildTree_ids flat tree Htree) as Hids.
  unfold buildTreeFromFlatList in Htree.
  destruct (buildTreeFromFlatList_heap flat) as [b|e] eqn:Hb; [|done].
  injection Htree as Htree. apply mapM_Some in Htree.
  apply (ids_nonempty (fun n => exists c, c ∈ objects b /\ node_of_cell c n) _
           (fun s => s)) with (prefix := "database"); [| |done].
  - intros n Hid (c & Hc & Hn_id & Hn_name & Hn_f & Hn_k & Hn_data).
    split; [|done]. rewrite Hn_id, Hn_name, Hn_f, Hn_k.
    apply list_elem_of_lookup_1 in Hc as [l Hl].
    apply (cell_decided flat b l c Hb Hl). by rewrite <-Hn_id.
  - pose proof (node_at_cells (S (length (objects b))) (objects b)) as Hcells.
    constructor.
    + clear -Htree Hcells.
      induction Htree as [|l n ls ns Hn _ IHns]; constructor; [|done].
      by apply Hcells in Hn as [? _].
    + clear -Htree Hcells.
      induction Htree as [|l n ls ns Hn _ IHns]; constructor; [|done].
      by apply Hcells in Hn as [_ ?].
Qed.

(** C6, with the underlying entry of a node read as the element of the list
    that the node is made for.  The flat builder makes at most one node
    object per path: the ids of the objects are distinct and the lookup table
    holds each object under its id, and every path reached by the loops is
    found in [map].  A node is made in the first run of the loop body that
    reaches its id, with the segment as its name; it is a folder exactly when
    the element of that run is of type tree or the path of some element of
    the list runs through the id; a folder has no kind, and a file has the
    kind that goes with the extension of its name (json, pdf, pptx for pptx
    and ppt, none otherwise).  This holds of every node object with a
    non-empty id when the loops are through, and of every node of the
    returned tree, at every depth, where no node has data.  On the listing of
    the example, filtered to database/, the tree is the single leaf
    database/x.json of kind json. *)
Theorem flat_builder_nodes (flat : list entry) (b : builder) (tree : list node) :
  (buildTreeFromFlatList_heap flat = Ok b ->
   NoDup (c_id <$> objects b) /\ indexed b /\
   (forall m j, m ∈ flat -> (j < length (segments m))%nat ->
                map_get b (prefix_at m j) <> None) /\
   Forall (fun c => c_id c <> "" ->
                    decided flat (c_id c) (c_name c) (c_isFolder c) (c_kind c))
          (objects b)) /\
  (buildTreeFromFlatList flat = Ok (Some tree) ->
   every_level
     (Forall (fun n => decided flat (node_id n) (node_name n) (node_isFolder n)
                         (node_kind n) /\ node_data n = None)) tree) /\
  rebuildIndex_tree github_listing =
    Ok (Some [Node "database/x.json" "x.json" false (Some Kjson) None None]).
Proof.
  split; [|split; [apply tree_decided|reflexivity]].
  intros Hb. destruct (flat_heap_traced flat b Hb) as (_ & Hbuilt & _).
  apply built_nodes in Hbuilt as (Hnodup & _ & Hindexed).
  split; [done|]. split; [done|]. split.
  - intros m j. by apply every_path_seen.
  - apply Forall_forall. intros c [l Hl]%list_elem_of_lookup_1.
    by apply (cell_decided flat b l c).
Qed.

Lemma flat_builder_nodes_witness :
  buildTreeFromFlatList unit_listing =
    Ok (Some [Node "database/x.json" "x.json" false (Some Kjson) None None;
              Node "database/Unit 1" "Unit 1" true None
                (Some [Node "database/Unit 1/q.json" "q.json" false (Some Kjson) None None])
                None]) /\
  every_level
    (Forall (fun n => decided unit_listing (node_id n) (node_name n) (node_isFolder n)
                        (node_kind n) /\ node_data n = None))
    [Node "database/x.json" "x.json" false (Some Kjson) None None;
     Node "database/Unit 1" "Unit 1" true None
       (Some [Node "database/Unit 1/q.json" "q.json" false (Some Kjson) None None])
       None].
Proof.
  split; [reflexivity|].
  apply (proj1 (proj2 (flat_builder_nodes unit_listing builder_init _))).
  reflexivity.
Defined.

(** ** The flat builder: when it throws *)

Lemma push_child_error q l b e : push_child q l b = Throw e -> e = TypeError.
Proof.
  unfold push_child. destruct (map_get b q) as [[|p|]|]; try done.
  - destruct (objects b !! p) as [[i m f k [cs|]]|]; try done; by intros [= <-].
  - by intros [= <-].
Qed.

Lemma add_parts_error n len i parts st e :
  add_parts n len i parts st = Throw e -> e = TypeError.
Proof.
  revert i st. induction parts as [|part rest IH]; intros i st; cbn [add_parts]; [done|].
  destruct (add_part n len i part st) as [st'|e'] eqn:Hstep; [by apply IH|].
  intros [= <-]. unfold add_part in Hstep. destruct st as [cur b].
  destruct (map_get b (extend_path cur part)); [done|].
  match type of Hstep with context [push_child ?pp ?l ?b1] =>
    destruct (push_child pp l b1) as [b2|e2] eqn:Hpush end; [done|].
  injection Hstep as <-. by eapply push_child_error.
Qed.

Lemma add_entries_error flat b e : add_entries flat b = Throw e -> e = TypeError.
Proof.
  revert b. induction flat as [|n rest IH]; intros b; cbn [add_entries]; [done|].
  destruct (add_entry n b) as [b'|e'] eqn:Hn; [by apply IH|].
  intros [= <-]. unfold add_entry in Hn.
  destruct (add_parts n (length (split_at "/" (path n))) 0 (split_at "/" (path n))
              (EmptyString, b)) as [[cur b2]|e2] eqn:Hparts; [done|].
  injection Hn as <-. by eapply add_parts_error.
Qed.

(** A path run through although its node was made as a file stops the
    builder. *)
Lemma flat_builder_throws (flat : list entry) (n : entry) :
  has_char "/" (path n) = true ->
  creator flat (path n) = Some (n, length (segments n) - 1)%nat ->
  type n <> "tree" ->
  runs_through flat (path n) ->
  buildTreeFromFlatList flat = Throw TypeError.
Proof.
  intros Hslash Hcreator Htype Hrun. unfold buildTreeFromFlatList.
  destruct (buildTreeFromFlatList_heap flat) as [b|e] eqn:Hb.
  2: { apply add_entries_error in Hb. by rewrite Hb. }
  exfalso.
  pose proof Hcreator as [[Hn Hlt]%elem_of_mentions Hreach]%find_Some_elem.
  apply String.eqb_eq in Hreach. simpl in Hreach.
  destruct (reached_cell flat b n _ Hb Hn Hlt) as (l & c & Hc & Hid);
    [by rewrite Hreach|].
  rewrite Hreach in Hid.
  assert (c_isFolder c = true) as Hfolder.
  { apply (run_through_is_folder flat b l c Hb Hc); rewrite Hid; [|done].
    intros Heq. by rewrite Heq in Hslash. }
  destruct (flat_heap_traced flat b Hb) as (_ & _ & Ht).
  destruct (traced_made _ _ Ht l c Hc) as (n0 & i0 & part & Hfind & _ & _ & Hf & _).
  rewrite Hid in Hfind. unfold creator in Hcreator. rewrite Hcreator in Hfind.
  injection Hfind as <- <-.
  rewrite Hfolder, Nat.ltb_irrefl, orb_false_r in Hf. symmetry in Hf.
  by apply String.eqb_eq in Hf.
Qed.

Lemma in_database_slash n : in_database n = true -> has_char "/" (path n) = true.
Proof.
  unfold in_database. intros [Hp _]%andb_true_iff.
  apply prefix_split in Hp as [rest ->]. by rewrite has_char_app.
Qed.

(** X15: for a list of entries under database/, [buildTreeFromFlatList]
    returns a tree when no path runs through a blob (no entry that is not of
    type tree has a path that, followed by a slash, begins the path of an
    entry), and it throws a TypeError when the path of some element runs
    through the path of an element that is not of type tree and whose path is
    first reached at its own last segment: that node was made as a file,
    without [children].  A path that was first reached by a longer path is a
    folder already and does not stop the builder. *)
Theorem flat_builder_returns_on_listings (flat : list entry) :
  (forall n, n ∈ flat -> in_database n = true) ->
  ((forall n m, n ∈ flat -> m ∈ flat -> type n <> "tree" ->
                String.prefix (path n +:+ "/") (path m) = false) ->
   exists tree, buildTreeFromFlatList flat = Ok (Some tree)) /\
  (forall n,
      creator flat (path n) = Some (n, length (segments n) - 1)%nat ->
      type n <> "tree" ->
      runs_through flat (path n) ->
      buildTreeFromFlatList flat = Throw TypeError) /\
  (exists tree,
      buildTreeFromFlatList
        [Entry "database/a/b.json" "blob"; Entry "database/a" "blob"] = Ok (Some tree)).
Proof.
  intros Hdb. split; [by apply flat_builder_returns|]. split; [|by eexists].
  intros n Hcreator Htype Hrun.
  apply (flat_builder_throws flat n); try done.
  apply in_database_slash, Hdb.
  by apply find_Some_elem in Hcreator as [[Hn _]%elem_of_mentions _].
Qed.

Lemma flat_builder_returns_on_listings_witness :
  (exists tree, buildTreeFromFlatList unit_listing = Ok (Some tree)) /\
  buildTreeFromFlatList blocked_listing = Throw TypeError.
Proof.
  split.
  - apply (flat_builder_returns_on_listings unit_listing).
    + intros n Hn. unfold unit_listing in Hn.
      repeat (apply elem_of_cons in Hn as [->|Hn]); try reflexivity.
      by apply elem_of_nil in Hn.
    + intros n m Hn Hm Htype. unfold unit_listing in Hn, Hm.
      repeat (apply elem_of_cons in Hn as [->|Hn]);
        repeat (apply elem_of_cons in Hm as [->|Hm]);
        try reflexivity; try (by apply elem_of_nil in Hn);
        try (by apply elem_of_nil in Hm); by destruct Htype.
  - apply (flat_builder_returns_on_listings blocked_listing) with
      (n := Entry "database/a" "blob").
    + intros n Hn. unfold blocked_listing in Hn.
      repeat (apply elem_of_cons in Hn as [->|Hn]); try reflexivity.
      by apply elem_of_nil in Hn.
    + reflexivity.
    + simpl. discriminate.
    + exists (Entry "database/a/b.json" "blob"), 1%nat.
      split; [|split; [reflexivity|vm_compute; lia]].
      unfold blocked_listing. right. left.
Defined.


(** ** game_base.js: the local shuffle *)

Lemma swap_length {A} i j (l : list A) : length (swap i j l) = length l.
Proof.
  unfold swap. destruct (l !! i), (l !! j); try done. by rewrite !length_insert.
Qed.

Lemma swap_lookup_last {A} i j (l : list A) x :
  (i < length l)%nat -> l !! j = Some x -> swap i j l !! i = Some x.
Proof.
  intros Hi Hj. unfold swap. destruct (l !! i) as [a|] eqn:Ha.
  - rewrite Hj. destruct (decide (j = i)) as [->|Hne].
    + rewrite list_lookup_insert_eq by (by rewrite length_insert). congruence.
    + rewrite list_lookup_insert_ne by done. by rewrite list_lookup_insert_eq.
  - apply lookup_ge_None in Ha. lia.
Qed.

Lemma swap_app {A} i j (pre suf : list A) :
  (i < length pre)%nat -> (j < length pre)%nat ->
  swap i j (pre ++ suf) = swap i j pre ++ suf.
Proof.
  intros Hi Hj. unfold swap.
  rewrite !lookup_app_l by done.
  destruct (pre !! i) as [a|] eqn:Ha; [|by apply lookup_ge_None in Ha; lia].
  destruct (pre !! j) as [b|] eqn:Hb; [|by apply lookup_ge_None in Hb; lia].
  rewrite insert_app_l by done. by rewrite insert_app_l by (by rewrite length_insert).
Qed.

(** The loop entered with [i] leaves the elements behind position [i] where
    they are. *)
Lemma shuffle_loop_app {A} i (pre suf : list A) g :
  length pre = S i ->
  shuffle_loop i (pre ++ suf) g =
  match shuffle_loop i pre g with
  | (Ok r, g') => (Ok (r ++ suf), g')
  | (Throw e, g') => (Throw e, g')
  end.
Proof.
  revert pre suf g. induction i as [|i IH]; intros pre suf g Hlen; [done|].
  cbn [shuffle_loop]. unfold bind, random_below.
  set (j := (g 0 mod (S i + 1))%nat).
  assert (j < length pre)%nat as Hj.
  { subst j. rewrite Hlen. replace (S i + 1)%nat with (S (S i)) by lia.
    apply Nat.mod_upper_bound. lia. }
  rewrite swap_app by lia.
  assert (exists m x, swap (S i) j pre = m ++ [x] /\ length m = S i)
    as (m & x & Hswap & Hm).
  { exists (take (S i) (swap (S i) j pre)).
    destruct (drop (S i) (swap (S i) j pre)) as [|x [|y rest]] eqn:Hdrop.
    - apply (f_equal length) in Hdrop. rewrite length_drop, swap_length in Hdrop.
      simpl in Hdrop. lia.
    - exists x. rewrite <-Hdrop, take_drop. split; [done|].
      rewrite length_take, swap_length. lia.
    - apply (f_equal length) in Hdrop. rewrite length_drop, swap_length in Hdrop.
      simpl in Hdrop. lia. }
  rewrite Hswap, <-app_assoc, (IH m ([x] ++ suf)), (IH m [x]) by done.
  destruct (shuffle_loop i m _) as [[r|e] g']; [|done]. by rewrite <-app_assoc.
Qed.

Lemma shuffle_loop_reaches {A} i (l l' : list A) :
  length l = S i -> l ≡ₚ l' -> exists g, (shuffle_loop i l g).1 = Ok l'.
Proof.
  revert l l'. induction i as [|i IH]; intros l l' Hlen Hperm.
  { exists (fun _ => 0%nat). simpl. f_equal.
    destruct l as [|x [|y l]]; try done. by apply Permutation_singleton_l in Hperm. }
  assert (length l' = S (S i)) as Hlen' by (by rewrite <-Hperm).
  destruct (drop (S i) l') as [|x [|y rest]] eqn:Hdrop;
    try (apply (f_equal length) in Hdrop; rewrite length_drop in Hdrop;
         simpl in Hdrop; lia).
  assert (l' = take (S i) l' ++ [x]) as Hl' by (by rewrite <-Hdrop, take_drop).
  assert (x ∈ l) as Hx.
  { rewrite Hperm, Hl'. apply elem_of_app. right. by left. }
  apply list_elem_of_lookup in Hx as [j Hj].
  assert (j < S (S i))%nat as Hjlt by (apply lookup_lt_Some in Hj; lia).
  assert (exists m, swap (S i) j l = m ++ [x] /\ length m = S i) as (m & Hswap & Hm).
  { exists (take (S i) (swap (S i) j l)).
    pose proof (swap_lookup_last (S i) j l x ltac:(lia) Hj) as Hlast.
    destruct (drop (S i) (swap (S i) j l)) as [|y [|z rest]] eqn:Hd;
      try (apply (f_equal length) in Hd; rewrite length_drop, swap_length in Hd;
           simpl in Hd; lia).
    assert (y = x) as ->.
    { pose proof (lookup_drop (swap (S i) j l) (S i) 0) as Hy.
      rewrite Hd, Nat.add_0_r, Hlast in Hy. by injection Hy. }
    rewrite <-Hd, take_drop. split; [done|]. rewrite length_take, swap_length. lia. }
  assert (m ≡ₚ take (S i) l') as Hm_perm.
  { apply (Permutation_app_inv_r [x]).
    rewrite <-Hswap, <-Hl', swap_perm. done. }
  destruct (IH m (take (S i) l') Hm Hm_perm) as [g' Hg'].
  exists (fun k => match k with O => j | S k' => g' k' end).
  cbn [shuffle_loop]. unfold bind, random_below.
  replace (S i + 1)%nat with (S (S i)) by lia.
  rewrite Nat.mod_small by done.
  rewrite Hswap, (shuffle_loop_app i m [x]) by done.
  destruct (shuffle_loop i m g') as [[r|e] g'']; simpl in *; [|done].
  injection Hg' as ->. by rewrite <-Hl'.
Qed.

(** X16: the shuffle can return every order: for every permutation of an
    array there is a sequence of values of Math.random for which [shuffle]
    returns it. *)
Theorem shuffle_reaches_every_order {A} (l l' : list A) :
  l ≡ₚ l' -> exists g, (shuffle_list l g).1 = Ok l'.
Proof.
  intros Hperm. unfold shuffle_list. destruct l as [|x l].
  - apply Permutation_nil in Hperm as ->. by exists (fun _ => 0%nat).
  - apply shuffle_loop_reaches; [simpl; lia|done].
Qed.

Lemma shuffle_reaches_every_order_witness :
  exists g, (shuffle_list [JStr "A"; JStr "B"; JStr "C"] g).1
            = Ok [JStr "C"; JStr "A"; JStr "B"].
Proof.
  apply (shuffle_reaches_every_order [JStr "A"; JStr "B"; JStr "C"]).
  change [JStr "C"; JStr "A"; JStr "B"] with ([JStr "C"] ++ [JStr "A"; JStr "B"]).
  change [JStr "A"; JStr "B"; JStr "C"] with ([JStr "A"; JStr "B"] ++ [JStr "C"]).
  apply Permutation_app_comm.
Defined.

Lemma shuffle_loop_run {A} i (l : list A) g :
  exists r g', shuffle_loop i l g = (Ok r, g') /\ r ≡ₚ l /\
               forall k, g' k = g (k + i)%nat.
Proof.
  revert l g. induction i as [|i IH]; intros l g.
  { exists l, g. split; [done|]. split; [done|]. intros k. by rewrite Nat.add_0_r. }
  cbn [shuffle_loop]. unfold bind, random_below.
  destruct (IH (swap (S i) (g 0 mod (S i + 1)) l) (fun k => g (S k)))
    as (r & g' & -> & Hperm & Hg').
  exists r, g'. split; [done|]. split; [by rewrite Hperm, swap_perm|].
  intros k. rewrite Hg'. f_equal. lia.
Qed.

Lemma swap_last {A} i j (l : list A) :
  length l = S i -> (j < S i)%nat ->
  exists m x, swap i j l = m ++ [x] /\ length m = i /\ l !! j = Some x.
Proof.
  intros Hlen Hj.
  destruct (lookup_lt_is_Some_2 l j ltac:(lia)) as [x Hx].
  pose proof (swap_lookup_last i j l x ltac:(lia) Hx) as Hlast.
  exists (take i (swap i j l)), x.
  destruct (drop i (swap i j l)) as [|y [|z rest]] eqn:Hd;
    try (apply (f_equal length) in Hd; rewrite length_drop, swap_length in Hd;
         simpl in Hd; lia).
  assert (y = x) as ->.
  { pose proof (lookup_drop (swap i j l) i 0) as Hy.
    rewrite Hd, Nat.add_0_r, Hlast in Hy. by injection Hy. }
  rewrite <-Hd, take_drop. split; [done|]. split; [|done].
  rewrite length_take, swap_length. lia.
Qed.

Lemma shuffle_loop_draws {A} i (l : list A) g g' :
  length l = S i -> NoDup l ->
  (shuffle_loop i l g).1 = (shuffle_loop i l g').1 ->
  forall k, (k < i)%nat -> (g k mod (S i - k) = g' k mod (S i - k))%nat.
Proof.
  revert l g g'. induction i as [|i IH]; intros l g g' Hlen Hnodup; [intros _ k; lia|].
  cbn [shuffle_loop]. unfold bind, random_below.
  replace (S i + 1)%nat with (S (S i)) by lia.
  set (j := (g 0 mod S (S i))%nat). set (j' := (g' 0 mod S (S i))%nat).
  assert (j < S (S i))%nat as Hj by (apply Nat.mod_upper_bound; lia).
  assert (j' < S (S i))%nat as Hj' by (apply Nat.mod_upper_bound; lia).
  destruct (swap_last (S i) j l Hlen Hj) as (m & x & Hswap & Hm & Hx).
  destruct (swap_last (S i) j' l Hlen Hj') as (m' & x' & Hswap' & Hm' & Hx').
  rewrite Hswap, Hswap', !shuffle_loop_app by done.
  destruct (shuffle_loop_run i m (fun k => g (S k))) as (r & g1 & Hr & Hrperm & _).
  destruct (shuffle_loop_run i m' (fun k => g' (S k))) as (r' & g1' & Hr' & _ & _).
  rewrite Hr, Hr'. simpl. intros [= Heq].
  apply app_inj_tail in Heq as [-> ->].
  assert (j = j') as Hjj by (by eapply NoDup_lookup).
  intros [|k] Hk; [exact Hjj|].
  rewrite <-Hjj, Hswap in Hswap'. apply app_inj_tail in Hswap' as [<- _].
  apply (IH m (fun k => g (S k)) (fun k => g' (S k))).
  - done.
  - assert (NoDup (m ++ [x'])) as Hnd by (by rewrite <-Hswap, swap_perm).
    by apply NoDup_app in Hnd as [? _].
  - by rewrite Hr, Hr'.
  - lia.
Qed.

(** X17: the shuffle of an array of [n] elements consumes [n - 1] values
    of Math.random (none for fewer than two elements), and on an array
    without repeated elements the order returned fixes every draw: draw
    number [k] selects one of [n - k] positions, and two runs that return
    the same order selected the same positions.  With the theorem before,
    every order is returned for exactly one sequence of selections. *)
Theorem shuffle_order_fixes_draws {A} (l : list A) (g g' : rng) :
  (forall k, (shuffle_list l g).2 k = g (k + (length l - 1))%nat) /\
  (NoDup l -> (shuffle_list l g).1 = (shuffle_list l g').1 ->
   forall k, (k < length l - 1)%nat ->
             (g k mod (length l - k) = g' k mod (length l - k))%nat).
Proof.
  unfold shuffle_list. split.
  - destruct (shuffle_loop_run (length l - 1) l g) as (r & g1 & -> & _ & Hg1).
    exact Hg1.
  - intros Hnodup Heq k Hk. destruct l as [|x l]; [simpl in Hk; lia|].
    simpl in *. rewrite Nat.sub_0_r in *.
    by apply (shuffle_loop_draws (length l) (x :: l) g g').
Qed.

Lemma shuffle_order_fixes_draws_witness :
  (forall k, (shuffle_list [JNum 1; JNum 2; JNum 3] counting).2 k
             = counting (k + (3 - 1))%nat) /\
  forall k, (k < 3 - 1)%nat ->
            (counting k mod (3 - k) = (fun n => n + 6)%nat k mod (3 - k))%nat.
Proof.
  split.
  - apply (proj1 (shuffle_order_fixes_draws [JNum 1; JNum 2; JNum 3] counting counting)).
  - apply (proj2 (shuffle_order_fixes_draws [JNum 1; JNum 2; JNum 3] counting
                    (fun n => n + 6)%nat)).
    + repeat (apply NoDup_cons; split;
              [intros H; repeat (apply elem_of_cons in H as [H|H]; [discriminate H|]);
               by apply elem_of_nil in H|]).
      apply NoDup_nil_2.
    + reflexivity.
Defined.

(** ** game_base.js: loading without a usable session entry *)

(** X18: when the session storage has no usable entry under the key (none,
    an empty string, no JSON, or JSON that is no object), [_loadPayload]
    downloads the file, from the id itself when the id starts with http and
    from ../id otherwise; it throws when the download fails, when the
    response is not ok and when the body is not JSON, and then no random
    number has been drawn. *)
Theorem load_payload_download_failure
    (net : network) (fileId : string) (ss : storage) (g : rng) :
  unusable (ss !! (JSON_SESSION_PREFIX +:+ fileId)) ->
  _loadPayload net fileId ss g =
    load_from_network net fileId (JSON_SESSION_PREFIX +:+ fileId) ss g /\
  match net (fetchUrl fileId) with
  | NetFail | Resp false _ => _loadPayload net fileId ss g = (Throw FetchError, g)
  | Resp true body =>
      match JSON_parse body with
      | Throw e => _loadPayload net fileId ss g = (Throw e, g)
      | Ok data =>
          _loadPayload net fileId ss g =
          match _randomizePayload (Some data) g with
          | (Ok randomized, g') =>
              (Ok (randomized,
                   <[JSON_SESSION_PREFIX +:+ fileId :=
                       match randomized with
                       | Some r => JSON_stringify r
                       | None => Garbage "undefined"
                       end]> ss), g')
          | (Throw e, g') => (Throw e, g')
          end
      end
  end.
Proof.
  intros Hss.
  assert (_loadPayload net fileId ss g =
          load_from_network net fileId (JSON_SESSION_PREFIX +:+ fileId) ss g) as Hload.
  { unfold _loadPayload, bind. by rewrite load_from_session_unusable. }
  split; [done|]. rewrite Hload. unfold load_from_network, fetch_json, bind, lift.
  fold (fetchUrl fileId).
  destruct (net (fetchUrl fileId)) as [|[|] body]; try done.
  destruct (JSON_parse body) as [data|e]; [|done].
  by destruct (_randomizePayload (Some data) g) as [[r|e] g'].
Qed.

Lemma load_payload_download_failure_witness :
  _loadPayload offline "database/m.json" ∅ counting =
    load_from_network offline "database/m.json"
      (JSON_SESSION_PREFIX +:+ "database/m.json") ∅ counting /\
  _loadPayload offline "database/m.json" ∅ counting = (Throw FetchError, counting).
Proof.
  apply (load_payload_download_failure offline "database/m.json" ∅ counting).
  exact I.
Defined.


Lemma forallb_perm {A} (f : A -> bool) l l' : l ≡ₚ l' -> forallb f l = forallb f l'.
Proof.
  induction 1 as [|x l l' _ IH|x y l|l l' l'' _ IH1 _ IH2]; simpl.
  - done.
  - by rewrite IH.
  - by destruct (f x), (f y).
  - by rewrite IH1.
Qed.

(** Reordering makes no element null and no null element anything else. *)
Lemma reordered_null_free ts v v' :
  reordered ts v v' -> is_null v' = is_null v /\ null_free v' = null_free v.
Proof.
  revert ts v v'. fix go 4. intros ts v v' [ts0 v0|ts0 kvs0 kvs0' Hentries]; [done|].
  split; [done|]. simpl. revert Hentries. generalize (JObj kvs0) as o. intros o Hentries.
  induction Hentries as [|kv kv' kvs kvs' Hentry _ IH]; simpl; [done|].
  rewrite IH. f_equal. clear IH.
  destruct Hentry as [ts1 o1 [k x]|ts1 o1 k when sub l l0 l' _ _ Hperm Hsub];
    [done|].
  simpl. rewrite (forallb_perm _ l l0 Hperm). clear Hperm.
  induction Hsub as [|y y' ys ys' Hy _ IH]; simpl; [done|].
  rewrite IH. by destruct (go sub y y' Hy) as [-> ->].
Qed.

Lemma numbers_kept_leaves (v : json) :
  numbers_kept v = forallb numbers_kept (leaves v).
Proof.
  induction v as [| |x| |l IH|kvs IH] using json_nested_ind; simpl;
    rewrite ?andb_true_r; try done.
  - induction IH as [|y ys Hy _ IHys]; simpl; [done|].
    by rewrite forallb_app, Hy, IHys.
  - induction IH as [|[k y] rest Hy _ IHrest]; simpl; [done|].
    simpl in Hy. by rewrite forallb_app, Hy, IHrest.
Qed.

Lemma reordered_numbers_kept ts v v' :
  reordered ts v v' -> numbers_kept v' = numbers_kept v.
Proof.
  intros Hr. rewrite !numbers_kept_leaves.
  apply forallb_perm. by eapply reordered_leaves.
Qed.

(** The randomization of an object or array whose copy has no null in its
    arrays returns: an object or array again, without null in its arrays,
    with the leaf values of the copy, and made of numbers that JSON writes
    as they are. *)
Lemma randomize_object d g0 :
  truthy (Some d) && typeof_object (Some d) = true ->
  null_free (written d) = true ->
  exists o g1, _randomizePayload (Some d) g0 = (Ok (Some o), g1) /\
               truthy (Some o) && typeof_object (Some o) = true /\
               null_free o = true /\ leaves o ≡ₚ leaves (written d) /\
               written o = o.
Proof.
  intros Hd Hnf. pose proof (randomized_is_reordered d g0) as Hr.
  assert (working_copy d = written d) as Hcopy.
  { destruct d; try done. cbn [typeof_object] in Hd. by rewrite andb_false_r in Hd. }
  rewrite Hcopy in Hr. unfold outcome in Hr.
  destruct (_randomizePayload (Some d) g0) as [[out|e] g1]; simpl in Hr;
    [|congruence].
  destruct Hr as (o & -> & Hr). exists o, g1. split; [done|].
  destruct (reordered_null_free _ _ _ Hr) as [Hnull Hnf'].
  split; [|split; [congruence|split; [by eapply reordered_leaves|]]].
  - destruct d; try (cbn [typeof_object] in Hd; by rewrite andb_false_r in Hd);
      simpl in Hr; inversion Hr; subst; done.
  - apply written_kept. rewrite (reordered_numbers_kept _ _ _ Hr).
    apply numbers_kept_written.
Qed.

(** X19: after [_loadPayload] has downloaded an object whose arrays, as
    JSON writes them, hold no null (the session storage having no usable
    entry before), the session storage holds what it returned, and a later
    [_loadPayload] for the same id needs no network: it returns, whatever
    Math.random gives, a payload with the leaf values of the file as JSON
    writes it (those of the file itself when its numbers are all finite and
    not -0), and leaves the storage as it is. *)
Theorem load_payload_reload_offline
    (net : network) (fileId : string) (ss : storage) (g : rng) (data : json) :
  unusable (ss !! (JSON_SESSION_PREFIX +:+ fileId)) ->
  net (fetchUrl fileId) = Resp true (Encoded data) ->
  truthy (Some data) && typeof_object (Some data) = true ->
  null_free (written data) = true ->
  exists o ss',
    (_loadPayload net fileId ss g).1 = Ok (Some o, ss') /\
    ss' !! (JSON_SESSION_PREFIX +:+ fileId) = Some (JSON_stringify o) /\
    forall g2, exists o2,
      (_loadPayload offline fileId ss' g2).1 = Ok (Some o2, ss') /\
      leaves o2 ≡ₚ leaves (written data) /\
      (numbers_kept data = true -> leaves o2 ≡ₚ leaves data).
Proof.
  intros Hss Hnet Hobj Hclean.
  destruct (randomize_object data g Hobj Hclean)
    as (o & g1 & Ho & Hobj1 & Hclean1 & Hleaves1 & Hkept1).
  exists o, (<[JSON_SESSION_PREFIX +:+ fileId := JSON_stringify o]> ss).
  split; [|split].
  - unfold _loadPayload, bind. rewrite load_from_session_unusable by done.
    unfold load_from_network, fetch_json, bind, lift. fold (fetchUrl fileId).
    rewrite Hnet. cbv beta iota. cbn [JSON_parse]. by rewrite Ho.
  - by rewrite lookup_insert_eq.
  - intros g2. rewrite <-Hkept1 in Hclean1.
    destruct (randomize_object o g2 Hobj1 Hclean1)
      as (o2 & g3 & Ho2 & _ & _ & Hleaves2 & _).
    rewrite Hkept1 in Hleaves2.
    exists o2. split; [|split; [by rewrite Hleaves2|]].
    + unfold _loadPayload, bind.
      rewrite (load_from_session_hit _ _ o).
      * by rewrite Ho2.
      * unfold JSON_stringify. rewrite Hkept1. by rewrite lookup_insert_eq.
      * by apply andb_true_iff in Hobj1 as [_ ?].
      * intros ->. done.
    + intros Hkept. rewrite Hleaves2, Hleaves1. by rewrite written_kept.
Qed.

Lemma load_payload_reload_offline_witness :
  exists o ss',
    (_loadPayload (fun _ => Resp true (Encoded (puzzle [JNum 1; JNum 2])))
       "database/m.json" ∅ counting).1 = Ok (Some o, ss') /\
    ss' !! (JSON_SESSION_PREFIX +:+ "database/m.json") = Some (JSON_stringify o) /\
    forall g2, exists o2,
      (_loadPayload offline "database/m.json" ss' g2).1 = Ok (Some o2, ss') /\
      leaves o2 ≡ₚ leaves (written (puzzle [JNum 1; JNum 2])) /\
      (numbers_kept (puzzle [JNum 1; JNum 2]) = true ->
       leaves o2 ≡ₚ leaves (puzzle [JNum 1; JNum 2])).
Proof.
  apply (load_payload_reload_offline
           (fun _ => Resp true (Encoded (puzzle [JNum 1; JNum 2])))
           "database/m.json" ∅ counting (puzzle [JNum 1; JNum 2]));
    [exact I|reflexivity|reflexivity|reflexivity].
Defined.

(** ** game_base.js: the randomized payload as an object graph *)

(** X20: called on an object that is a JSON tree (no cell used twice),
    [_randomizePayload] returns a JSON tree again: JSON.stringify of the
    result succeeds, as the caching in [_loadPayload] needs, and gives a
    value with the leaf values of the argument as JSON writes it; it throws
    only when some array of the argument, as JSON writes it, has a null
    element. *)
Theorem randomized_result_serialises
    (h : heap) (g : rng) (data : value) (d : json) (fp : gset nat) :
  rep h data d fp ->
  match h_randomizePayload data h g with
  | (Ok v', h', _) =>
      exists j', serialise (S (length h')) h' v' = Some (Some j') /\
                 leaves j' ≡ₚ leaves (written d)
  | (Throw _, _, _) => null_free (written d) = false
  end.
Proof.
  intros Hrep. pose proof (heap_refines_value h g data d fp Hrep) as Href.
  pose proof (randomized_is_reordered d g) as Hpure. unfold outcome in Hpure.
  destruct (h_randomizePayload data h g) as [[[v'|e] h'] g'],
           (_randomizePayload (Some d) g) as [[out|e0] g0]; try done.
  - destruct Href as (_ & _ & j' & fp' & -> & Hrep' & _).
    destruct Hpure as (o & [= <-] & Hr).
    exists (written j'). split; [by eapply rep_stringify|].
    destruct d; cbn [working_copy] in Hr;
      try (inversion Hr; subst; done);
      (rewrite written_kept; [by eapply reordered_leaves|];
       rewrite (reordered_numbers_kept _ _ _ Hr); apply numbers_kept_written).
  - simpl in Hpure. by destruct d.
Qed.

Lemma randomized_result_serialises_witness :
  match h_randomizePayload (VRef 1) sample_heap counting with
  | (Ok v', h', _) =>
      exists j', serialise (S (length h')) h' v' = Some (Some j') /\
                 leaves j' ≡ₚ leaves (JObj [("game_type", JStr "matching_puzzle");
                                            ("sets", JArr [JNum 1; JNum 2; JNum 3])])
  | (Throw _, _, _) =>
      null_free (JObj [("game_type", JStr "matching_puzzle");
                       ("sets", JArr [JNum 1; JNum 2; JNum 3])]) = false
  end.
Proof.
  exact (randomized_result_serialises sample_heap counting (VRef 1) _ _ sample_heap_rep).
Defined.

(** ** Instances of the statements about game_base.js *)
Lemma escapeHtml_injective_witness :
  _escapeHtml "a<b & c" = "a&lt;b &amp; c" /\ "a<b & c" = "a<b & c".
Proof.
  split; [reflexivity|]. apply (escapeHtml_injective "a<b & c" "a<b & c"). reflexivity.
Defined.

Lemma randomize_preserves_header_witness :
  (_randomizePayload (Some (puzzle [JNum 1; JNum 2])) counting).1
  = Ok (Some (puzzle [JNum 2; JNum 1])) /\
  _validateHeader (Some "matching_puzzle") (Some (puzzle [JNum 2; JNum 1]))
  = _validateHeader (Some "matching_puzzle") (Some (puzzle [JNum 1; JNum 2])).
Proof.
  split; [reflexivity|].
  apply (proj1 (proj2 (randomize_preserves_header (Some "matching_puzzle")
           (Some (puzzle [JNum 1; JNum 2])) counting
           (Some (puzzle [JNum 2; JNum 1])) eq_refl))).
  by intros d [= <-].
Defined.

Lemma validated_type_is_randomized_type_witness :
  _validateHeader (Some "matching_puzzle") (Some (puzzle [JNum 1; JNum 2])) = Valid /\
  game_type_of (puzzle [JNum 1; JNum 2]) = Some (JStr "matching_puzzle").
Proof.
  split; [reflexivity|].
  apply (proj1 (validated_type_is_randomized_type "matching_puzzle"
                  (puzzle [JNum 1; JNum 2]))); [reflexivity|discriminate].
Defined.

(** ** index.js: the data of a node is downloaded once *)

Lemma findNode_at_id id n found : findNode_at id n = Some found -> node_id found = id.
Proof.
  revert found. induction n as [i m f k children d IH] using node_nested_ind.
  intros found. cbn [findNode_at].
  destruct (String.eqb_spec i id) as [->|Hne]; [by intros [= <-]|].
  destruct children as [cs|]; [|done]. specialize (IH cs eq_refl).
  induction IH as [|c cs Hc _ IHcs]; [done|]. cbn [first_some].
  destruct (findNode_at id c) as [f0|] eqn:Hf; [|exact IHcs].
  intros [= <-]. by apply Hc.
Qed.

Lemma set_data_at_none id d x : findNode_at id x = None -> set_data_at id d x = None.
Proof.
  induction x as [xi xm xf xk xc xd IHx] using node_nested_ind.
  cbn [findNode_at set_data_at]. destruct (String.eqb xi id); [done|].
  destruct xc as [ys|]; [|done]. specialize (IHx ys eq_refl).
  intros Hnone.
  assert (update_first (set_data_at id d) ys = None) as ->; [|done].
  induction IHx as [|y ys Hy _ IHys]; [done|]. cbn [first_some update_first] in *.
  destruct (findNode_at id y); [done|]. by rewrite Hy, IHys.
Qed.

Lemma set_data_at_found id d n i m f k c old :
  findNode_at id n = Some (Node i m f k c old) ->
  exists n', set_data_at id d n = Some n' /\
             findNode_at id n' = Some (Node i m f k c (Some d)).
Proof.
  revert i m f k c old.
  induction n as [ni nm nf nk children nd IH] using node_nested_ind.
  intros i m f k c old. cbn [findNode_at set_data_at].
  destruct (String.eqb_spec ni id) as [->|Hne].
  { intros [= <- <- <- <- <- <-]. eexists. split; [done|].
    cbn [findNode_at]. by rewrite String.eqb_refl. }
  destruct children as [cs|]; [|done]. specialize (IH cs eq_refl).
  intros Hfound.
  assert (exists cs', update_first (set_data_at id d) cs = Some cs' /\
                      first_some (findNode_at id) cs' = Some (Node i m f k c (Some d)))
    as (cs' & -> & Hcs').
  { clear Hne. induction IH as [|x cs Hx _ IHcs]; [done|].
    cbn [first_some update_first] in *.
    destruct (findNode_at id x) as [f0|] eqn:Hf.
    - injection Hfound as ->. destruct (Hx _ _ _ _ _ _ eq_refl) as (x' & -> & Hx').
      exists (x' :: cs). split; [done|]. cbn [first_some]. by rewrite Hx'.
    - destruct (IHcs Hfound) as (cs' & -> & Hcs').
      rewrite (set_data_at_none id d x Hf).
      exists (x :: cs'). split; [done|]. cbn [first_some]. by rewrite Hf. }
  eexists. split; [done|]. cbn [findNode_at].
  apply String.eqb_neq in Hne. by rewrite Hne.
Qed.

Lemma set_data_found id d nodes i m f k c old :
  findNode nodes id = Some (Node i m f k c old) ->
  findNode (set_data nodes id d) id = Some (Node i m f k c (Some d)).
Proof.
  unfold findNode, set_data. intros Hfound.
  assert (exists nodes', update_first (set_data_at id d) nodes = Some nodes' /\
            first_some (findNode_at id) nodes' = Some (Node i m f k c (Some d)))
    as (nodes' & -> & H); [|done].
  induction nodes as [|x nodes IH]; [done|]. cbn [first_some update_first] in *.
  destruct (findNode_at id x) as [f0|] eqn:Hf.
  - injection Hfound as ->. destruct (set_data_at_found id d x _ _ _ _ _ _ Hf)
      as (x' & -> & Hx').
    exists (x' :: nodes). split; [done|]. cbn [first_some]. by rewrite Hx'.
  - destruct (IH Hfound) as (nodes' & -> & Hn').
    rewrite (set_data_at_none id d x Hf).
    exists (x :: nodes'). split; [done|]. cbn [first_some]. by rewrite Hf.
Qed.

(** X21: the first activation of a json node without data downloads the
    file from the id of the node, keeps the data in the node and stores it
    under 'game_payload_' + id; a later activation of the same node needs no
    network and leaves tree and storage as they are.  (Data that is falsy,
    such as the number 0, is neither stored nor kept from being downloaded
    again.) *)
Theorem node_data_is_downloaded_once
    (net : network) (rootTree : list node) (id : string) (ss : storage)
    (name : string) (children : option (list node)) (data : option json) (d : json) :
  findNode rootTree id = Some (Node id name false (Some Kjson) children data) ->
  truthy data = false ->
  net id = Resp true (Encoded d) ->
  truthy (Some d) = true ->
  let r := renderViewForId net rootTree id ss in
  rv_view r = GameFrame id /\
  findNode (rv_tree r) id = Some (Node id name false (Some Kjson) children (Some d)) /\
  rv_session r = <[("game_payload_" +:+ id) := JSON_stringify d]> ss /\
  renderViewForId offline (rv_tree r) id (rv_session r) = r.
Proof.
  intros Hfound Hold Hnet Hd.
  assert (renderViewForId net rootTree id ss =
          Rendered (GameFrame id) (set_data rootTree id d)
                   (<[("game_payload_" +:+ id) := JSON_stringify d]> ss)) as Hr.
  { unfold renderViewForId, fetch_json. rewrite Hfound, Hold, Hnet.
    cbn [JSON_parse]. by rewrite Hd. }
  rewrite Hr. cbv zeta. cbn [rv_view rv_tree rv_session].
  pose proof (set_data_found id d _ _ _ _ _ _ _ Hfound) as Hfound'.
  split; [done|]. split; [done|]. split; [done|].
  unfold renderViewForId. rewrite Hfound', Hd. cbv beta iota. rewrite Hd.
  by rewrite insert_insert_eq.
Qed.

Lemma node_data_is_downloaded_once_witness :
  let tree := [Node "database/m.json" "m.json" false (Some Kjson) None None] in
  let net := fun _ : string => Resp true (Encoded (puzzle [JNum 1; JNum 2])) in
  let r := renderViewForId net tree "database/m.json" ∅ in
  rv_view r = GameFrame "database/m.json" /\
  findNode (rv_tree r) "database/m.json"
  = Some (Node "database/m.json" "m.json" false (Some Kjson) None
               (Some (puzzle [JNum 1; JNum 2]))) /\
  rv_session r = <[("game_payload_" +:+ "database/m.json") :=
                     JSON_stringify (puzzle [JNum 1; JNum 2])]> ∅ /\
  renderViewForId offline (rv_tree r) "database/m.json" (rv_session r) = r.
Proof.
  intros tree net.
  apply (node_data_is_downloaded_once net tree "database/m.json" ∅ "m.json" None
           None (puzzle [JNum 1; JNum 2])); reflexivity.
Defined.


(** ** game_base.js: what init hands to the game *)

Lemma valid_header_object expected payload :
  _validateHeader expected payload = Valid -> exists kvs, payload = Some (JObj kvs).
Proof.
  unfold _validateHeader, actual_type.
  destruct payload as [[| | | | |kvs]|]; [..|by exists kvs|];
    cbn [typeof_object negb]; rewrite ?orb_true_r; done.
Qed.


(** ** index.js: clearing the cache *)

(** X23: [clearDriveCache] changes nothing when the dialog is declined.
    When it is confirmed, the stored navigation state and the whole session
    storage are gone and the page reloads, so that [loadAppState] starts
    from the defaults; the stored theme stays.  Away from GitHub Pages the
    cached index is removed; on GitHub Pages it is never removed: it is
    replaced when the rebuild succeeds and kept when the address is not
    recognized or the rebuild fails. *)
Theorem clear_cache_resets_navigation
    (href : string) (confirmed : bool) (net : network) (ls ss : storage) :
  let c := clearDriveCache href confirmed net ls ss in
  (confirmed = false -> c = Cleared ls ss false None) /\
  (confirmed = true ->
   cl_reloaded c = true /\
   cl_session c = ∅ /\
   cl_local c !! STATE_KEY = None /\
   cl_local c !! THEME_KEY = ls !! THEME_KEY /\
   loadAppState (cl_local c) default_appState = Ok default_appState /\
   (includes "github.io" href = false -> cl_local c !! INDEX_KEY = None) /\
   (includes "github.io" href = true ->
    cl_notice c <> Some IndexUpdated ->
    cl_local c !! INDEX_KEY = ls !! INDEX_KEY)).
Proof.
  unfold clearDriveCache. destruct confirmed; cbn [negb]; [|by split].
  split; [done|]. intros _.
  assert (forall ls' : storage,
             ls' !! STATE_KEY = None ->
             loadAppState ls' default_appState = Ok default_appState) as Hload.
  { intros ls' H. unfold loadAppState, loadAppState_try. by rewrite H. }
  destruct (includes "github.io" href).
  - unfold rebuildIndexFromGithub.
    destruct (match_pages_url href) as [[owner repo]|].
    + destruct (rebuild_tree net owner repo) as [tree|e]; simpl.
      * rewrite !lookup_insert_ne by done. rewrite !lookup_delete_eq.
        rewrite lookup_delete_ne by done.
        repeat split; try done. apply Hload.
        rewrite lookup_insert_ne by done. apply lookup_delete_eq.
      * rewrite !lookup_delete_eq, !lookup_delete_ne by done.
        repeat split; try done. apply Hload, lookup_delete_eq.
    + simpl. rewrite !lookup_delete_eq, !lookup_delete_ne by done.
      repeat split; try done. apply Hload, lookup_delete_eq.
  - simpl. rewrite lookup_delete_ne by done. rewrite !lookup_delete_eq.
    rewrite !lookup_delete_ne by done.
    repeat split; try done. apply Hload.
    rewrite lookup_delete_ne by done. apply lookup_delete_eq.
Qed.

(** X24: [rebuildIndexFromGithub] touches nothing in localStorage but the
    cached index.  It replaces the index only when the address of the page
    was recognized, the listing was downloaded, every element of its tree
    has a string as path, and the builder returned a tree; the index is then
    the serialisation of that tree, built from the elements under
    database/, and every id in it is a path under database.  In every other
    case localStorage is left as it was. *)
Theorem rebuild_index_outcome (href : string) (net : network) (ls : storage) :
  let ls' := (rebuildIndexFromGithub href net ls).1 in
  (forall k, k <> INDEX_KEY -> ls' !! k = ls !! k) /\
  match (rebuildIndexFromGithub href net ls).2 with
  | IndexUpdated =>
      exists owner repo data flat tree,
        match_pages_url href = Some (owner, repo) /\
        fetch_json net (api_url owner repo) = Ok data /\
        tree_entries data = Ok flat /\
        buildTreeFromFlatList (filter (fun n => in_database n = true) flat)
        = Ok (Some tree) /\
        ls' = <[INDEX_KEY := JSON_stringify (JArr (node_json <$> tree))]> ls /\
        ids_under (fun s => s) "database" tree
  | UrlNotRecognized | UpdateFailed _ => ls' = ls
  end.
Proof.
  unfold rebuildIndexFromGithub.
  destruct (match_pages_url href) as [[owner repo]|]; [|done].
  unfold rebuild_tree.
  destruct (fetch_json net (api_url owner repo)) as [data|e] eqn:Hfetch; [|done].
  destruct (tree_entries data) as [flat|e] eqn:Hentries; [|done].
  unfold rebuildIndex_tree.
  destruct (buildTreeFromFlatList _) as [[tree|]|e] eqn:Hbuild; try done.
  simpl. split; [intros k Hk; by rewrite lookup_insert_ne|].
  exists owner, repo, data, flat, tree.
  do 5 (split; [done|]). by eapply buildTree_ids.
Qed.

(** ** The address of a GitHub Pages site *)

Lemma strip_prefix_app pre s : strip_prefix pre (pre +:+ s) = Some s.
Proof.
  induction pre as [|c pre IH]; [by destruct s|].
  rewrite string_app_cons. simpl. by rewrite Ascii.eqb_refl.
Qed.

Lemma span_app p a b :
  Forall (fun c => p c = true) (chars a) ->
  (b = "" \/ exists c r, b = String c r /\ p c = false) ->
  span p (a +:+ b) = (a, b).
Proof.
  intros Ha Hb. induction a as [|c a IH].
  - destruct Hb as [->|(c & r & -> & Hc)]; [done|]. simpl. by rewrite Hc.
  - rewrite string_app_cons. simpl in *. apply Forall_cons in Ha as [-> Ha].
    by rewrite (IH Ha).
Qed.

Lemma pages_after_scheme_match owner repo rest :
  owner <> "" -> Forall (fun c => not_dot c = true) (chars owner) ->
  repo <> "" -> Forall (fun c => in_segment c = true) (chars repo) ->
  (rest = "" \/ exists c r, rest = String c r /\ in_segment c = false) ->
  pages_after_scheme ("://" +:+ owner +:+ ".github.io/" +:+ repo +:+ rest)
  = Some (owner, repo).
Proof.
  intros Howner Hdots Hrepo Hseg Hrest. unfold pages_after_scheme.
  rewrite strip_prefix_app.
  rewrite (span_app not_dot owner);
    [|done|right; by exists "."%char, ("github.io/" +:+ repo +:+ rest)].
  apply String.eqb_neq in Howner. rewrite Howner.
  rewrite strip_prefix_app, (span_app in_segment repo) by done.
  apply String.eqb_neq in Hrepo. by rewrite Hrepo.
Qed.

Lemma match_pages_url_here s m : pages_here s = Some m -> match_pages_url s = Some m.
Proof. intros H. destruct s; cbn [match_pages_url]; by rewrite H. Qed.

(** X25: the address of the page is read as intended: in an address that
    begins with http:// or https://, then an owner without a dot, then
    .github.io/, then a repository name that ends at the first slash,
    question mark or hash sign or at the end of the address,
    [rebuildIndexFromGithub] finds that owner and that repository, and asks
    the GitHub API for the tree of the branch main of that repository. *)
Theorem pages_url_is_recognized (secure : bool) (owner repo rest : string) :
  owner <> "" -> Forall (fun c => c <> "."%char) (chars owner) ->
  repo <> "" ->
  Forall (fun c => c <> "/"%char /\ c <> "?"%char /\ c <> "#"%char) (chars repo) ->
  (rest = "" \/ exists c r,
      rest = String c r /\ (c = "/"%char \/ c = "?"%char \/ c = "#"%char)) ->
  let href := (if secure then "https" else "http") +:+
              "://" +:+ owner +:+ ".github.io/" +:+ repo +:+ rest in
  match_pages_url href = Some (owner, repo) /\
  forall net ls,
    rebuildIndexFromGithub href net ls =
    match rebuild_tree net owner repo with
    | Ok tree =>
        (<[INDEX_KEY := JSON_stringify (JArr (node_json <$> tree))]> ls, IndexUpdated)
    | Throw e => (ls, UpdateFailed e)
    end.
Proof.
  intros Howner Hdots Hrepo Hseg Hrest href.
  assert (match_pages_url href = Some (owner, repo)) as Hmatch.
  { assert (pages_after_scheme ("://" +:+ owner +:+ ".github.io/" +:+ repo +:+ rest)
            = Some (owner, repo)) as Hafter.
    { apply pages_after_scheme_match; try done.
      - eapply Forall_impl; [exact Hdots|]. intros c Hc. unfold not_dot.
        apply negb_true_iff. by apply Ascii.eqb_neq.
      - eapply Forall_impl; [exact Hseg|]. intros c (H1 & H2 & H3). unfold in_segment.
        apply Ascii.eqb_neq in H1, H2, H3. by rewrite H1, H2, H3.
      - destruct Hrest as [->|(c & r & -> & Hc)]; [by left|right].
        exists c, r. split; [done|]. unfold in_segment.
        destruct Hc as [->|[->| ->]]; done. }
    assert (pages_here href = Some (owner, repo)) as Hhere.
    { subst href. unfold pages_here. destruct secure.
      - change ("https" +:+ ?s) with ("http" +:+ ("s" +:+ s)).
        rewrite strip_prefix_app, strip_prefix_app. by rewrite Hafter.
      - rewrite strip_prefix_app.
        assert (strip_prefix "s" ("://" +:+ owner +:+ ".github.io/" +:+ repo +:+ rest)
                = None) as -> by done.
        by rewrite Hafter. }
    by apply match_pages_url_here. }
  split; [done|]. intros net ls. unfold rebuildIndexFromGithub. by rewrite Hmatch.
Qed.

Lemma pages_url_is_recognized_witness :
  match_pages_url "https://thor.github.io/pauker-tool01/index.html?x=1"
  = Some ("thor", "pauker-tool01") /\
  forall net ls,
    rebuildIndexFromGithub "https://thor.github.io/pauker-tool01/index.html?x=1" net ls =
    match rebuild_tree net "thor" "pauker-tool01" with
    | Ok tree =>
        (<[INDEX_KEY := JSON_stringify (JArr (node_json <$> tree))]> ls, IndexUpdated)
    | Throw e => (ls, UpdateFailed e)
    end.
Proof.
  apply (pages_url_is_recognized true "thor" "pauker-tool01" "/index.html?x=1").
  - done.
  - repeat (constructor; [done|]). constructor.
  - done.
  - repeat (constructor; [done|]). constructor.
  - right. eexists _, _. split; [reflexivity|]. by left.
Defined.

(** ** The kind of a file in the two builders *)

Lemma split_at_no_dot s : last_index "." s = None -> split_at "." s = [s].
Proof.
  induction s as [|c s IH]; simpl; [done|].
  destruct (last_index "." s); [done|].
  destruct (Ascii.eqb c "."); [done|]. intros _. by rewrite IH.
Qed.

Lemma split_at_dot s i :
  last_index "." s = Some i -> exists p q ps, split_at "." s = p :: q :: ps.
Proof.
  revert i. induction s as [|c s IH]; intros i; simpl; [done|].
  destruct (last_index "." s) as [j|] eqn:Hj.
  - intros _. destruct (IH j eq_refl) as (p & q & ps & ->).
    destruct (Ascii.eqb c "."); by eexists _, _, _.
  - destruct (Ascii.eqb c "."); [|done]. intros _.
    rewrite (split_at_no_dot s Hj). by eexists _, _, _.
Qed.

Lemma substring_all s : String.substring 0 (String.length s) s = s.
Proof. induction s as [|c s IH]; simpl; [done|]. by rewrite IH. Qed.

(** From the last dot on, a name is a dot and its last piece. *)
Lemma substring_last_dot s i :
  last_index "." s = Some i ->
  String.substring i (String.length s - i) s
  = String "." (List.last (split_at "." s) "").
Proof.
  revert i. induction s as [|c s IH]; intros i; simpl; [done|].
  destruct (last_index "." s) as [j|] eqn:Hj.
  - intros [= <-]. simpl. rewrite (IH j eq_refl).
    destruct (split_at_dot s j Hj) as (p & q & ps & ->).
    by destruct (Ascii.eqb c ".").
  - destruct (Ascii.eqb_spec c ".") as [->|]; [|done]. intros [= <-].
    rewrite (split_at_no_dot s Hj). simpl. by rewrite substring_all.
Qed.

(** X26: the two builders agree on the files the local scan indexes: a
    name to which [scanDir] gives a kind gets the same kind from
    [buildTreeFromFlatList].  The converse fails where the name has no dot
    or only a leading one: the flat builder reads the whole name json (and
    the extension of .json) as an extension, the scan does not. *)
Theorem scan_kind_is_flat_kind (name : string) (k : kind) :
  scan_kind name = Some k ->
  flat_kind name = Some k /\
  (flat_kind "json" = Some Kjson /\ scan_kind "json" = None) /\
  (flat_kind ".json" = Some Kjson /\ scan_kind ".json" = None).
Proof.
  intros Hscan. split; [|by repeat split].
  unfold scan_kind, extname in Hscan. unfold flat_kind, flat_ext.
  destruct (last_index "." name) as [[|i]|] eqn:Hdot; try done.
  destruct (String.eqb name ".."); [done|].
  rewrite (substring_last_dot name (S i) Hdot) in Hscan.
  exact Hscan.
Qed.

Lemma scan_kind_is_flat_kind_witness :
  flat_kind "Quiz 1.JSON" = Some Kjson /\
  (flat_kind "json" = Some Kjson /\ scan_kind "json" = None) /\
  (flat_kind ".json" = Some Kjson /\ scan_kind ".json" = None).
Proof. apply (scan_kind_is_flat_kind "Quiz 1.JSON" Kjson). reflexivity. Defined.

(** ** index.js: the navigation state across a reload *)

Lemma assign_field_keys k v kvs :
  k ∈ kvs.*1 -> (assign_field k v kvs).*1 = kvs.*1.
Proof.
  induction kvs as [|[k' v'] kvs IH]; simpl; [by intros ?%elem_of_nil|].
  destruct (String.eqb_spec k k') as [->|Hne]; [done|].
  intros [?|Hin]%elem_of_cons; [done|]. simpl. f_equal. by apply IH.
Qed.

(** X27: every transition keeps the four fields of the navigation state in
    place, and a state with these fields that was saved is restored as JSON
    writes it: [loadAppState] on the storage that [saveAppState] wrote,
    started from the defaults as after a reload, gives the saved state with
    every value as JSON.stringify writes it, which is the saved state itself
    when its numbers are all finite and not -0. *)
Theorem saved_state_is_restored (net : network) (a : app) (e : event) :
  (appState a).*1 = default_appState.*1 ->
  (appState (step net a e)).*1 = default_appState.*1 /\
  loadAppState (localStorage (saveAppState a)) default_appState
  = Ok (map (fun kv => (kv.1, written kv.2)) (appState a)) /\
  (numbers_kept (JObj (appState a)) = true ->
   loadAppState (localStorage (saveAppState a)) default_appState = Ok (appState a)).
Proof.
  intros Hkeys.
  assert (loadAppState (localStorage (saveAppState a)) default_appState
          = Ok (map (fun kv => (kv.1, written kv.2)) (appState a))) as Hload.
  { unfold loadAppState, loadAppState_try, saveAppState. simpl.
    rewrite lookup_insert_eq. simpl.
    destruct (appState a) as [|[k1 v1] [|[k2 v2] [|[k3 v3] [|[k4 v4] [|? ?]]]]];
      try done.
    simpl in Hkeys. by injection Hkeys as -> -> -> ->. }
  split; [|split; [exact Hload|]].
  - assert (forall k v, k ∈ default_appState.*1 ->
              (assign_field k v (appState a)).*1 = default_appState.*1) as Hassign.
    { intros k v Hk. rewrite assign_field_keys; [done|]. by rewrite Hkeys. }
    destruct e as [id|id|isOpen| | |x w|]; simpl.
    + apply Hassign. compute_done.
    + unfold toggleNode.
      destruct (lookup_field "openedIds" (appState a)) as [[| | | |opened|]|]; try done.
      simpl. apply Hassign. compute_done.
    + apply Hassign. compute_done.
    + apply Hassign. compute_done.
    + unfold on_mousedown. by destruct (drawerResizer a).
    + unfold on_mousemove. destruct (drawerResizer a && isResizing a); [|done].
      simpl. apply Hassign. compute_done.
    + unfold on_mouseup. by destruct (drawerResizer a && isResizing a).
  - intros Hkept. rewrite Hload. apply written_kept in Hkept.
    by injection Hkept as ->.
Qed.

Lemma saved_state_is_restored_witness :
  (appState (step offline fresh_app (ToggleNode "database/Unit 1"))).*1
  = default_appState.*1 /\
  loadAppState (localStorage (saveAppState fresh_app)) default_appState
  = Ok (appState fresh_app).
Proof.
  destruct (saved_state_is_restored offline fresh_app (ToggleNode "database/Unit 1")
              eq_refl) as (Hkeys & _ & Hload).
  split; [exact Hkeys|]. by apply Hload.
Defined.

(** ** index.js: clicks and views *)

Lemma findNode_id nodes id found : findNode nodes id = Some found -> node_id found = id.
Proof.
  unfold findNode. induction nodes as [|n nodes IH]; [done|]. cbn [first_some].
  destruct (findNode_at id n) as [f|] eqn:Hf; [|exact IH].
  intros [= <-]. by eapply findNode_at_id.
Qed.

(** X28: [renderViewForId] changes the tree and the session storage for
    json nodes only, and there nothing but the data of the node found and
    the entry 'game_payload_' + id; a failed download changes neither. *)
Theorem render_changes_json_only
    (net : network) (rootTree : list node) (id : string) (ss : storage) :
  let r := renderViewForId net rootTree id ss in
  (rv_tree r = rootTree \/ exists d, rv_tree r = set_data rootTree id d) /\
  (forall k, k <> "game_payload_" +:+ id -> rv_session r !! k = ss !! k) /\
  (rv_view r <> GameFrame id -> rv_tree r = rootTree /\ rv_session r = ss).
Proof.
  unfold renderViewForId.
  destruct (findNode rootTree id) as [[nid name [|] k children data]|] eqn:Hfound;
    try (by repeat split; auto).
  assert (nid = id) as -> by (by apply findNode_id in Hfound).
  destruct k as [[| |]|]; try (by repeat split; auto).
  destruct (truthy data) eqn:Hdata.
  - destruct data as [d|]; [|done]. rewrite Hdata. simpl.
    split; [by left|]. split; [|intros H; exfalso; by apply H].
    intros k Hk. by rewrite lookup_insert_ne.
  - destruct (fetch_json net id) as [d|e]; cbn [rv_tree rv_session rv_view];
      [|by repeat split; auto].
    split; [right; by exists d|]. split; [|intros H; exfalso; by apply H].
    intros k Hk. destruct (truthy (Some d)); [|done]. by rewrite lookup_insert_ne.
Qed.

(** X29: a click on a folder row never changes the selection, the tree or
    the session storage and opens no tab (it toggles the folder when its
    element is in the page); a click on a file row selects the file, with
    the state written through, and opens a new tab exactly for pdf and pptx
    files. *)
Theorem click_selects_files_only
    (net : network) (div : bool) (n : node) (a a' : app) (opened : option string) :
  onNodeClick net div n a = Ok (a', opened) ->
  if node_isFolder n then
    lookup_field "selectedId" (appState a') = lookup_field "selectedId" (appState a) /\
    rootTree a' = rootTree a /\ sessionStorage a' = sessionStorage a /\
    opened = None
  else
    lookup_field "selectedId" (appState a') = Some (JStr (node_id n)) /\
    synced a' /\
    (opened = Some (node_id n) <->
     node_kind n = Some Kpdf \/ node_kind n = Some Kpptx) /\
    (opened = None \/ opened = Some (node_id n)).
Proof.
  unfold onNodeClick. destruct (node_isFolder n).
  - destruct div; [|by intros [= <- <-]].
    unfold toggleNode.
    destruct (lookup_field "openedIds" (appState a)) as [[| | | |l|]|]; try done.
    intros [= <- <-]. simpl. split; [|done].
    by apply lookup_assign_ne.
  - intros [= <- <-]. unfold selectNode. simpl.
    split; [apply lookup_assign_eq|]. split; [unfold synced; simpl; apply lookup_insert_eq|].
    destruct (node_kind n) as [[| |]|]; split; try (by right); try (by left);
      split; try done; try (by intros [|]); try (by left); by right.
Qed.

Lemma click_selects_files_only_witness :
  lookup_field "selectedId"
    (appState (selectNode offline "database/a.pdf" fresh_app))
  = Some (JStr "database/a.pdf") /\
  synced (selectNode offline "database/a.pdf" fresh_app) /\
  (Some "database/a.pdf" = Some "database/a.pdf" <->
   Some Kpdf = Some Kpdf \/ Some Kpdf = Some Kpptx) /\
  (Some "database/a.pdf" = None \/ Some "database/a.pdf" = Some "database/a.pdf").
Proof.
  apply (click_selects_files_only offline true
           (Node "database/a.pdf" "a.pdf" false (Some Kpdf) None None) fresh_app).
  reflexivity.
Defined.


(** ** From the activation of a node to the start of the game *)

(** X30: index.js stores the data of an activated json node as JSON writes
    it.  When that stored value has a valid header and no null in its
    arrays, a GameBase started with the id of the node as fileId needs no
    network: [init] finds the payload in the session storage, the header
    check passes and [onDataLoaded] is called with a payload that has the
    leaf values of the stored value (those of the data of the node when its
    numbers are all finite and not -0); the only error it can show is an
    exception of [onDataLoaded]. *)
Theorem activated_game_starts_offline
    (text_chars : text -> string) (blank : string -> bool)
    (expectedGameType : option string) (onDataLoaded : jsval -> M unit)
    (net : network) (rootTree : list node) (id name : string)
    (children : option (list node)) (d : json) (ss : storage)
    (params : gmap string string) (g : rng) :
  findNode rootTree id = Some (Node id name false (Some Kjson) children (Some d)) ->
  _validateHeader expectedGameType (Some (written d)) = Valid ->
  null_free (written d) = true ->
  params !! "fileId" = Some id -> id <> "" ->
  let r := renderViewForId net rootTree id ss in
  rv_session r !! ("game_payload_" +:+ id) = Some (Encoded (written d)) /\
  exists run g' o,
    init text_chars blank expectedGameType onDataLoaded params offline
         (Some (rv_session r)) g
    = (Ok run, g') /\
    run_handed run = Some (Some o) /\
    leaves o ≡ₚ leaves (written d) /\
    (numbers_kept d = true -> leaves o ≡ₚ leaves d) /\
    run_session run = Some (rv_session r) /\
    (run_fatal run = None \/ exists e, run_fatal run = Some (FatalStart e)).
Proof.
  intros Hfound Hvalid Hclean Hparam Hid.
  destruct (valid_header_object _ _ Hvalid) as [wkvs Hw].
  injection Hw as Hw.
  assert (exists kvs, d = JObj kvs) as [kvs ->].
  { destruct d as [| |x| | |kvs]; try done; [|by exists kvs].
    simpl in Hw. unfold written_number in Hw. by destruct (PrimFloat.classify x). }
  assert (renderViewForId net rootTree id ss =
          Rendered (GameFrame id) rootTree
                   (<[("game_payload_" +:+ id) := JSON_stringify (JObj kvs)]> ss)) as Hr.
  { unfold renderViewForId. by rewrite Hfound. }
  rewrite Hr. cbv zeta. cbn [rv_session].
  set (ss1 := <[("game_payload_" +:+ id) := JSON_stringify (JObj kvs)]> ss).
  split; [apply lookup_insert_eq|].
  set (w := written (JObj kvs)) in *.
  assert (truthy (Some w) && typeof_object (Some w) = true) as Hobj by done.
  assert (written w = w) as Hidem by apply written_idem.
  rewrite <-Hidem in Hclean.
  destruct (randomize_object w g Hobj Hclean)
    as (o & g1 & Hrun & _ & _ & Hleaves & _).
  rewrite Hidem in Hleaves.
  assert (_loadPayload offline id ss1 g = (Ok (Some o, ss1), g1)) as Hload.
  { unfold _loadPayload, bind.
    rewrite (load_from_session_hit ss1 _ w); [by rewrite Hrun| |done|done].
    apply lookup_insert_eq. }
  assert (_validateHeader expectedGameType (Some o) = Valid) as Hvalid'.
  { rewrite (header_after_randomize _ (Some w) g); [|by rewrite Hrun].
    cbn [fmap option_fmap option_map]. unfold working_copy, w. simpl.
    fold (written (JObj kvs)). fold w. change (JObj _) with (written w).
    by rewrite Hidem. }
  unfold init, resolve_fileId. rewrite Hparam. cbn [or_string].
  apply String.eqb_neq in Hid. rewrite Hid. cbn [no_string]. rewrite Hid.
  unfold bind at 1, lift. cbn [no_string]. rewrite Hid.
  unfold bind, attempt, _loadPayload_on, bind, ret. rewrite Hload. cbn [fst snd].
  rewrite Hvalid'.
  destruct (onDataLoaded (Some o) g1) as [[[]|e] g2]; eexists _, _, o;
    (split; [done|]); cbn [run_handed run_session run_fatal]; (split; [done|]);
    (split; [exact Hleaves|]);
    (split; [intros Hkept; rewrite Hleaves; unfold w; by rewrite written_kept|]);
    (split; [done|]); [by left|right; by exists e].
Qed.

Lemma activated_game_starts_offline_witness :
  let r := renderViewForId offline [puzzle_node] "database/m.json" ∅ in
  exists run g' o,
    init (fun _ => "") (fun _ => false) (Some "matching_puzzle") (fun _ => ret ())
      {[ "fileId" := "database/m.json" ]} offline (Some (rv_session r)) counting
    = (Ok run, g') /\
    run_handed run = Some (Some o) /\
    leaves o ≡ₚ leaves (puzzle [JNum 1; JNum 2]) /\
    run_session run = Some (rv_session r) /\
    (run_fatal run = None \/ exists e, run_fatal run = Some (FatalStart e)).
Proof.
  destruct (activated_game_starts_offline (fun _ => "") (fun _ => false)
           (Some "matching_puzzle") (fun _ => ret ()) offline [puzzle_node]
           "database/m.json" "m.json" None (puzzle [JNum 1; JNum 2]) ∅
           {[ "fileId" := "database/m.json" ]} counting)
    as (_ & run & g' & o & Hrun & Hhanded & _ & Hleaves & Hsession & Hfatal);
    [reflexivity|reflexivity|reflexivity|reflexivity|discriminate|].
  exists run, g', o. split; [exact Hrun|]. split; [exact Hhanded|].
  split; [by apply Hleaves|]. split; [exact Hsession|exact Hfatal].
Defined.
